(** * Arbitrary-precision integer engine of SECURE_MESSAGING: a shallow embedding

    The repository carries three overlapping copies of the engine:
    - [BigInt.cpp]: the monolithic first version (HEX_SIZE = 64, result
      buffers of MAX_HEX_RESULT_SIZE = 128 characters, division is a stub);
    - the split version built by [build.bat] ([Bigint.hpp] plus its
      implementation file): the same code with real long division, [modPow],
      [isOdd] and [divideByTwo];
    - [BigIntv1.cpp]: the version the README builds (HEX_SIZE = 128,
      length-aware loops, [modPower], Miller-Rabin, prime generation).

    Module [V0] embeds the first two (they agree on every function they
    share, except [divide] and [operator*], which are both embedded), module
    [V1] embeds [BigIntv1.cpp].

    Conventions of the embedding.
    - [int] is modelled as [Z]; every quantity stays far below 2^31, so no
      wrap-around occurs.
    - [char digits[N]] is a [list ascii] of [N] entries; reads go through
      [get], writes through [set].  Reads and writes outside the buffer are
      undefined behaviour in C++; here a read returns the NUL character and a
      write is dropped.
    - [std::string] is [string]; [operator>] on strings is the
      lexicographic comparison of [String.compare].
    - a C++ function that may throw returns an [outcome]; a function that uses
      the global [karatsubaMemo] is a computation in the monad [M].
    - loops whose trip count is not a constant take their iteration bound as
      fuel; exhausting it is the outcome [OutOfFuel]. *)

From Stdlib Require Import ZArith Lia List Ascii String Bool.
From stdpp Require Import base tactics option list gmap strings pretty.

Local Open Scope string_scope.
Local Open Scope Z_scope.

(** ** Exceptions and outcomes *)

(** The exception classes of [exceptions.cpp] (each carries the text it is
    built from) and [std::invalid_argument], which [modPow] throws. *)
Inductive exn : Type :=
| InvalidInputException (input : string)
| OverflowException (operation : string)
| DivisionByZeroException
| std_invalid_argument (what : string).

Inductive outcome (A : Type) : Type :=
| Ok (a : A)
| Throw (e : exn)
| OutOfFuel.
Arguments Ok {A} a.
Arguments Throw {A} e.
Arguments OutOfFuel {A}.

#[global] Instance outcome_ret : MRet outcome := fun A a => Ok a.
#[global] Instance outcome_bind : MBind outcome := fun A B f x =>
  match x with
  | Ok a => f a
  | Throw e => Throw e
  | OutOfFuel => OutOfFuel
  end.

#[global] Instance outcome_fmap : FMap outcome := fun A B f x =>
  match x with
  | Ok a => Ok (f a)
  | Throw e => Throw e
  | OutOfFuel => OutOfFuel
  end.

(** ** Characters, buffers and counted loops *)

Definition code (c : ascii) : Z := Z.of_N (N_of_ascii c).
Definition chr (n : Z) : ascii := ascii_of_N (Z.to_N n).

Definition NUL : ascii := Ascii.zero.

(** [buf[i]] and [buf[i] = c]. *)
Definition get (buf : list ascii) (i : Z) : ascii :=
  if i <? 0 then NUL else nth (Z.to_nat i) buf NUL.
Definition set (buf : list ascii) (i : Z) (c : ascii) : list ascii :=
  if i <? 0 then buf else <[Z.to_nat i := c]> buf.

(** [str[i]] on a [std::string]. *)
Definition str_at (s : string) (i : Z) : ascii :=
  if i <? 0 then NUL else
  match String.get (Z.to_nat i) s with Some c => c | None => NUL end.
Definition str_len (s : string) : Z := Z.of_nat (String.length s).

Definition ascii_eqb (a b : ascii) : bool := Ascii.eqb a b.

(** [for (int i = lo; i < hi; i++) s = body(i, s);] *)
Fixpoint for_up_aux {S : Type} (n : nat) (i : Z) (body : Z -> S -> S) (s : S) : S :=
  match n with
  | O => s
  | Datatypes.S n' => for_up_aux n' (i + 1) body (body i s)
  end.
Definition for_up {S : Type} (lo hi : Z) (body : Z -> S -> S) (s : S) : S :=
  for_up_aux (Z.to_nat (hi - lo)) lo body s.

(** [for (int i = hi; i >= lo; i--) s = body(i, s);] *)
Fixpoint for_down_aux {S : Type} (n : nat) (i : Z) (body : Z -> S -> S) (s : S) : S :=
  match n with
  | O => s
  | Datatypes.S n' => for_down_aux n' (i - 1) body (body i s)
  end.
Definition for_down {S : Type} (hi lo : Z) (body : Z -> S -> S) (s : S) : S :=
  for_down_aux (Z.to_nat (hi - lo + 1)) hi body s.

(** [while (len > 1 && buf[len-1] == '0') len--;], the loop every operation
    ends with. *)
Fixpoint strip_aux (n : nat) (buf : list ascii) (len : Z) : Z :=
  match n with
  | O => len
  | Datatypes.S n' =>
      if (len >? 1) && ascii_eqb (get buf (len - 1)) "0"
      then strip_aux n' buf (len - 1) else len
  end.
Definition strip (buf : list ascii) (len : Z) : Z :=
  strip_aux (Z.to_nat len) buf len.

(** [convertHexDigitToInt] and [convertIntToHexChar], identical in the three
    files (the text of the exception differs). *)
Definition convertHexDigitToInt (c : ascii) : Z :=
  let n := code c in
  if (code "0" <=? n) && (n <=? code "9") then n - code "0"
  else if (code "a" <=? n) && (n <=? code "f") then n - code "a" + 10
  else if (code "A" <=? n) && (n <=? code "F") then n - code "A" + 10
  else -1.

Definition convertIntToHexChar_msg (msg : string) (n : Z) : outcome ascii :=
  if (0 <=? n) && (n <=? 9) then Ok (chr (code "0" + n))
  else if (10 <=? n) && (n <? 16) then Ok (chr (code "a" + (n - 10)))
  else Throw (InvalidInputException (msg +:+ pretty n)).

(** [HEX_DIGIT_STR[k]]. *)
Definition HEX_DIGIT_STR : string := "0123456789abcdef".
Definition HEX_DIGIT_STR_at (k : Z) : ascii := str_at HEX_DIGIT_STR k.


(** ** Computations over the process-wide state *)

(** [std::map<std::pair<std::string, std::string>, std::string> karatsubaMemo]. *)
Abbreviation memo_t := (gmap (string * string) string).

(** A computation reads and updates a state and may throw; the state
    survives a throw, as a global variable does. *)
Definition M (St A : Type) : Type := St -> outcome A * St.

Definition Mret {St A} (a : A) : M St A := fun s => (Ok a, s).
Definition Mbind {St A B} (c : M St A) (f : A -> M St B) : M St B :=
  fun s =>
    match c s with
    | (Ok a, s') => f a s'
    | (Throw e, s') => (Throw e, s')
    | (OutOfFuel, s') => (OutOfFuel, s')
    end.
Definition lift {St A} (x : outcome A) : M St A := fun s => (x, s).
Definition Mget {St} : M St St := fun s => (Ok s, s).
Definition Mput {St} (s : St) : M St unit := fun _ => (Ok tt, s).

#[global] Instance M_ret {St} : MRet (M St) := fun A a => Mret a.
#[global] Instance M_bind {St} : MBind (M St) := fun A B f c => Mbind c f.

(** [a > b] on [std::string]. *)
Definition string_gt (a b : string) : bool :=
  match String.compare a b with Gt => true | _ => false end.

(** ** [BigIntv1.cpp] *)

Module V1.

Definition MAX_DIGITS : Z := 618.
Definition HEX_SIZE : Z := 128.
Definition KARATSUBA_THRESHOLD : Z := 8.

Definition convertIntToHexChar : Z -> outcome ascii :=
  convertIntToHexChar_msg "Invalid integer value for hex conversion: ".

(** The globals of the program: the memoization table and the random
    generator [gen], of which only the number of draws made so far matters
    once the sequence of its outputs is fixed. *)
Record state : Type := mkState {
  karatsubaMemo : memo_t;
  gen : nat
}.

(** *** class BigInt (decimal): [char digits[MAX_DIGITS]] holds the digit
    values 0..9 themselves, modelled as a [list Z]. *)
Module BigInt.

Definition getz (buf : list Z) (i : Z) : Z :=
  if i <? 0 then 0 else nth (Z.to_nat i) buf 0.
Definition setz (buf : list Z) (i : Z) (c : Z) : list Z :=
  if i <? 0 then buf else <[Z.to_nat i := c]> buf.

Record t : Type := mk {
  digits : list Z;
  length : Z;
  isNegative : bool
}.

Definition zeros : list Z := replicate (Z.to_nat MAX_DIGITS) 0.

(** [BigInt()]: the value 0. *)
Definition default : t := mk (setz zeros 0 0) 1 false.

Definition isZero (x : t) : bool := (length x =? 1) && (getz (digits x) 0 =? 0).

Definition is_dec_char (c : ascii) : bool :=
  (code "0" <=? code c) && (code c <=? code "9").

Definition isValidInput (str : string) : bool :=
  if str_len str =? 0 then false
  else if str_len str >? MAX_DIGITS + 1 then false
  else
    let minus := ascii_eqb (str_at str 0) "-" in
    let start := if minus then 1 else 0 in
    if minus && (str_len str =? 1) then false
    else for_up start (str_len str)
           (fun i ok => ok && is_dec_char (str_at str i)) true.

Fixpoint skip_zeros (n : nat) (str : string) (actual_start : Z) : Z :=
  match n with
  | O => actual_start
  | S n' =>
      if (actual_start <? str_len str - 1) && ascii_eqb (str_at str actual_start) "0"
      then skip_zeros n' str (actual_start + 1) else actual_start
  end.

Definition createFromString (str : string) : outcome t :=
  if negb (isValidInput str) then Throw (InvalidInputException str)
  else
    let minus := ascii_eqb (str_at str 0) "-" in
    let start := if minus then 1 else 0 in
    let actual_start := skip_zeros (String.length str) str start in
    let rlength := str_len str - actual_start in
    if rlength >? MAX_DIGITS then
      Throw (OverflowException "BigInt creation: input too long")
    else if (rlength =? 1) && ascii_eqb (str_at str actual_start) "0" then
      Ok (mk (setz zeros 0 0) 1 false)
    else
      Ok (mk (for_up 0 rlength
                (fun i d => setz d i (code (str_at str (actual_start + rlength - 1 - i)) - code "0"))
                zeros)
             rlength minus).

(** What [print] writes to [std::cout]. *)
Definition print (x : t) : string :=
  if isZero x then "0" +:+ String (chr 10) ""
  else
    let s := if isNegative x then "-" else "" in
    for_down (length x - 1) 0 (fun i s => s +:+ pretty (getz (digits x) i)) s
    +:+ String (chr 10) "".

Definition first_difference (a b : t) : option Z :=
  for_down (length a - 1) 0
    (fun i (r : option Z) =>
       match r with
       | Some _ => r
       | None =>
           if negb (getz (digits a) i =? getz (digits b) i)
           then Some (if getz (digits a) i >? getz (digits b) i then 1 else -1)
           else None
       end) None.

Definition compare (a other : t) : Z :=
  if isNegative a && negb (isNegative other) then -1
  else if negb (isNegative a) && isNegative other then 1
  else
    let sign_multiplier := if isNegative a then -1 else 1 in
    if negb (length a =? length other) then
      (if length a >? length other then 1 else -1) * sign_multiplier
    else
      match first_difference a other with
      | Some c => c * sign_multiplier
      | None => 0
      end.

(** [while (len > 1 && buf[len-1] == 0) len--;] *)
Definition stripz (buf : list Z) (len : Z) : Z :=
  (fix strip (n : nat) (len : Z) : Z :=
     match n with
     | O => len
     | S n' => if (len >? 1) && (getz buf (len - 1) =? 0)
               then strip n' (len - 1) else len
     end) (Z.to_nat len) len.

Fixpoint add_loop (n : nat) (a other : t) (max_len i : Z)
    (st : list Z * Z * Z) : outcome (list Z * Z * Z) :=
  let '(rdigits, carry, rlength) := st in
  if (i <? max_len) || negb (carry =? 0) then
    match n with
    | O => OutOfFuel
    | S n' =>
        let sum := (if i <? length a then getz (digits a) i else 0)
                   + (if i <? length other then getz (digits other) i else 0) + carry in
        if i >=? MAX_DIGITS then Throw (OverflowException "addition")
        else add_loop n' a other max_len (i + 1)
               (setz rdigits i (Z.rem sum 10), Z.quot sum 10, i + 1)
    end
  else Ok st.

Definition add_same_sign (a other : t) : outcome t :=
  let max_len := Z.max (length a) (length other) in
  '(rdigits, _, rlength) ← add_loop (Z.to_nat MAX_DIGITS + 1) a other max_len 0
                              (zeros, 0, length default);
  let rlength := if rlength =? 0 then 1 else rlength in
  let rlength :=
    if (getz rdigits (rlength - 1) =? 0) && (rlength >? 1)
    then stripz rdigits rlength else rlength in
  Ok (mk rdigits rlength (isNegative a)).

Definition sub_same_sign (a other : t) : t :=
  let cmp_abs :=
    if negb (length a =? length other) then
      (if length a >? length other then 1 else -1)
    else match first_difference a other with Some c => c | None => 0 end in
  let '(larger_abs, smaller_abs, neg) :=
    if cmp_abs >=? 0 then (a, other, isNegative a) else (other, a, negb (isNegative a)) in
  let rlength := length larger_abs in
  let '(rdigits, _) :=
    for_up 0 rlength
      (fun i '(rdigits, borrow) =>
         let diff := getz (digits larger_abs) i
                     - (if i <? length smaller_abs then getz (digits smaller_abs) i else 0)
                     - borrow in
         let '(diff, borrow) := if diff <? 0 then (diff + 10, 1) else (diff, 0) in
         (setz rdigits i diff, borrow))
      (digits default, 0) in
  let rlength := stripz rdigits rlength in
  let neg := if (rlength =? 1) && (getz rdigits 0 =? 0) then false else neg in
  mk rdigits rlength neg.

Definition operator_add_body (minus : t -> t -> outcome t) (a other : t) : outcome t :=
  if eqb (isNegative a) (isNegative other) then add_same_sign a other
  else
    let absA := mk (digits a) (length a) false in
    let absB := mk (digits other) (length other) false in
    if compare absA absB >=? 0 then
      res ← minus absA absB;
      Ok (mk (digits res) (length res) (isNegative a))
    else
      res ← minus absB absA;
      Ok (mk (digits res) (length res) (isNegative other)).

Definition operator_sub_body (plus : t -> t -> outcome t) (a other : t) : outcome t :=
  if negb (eqb (isNegative a) (isNegative other)) then
    plus a (mk (digits other) (length other) (negb (isNegative other)))
  else Ok (sub_same_sign a other).

Definition operator_add : t -> t -> outcome t :=
  operator_add_body (operator_sub_body (operator_add_body (fun _ _ => OutOfFuel))).
Definition operator_sub : t -> t -> outcome t :=
  operator_sub_body (operator_add_body (operator_sub_body (fun _ _ => OutOfFuel))).

End BigInt.

(** *** class BigHexInt *)
Module BigHexInt.

Record t : Type := mk {
  digits : list ascii;   (* char digits[HEX_SIZE], least significant first *)
  length : Z;            (* int length *)
  isNegative : bool
}.

Definition zeros : list ascii := replicate (Z.to_nat HEX_SIZE) "0"%char.

(** [BigHexInt()]: the value 0x0. *)
Definition default : t := mk (set zeros 0 "0") 1 false.

(** The user-defined copy assignment: the target is cleared and only
    [other.length] digits are copied. *)
Definition operator_assign (other : t) : t :=
  mk (for_up 0 (length other) (fun i d => set d i (get (digits other) i)) zeros)
     (length other) (isNegative other).

Definition isZero (x : t) : bool :=
  (length x =? 1) && ascii_eqb (get (digits x) 0) "0".

Definition isOne (x : t) : bool :=
  (length x =? 1) && ascii_eqb (get (digits x) 0) "1" && negb (isNegative x).

Definition isEven (x : t) : bool :=
  Z.rem (convertHexDigitToInt (get (digits x) 0)) 2 =? 0.

Definition is_hex_char (c : ascii) : bool :=
  let n := code c in
  ((code "0" <=? n) && (n <=? code "9")) || ((code "a" <=? n) && (n <=? code "f"))
  || ((code "A" <=? n) && (n <=? code "F")).

Definition isValidInput (str : string) : bool :=
  if str_len str =? 0 then false
  else if str_len str >? HEX_SIZE + 1 then false
  else
    let minus := ascii_eqb (str_at str 0) "-" in
    let start := if minus then 1 else 0 in
    if minus && (str_len str =? 1) then false
    else for_up start (str_len str)
           (fun i ok => ok && is_hex_char (str_at str i)) true.

(** [while (actual_start < str.length() - 1 && str[actual_start] == '0')
    actual_start++;] *)
Fixpoint skip_zeros (n : nat) (str : string) (actual_start : Z) : Z :=
  match n with
  | O => actual_start
  | S n' =>
      if (actual_start <? str_len str - 1) && ascii_eqb (str_at str actual_start) "0"
      then skip_zeros n' str (actual_start + 1) else actual_start
  end.

Definition createFromString (str : string) : outcome t :=
  if negb (isValidInput str) then Throw (InvalidInputException str)
  else
    let minus := ascii_eqb (str_at str 0) "-" in
    let start := if minus then 1 else 0 in
    let actual_start := skip_zeros (String.length str) str start in
    let inputLength := str_len str - actual_start in
    if inputLength >? HEX_SIZE then
      Throw (OverflowException
        ("BigHexInt creation: input too long (max " +:+ pretty HEX_SIZE +:+ " hex digits)"))
    else if (inputLength =? 1) && ascii_eqb (str_at str actual_start) "0" then
      Ok (mk (set zeros 0 "0") 1 false)
    else
      Ok (mk (for_up 0 inputLength
                (fun i d => set d i (str_at str (actual_start + inputLength - 1 - i))) zeros)
             inputLength minus).

(** [BigHexInt(const std::string&)]: [*this = createFromString(str)]. *)
Definition of_string (str : string) : outcome t :=
  r ← createFromString str; mret (operator_assign r).

(** [while (msb_idx > 0 && digits[msb_idx] == '0') msb_idx--;] *)
Fixpoint find_msb (n : nat) (d : list ascii) (msb_idx : Z) : Z :=
  match n with
  | O => msb_idx
  | S n' =>
      if (msb_idx >? 0) && ascii_eqb (get d msb_idx) "0"
      then find_msb n' d (msb_idx - 1) else msb_idx
  end.

Definition toString (x : t) : string :=
  let result_str := if isNegative x && negb (isZero x) then "-" else "" in
  let msb_idx := find_msb (Z.to_nat (length x)) (digits x) (length x - 1) in
  for_down msb_idx 0 (fun i s => s +:+ String (get (digits x) i) "") result_str.

(** The digit loop shared by [compare] and [operator-]: the first position,
    from the top, where the operands differ decides. *)
Definition first_difference (a b : t) : option Z :=
  for_down (length a - 1) 0
    (fun i (r : option Z) =>
       match r with
       | Some _ => r
       | None =>
           let digitA := convertHexDigitToInt (get (digits a) i) in
           let digitB := convertHexDigitToInt (get (digits b) i) in
           if negb (digitA =? digitB) then Some (if digitA >? digitB then 1 else -1)
           else None
       end) None.

Definition compare (a other : t) : Z :=
  if isNegative a && negb (isNegative other) then -1
  else if negb (isNegative a) && isNegative other then 1
  else
    let sign_multiplier := if isNegative a then -1 else 1 in
    if negb (length a =? length other) then
      (if length a >? length other then 1 else -1) * sign_multiplier
    else
      match first_difference a other with
      | Some c => c * sign_multiplier
      | None => 0
      end.


(** The same-sign branch of [operator+]: the carry loop
    [for (int i = 0; i < max_len || carry; i++)].  The state is
    [(result.digits, carry, result.length)]. *)
Fixpoint add_loop (n : nat) (a other : t) (max_len i : Z)
    (st : list ascii * Z * Z) : outcome (list ascii * Z * Z) :=
  let '(rdigits, carry, rlength) := st in
  if (i <? max_len) || negb (carry =? 0) then
    match n with
    | O => OutOfFuel
    | S n' =>
        let digitA := if i <? length a then convertHexDigitToInt (get (digits a) i) else 0 in
        let digitB := if i <? length other then convertHexDigitToInt (get (digits other) i) else 0 in
        let sum := digitA + digitB + carry in
        if i >=? HEX_SIZE then Throw (OverflowException "hexadecimal addition")
        else
          c ← convertIntToHexChar (Z.rem sum 16);
          add_loop n' a other max_len (i + 1) (set rdigits i c, Z.quot sum 16, i + 1)
    end
  else Ok st.

Definition add_same_sign (a other : t) : outcome t :=
  let max_len := Z.max (length a) (length other) in
  '(rdigits, _, rlength) ← add_loop (Z.to_nat HEX_SIZE + 1) a other max_len 0
                              (zeros, 0, length default);
  if rlength >? HEX_SIZE then
    Throw (OverflowException "hexadecimal addition: result too large")
  else Ok (mk rdigits (strip rdigits rlength) (isNegative a)).

(** The borrow loop of [operator-]; the state is [(result.digits, borrow)]. *)
Definition sub_loop (larger_abs smaller_abs : t) (rlength : Z) :
    outcome (list ascii * Z) :=
  for_up 0 rlength
    (fun i (st : outcome (list ascii * Z)) =>
       '(rdigits, borrow) ← st;
       let digitL := convertHexDigitToInt (get (digits larger_abs) i) in
       let digitS := if i <? length smaller_abs
                     then convertHexDigitToInt (get (digits smaller_abs) i) else 0 in
       let diff := digitL - digitS - borrow in
       let '(diff, borrow) := if diff <? 0 then (diff + 16, 1) else (diff, 0) in
       c ← convertIntToHexChar diff;
       Ok (set rdigits i c, borrow))
    (Ok (zeros, 0)).

Definition sub_same_sign (a other : t) : outcome t :=
  let cmp_abs :=
    if negb (length a =? length other) then
      (if length a >? length other then 1 else -1)
    else match first_difference a other with Some c => c | None => 0 end in
  let '(larger_abs, smaller_abs, neg) :=
    if cmp_abs >=? 0 then (a, other, isNegative a) else (other, a, negb (isNegative a)) in
  let rlength := length larger_abs in
  '(rdigits, _) ← sub_loop larger_abs smaller_abs rlength;
  let rlength := strip rdigits rlength in
  let neg := if (rlength =? 1) && ascii_eqb (get rdigits 0) "0" then false else neg in
  Ok (mk rdigits rlength neg).

(** [operator+] and [operator-] call each other when the signs differ; each
    body takes the other operator as a parameter, and the knot is tied below. *)
Definition operator_add_body (minus : t -> t -> outcome t) (a other : t) : outcome t :=
  if negb (eqb (isNegative a) (isNegative other)) then
    let absA := mk (digits a) (length a) false in
    let absB := mk (digits other) (length other) false in
    if compare absA absB >=? 0 then
      res ← minus absA absB;
      Ok (mk (digits res) (length res) (isNegative a))
    else
      res ← minus absB absA;
      Ok (mk (digits res) (length res) (isNegative other))
  else add_same_sign a other.

Definition operator_sub_body (plus : t -> t -> outcome t) (a other : t) : outcome t :=
  if negb (eqb (isNegative a) (isNegative other)) then
    let absB := mk (digits other) (length other) (negb (isNegative other)) in
    plus a absB
  else sub_same_sign a other.

(** A call chain has at most two links: [+] on mixed signs calls [-] on two
    non-negative values, [-] on mixed signs calls [+] on equal signs. *)
Definition operator_add : t -> t -> outcome t :=
  operator_add_body (operator_sub_body (operator_add_body (fun _ _ => OutOfFuel))).
Definition operator_sub : t -> t -> outcome t :=
  operator_sub_body (operator_add_body (operator_sub_body (fun _ _ => OutOfFuel))).

Definition addOne (x : t) : outcome t := one ← of_string "1"; operator_add x one.
Definition subtractOne (x : t) : outcome t := one ← of_string "1"; operator_sub x one.

Definition clone (x : t) : t :=
  mk (for_up 0 (length x) (fun i d => set d i (get (digits x) i)) zeros)
     (length x) (isNegative x).

(** [void shiftLeftInPlace(int n)], as a function of the object. *)
Definition shiftLeftInPlace (x : t) (n : Z) : outcome t :=
  if n <? 0 then
    Throw (InvalidInputException "Negative shift amount not supported for shiftLeftInPlace.")
  else if n =? 0 then Ok x
  else if isZero x then Ok x
  else if length x + n >? HEX_SIZE then
    Throw (OverflowException "shift left operation: result exceeds max hex digits")
  else
    let d := for_down (length x - 1) 0 (fun i d => set d (i + n) (get d i)) (digits x) in
    let d := for_up 0 n (fun i d => set d i "0"%char) d in
    Ok (mk d (length x + n) (isNegative x)).

Definition shiftLeft (x : t) (n : Z) : outcome t := shiftLeftInPlace (clone x) n.

Definition getLower (x : t) (n : Z) : t :=
  let actual_len := Z.min (length x) n in
  mk (for_up 0 actual_len (fun i d => set d i (get (digits x) i)) zeros)
     (if actual_len =? 0 then 1 else actual_len) false.

Definition getHigher (x : t) (n : Z) : t :=
  if length x <=? n then mk (set zeros 0 "0") 1 false
  else
    let newLength := length x - n in
    mk (for_up 0 newLength (fun i d => set d i (get (digits x) (i + n))) zeros)
       newLength false.

Definition pad (x : t) (targetLen : Z) : outcome t :=
  let res := clone x in
  if length res <? targetLen then
    if targetLen >? HEX_SIZE then
      Throw (OverflowException "padding: target length exceeds max hex digits")
    else
      Ok (mk (for_up (length res) targetLen (fun i d => set d i "0"%char) (digits res))
             targetLen (isNegative res))
  else Ok res.

(** The inner loop of [multiplyNaive],
    [for (int j = 0; j < other.length || carry; j++)]; the state is
    [(result.digits, carry)]. *)
Fixpoint mul_inner (n : nat) (other : t) (a_digit i j : Z) (st : list ascii * Z) :
    outcome (list ascii * Z) :=
  let '(rdigits, carry) := st in
  if (j <? length other) || negb (carry =? 0) then
    match n with
    | O => OutOfFuel
    | S n' =>
        let b_digit := if j <? length other
                       then convertHexDigitToInt (get (digits other) j) else 0 in
        let current := convertHexDigitToInt (get rdigits (i + j)) in
        let prod := current + a_digit * b_digit + carry in
        c ← convertIntToHexChar (Z.rem prod 16);
        mul_inner n' other a_digit i (j + 1) (set rdigits (i + j) c, Z.quot prod 16)
    end
  else Ok st.

Definition multiplyNaive (a other : t) : outcome t :=
  if isZero a || isZero other then of_string "0"
  else if length a + length other >? HEX_SIZE then
    Throw (OverflowException "naive multiplication: result too large")
  else
    rdigits ← for_up 0 (length a)
      (fun i (st : outcome (list ascii)) =>
         rdigits ← st;
         let a_digit := convertHexDigitToInt (get (digits a) i) in
         '(rdigits, _) ← mul_inner (Z.to_nat HEX_SIZE + 1) other a_digit i 0 (rdigits, 0);
         Ok rdigits)
      (Ok zeros);
    let actualLength := strip rdigits (length a + length other) in
    Ok (mk rdigits actualLength (negb (eqb (isNegative a) (isNegative other)))).

Definition memo_store (key : string * string) (v : string) : M state unit :=
  fun s => (Ok tt, mkState (<[key := v]> (karatsubaMemo s)) (gen s)).

Definition set_sign (x : t) (b : bool) : t := mk (digits x) (length x) b.
Definition set_length (x : t) (n : Z) : t := mk (digits x) n (isNegative x).

Fixpoint karatsuba (fuel : nat) (a other : t) : M state t :=
  let thisStr := toString a in
  let otherStr := toString other in
  let key := if string_gt thisStr otherStr then (otherStr, thisStr)
             else (thisStr, otherStr) in
  s ← Mget;
  match karatsubaMemo s !! key with
  | Some v => lift (createFromString v)
  | None =>
      if (length a <=? KARATSUBA_THRESHOLD) || (length other <=? KARATSUBA_THRESHOLD) then
        r ← lift (multiplyNaive a other);
        let result := operator_assign r in
        memo_store key (toString result);;
        mret result
      else if isZero a || isZero other then
        zero_val ← lift (of_string "0");
        memo_store key (toString zero_val);;
        mret zero_val
      else
        match fuel with
        | O => lift OutOfFuel
        | S fuel' =>
            let n := Z.max (length a) (length other) in
            let n := if negb (Z.rem n 2 =? 0) then n + 1 else n in
            x ← lift (pad a n);
            y ← lift (pad other n);
            let m := Z.quot n 2 in
            let low1 := getLower x m in
            let high1 := getHigher x m in
            let low2 := getLower y m in
            let high2 := getHigher y m in
            z0 ← karatsuba fuel' low1 low2;
            z2 ← karatsuba fuel' high1 high2;
            sum1 ← lift (operator_add low1 high1);
            sum2 ← lift (operator_add low2 high2);
            z1 ← karatsuba fuel' sum1 sum2;
            z1 ← lift (operator_assign <$> operator_sub z1 z2);
            z1 ← lift (operator_assign <$> operator_sub z1 z0);
            part1 ← lift (shiftLeft z2 (2 * m));
            part2 ← lift (shiftLeft z1 m);
            tmp ← lift (operator_add part1 part2);
            r ← lift (operator_add tmp z0);
            let result := operator_assign r in
            let result := set_sign result (negb (eqb (isNegative a) (isNegative other))) in
            let result := set_length result (strip (digits result) (length result)) in
            memo_store key (toString result);;
            mret result
        end
  end.

(** The recursion halves the operands; [HEX_SIZE] levels are never reached. *)
Definition operator_mul (a other : t) : M state t :=
  if length a + length other >? KARATSUBA_THRESHOLD * 2
  then karatsuba (Z.to_nat HEX_SIZE) a other
  else lift (multiplyNaive a other).

(** [for (int k = x.length; k > 0; --k) x.digits[k] = x.digits[k-1];
    x.digits[0] = c; x.length++;] followed by the stripping loop: one more
    digit is brought in at the low end. *)
Definition push_low_digit (x : t) (c : ascii) : t :=
  let d := for_down (length x) 1 (fun k d => set d k (get d (k - 1))) (digits x) in
  let d := set d 0 c in
  mk d (strip d (length x + 1)) (isNegative x).

(** [BigHexInt(std::string(1, convertIntToHexChar(d)))]. *)
Definition of_digit (d : Z) : outcome t :=
  c ← convertIntToHexChar d; of_string (String c "").

(** The search for the quotient digit, [for (int d = 1; d < 16; ++d)] with
    its [break]; the state is [(q_digit, left the loop)]. *)
Definition estimate_digit (current_dividend_part abs_divisor : t) : outcome Z :=
  fst <$> for_up 1 16
    (fun d (st : outcome (Z * bool)) =>
       '(q_digit, stop) ← st;
       if stop : bool then Ok (q_digit, stop)
       else
         dd ← of_digit d;
         next_mult ← multiplyNaive abs_divisor dd;
         if compare current_dividend_part next_mult >=? 0 then Ok (d, false)
         else Ok (q_digit, true))
    (Ok (0, false)).

(** One round of the long division: the state is
    [(quotient, current_dividend_part)]. *)
Definition divide_step (a abs_divisor : t) (i : Z) (st : t * t) : outcome (t * t) :=
  let '(quotient, cdp) := st in
  let cdp := push_low_digit cdp (get (digits a) i) in
  if compare cdp abs_divisor <? 0 then
    if (length quotient >? 1) || negb (ascii_eqb (get (digits quotient) 0) "0") then
      quotient ← shiftLeftInPlace quotient 1; Ok (quotient, cdp)
    else Ok (quotient, cdp)
  else
    q_digit ← estimate_digit cdp abs_divisor;
    dd ← of_digit q_digit;
    subtract_val ← multiplyNaive abs_divisor dd;
    cdp ← operator_assign <$> operator_sub cdp subtract_val;
    c ← convertIntToHexChar q_digit;
    Ok (push_low_digit quotient c, cdp).

(** [divide(divisor, remainder_ptr)]; both callers pass a remainder, so the
    result is the pair [(quotient, *remainder_ptr)]. *)
Definition divide (a divisor_abs : t) : outcome (t * t) :=
  let abs_this := set_sign a false in
  let abs_divisor := set_sign divisor_abs false in
  if isZero abs_divisor then Throw DivisionByZeroException
  else if isZero abs_this then
    r ← of_string "0"; q ← of_string "0"; Ok (q, operator_assign r)
  else if compare abs_this abs_divisor <? 0 then
    q ← of_string "0"; Ok (q, operator_assign abs_this)
  else
    '(quotient, cdp) ← for_down (length a - 1) 0
        (fun i (st : outcome (t * t)) => st ← st; divide_step a abs_divisor i st)
        (Ok (mk zeros 1 false, mk zeros 1 false));
    let quotient := set_sign quotient (negb (eqb (isNegative a) (isNegative divisor_abs))) in
    let quotient := if isZero quotient then set_sign quotient false else quotient in
    let remainder := set_sign (operator_assign cdp) (isNegative a) in
    let remainder := if isZero remainder then set_sign remainder false else remainder in
    Ok (quotient, remainder).

Definition operator_div (a divisor : t) : outcome t := fst <$> divide a divisor.
Definition operator_mod (a divisor : t) : outcome t := snd <$> divide a divisor.

(** [modPower]: the loop [while (exp.compare(zero) > 0)] halves [exp], so four
    rounds per hexadecimal digit suffice; the state is [(res, base, exp)]. *)
Fixpoint modPower_loop (n : nat) (modulus zero two : t) (st : t * t * t) : M state t :=
  let '(res, base, exp) := st in
  if compare exp zero >? 0 then
    match n with
    | O => lift OutOfFuel
    | S n' =>
        res ← (if negb (Z.rem (convertHexDigitToInt (get (digits exp) 0)) 2 =? 0)
               then p ← operator_mul res base;
                    lift (operator_assign <$> operator_mod p modulus)
               else mret res);
        exp ← lift (operator_assign <$> operator_div exp two);
        p ← operator_mul base base;
        base ← lift (operator_assign <$> operator_mod p modulus);
        modPower_loop n' modulus zero two (res, base, exp)
    end
  else mret res.

Definition modPower (a exponent modulus : t) : M state t :=
  res ← lift (of_string "1");
  base ← lift (operator_assign <$> operator_mod a modulus);
  zero ← lift (of_string "0");
  one ← lift (of_string "1");
  two ← lift (of_string "2");
  modPower_loop (Z.to_nat (4 * length exponent + 1)) modulus zero two
    (res, base, exponent).

(** *** Random generation and the Miller-Rabin test

    [draws k] is the [k]-th output of [std::uniform_int_distribution<>(0, 15)]
    on the global generator; [rfuel] bounds the two rejection loops, which
    have no bound of their own. *)
Section Random.
Variable draws : nat -> Z.
Variable rfuel : nat.

Definition getRandomHexDigit : M state ascii :=
  fun s =>
    (convertIntToHexChar (draws (gen s) `mod` 16),
     mkState (karatsubaMemo s) (S (gen s))).

(** [while (result.digits[numHexDigits - 1] == '0') ... = getRandomHexDigit();] *)
Fixpoint redraw_msd (n : nat) (c : ascii) : M state ascii :=
  if ascii_eqb c "0" then
    match n with
    | O => lift OutOfFuel
    | S n' => c ← getRandomHexDigit; redraw_msd n' c
    end
  else mret c.

Definition generateRandom (numHexDigits : Z) : M state t :=
  if (numHexDigits <=? 0) || (numHexDigits >? HEX_SIZE) then
    lift (Throw (InvalidInputException "Invalid number of hex digits for random generation."))
  else
    c ← getRandomHexDigit;
    c ← redraw_msd rfuel c;
    let d := set zeros (numHexDigits - 1) c in
    d ← for_up 0 (numHexDigits - 1)
          (fun i (st : M state (list ascii)) =>
             d ← st; c ← getRandomHexDigit; mret (set d i c))
          (mret d);
    c ← lift (convertIntToHexChar (Z.lor (convertHexDigitToInt (get d 0)) 1));
    let d := set d 0 c in
    mret (mk d (strip d numHexDigits) false).

(** [do { random_val = generateRandom(numDigits); }
    while (random_val.compare(range) > 0);] *)
Fixpoint draw_below (n : nat) (numDigits : Z) (range : t) : M state t :=
  r ← generateRandom numDigits;
  let random_val := operator_assign r in
  if compare random_val range >? 0 then
    match n with
    | O => lift OutOfFuel
    | S n' => draw_below n' numDigits range
    end
  else mret random_val.

Definition generateRandomBigHexIntInRange (min max : t) : M state t :=
  range ← lift (operator_sub max min);
  range ← (if isNegative range then
             temp ← lift (of_string (toString min));
             Min ← lift (of_string (toString max));
             Max ← lift (of_string (toString temp));
             lift (operator_assign <$> operator_sub Max Min)
           else mret range);
  let numDigits := length range in
  if (numDigits =? 1) && ascii_eqb (get (digits range) 0) "0" then mret min
  else
    random_val ← draw_below rfuel numDigits range;
    lift (operator_add min random_val).

(** [while (d.isEven()) { d = d / two; s++; }]; the state is [(d, s)]. *)
Fixpoint factor_twos (n : nat) (two : t) (st : t * Z) : outcome (t * Z) :=
  let '(d, s) := st in
  if isEven d then
    match n with
    | O => OutOfFuel
    | S n' => d ← operator_assign <$> operator_div d two; factor_twos n' two (d, s + 1)
    end
  else Ok st.

(** The squaring loop [for (int r = 0; r < s; ++r)] with its two [break]s;
    the state is [(x, composite, left the loop)]. *)
Definition squaring_rounds (n n_minus_1 x : t) (s : Z) : M state bool :=
  st ← for_up 0 s
    (fun r (st : M state (t * bool * bool)) =>
       '(x, composite, stop) ← st;
       if stop : bool then mret (x, composite, stop)
       else
         p ← operator_mul x x;
         x ← lift (operator_assign <$> operator_mod p n);
         if isOne x then mret (x, true, true)
         else if compare x n_minus_1 =? 0 then mret (x, false, true)
         else mret (x, composite, false))
    (mret (x, true, false));
  mret (snd (fst st)).

(** One round of [for (int i = 0; i < k_iterations; ++i)]: [Some b] when the
    round returns [b] from the function, [None] when the loop goes on. *)
Definition witness_round (n n_minus_1 two d : t) (s : Z) : M state (option bool) :=
  n1 ← lift (subtractOne n);
  n2 ← lift (subtractOne n1);
  a ← generateRandomBigHexIntInRange two n2;
  x ← modPower a d n;
  if isOne x || (compare x n_minus_1 =? 0) then mret None
  else
    composite ← squaring_rounds n n_minus_1 x s;
    if composite : bool then mret (Some false) else mret None.

Definition millerRabinTest (x : t) (k_iterations : Z) : M state bool :=
  let n := x in
  zero ← lift (of_string "0");
  one ← lift (of_string "1");
  two ← lift (of_string "2");
  three ← lift (of_string "3");
  if compare n one <=? 0 then mret false
  else if (compare n two =? 0) || (compare n three =? 0) then mret true
  else if isEven n then mret false
  else
    n_minus_1 ← lift (subtractOne n);
    '(d, s) ← lift (factor_twos (Z.to_nat (4 * length n_minus_1 + 1)) two (n_minus_1, 0));
    r ← for_up 0 k_iterations
      (fun i (st : M state (option bool)) =>
         r ← st;
         match r with
         | Some _ => mret r
         | None => witness_round n n_minus_1 two d s
         end)
      (mret None);
    match r with
    | Some b => mret b
    | None => mret true
    end.

End Random.

End BigHexInt.

(** *** Message helpers

    [char] is taken to be the signed eight-bit type of the compilers the
    build script targets; every theorem below concerns characters under 128,
    where the signedness does not matter. *)

(** The value of a [char] as an [int], and [static_cast<char>(n)]. *)
Definition char_val (c : ascii) : Z := if code c <? 128 then code c else code c - 256.
Definition to_char (n : Z) : ascii := chr (n mod 256).

(** The digit [std::hex] writes for a value below 16. *)
Definition hex_digit (n : Z) : ascii :=
  if n <? 10 then chr (code "0" + n) else chr (code "a" + (n - 10)).

(** [ss << std::hex << std::setfill('0')], then for every [unsigned char c]
    of the message [ss << std::setw(2) << static_cast<unsigned>(c)]. *)
Fixpoint stringToHex (message : string) : string :=
  match message with
  | EmptyString => EmptyString
  | String c rest =>
      String (hex_digit (code c / 16)) (String (hex_digit (code c mod 16)) (stringToHex rest))
  end.

(** [std::strtoul(byte.c_str(), nullptr, 16)] for the texts [hexToString]
    passes, of at most two characters (no value reaches [ULONG_MAX]): the
    text up to its first NUL, white space skipped, an optional sign, an
    optional [0x] in front of a digit, then hexadecimal digits as far as
    they go; a minus sign negates in [unsigned long]. *)
Definition isspace (c : ascii) : bool :=
  (code c =? 32) || ((9 <=? code c) && (code c <=? 13)).

Fixpoint c_str (l : list ascii) : list ascii :=
  match l with
  | c :: t => if ascii_eqb c NUL then [] else c :: c_str t
  | [] => []
  end.

Fixpoint skip_spaces (l : list ascii) : list ascii :=
  match l with
  | c :: t => if isspace c then skip_spaces t else l
  | [] => []
  end.

Fixpoint hex_digits_value (l : list ascii) (acc : Z) : Z :=
  match l with
  | c :: t => if convertHexDigitToInt c <? 0 then acc
              else hex_digits_value t (acc * 16 + convertHexDigitToInt c)
  | [] => acc
  end.

Definition strtoul16 (s : string) : Z :=
  let l := skip_spaces (c_str (list_ascii_of_string s)) in
  let '(minus, l) :=
    match l with
    | c :: t => if ascii_eqb c "-" then (true, t)
                else if ascii_eqb c "+" then (false, t) else (false, l)
    | [] => (false, l)
    end in
  let l :=
    match l with
    | z :: x :: h :: t =>
        if ascii_eqb z "0" && (ascii_eqb x "x" || ascii_eqb x "X")
           && negb (convertHexDigitToInt h <? 0)
        then h :: t else l
    | _ => l
    end in
  let v := hex_digits_value l 0 in
  if minus then (2 ^ 64 - v) mod 2 ^ 64 else v.

(** [for (size_t i = 0; i < hex.length(); i += 2)] with
    [hex.substr(i, 2)]: two characters at a time, one at the end of a text
    of odd length. *)
Fixpoint hexToString (hex : string) : string :=
  match hex with
  | EmptyString => EmptyString
  | String a EmptyString => String (to_char (strtoul16 (String a EmptyString))) EmptyString
  | String a (String b rest) =>
      String (to_char (strtoul16 (String a (String b EmptyString)))) (hexToString rest)
  end.

(** [std::string(k, '0')]. *)
Definition zeros_text (k : nat) : string :=
  string_of_list_ascii (replicate k "0"%char).

(** [chunkSize] is a [size_t]; [hex.length() % 0] is undefined in C++, and
    the one caller passes the length of a rendered number. *)
Definition padHexString (hex : string) (chunkSize : Z) : string :=
  let remainder := Z.rem (str_len hex) chunkSize in
  if negb (remainder =? 0)
  then hex +:+ zeros_text (Z.to_nat (chunkSize - remainder))
  else hex.

(** [result.back()] and [result.pop_back()]. *)
Definition back (s : string) : ascii := str_at s (str_len s - 1).
Definition pop_back (s : string) : string := substring 0 (String.length s - 1) s.

(** [while (!result.empty() && result.back() == '0') result.pop_back();] *)
Fixpoint removePadding_loop (n : nat) (result : string) : string :=
  match n with
  | O => result
  | S n' =>
      if negb (str_len result =? 0) && ascii_eqb (back result) "0"
      then removePadding_loop n' (pop_back result) else result
  end.
Definition removePadding (hex : string) : string :=
  removePadding_loop (String.length hex) hex.

(** [(c >= '0' && c <= '9') ? c - '0' : c - 'a' + 10] *)
Definition hex_char_value (c : ascii) : Z :=
  if (char_val "0" <=? char_val c) && (char_val c <=? char_val "9")
  then char_val c - char_val "0" else char_val c - char_val "a" + 10.

(** One character of a chunk against one character of the key. *)
Definition xor_hex_char (chunkChar secretChar : ascii) : ascii :=
  let chunkVal := hex_char_value chunkChar in
  let secretVal := hex_char_value secretChar in
  let xorResult := Z.lxor chunkVal secretVal in
  to_char (if xorResult <? 10 then char_val "0" + xorResult
           else char_val "a" + xorResult - 10).

(** The inner loop of [encryptDecryptMessage] and of [decryptMessage],
    [for (size_t j = 0; j < chunk.length(); ++j)]. *)
Definition xor_chunk (chunk secretKey : string) : string :=
  for_up 0 (str_len chunk)
    (fun j acc =>
       acc +:+ String (xor_hex_char (str_at chunk j)
                         (str_at secretKey (Z.rem j (str_len secretKey)))) "")
    "".

(** [s.substr(pos, n)] for [pos <= s.length()]. *)
Definition substr (s : string) (pos n : Z) : string :=
  substring (Z.to_nat pos) (Z.to_nat n) s.

(** [for (size_t i = 0; i < paddedMessageHex.length(); i += chunkSize)];
    the two [BigHexInt] objects built in every round are not used, but their
    constructors may throw.  The state is [encryptedChunks]. *)
Fixpoint encrypt_chunks (fuel : nat) (paddedMessageHex secretKey : string)
    (chunkSize i : Z) (encryptedChunks : list string) : outcome (list string) :=
  if i <? str_len paddedMessageHex then
    match fuel with
    | O => OutOfFuel
    | S fuel' =>
        let chunk := substr paddedMessageHex i chunkSize in
        _ ← BigHexInt.of_string chunk;
        _ ← BigHexInt.of_string secretKey;
        encrypt_chunks fuel' paddedMessageHex secretKey chunkSize (i + chunkSize)
          (encryptedChunks ++ [xor_chunk chunk secretKey])
    end
  else Ok encryptedChunks.

(** What [encryptDecryptMessage] returns (its progress report on
    [std::cout] is left out). *)
Definition encryptDecryptMessage (message : string) (sharedSecret : BigHexInt.t) :
    outcome (list string) :=
  let messageHex := stringToHex message in
  let secretKey := BigHexInt.toString sharedSecret in
  let chunkSize := str_len secretKey in
  let paddedMessageHex := padHexString messageHex chunkSize in
  encrypt_chunks (String.length paddedMessageHex) paddedMessageHex secretKey chunkSize 0 [].

Definition decryptMessage (encryptedChunks : list string) (sharedSecret : BigHexInt.t) :
    string :=
  let secretKey := BigHexInt.toString sharedSecret in
  let decryptedHex :=
    fold_left (fun decryptedHex encryptedChunk =>
                 decryptedHex +:+ xor_chunk encryptedChunk secretKey)
              encryptedChunks "" in
  hexToString (removePadding decryptedHex).

(** The digits [convertIntToHexChar] and [std::hex] produce. *)
Definition is_lower_hex (c : ascii) : bool :=
  ((code "0" <=? code c) && (code c <=? code "9"))
  || ((code "a" <=? code c) && (code c <=? code "f")).

End V1.

(** ** [BigInt.cpp] and the split version built by [build.bat] *)

Module V0.

Definition HEX_SIZE : Z := 64.
Definition MAX_HEX_RESULT_SIZE : Z := 128.
Definition KARATSUBA_THRESHOLD : Z := 4.

Definition convertIntToHexChar : Z -> outcome ascii :=
  convertIntToHexChar_msg "Invalid isHex digit value: ".

(** *** class BigInt (decimal) *)
Module BigInt.

Definition MAX_DIGITS : Z := 618.
Definition getz := V1.BigInt.getz.
Definition setz := V1.BigInt.setz.

Record t : Type := mk {
  digits : list Z;
  length : Z;
  isNegative : bool
}.

Definition zeros : list Z := replicate (Z.to_nat MAX_DIGITS) 0.

(** [BigInt()]: length 0. *)
Definition default : t := mk zeros 0 false.

Definition is_dec_char (c : ascii) : bool :=
  negb ((code c <? code "0") || (code c >? code "9")).

Definition isValidInput (str : string) : bool :=
  if str_len str =? 0 then false
  else if ascii_eqb (str_at str 0) "-" && (str_len str =? 1) then false
  else if negb (ascii_eqb (str_at str 0) "-") && negb (is_dec_char (str_at str 0)) then false
  else for_up 1 (str_len str) (fun i ok => ok && is_dec_char (str_at str i)) true.

Definition createFromString (str : string) : outcome t :=
  if negb (isValidInput str) then Throw (InvalidInputException str)
  else
    let minus := ascii_eqb (str_at str 0) "-" in
    let start := if minus then 1 else 0 in
    let rlength := str_len str - start in
    if rlength >? MAX_DIGITS then Throw (OverflowException "BigInt creation")
    else
      let d := for_up 0 rlength
                 (fun i d => setz d i (code (str_at str (rlength - 1 - i + start)) - code "0"))
                 zeros in
      let d := for_up rlength MAX_DIGITS (fun i d => setz d i 0) d in
      Ok (mk d rlength minus).

(** [print], as the text sent to [std::cout]. *)
Definition print (x : t) : string :=
  let s := if isNegative x then "-" else "" in
  for_down (length x - 1) 0 (fun i s => s +:+ pretty (getz (digits x) i)) s
  +:+ String (chr 10) "".

(** [compare] looks at the magnitudes only. *)
Definition compare (a other : t) : Z :=
  if negb (length a =? length other) then
    (if length a >? length other then 1 else -1)
  else
    match for_down (length a - 1) 0
            (fun i (r : option Z) =>
               match r with
               | Some _ => r
               | None =>
                   if negb (getz (digits a) i =? getz (digits other) i)
                   then Some (if getz (digits a) i >? getz (digits other) i then 1 else -1)
                   else None
               end) None with
    | Some c => c
    | None => 0
    end.

(** The loop of [operator+], [for (int i = 0; i < result.length || carry; i++)];
    the state is [(result.digits, carry, result.length)]. *)
Fixpoint add_loop (n : nat) (a other : t) (i : Z) (st : list Z * Z * Z) :
    outcome (list Z * Z * Z) :=
  let '(rdigits, carry, rlength) := st in
  if (i <? rlength) || negb (carry =? 0) then
    match n with
    | O => OutOfFuel
    | S n' =>
        let sum := (if i <? length a then getz (digits a) i else 0)
                   + (if i <? length other then getz (digits other) i else 0) + carry in
        add_loop n' a other (i + 1)
          (setz rdigits i (Z.rem sum 10), Z.quot sum 10,
           if i >=? rlength then rlength + 1 else rlength)
    end
  else Ok st.

Definition add_same_sign (a other : t) : outcome t :=
  let rlength := Z.max (length a) (length other) in
  if rlength >=? MAX_DIGITS - 1 then Throw (OverflowException "addition")
  else
    '(rdigits, _, rlength) ← add_loop (Z.to_nat MAX_DIGITS + 1) a other 0 (zeros, 0, rlength);
    Ok (mk rdigits rlength (isNegative a)).

(** The borrow loop of [operator-] and the stripping loop after it. *)
Definition sub_digits (a other : t) : t :=
  let '(rdigits, _) :=
    for_up 0 (length a)
      (fun i '(rdigits, borrow) =>
         let diff := getz (digits a) i
                     - (if i <? length other then getz (digits other) i else 0) - borrow in
         let '(diff, borrow) := if diff <? 0 then (diff + 10, 1) else (diff, 0) in
         (setz rdigits i diff, borrow))
      (zeros, 0) in
  mk rdigits (V1.BigInt.stripz rdigits (length a)) (isNegative a).

(** On equal signs [operator-] calls itself once, with the operands
    exchanged, when the first magnitude is the smaller one. *)
Definition sub_same_sign (a other : t) : t :=
  if compare a other <? 0 then
    let result := sub_digits other a in
    mk (digits result) (length result) (negb (isNegative a))
  else sub_digits a other.

Definition operator_add (a other : t) : outcome t :=
  if eqb (isNegative a) (isNegative other) then add_same_sign a other
  else if isNegative a then Ok (sub_same_sign other (mk (digits a) (length a) false))
  else Ok (sub_same_sign a (mk (digits other) (length other) false)).

Definition operator_sub (a other : t) : outcome t :=
  if negb (eqb (isNegative a) (isNegative other)) then
    add_same_sign a (mk (digits other) (length other) (negb (isNegative other)))
  else Ok (sub_same_sign a other).

End BigInt.

(** *** class BigHexInt *)
Module BigHexInt.

Record t : Type := mk {
  digits : list ascii;   (* char digits[MAX_HEX_RESULT_SIZE] *)
  length : Z;
  isNegative : bool
}.

Definition zeros : list ascii := replicate (Z.to_nat MAX_HEX_RESULT_SIZE) "0"%char.

(** [BigHexInt()] *)
Definition default : t := mk zeros 1 false.

Definition set_sign (x : t) (b : bool) : t := mk (digits x) (length x) b.
Definition set_length (x : t) (n : Z) : t := mk (digits x) n (isNegative x).

Definition isZero (x : t) : bool :=
  for_up 0 (length x) (fun i ok => ok && ascii_eqb (get (digits x) i) "0") true.

Definition isOne (x : t) : bool :=
  if length x <? 1 then false
  else if negb (ascii_eqb (get (digits x) 0) "1") then false
  else for_up 1 (length x) (fun i ok => ok && ascii_eqb (get (digits x) i) "0") true.

Definition is_hex_char (c : ascii) : bool :=
  let n := code c in
  ((code "0" <=? n) && (n <=? code "9")) || ((code "a" <=? n) && (n <=? code "f"))
  || ((code "A" <=? n) && (n <=? code "F")).

Definition isValidInput (str : string) : bool :=
  if str_len str =? 0 then false
  else
    let minus := ascii_eqb (str_at str 0) "-" in
    let start := if minus then 1 else 0 in
    if minus && (str_len str =? 1) then false
    else for_up start (str_len str)
           (fun i ok => ok && is_hex_char (str_at str i)) true.

Definition createFromString (str : string) : outcome t :=
  if negb (isValidInput str) then Throw (InvalidInputException str)
  else
    let minus := ascii_eqb (str_at str 0) "-" in
    let start := if minus then 1 else 0 in
    let inputLength := str_len str - start in
    if inputLength >? HEX_SIZE then
      Throw (OverflowException
        ("BigHexInt creation - exceeds " +:+ pretty HEX_SIZE +:+ " isHex digits"))
    else
      let d := for_up 0 inputLength
                 (fun i d => set d i (str_at str (start + inputLength - 1 - i))) zeros in
      Ok (mk d (strip d HEX_SIZE) minus).

(** [BigHexInt(const std::string&)] *)
Definition of_string (str : string) : outcome t := createFromString str.

Fixpoint find_msb (n : nat) (d : list ascii) (msb : Z) : Z :=
  match n with
  | O => msb
  | S n' =>
      if (msb >? 0) && ascii_eqb (get d msb) "0"
      then find_msb n' d (msb - 1) else msb
  end.

Definition toString (x : t) : string :=
  let result := if isNegative x then "-" else "" in
  let msb := find_msb (Z.to_nat (length x)) (digits x) (length x - 1) in
  for_down msb 0 (fun i s => s +:+ String (get (digits x) i) "") result.

(** The loop over all [HEX_SIZE] positions that [compare] and [operator-]
    share: the first difference from the top, as [1] or [-1]. *)
Definition first_difference (a b : t) : option Z :=
  for_down (HEX_SIZE - 1) 0
    (fun i (r : option Z) =>
       match r with
       | Some _ => r
       | None =>
           let digitA := convertHexDigitToInt (get (digits a) i) in
           let digitB := convertHexDigitToInt (get (digits b) i) in
           if negb (digitA =? digitB) then Some (if digitA >? digitB then 1 else -1)
           else None
       end) None.

Definition compare (a other : t) : Z :=
  if isNegative a && negb (isNegative other) then -1
  else if negb (isNegative a) && isNegative other then 1
  else
    match first_difference a other with
    | Some c => if isNegative a then - c else c
    | None => 0
    end.

(** The same-sign branch of [operator+]; the loop state is
    [(result.digits, carry)]. *)
Definition add_same_sign (a other : t) : t :=
  let '(rdigits, carry) :=
    for_up 0 HEX_SIZE
      (fun i '(rdigits, carry) =>
         let digitA := convertHexDigitToInt (get (digits a) i) in
         let digitB := convertHexDigitToInt (get (digits other) i) in
         let sum := digitA + digitB + carry in
         (set rdigits i (HEX_DIGIT_STR_at (Z.rem sum 16)), Z.quot sum 16))
      (zeros, 0) in
  let actualLength := HEX_SIZE in
  let '(rdigits, actualLength) :=
    if (carry >? 0) && (actualLength <? MAX_HEX_RESULT_SIZE)
    then (set rdigits actualLength (HEX_DIGIT_STR_at carry), actualLength + 1)
    else (rdigits, actualLength) in
  mk rdigits (strip rdigits actualLength) (isNegative a).

(** The same-sign branch of [operator-]; the loop state is
    [(result.digits, borrow)]. *)
Definition sub_same_sign (a other : t) : t :=
  let cmp := match first_difference a other with Some c => c | None => 0 end in
  let '(larger, smaller, neg) :=
    if cmp >=? 0 then (a, other, isNegative a) else (other, a, negb (isNegative a)) in
  let '(rdigits, _) :=
    for_up 0 HEX_SIZE
      (fun i '(rdigits, borrow) =>
         let digitL := convertHexDigitToInt (get (digits larger) i) in
         let digitS := convertHexDigitToInt (get (digits smaller) i) in
         let diff := digitL - digitS - borrow in
         let '(diff, borrow) := if diff <? 0 then (diff + 16, 1) else (diff, 0) in
         (set rdigits i (HEX_DIGIT_STR_at diff), borrow))
      (zeros, 0) in
  mk rdigits (strip rdigits HEX_SIZE) neg.

(** [operator+] on mixed signs calls [operator-] on two non-negative values
    and [operator-] on mixed signs calls [operator+] on equal signs, so each
    is written directly over the two same-sign branches. *)
Definition operator_add (a other : t) : t :=
  if negb (eqb (isNegative a) (isNegative other)) then
    if isNegative a then sub_same_sign other (set_sign a false)
    else sub_same_sign a (set_sign other false)
  else add_same_sign a other.

Definition operator_sub (a other : t) : t :=
  if negb (eqb (isNegative a) (isNegative other)) then
    add_same_sign a (set_sign other (negb (isNegative other)))
  else sub_same_sign a other.

Definition clone (x : t) : t :=
  mk (for_up 0 (length x) (fun i d => set d i (get (digits x) i)) zeros)
     (length x) (isNegative x).

(** [void shiftLeftInPlace(int n)], as a function of the object. *)
Definition shiftLeftInPlace (x : t) (n : Z) : outcome t :=
  if length x + n >? HEX_SIZE then Throw (OverflowException "shift left operation")
  else
    let d := for_down (length x - 1) 0
               (fun i d => if i + n <? HEX_SIZE then set d (i + n) (get d i) else d)
               (digits x) in
    let d := for_up 0 n (fun i d => set d i "0"%char) d in
    let len := length x + n in
    Ok (mk d (if len >? HEX_SIZE then HEX_SIZE else len) (isNegative x)).

Definition shiftLeft (x : t) (n : Z) : outcome t := shiftLeftInPlace (clone x) n.

Definition getLower (x : t) (n : Z) : t :=
  let actual := Z.min (length x) n in
  mk (for_up 0 actual (fun i d => set d i (get (digits x) i)) zeros)
     (if actual =? 0 then 1 else actual) false.

Definition getHigher (x : t) (n : Z) : t :=
  if length x <=? n then mk (set zeros 0 "0") 1 false
  else
    let newLength := length x - n in
    mk (for_up 0 newLength (fun i d => set d i (get (digits x) (i + n))) zeros)
       newLength false.

Definition pad (x : t) (targetLen : Z) : t :=
  let res := clone x in
  if length res <? targetLen then
    mk (for_up (length res) targetLen (fun i d => set d i "0"%char) (digits res))
       targetLen (isNegative res)
  else res.

(** The inner loop of [multiplyNaive],
    [for (int j = 0; j < other.length || carry; j++)]; the state is
    [(result.digits, carry)]. *)
Fixpoint mul_inner (n : nat) (other : t) (a_digit i j : Z) (st : list ascii * Z) :
    outcome (list ascii * Z) :=
  let '(rdigits, carry) := st in
  if (j <? length other) || negb (carry =? 0) then
    match n with
    | O => OutOfFuel
    | S n' =>
        let b_digit := if j <? length other
                       then convertHexDigitToInt (get (digits other) j) else 0 in
        let current := convertHexDigitToInt (get rdigits (i + j)) in
        let prod := current + a_digit * b_digit + carry in
        mul_inner n' other a_digit i (j + 1)
          (set rdigits (i + j) (HEX_DIGIT_STR_at (Z.rem prod 16)), Z.quot prod 16)
    end
  else Ok st.

Definition multiplyNaive (a other : t) : outcome t :=
  let rlength := length a + length other in
  if rlength >=? MAX_HEX_RESULT_SIZE then Throw (OverflowException "naive multiplication")
  else
    rdigits ← for_up 0 (length a)
      (fun i (st : outcome (list ascii)) =>
         rdigits ← st;
         let a_digit := convertHexDigitToInt (get (digits a) i) in
         '(rdigits, _) ← mul_inner (Z.to_nat MAX_HEX_RESULT_SIZE + 1) other a_digit i 0
                            (rdigits, 0);
         Ok rdigits)
      (Ok zeros);
    Ok (mk rdigits (strip rdigits rlength) (negb (eqb (isNegative a) (isNegative other)))).

Definition memo_store (key : string * string) (v : string) : M memo_t unit :=
  fun memo => (Ok tt, <[key := v]> memo).

Fixpoint karatsuba (fuel : nat) (a other : t) : M memo_t t :=
  let thisStr := toString a in
  let otherStr := toString other in
  let key := if string_gt thisStr otherStr then (otherStr, thisStr)
             else (thisStr, otherStr) in
  memo ← Mget;
  match memo !! key with
  | Some v => lift (createFromString v)
  | None =>
      if ((length a =? 1) && ascii_eqb (get (digits a) 0) "0")
         || ((length other =? 1) && ascii_eqb (get (digits other) 0) "0") then
        let zero := mk zeros 1 false in
        memo_store key (toString zero);;
        mret zero
      else if (length a <=? KARATSUBA_THRESHOLD) || (length other <=? KARATSUBA_THRESHOLD) then
        result ← lift (multiplyNaive a other);
        memo_store key (toString result);;
        mret result
      else
        match fuel with
        | O => lift OutOfFuel
        | S fuel' =>
            let n := Z.max (length a) (length other) in
            let x := pad a n in
            let y := pad other n in
            let m := Z.quot n 2 in
            let low1 := getLower x m in
            let high1 := getHigher x m in
            let low2 := getLower y m in
            let high2 := getHigher y m in
            z0 ← karatsuba fuel' low1 low2;
            z2 ← karatsuba fuel' high1 high2;
            let sum1 := operator_add low1 high1 in
            let sum2 := operator_add low2 high2 in
            z1 ← karatsuba fuel' sum1 sum2;
            let z1 := operator_sub z1 z2 in
            let z1 := operator_sub z1 z0 in
            part1 ← lift (shiftLeft z2 (2 * m));
            part2 ← lift (shiftLeft z1 m);
            let temp := operator_add part1 part2 in
            let result := operator_add temp z0 in
            let result := set_length result (strip (digits result) (length result)) in
            memo_store key (toString result);;
            mret result
        end
  end.

(** [operator*] of [BigInt.cpp] ... *)
Definition operator_mul_BigInt_cpp (a other : t) : M memo_t t :=
  result ← (if length a + length other >? 8
            then karatsuba (Z.to_nat MAX_HEX_RESULT_SIZE) a other
            else lift (multiplyNaive a other));
  mret (set_sign result (negb (eqb (isNegative a) (isNegative other)))).

(** ... and of the split version, where the selection is commented out. *)
Definition operator_mul (a other : t) : M memo_t t :=
  result ← karatsuba (Z.to_nat MAX_HEX_RESULT_SIZE) a other;
  mret (set_sign result (negb (eqb (isNegative a) (isNegative other)))).

(** [divide] takes a pointer to the remainder: [None] is [nullptr],
    [Some r] a pointer to an object holding [r]; the result is the quotient
    and what the pointer refers to afterwards. *)

(** [divide] of [BigInt.cpp]. *)
Definition divide_BigInt_cpp (a divisor : t) (remainder : option t) :
    outcome (t * option t) :=
  if isZero divisor then Throw DivisionByZeroException
  else
    let quotient := mk zeros 1 (negb (eqb (isNegative a) (isNegative divisor))) in
    let cmp := compare a divisor in
    if cmp =? 0 then
      Ok (mk (set (digits quotient) 0 "1") 1 (isNegative quotient),
          (fun _ => mk zeros 1 false) <$> remainder)
    else if ((cmp <? 0) && negb (isNegative a) && negb (isNegative divisor))
            || ((cmp >? 0) && isNegative a && isNegative divisor) then
      Ok (mk (set (digits quotient) 0 "0") 1 (isNegative quotient),
          (fun _ => a) <$> remainder)
    else
      (* Simplified division - for full implementation, proper long division needed *)
      Ok (quotient, remainder).

Definition operator_div_BigInt_cpp (a other : t) : outcome t :=
  fst <$> divide_BigInt_cpp a other None.

Definition operator_mod_BigInt_cpp (a other : t) : outcome t :=
  '(_, r) ← divide_BigInt_cpp a other (Some default);
  Ok (match r with Some r => r | None => default end).

(** [divide] of the split version.  The subtraction loop
    [while (currentDividend.compare(divisorAbs) >= 0)]: a count of 16 cannot
    be stored as a digit, so sixteen rounds are the bound; the state is
    [(currentDividend, count)]. *)
Fixpoint count_subtractions (n : nat) (divisorAbs : t) (st : t * Z) : outcome (t * Z) :=
  let '(currentDividend, count) := st in
  if compare currentDividend divisorAbs >=? 0 then
    match n with
    | O => OutOfFuel
    | S n' =>
        let temp := operator_sub currentDividend divisorAbs in
        count_subtractions n' divisorAbs (temp, count + 1)
    end
  else Ok st.

(** One round of [for (int i = dividend.length - 1; i >= 0; i--)]; the state
    is [(currentDividend, quotient.digits, quotientPos)]. *)
Definition divide_step (dividend divisorAbs : t) (i : Z) (st : t * list ascii * Z) :
    outcome (t * list ascii * Z) :=
  let '(currentDividend, qdigits, quotientPos) := st in
  let currentDividend :=
    if negb (isZero currentDividend) then
      let d := for_down (length currentDividend) 1 (fun j d => set d j (get d (j - 1)))
                 (digits currentDividend) in
      mk (set d 0 (get (digits dividend) i)) (length currentDividend + 1)
         (isNegative currentDividend)
    else
      mk (set (digits currentDividend) 0 (get (digits dividend) i)) 1
         (isNegative currentDividend) in
  '(currentDividend, count) ← count_subtractions 16 divisorAbs (currentDividend, 0);
  if (count >? 0) || (quotientPos >? 0) then
    c ← convertIntToHexChar count;
    Ok (currentDividend, set qdigits quotientPos c, quotientPos + 1)
  else Ok (currentDividend, qdigits, quotientPos).

(** [for (int i = 0; i < len / 2; i++)] swapping [d[i]] and [d[len - 1 - i]]. *)
Definition reverse_digits (d : list ascii) (len : Z) : list ascii :=
  for_up 0 (Z.quot len 2)
    (fun i d =>
       let temp := get d i in
       let d := set d i (get d (len - 1 - i)) in
       set d (len - 1 - i) temp) d.

Definition divide (a divisor : t) (remainder : option t) : outcome (t * option t) :=
  if isZero divisor then Throw DivisionByZeroException
  else if isZero a then
    let zero := default in
    Ok (zero, (fun _ => zero) <$> remainder)
  else
    let dividend := set_sign a false in
    let divisorAbs := set_sign divisor false in
    let quotient := mk zeros 1 (negb (eqb (isNegative a) (isNegative divisor))) in
    let cmp := compare dividend divisorAbs in
    if cmp =? 0 then
      Ok (mk (set (digits quotient) 0 "1") 1 (isNegative quotient),
          (fun _ => mk zeros 1 false) <$> remainder)
    else if cmp <? 0 then
      Ok (mk (set (digits quotient) 0 "0") 1 false, (fun _ => a) <$> remainder)
    else
      '(currentDividend, qdigits, quotientPos) ←
        for_down (length dividend - 1) 0
          (fun i (st : outcome (t * list ascii * Z)) =>
             st ← st; divide_step dividend divisorAbs i st)
          (Ok (mk zeros 1 false, zeros, 0));
      let quotient :=
        if quotientPos =? 0 then mk (set qdigits 0 "0") 1 false
        else mk (reverse_digits qdigits quotientPos) quotientPos (isNegative quotient) in
      Ok (quotient,
          (fun _ => set_sign currentDividend
                      (isNegative a && negb (isZero currentDividend))) <$> remainder).

Definition operator_div (a other : t) : outcome t := fst <$> divide a other None.

Definition operator_mod (a other : t) : outcome t :=
  '(_, r) ← divide a other (Some default);
  Ok (match r with Some r => r | None => default end).

Definition isOdd (x : t) : bool :=
  if length x =? 0 then false
  else Z.land (convertHexDigitToInt (get (digits x) 0)) 1 =? 1.

(** The loop of [divideByTwo]; the state is
    [(result.digits, carry, resultLength)]. *)
Definition divideByTwo (x : t) : outcome t :=
  if isZero x then of_string "0"
  else
    '(rdigits, _, resultLength) ←
      for_down (length x - 1) 0
        (fun i (st : outcome (list ascii * Z * Z)) =>
           '(rdigits, carry, resultLength) ← st;
           let digitValue := convertHexDigitToInt (get (digits x) i) + carry * 16 in
           let newDigit := Z.quot digitValue 2 in
           let carry := Z.rem digitValue 2 in
           if (newDigit >? 0) || (resultLength >? 0) then
             c ← convertIntToHexChar newDigit;
             Ok (set rdigits resultLength c, carry, resultLength + 1)
           else Ok (rdigits, carry, resultLength))
        (Ok (zeros, 0, 0));
    if resultLength =? 0 then Ok (mk (set rdigits 0 "0") 1 false)
    else Ok (mk (reverse_digits rdigits resultLength) resultLength (isNegative x)).

(** The loop of [modPow], [while (!exp.isZero())]: [exp] is halved in every
    round, so four rounds per digit suffice; the state is
    [(result, base, exp)]. *)
Fixpoint modPow_loop (n : nat) (modulus : t) (st : t * t * t) : M memo_t t :=
  let '(result, base, exp) := st in
  if negb (isZero exp) then
    match n with
    | O => lift OutOfFuel
    | S n' =>
        result ← (if isOdd exp
                  then p ← operator_mul result base; lift (operator_mod p modulus)
                  else mret result);
        p ← operator_mul base base;
        base ← lift (operator_mod p modulus);
        exp ← lift (divideByTwo exp);
        modPow_loop n' modulus (result, base, exp)
    end
  else mret result.

Definition modPow (a exponent modulus : t) : M memo_t t :=
  if isZero modulus then lift (Throw (std_invalid_argument "Modulus cannot be zero"))
  else if isOne modulus then lift (of_string "0")
  else if isZero exponent then lift (of_string "1")
  else if isZero a then lift (of_string "0")
  else if isNegative exponent then
    lift (Throw (std_invalid_argument
                   "Negative exponents not supported in modular exponentiation"))
  else
    base ← (if isNegative a then
              temp ← lift (operator_mod (set_sign a false) modulus);
              mret (operator_sub modulus temp)
            else lift (operator_mod a modulus));
    if isZero base then lift (of_string "0")
    else
      result ← lift (of_string "1");
      modPow_loop (Z.to_nat (4 * length exponent + 1)) modulus (result, base, exponent).

End BigHexInt.
End V0.

(** ** The integers the buffers stand for *)

(** The magnitude held in the first [n] positions of a hexadecimal buffer,
    least significant digit first. *)
Fixpoint mag_upto (d : list ascii) (n : nat) : Z :=
  match n with
  | O => 0
  | S k => mag_upto d k + convertHexDigitToInt (get d (Z.of_nat k)) * 16 ^ Z.of_nat k
  end.

(** The same for a decimal buffer of digit values. *)
Fixpoint magz_upto (d : list Z) (n : nat) : Z :=
  match n with
  | O => 0
  | S k => magz_upto d k + V1.BigInt.getz d (Z.of_nat k) * 10 ^ Z.of_nat k
  end.

Definition signed (neg : bool) (m : Z) : Z := if neg then - m else m.

(** The hexadecimal alphabet, the same test in the three files. *)
Definition is_hex (c : ascii) : bool := V1.BigHexInt.is_hex_char c.

Module V1Spec.
Import V1.

Definition magnitude (x : BigHexInt.t) : Z :=
  mag_upto (BigHexInt.digits x) (Z.to_nat (BigHexInt.length x)).
Definition value (x : BigHexInt.t) : Z :=
  signed (BigHexInt.isNegative x) (magnitude x).

Definition dec_value (x : BigInt.t) : Z :=
  signed (BigInt.isNegative x) (magz_upto (BigInt.digits x) (Z.to_nat (BigInt.length x))).

(** A literal that is known to parse, as a value. *)
Definition hex (s : string) : BigHexInt.t :=
  match BigHexInt.of_string s with Ok v => v | _ => BigHexInt.default end.
Definition dec (s : string) : BigInt.t :=
  match BigInt.createFromString s with Ok v => v | _ => BigInt.default end.

(** The data-model invariants of a value: the significant length is within
    the buffer, the buffer has its declared size and the significant
    positions hold hexadecimal digits. *)
Definition wf (x : BigHexInt.t) : bool :=
  (1 <=? BigHexInt.length x) && (BigHexInt.length x <=? HEX_SIZE)
  && (Z.of_nat (List.length (BigHexInt.digits x)) =? HEX_SIZE)
  && forallb BigHexInt.is_hex_char (take (Z.to_nat (BigHexInt.length x)) (BigHexInt.digits x)).

(** A canonical value also has no leading zero digit unless it is a single
    digit, and is not a negative zero. *)
Definition canonical (x : BigHexInt.t) : bool :=
  wf x
  && ((BigHexInt.length x =? 1)
      || negb (convertHexDigitToInt (get (BigHexInt.digits x) (BigHexInt.length x - 1)) =? 0))
  && negb (BigHexInt.isNegative x && (magnitude x =? 0)).

(** Auxiliary notions of the proofs about [operator+] and [operator-]. *)

(** The magnitude of the positions of [x] below [i] that are significant. *)
Definition mag_below (x : BigHexInt.t) (i : Z) : Z :=
  mag_upto (BigHexInt.digits x) (Z.to_nat (Z.min i (BigHexInt.length x))).

(** The tail of [operator-] on equal signs, once the larger magnitude is
    chosen. *)
Definition sub_core (L S : BigHexInt.t) (neg : bool) : outcome BigHexInt.t :=
  '(rdigits, _) ← BigHexInt.sub_loop L S (BigHexInt.length L);
  let rlength := strip rdigits (BigHexInt.length L) in
  let neg := if (rlength =? 1) && ascii_eqb (get rdigits 0) "0" then false else neg in
  Ok (BigHexInt.mk rdigits rlength neg).

(** The comparison of magnitudes at the head of [operator-]. *)
Definition cmp_abs (a other : BigHexInt.t) : Z :=
  if negb (BigHexInt.length a =? BigHexInt.length other) then
    (if BigHexInt.length a >? BigHexInt.length other then 1 else -1)
  else match BigHexInt.first_difference a other with Some c => c | None => 0 end.

(** The state of the long division after the digits of [a] above position
    [i] have been brought down: the quotient and the remainder of that part
    of the dividend, both canonical and non-negative. *)
Definition division_state (a b : BigHexInt.t) (i : Z)
    (st : outcome (BigHexInt.t * BigHexInt.t)) : Prop :=
  exists q c, st = Ok (q, c)
    /\ canonical q = true /\ BigHexInt.isNegative q = false
    /\ canonical c = true /\ BigHexInt.isNegative c = false
    /\ value q = (magnitude a / 16 ^ (i + 1)) / value b
    /\ value c = (magnitude a / 16 ^ (i + 1)) mod value b.

End V1Spec.

Module V0Spec.
Import V0.

Definition magnitude (x : BigHexInt.t) : Z :=
  mag_upto (BigHexInt.digits x) (Z.to_nat (BigHexInt.length x)).
Definition value (x : BigHexInt.t) : Z :=
  signed (BigHexInt.isNegative x) (magnitude x).

Definition hex (s : string) : BigHexInt.t :=
  match BigHexInt.of_string s with Ok v => v | _ => BigHexInt.default end.

Definition dec_value (x : BigInt.t) : Z :=
  signed (BigInt.isNegative x) (magz_upto (BigInt.digits x) (Z.to_nat (BigInt.length x))).
Definition dec (s : string) : BigInt.t :=
  match BigInt.createFromString s with Ok v => v | _ => BigInt.default end.

(** The data-model invariants of a value of [BigInt.cpp]: the significant
    length is within the buffer of [MAX_HEX_RESULT_SIZE] positions and the
    significant positions hold hexadecimal digits. *)
Definition wf (x : BigHexInt.t) : bool :=
  (1 <=? BigHexInt.length x) && (BigHexInt.length x <=? MAX_HEX_RESULT_SIZE)
  && (Z.of_nat (List.length (BigHexInt.digits x)) =? MAX_HEX_RESULT_SIZE)
  && forallb is_hex (take (Z.to_nat (BigHexInt.length x)) (BigHexInt.digits x)).

End V0Spec.

Module LiteralSpec.

(** The textual side of the data model, in the words of the specification:
    a literal is an optional minus sign followed by one or more digits of the
    radix; its canonical form has no redundant leading zeros, and a sign only
    when the value is negative and not zero. *)

Definition chars (s : string) : list ascii := list_ascii_of_string s.

Definition unsigned_part (s : string) : list ascii :=
  match chars s with
  | c :: ds => if ascii_eqb c "-" then ds else c :: ds
  | [] => []
  end.

Definition has_sign (s : string) : bool :=
  match chars s with
  | c :: _ => ascii_eqb c "-"
  | [] => false
  end.

Definition is_literal (s : string) : bool :=
  match unsigned_part s with
  | [] => false
  | ds => forallb V1.BigHexInt.is_hex_char ds
  end.

(** Leading zeros are redundant as long as another digit follows. *)
Fixpoint drop_zeros (l : list ascii) : list ascii :=
  match l with
  | c :: t =>
      match t with
      | [] => l
      | _ :: _ => if ascii_eqb c "0" then drop_zeros t else l
      end
  | [] => []
  end.

Definition significant_digits (s : string) : list ascii :=
  drop_zeros (unsigned_part s).

Definition is_zero_text (ds : list ascii) : bool :=
  match ds with
  | [c] => ascii_eqb c "0"
  | _ => false
  end.

Definition canonical_form (s : string) : string :=
  let ds := significant_digits s in
  if has_sign s && negb (is_zero_text ds)
  then String "-" (string_of_list_ascii ds)
  else string_of_list_ascii ds.

(** The integer a digit sequence denotes, most significant digit first, and
    the integer a literal denotes. *)
Definition digits_value (ds : list ascii) : Z :=
  fold_left (fun acc c => acc * 16 + convertHexDigitToInt c) ds 0.
Definition literal_value (s : string) : Z :=
  signed (has_sign s) (digits_value (unsigned_part s)).

End LiteralSpec.

Module MemoSpec.
Import V1 V1.BigHexInt V1Spec LiteralSpec.

(** Half of [HEX_SIZE]: the product of two values of at most this many
    digits fits the buffer, and so do the intermediate values of
    [karatsuba]. *)
Definition half_size : Z := 64.

(** The property of the table [karatsubaMemo] that makes a stored answer
    right: the text stored under a key reads as the product of the integers
    the two texts of the key denote. *)
Definition memo_ok (memo : memo_t) : Prop :=
  forall k1 k2 v, memo !! (k1, k2) = Some v ->
    exists y, createFromString v = Ok y /\ value y = literal_value k1 * literal_value k2.

End MemoSpec.

(** ** Proof tools *)

(** Closed statements about concrete inputs are settled by running the
    embedding. *)
Ltac by_evaluation := repeat apply conj; vm_compute; reflexivity.


(** *** Buffers *)

Lemma get_nonneg (d : list ascii) (i : Z) :
  0 <= i -> get d i = nth (Z.to_nat i) d NUL.
Proof. intros H. unfold get. destruct (Z.ltb_spec i 0); [lia | reflexivity]. Qed.

Lemma length_set (d : list ascii) (i : Z) (c : ascii) :
  List.length (set d i c) = List.length d.
Proof. unfold set. destruct (i <? 0); [reflexivity | apply length_insert]. Qed.

Lemma get_set_eq (d : list ascii) (i : Z) (c : ascii) :
  0 <= i < Z.of_nat (List.length d) -> get (set d i c) i = c.
Proof.
  intros H. unfold get, set. destruct (Z.ltb_spec i 0); [lia|].
  apply nth_lookup_Some with (d := NUL).
  apply list_lookup_insert_eq. lia.
Qed.

Lemma get_set_ne (d : list ascii) (i j : Z) (c : ascii) :
  i <> j -> get (set d i c) j = get d j.
Proof.
  intros H. unfold get, set.
  destruct (Z.ltb_spec j 0); [reflexivity|].
  destruct (Z.ltb_spec i 0); [reflexivity|].
  rewrite !nth_lookup. rewrite list_lookup_insert_ne; [reflexivity | lia].
Qed.

Lemma get_replicate (n : nat) (c : ascii) (i : Z) :
  0 <= i < Z.of_nat n -> get (replicate n c) i = c.
Proof.
  intros H. rewrite get_nonneg by lia.
  apply nth_lookup_Some with (d := NUL). apply lookup_replicate_2. lia.
Qed.

(** *** Counted loops *)

Lemma for_up_aux_snoc {S : Type} (n : nat) (i : Z) (body : Z -> S -> S) (s : S) :
  for_up_aux (Datatypes.S n) i body s
  = body (i + Z.of_nat n) (for_up_aux n i body s).
Proof.
  revert i s. induction n as [|n IH]; intros i s.
  - simpl. f_equal. lia.
  - change (for_up_aux (Datatypes.S (Datatypes.S n)) i body s)
      with (for_up_aux (Datatypes.S n) (i + 1) body (body i s)).
    rewrite IH. simpl. f_equal. lia.
Qed.

(** The invariant rule of [for (i = lo; i < hi; i++)]. *)
Lemma for_up_inv {S : Type} (P : Z -> S -> Prop) (lo hi : Z) (body : Z -> S -> S) (s : S) :
  lo <= hi ->
  P lo s ->
  (forall i s, lo <= i < hi -> P i s -> P (i + 1) (body i s)) ->
  P hi (for_up lo hi body s).
Proof.
  intros Hle H0 Hstep. unfold for_up.
  assert (Hgen : forall n, (Z.of_nat n <= hi - lo) ->
                           P (lo + Z.of_nat n) (for_up_aux n lo body s)).
  { induction n as [|n IH]; intros Hn.
    - simpl. replace (lo + Z.of_nat 0) with lo by lia. exact H0.
    - rewrite for_up_aux_snoc.
      replace (lo + Z.of_nat (Datatypes.S n)) with (lo + Z.of_nat n + 1) by lia.
      apply Hstep; [lia | apply IH; lia]. }
  specialize (Hgen (Z.to_nat (hi - lo))).
  replace (lo + Z.of_nat (Z.to_nat (hi - lo))) with hi in Hgen by lia.
  apply Hgen. lia.
Qed.

Lemma for_up_empty {S : Type} (lo hi : Z) (body : Z -> S -> S) (s : S) :
  hi <= lo -> for_up lo hi body s = s.
Proof.
  intros H. unfold for_up. replace (Z.to_nat (hi - lo)) with O by lia. reflexivity.
Qed.

(** The invariant rule of [for (i = hi; i >= lo; i--)]: [P i s] holds when
    the positions above [i] have been treated. *)
Lemma for_down_inv {S : Type} (P : Z -> S -> Prop) (hi lo : Z) (body : Z -> S -> S) (s : S) :
  lo - 1 <= hi ->
  P hi s ->
  (forall i s, lo <= i <= hi -> P i s -> P (i - 1) (body i s)) ->
  P (lo - 1) (for_down hi lo body s).
Proof.
  intros Hle H0 Hstep. unfold for_down.
  assert (Hgen : forall n i s, Z.of_nat n = i - lo + 1 -> i <= hi -> P i s ->
                               P (lo - 1) (for_down_aux n i body s)).
  { induction n as [|n IH]; intros i s' Hn Hi HP.
    - simpl. replace (lo - 1) with i by lia. exact HP.
    - simpl. apply IH; [lia | lia | apply Hstep; [lia | exact HP]]. }
  apply Hgen; [lia | lia | exact H0].
Qed.

(** *** Hexadecimal digits *)

Lemma ascii_eqb_eq (a b : ascii) : ascii_eqb a b = true <-> a = b.
Proof. unfold ascii_eqb. apply Ascii.eqb_eq. Qed.

Lemma ascii_eqb_neq (a b : ascii) : ascii_eqb a b = false <-> a <> b.
Proof. unfold ascii_eqb. apply Ascii.eqb_neq. Qed.

Lemma is_hex_range (c : ascii) :
  is_hex c = true -> 0 <= convertHexDigitToInt c <= 15.
Proof.
  destruct c as [[] [] [] [] [] [] [] []]; vm_compute; intros H;
    solve [discriminate H | split; discriminate].
Qed.

Lemma hex_zero_iff (c : ascii) :
  is_hex c = true -> (convertHexDigitToInt c = 0 <-> c = "0"%char).
Proof.
  destruct c as [[] [] [] [] [] [] [] []]; vm_compute; intros H;
    solve [discriminate H | split; intros E; solve [discriminate E | reflexivity]].
Qed.

Lemma convertIntToHexChar_ok (msg : string) (v : Z) :
  0 <= v <= 15 ->
  exists c, convertIntToHexChar_msg msg v = Ok c
            /\ convertHexDigitToInt c = v /\ is_hex c = true.
Proof.
  intros H.
  assert (Hv : v = 0 \/ v = 1 \/ v = 2 \/ v = 3 \/ v = 4 \/ v = 5 \/ v = 6 \/ v = 7
               \/ v = 8 \/ v = 9 \/ v = 10 \/ v = 11 \/ v = 12 \/ v = 13 \/ v = 14
               \/ v = 15) by lia.
  repeat (destruct Hv as [-> | Hv]); try subst v;
    (eexists; split; [reflexivity | split; reflexivity]).
Qed.

Lemma HEX_DIGIT_STR_at_ok (v : Z) :
  0 <= v <= 15 ->
  convertHexDigitToInt (HEX_DIGIT_STR_at v) = v /\ is_hex (HEX_DIGIT_STR_at v) = true.
Proof.
  intros H.
  assert (Hv : v = 0 \/ v = 1 \/ v = 2 \/ v = 3 \/ v = 4 \/ v = 5 \/ v = 6 \/ v = 7
               \/ v = 8 \/ v = 9 \/ v = 10 \/ v = 11 \/ v = 12 \/ v = 13 \/ v = 14
               \/ v = 15) by lia.
  repeat (destruct Hv as [-> | Hv]); try subst v; split; reflexivity.
Qed.

(** *** Magnitudes *)

Lemma mag_upto_ext (d d' : list ascii) (n : nat) :
  (forall i, 0 <= i < Z.of_nat n -> get d i = get d' i) ->
  mag_upto d n = mag_upto d' n.
Proof.
  induction n as [|n IH]; intros H; [reflexivity|].
  simpl. rewrite IH by (intros; apply H; lia). rewrite H by lia. reflexivity.
Qed.

Lemma mag_upto_set_ge (d : list ascii) (n : nat) (i : Z) (c : ascii) :
  Z.of_nat n <= i -> mag_upto (set d i c) n = mag_upto d n.
Proof. intros H. apply mag_upto_ext. intros j Hj. apply get_set_ne. lia. Qed.

Lemma mag_upto_bound (d : list ascii) (n : nat) :
  (forall i, 0 <= i < Z.of_nat n -> 0 <= convertHexDigitToInt (get d i) <= 15) ->
  0 <= mag_upto d n < 16 ^ Z.of_nat n.
Proof.
  induction n as [|n IH]; intros H; [simpl; lia|].
  simpl mag_upto. specialize (IH ltac:(intros; apply H; lia)).
  specialize (H (Z.of_nat n) ltac:(lia)).
  rewrite Nat2Z.inj_succ, Z.pow_succ_r by lia. nia.
Qed.

Lemma mag_upto_top (d : list ascii) (n : nat) :
  (forall i, 0 <= i < Z.of_nat (S n) -> 0 <= convertHexDigitToInt (get d i) <= 15) ->
  convertHexDigitToInt (get d (Z.of_nat n)) <> 0 ->
  16 ^ Z.of_nat n <= mag_upto d (S n).
Proof.
  intros H Htop. simpl mag_upto.
  pose proof (mag_upto_bound d n ltac:(intros; apply H; lia)) as Hb.
  specialize (H (Z.of_nat n) ltac:(lia)).
  assert (0 < 16 ^ Z.of_nat n) by (apply Z.pow_pos_nonneg; lia). nia.
Qed.

Lemma mag_upto_zeros (d : list ascii) (m n : nat) :
  (m <= n)%nat ->
  (forall i, Z.of_nat m <= i < Z.of_nat n -> convertHexDigitToInt (get d i) = 0) ->
  mag_upto d n = mag_upto d m.
Proof.
  intros Hle. induction n as [|n IH]; intros H.
  - replace m with O by lia. reflexivity.
  - destruct (Nat.eq_dec m (S n)) as [->|Hne]; [reflexivity|].
    simpl. rewrite H by lia. rewrite IH; [lia | lia | intros; apply H; lia].
Qed.

(** *** The stripping loop *)

Lemma strip_aux_spec (d : list ascii) (n : nat) (len : Z) :
  len - 1 <= Z.of_nat n ->
  let r := strip_aux n d len in
  r <= len
  /\ (1 <= len -> 1 <= r)
  /\ (forall i, r <= i < len -> get d i = "0"%char)
  /\ (r <= 1 \/ get d (r - 1) <> "0"%char).
Proof.
  revert len. induction n as [|n IH]; intros len Hn; simpl.
  - repeat split; try lia; intros; lia.
  - destruct (Z.gtb_spec len 1) as [Hgt|Hle]; simpl.
    + destruct (ascii_eqb (get d (len - 1)) "0") eqn:E.
      * specialize (IH (len - 1) ltac:(lia)). simpl in IH.
        destruct IH as (H1 & H2 & H3 & H4).
        split; [lia|]. split; [intros; apply H2; lia|]. split; [|exact H4].
        intros i Hi. destruct (Z.eq_dec i (len - 1)) as [->|Hne].
        -- apply ascii_eqb_eq. exact E.
        -- apply H3. lia.
      * split; [lia|]. split; [lia|]. split; [intros; lia|].
        right. apply ascii_eqb_neq. exact E.
    + split; [lia|]. split; [lia|]. split; [intros; lia|]. left. lia.
Qed.

Lemma strip_spec (d : list ascii) (len : Z) :
  let r := strip d len in
  r <= len
  /\ (1 <= len -> 1 <= r)
  /\ (forall i, r <= i < len -> get d i = "0"%char)
  /\ (r <= 1 \/ get d (r - 1) <> "0"%char).
Proof. unfold strip. apply strip_aux_spec. lia. Qed.

Lemma mag_upto_strip (d : list ascii) (len : Z) :
  1 <= len -> mag_upto d (Z.to_nat (strip d len)) = mag_upto d (Z.to_nat len).
Proof.
  intros Hlen. destruct (strip_spec d len) as (H1 & H2 & H3 & _).
  symmetry. apply mag_upto_zeros; [lia|].
  intros i Hi. rewrite H3 by lia. reflexivity.
Qed.

Lemma mag_upto_high_eq (a b : list ascii) (m n : nat) :
  (m <= n)%nat ->
  (forall j, Z.of_nat m <= j < Z.of_nat n ->
             convertHexDigitToInt (get a j) = convertHexDigitToInt (get b j)) ->
  mag_upto a n - mag_upto a m = mag_upto b n - mag_upto b m.
Proof.
  intros Hle. induction n as [|n IH]; intros H.
  - replace m with O by lia. reflexivity.
  - destruct (Nat.eq_dec m (S n)) as [->|Hne]; [lia|].
    simpl. rewrite (H (Z.of_nat n)) by lia.
    specialize (IH ltac:(lia) ltac:(intros; apply H; lia)). lia.
Qed.

(** Two buffers that agree above position [i] and differ at [i] are ordered
    by their digits at [i]. *)
Lemma mag_upto_decided_at (a b : list ascii) (i n : nat) :
  (i < n)%nat ->
  (forall j, 0 <= j < Z.of_nat n -> 0 <= convertHexDigitToInt (get a j) <= 15) ->
  (forall j, 0 <= j < Z.of_nat n -> 0 <= convertHexDigitToInt (get b j) <= 15) ->
  (forall j, Z.of_nat i < j < Z.of_nat n ->
             convertHexDigitToInt (get a j) = convertHexDigitToInt (get b j)) ->
  convertHexDigitToInt (get a (Z.of_nat i)) < convertHexDigitToInt (get b (Z.of_nat i)) ->
  mag_upto a n < mag_upto b n.
Proof.
  intros Hi Ha Hb Heq Hlt.
  pose proof (mag_upto_high_eq a b (S i) n ltac:(lia) ltac:(intros; apply Heq; lia)) as Hh.
  simpl in Hh.
  pose proof (mag_upto_bound a i ltac:(intros; apply Ha; lia)).
  pose proof (mag_upto_bound b i ltac:(intros; apply Hb; lia)).
  assert (0 < 16 ^ Z.of_nat i) by (apply Z.pow_pos_nonneg; lia).
  nia.
Qed.

Lemma mag_upto_eq (a b : list ascii) (n : nat) :
  (forall j, 0 <= j < Z.of_nat n ->
             convertHexDigitToInt (get a j) = convertHexDigitToInt (get b j)) ->
  mag_upto a n = mag_upto b n.
Proof.
  intros H. pose proof (mag_upto_high_eq a b 0 n ltac:(lia) ltac:(intros; apply H; lia)).
  simpl in *. lia.
Qed.

Lemma mag_upto_zero_all (d : list ascii) (n : nat) :
  (forall i, 0 <= i < Z.of_nat n -> 0 <= convertHexDigitToInt (get d i) <= 15) ->
  mag_upto d n = 0 ->
  forall j, 0 <= j < Z.of_nat n -> convertHexDigitToInt (get d j) = 0.
Proof.
  induction n as [|n IH]; intros H Hm j Hj; [lia|].
  simpl in Hm.
  pose proof (mag_upto_bound d n ltac:(intros; apply H; lia)) as Hb.
  pose proof (H (Z.of_nat n) ltac:(lia)) as Hd.
  assert (0 < 16 ^ Z.of_nat n) by (apply Z.pow_pos_nonneg; lia).
  destruct (Z.eq_dec j (Z.of_nat n)) as [->|Hne]; [nia|].
  apply IH; [intros; apply H; lia | nia | lia].
Qed.

(** *** Strings as character lists *)

Lemma append_cons (c : ascii) (s t : string) : String c s +:+ t = String c (s +:+ t).
Proof. reflexivity. Qed.

Lemma append_nil_r (s : string) : s +:+ "" = s.
Proof.
  induction s as [|c s IH]; [reflexivity|]. rewrite append_cons, IH. reflexivity.
Qed.

Lemma append_assoc (s1 s2 s3 : string) : (s1 +:+ s2) +:+ s3 = s1 +:+ (s2 +:+ s3).
Proof.
  induction s1 as [|c s1 IH]; [reflexivity|]. rewrite !append_cons, IH. reflexivity.
Qed.

Lemma string_of_list_ascii_snoc (l : list ascii) (c : ascii) :
  string_of_list_ascii (l ++ [c]) = string_of_list_ascii l +:+ String c "".
Proof.
  induction l as [|x l IH]; [reflexivity|].
  simpl. rewrite append_cons, IH. reflexivity.
Qed.

Lemma str_len_chars (s : string) :
  str_len s = Z.of_nat (List.length (LiteralSpec.chars s)).
Proof.
  unfold str_len, LiteralSpec.chars. f_equal.
  induction s as [|c s IH]; simpl; [reflexivity | f_equal; exact IH].
Qed.

Lemma str_at_chars (s : string) (i : Z) :
  0 <= i -> str_at s i = nth (Z.to_nat i) (LiteralSpec.chars s) NUL.
Proof.
  intros Hi. unfold str_at. destruct (Z.ltb_spec i 0); [lia|].
  generalize (Z.to_nat i). clear. unfold LiteralSpec.chars.
  induction s as [|c s IH]; intros [|n]; simpl; try reflexivity. apply IH.
Qed.

Lemma nth_lookup_lt (cs : list ascii) (k : nat) :
  (k < List.length cs)%nat -> cs !! k = Some (nth k cs NUL).
Proof.
  intros H. destruct (lookup_lt_is_Some_2 cs k H) as [c Hc].
  rewrite Hc. f_equal. symmetry. apply nth_lookup_Some with (d := NUL). exact Hc.
Qed.

(** A loop that checks a predicate on the characters [lo .. hi-1]. *)
Lemma for_up_forallb (p : ascii -> bool) (s : string) (lo hi : Z) :
  0 <= lo <= hi -> hi <= str_len s ->
  for_up lo hi (fun i ok => ok && p (str_at s i)) true
  = forallb p (take (Z.to_nat (hi - lo)) (drop (Z.to_nat lo) (LiteralSpec.chars s))).
Proof.
  intros Hlo Hhi. rewrite str_len_chars in Hhi.
  apply (for_up_inv
    (fun i acc => acc = forallb p (take (Z.to_nat (i - lo))
                                     (drop (Z.to_nat lo) (LiteralSpec.chars s))))
    lo hi); [lia | |].
  - replace (Z.to_nat (lo - lo)) with O by lia. reflexivity.
  - intros i acc Hi ->.
    replace (Z.to_nat (i + 1 - lo)) with (S (Z.to_nat (i - lo))) by lia.
    rewrite (take_S_r _ _ (str_at s i)).
    + rewrite forallb_app. simpl. rewrite andb_true_r. reflexivity.
    + rewrite lookup_drop. rewrite str_at_chars by lia.
      replace (Z.to_nat lo + Z.to_nat (i - lo))%nat with (Z.to_nat i) by lia.
      apply nth_lookup_lt. lia.
Qed.

(** A loop that fills the positions [0 .. n-1] of a buffer. *)
Lemma for_up_fill (f : Z -> ascii) (d0 : list ascii) (n : Z) :
  0 <= n <= Z.of_nat (List.length d0) ->
  let d := for_up 0 n (fun i d => set d i (f i)) d0 in
  List.length d = List.length d0
  /\ (forall j, 0 <= j < n -> get d j = f j)
  /\ (forall j, n <= j -> get d j = get d0 j).
Proof.
  intros Hn. cbv zeta.
  apply (for_up_inv
    (fun i d => List.length d = List.length d0
                /\ (forall j, 0 <= j < i -> get d j = f j)
                /\ (forall j, i <= j -> get d j = get d0 j))
    0 n); [lia | |].
  - split; [reflexivity|]. split; [intros; lia | intros; reflexivity].
  - intros i d Hi (H1 & H2 & H3). split; [rewrite length_set; exact H1|]. split.
    + intros j Hj. destruct (Z.eq_dec j i) as [->|Hne].
      * apply get_set_eq. lia.
      * rewrite get_set_ne by lia. apply H2. lia.
    + intros j Hj. rewrite get_set_ne by lia. apply H3. lia.
Qed.

(** The loop that appends the characters [m], [m-1], ..., [0] of a buffer. *)
Lemma for_down_emit (d l : list ascii) (m : Z) (acc : string) :
  -1 <= m -> Z.of_nat (List.length l) = m + 1 ->
  (forall i, 0 <= i <= m -> get d i = nth (Z.to_nat (m - i)) l NUL) ->
  for_down m 0 (fun i s => s +:+ String (get d i) "") acc
  = acc +:+ string_of_list_ascii l.
Proof.
  intros Hm Hl Hd.
  assert (H : for_down m 0 (fun i s => s +:+ String (get d i) "") acc
              = acc +:+ string_of_list_ascii (take (Z.to_nat (m - (0 - 1))) l)).
  { apply (for_down_inv
      (fun i s => s = acc +:+ string_of_list_ascii (take (Z.to_nat (m - i)) l))
      m 0); [lia | |].
    - replace (Z.to_nat (m - m)) with O by lia. simpl. rewrite append_nil_r. reflexivity.
    - intros i s Hi ->.
      replace (Z.to_nat (m - (i - 1))) with (S (Z.to_nat (m - i))) by lia.
      rewrite (take_S_r _ _ (get d i)).
      + rewrite string_of_list_ascii_snoc, append_assoc. reflexivity.
      + rewrite Hd by lia. apply nth_lookup_lt. lia. }
  rewrite H. rewrite take_ge by lia. reflexivity.
Qed.

(** *** The state monad *)

Lemma Mbind_lift_Ok {St A B : Type} (a : A) (f : A -> M St B) (st : St) :
  (x ← lift (Ok a); f x) st = f a st.
Proof. reflexivity. Qed.

(** ** Facts about [BigInt.cpp] and the split version *)

Module V0Facts.
Import V0 V0.BigHexInt V0Spec.

(** The scenarios the specification lists for the hexadecimal engine. *)
Example scenario_multiply :
  toString <$> fst (operator_mul (hex "ff") (hex "ff") ∅) = Ok "fe01".
Proof. vm_compute. reflexivity. Qed.

Example scenario_divide :
  toString <$> operator_div (hex "100") (hex "f") = Ok "11"
  ∧ toString <$> operator_mod (hex "100") (hex "f") = Ok "1".
Proof. by_evaluation. Qed.

Example scenario_modPow :
  toString <$> fst (modPow (hex "2") (hex "10") (hex "d") ∅) = Ok "3".
Proof. vm_compute. reflexivity. Qed.

(** Where [BigInt.cpp] departs from [BigIntv1.cpp]: its [toString] prints
    the sign of a zero, its decimal
    [createFromString] keeps leading zeros, its decimal [compare] ignores the
    signs, and its decimal [operator+] rejects operands of [MAX_DIGITS - 1]
    digits even when the sum fits. *)
Example BigInt_cpp_renders_negative_zero :
  toString <$> createFromString "-0" = Ok "-0".
Proof. by_evaluation. Qed.

Example BigInt_cpp_keeps_leading_zeros :
  BigInt.length <$> BigInt.createFromString "007" = Ok 3.
Proof. by_evaluation. Qed.

Example BigInt_cpp_compare_ignores_signs :
  BigInt.compare (dec "-5") (dec "3") = 1.
Proof. by_evaluation. Qed.

Example BigInt_cpp_add_rejects_a_sum_that_fits :
  let a := BigInt.mk (BigInt.setz BigInt.zeros 616 1) 617 false in
  dec_value a = 10 ^ 616
  /\ BigInt.operator_add a (dec "0") = Throw (OverflowException "addition").
Proof. by_evaluation. Qed.

(** C1.  The division identity [a = q*b + r] with [|r| < |b|] fails in each
    copy of [divide].
    - [BigInt.cpp]: [divide] is a stub that only treats [a = b] and
      [|a| < |b|]; for [0x100] and [0xf] its [operator/] and [operator%]
      return 0 and 0, where the long division returns 0x11 and 0x1.
    - the split version: [compare] and [operator-] read [HEX_SIZE] positions
      only, so the 65-digit sum [0xff..f + 1] divided by 2 is taken for the
      smaller operand: the quotient is 0 and the remainder the dividend.
    - [BigIntv1.cpp]: when [|a| < |b|] the remainder is the absolute value of
      the dividend: [-5] divided by [7] gives 0 and [+5]. *)
Theorem divide_breaks_the_identity :
  let a := hex "100" in
  let b := hex "f" in
  let big := operator_add
               (hex "ffffffffffffffffffffffffffffffffffffffffffffffffffffffffffffffff")
               (hex "1") in
  (* BigInt.cpp *)
  of_string "100" = Ok a /\ of_string "f" = Ok b
  /\ value a = 256 /\ value b = 15
  /\ value <$> operator_div_BigInt_cpp a b = Ok 0
  /\ value <$> operator_mod_BigInt_cpp a b = Ok 0
  /\ value <$> operator_div a b = Ok 17
  /\ value <$> operator_mod a b = Ok 1
  (* the split version *)
  /\ value big = 16 ^ 64 /\ length big = 65
  /\ value <$> operator_div big (hex "2") = Ok 0
  /\ value <$> operator_mod big (hex "2") = Ok (16 ^ 64)
  (* BigIntv1.cpp *)
  /\ V1Spec.value <$> V1.BigHexInt.operator_div (V1Spec.hex "-5") (V1Spec.hex "7") = Ok 0
  /\ V1Spec.value <$> V1.BigHexInt.operator_mod (V1Spec.hex "-5") (V1Spec.hex "7") = Ok 5.
Proof. by_evaluation. Qed.

(** C2.  Karatsuba and naive multiplication disagree on operands within the
    input capacity.  On the 33-digit and 32-digit operands below the
    recombination [part1 + part2] carries into position [HEX_SIZE], which the
    following [temp + z0] does not read: [karatsuba] returns a product that
    lacks its top digits, where [multiplyNaive] returns the product.  On
    [0x1 0^32] squared, [shiftLeft] throws where [multiplyNaive] returns the
    65-digit product.  [operator*] selects [karatsuba] for both pairs. *)
Theorem karatsuba_disagrees_with_multiplyNaive :
  let a := hex "100000000000000010000000000000000" in
  let b := hex "ffffffffffffffff1000000000000000" in
  let c := hex "100000000000000000000000000000000" in
  value <$> multiplyNaive a b = Ok (value a * value b)
  ∧ toString <$> multiplyNaive a b
    = Ok "100000000000000000fffffffffffffff10000000000000000000000000000000"
  ∧ toString <$> fst (karatsuba (Z.to_nat MAX_HEX_RESULT_SIZE) a b ∅)
    = Ok "fffffffffffffff10000000000000000000000000000000"
  ∧ toString <$> fst (operator_mul_BigInt_cpp a b ∅)
    = Ok "fffffffffffffff10000000000000000000000000000000"
  ∧ value <$> multiplyNaive c c = Ok (value c * value c)
  ∧ fst (karatsuba (Z.to_nat MAX_HEX_RESULT_SIZE) c c ∅)
    = Throw (OverflowException "shift left operation")
  ∧ fst (operator_mul_BigInt_cpp c c ∅)
    = Throw (OverflowException "shift left operation").
Proof. by_evaluation. Qed.

(** C9.  A cache hit changes the outcome of [operator*]: the first product of
    [0xffff] and the 64-digit [0xff..f] is computed by [multiplyNaive] and has
    68 digits; the second call finds it in [karatsubaMemo] and rebuilds it
    with [createFromString], which rejects more than [HEX_SIZE] digits. *)
Theorem cache_hit_changes_the_outcome :
  let a := hex "ffff" in
  let b := hex "ffffffffffffffffffffffffffffffffffffffffffffffffffffffffffffffff" in
  let first := operator_mul_BigInt_cpp a b ∅ in
  let second := operator_mul_BigInt_cpp a b (snd first) in
  value <$> fst first = Ok (value a * value b)
  ∧ toString <$> fst first
    = Ok "fffeffffffffffffffffffffffffffffffffffffffffffffffffffffffffffff0001"
  ∧ fst second = Throw (OverflowException "BigHexInt creation - exceeds 64 isHex digits")
  ∧ fst (operator_mul a b (snd (operator_mul a b ∅)))
    = Throw (OverflowException "BigHexInt creation - exceeds 64 isHex digits").
Proof. by_evaluation. Qed.

(** *** [isZero] and [isOne] read as tests on the value *)

Lemma wf_range (x : t) :
  wf x = true ->
  1 <= length x
  /\ forall i, 0 <= i < length x -> 0 <= convertHexDigitToInt (get (digits x) i) <= 15.
Proof.
  unfold wf. rewrite !andb_true_iff, !Z.leb_le, Z.eqb_eq, forallb_forall.
  intros [[[H1 H2] H3] H4]. split; [exact H1|].
  intros i Hi. apply is_hex_range. apply H4. rewrite get_nonneg by lia.
  replace (nth (Z.to_nat i) (digits x) NUL)
    with (nth (Z.to_nat i) (take (Z.to_nat (length x)) (digits x)) NUL).
  - apply nth_In. rewrite length_take. unfold MAX_HEX_RESULT_SIZE in *. lia.
  - rewrite !nth_lookup. rewrite lookup_take_lt by lia. reflexivity.
Qed.

Lemma digit_zero_iff (c : ascii) :
  0 <= convertHexDigitToInt c <= 15 -> ascii_eqb c "0" = (convertHexDigitToInt c =? 0).
Proof.
  destruct c as [[] [] [] [] [] [] [] []]; vm_compute; intros [H1 H2];
    solve [reflexivity | exfalso; apply H1; reflexivity | exfalso; apply H2; reflexivity].
Qed.

Lemma digit_one_iff (c : ascii) :
  0 <= convertHexDigitToInt c <= 15 -> ascii_eqb c "1" = (convertHexDigitToInt c =? 1).
Proof.
  destruct c as [[] [] [] [] [] [] [] []]; vm_compute; intros [H1 H2];
    solve [reflexivity | exfalso; apply H1; reflexivity | exfalso; apply H2; reflexivity].
Qed.

(** The scan of [isZero] over the positions below [n]. *)
Lemma zero_scan (d : list ascii) (lo n : Z) :
  0 <= lo <= n ->
  (forall i, 0 <= i < n -> 0 <= convertHexDigitToInt (get d i) <= 15) ->
  for_up lo n (fun i ok => ok && ascii_eqb (get d i) "0") true
  = (mag_upto d (Z.to_nat n) =? mag_upto d (Z.to_nat lo)).
Proof.
  intros Hn Hd.
  apply (for_up_inv
           (fun i acc => acc = (mag_upto d (Z.to_nat i) =? mag_upto d (Z.to_nat lo))) lo n).
  - lia.
  - symmetry. apply Z.eqb_refl.
  - intros i acc Hi ->.
    replace (Z.to_nat (i + 1)) with (S (Z.to_nat i)) by lia.
    simpl mag_upto. rewrite Z2Nat.id by lia.
    rewrite (digit_zero_iff _ (Hd i ltac:(lia))).
    pose proof (Hd i ltac:(lia)) as Hc.
    assert (Hp : 0 < 16 ^ i) by (apply Z.pow_pos_nonneg; lia).
    assert (Hmono : mag_upto d (Z.to_nat lo) <= mag_upto d (Z.to_nat i)).
    { rewrite <- (Z2Nat.id i) in Hi by lia. revert Hi.
      generalize (Z.to_nat i) as k. induction k as [|k IH]; intros Hk.
      - replace (Z.to_nat lo) with O by lia. lia.
      - destruct (Z.eq_dec lo (Z.of_nat (S k))) as [E|E].
        + rewrite E, Nat2Z.id. lia.
        + specialize (IH ltac:(lia)). simpl mag_upto.
          pose proof (Hd (Z.of_nat k) ltac:(lia)).
          assert (0 < 16 ^ Z.of_nat k) by (apply Z.pow_pos_nonneg; lia). nia. }
    destruct (Z.eqb_spec (mag_upto d (Z.to_nat i)) (mag_upto d (Z.to_nat lo))) as [E|E];
      destruct (Z.eqb_spec (convertHexDigitToInt (get d i)) 0) as [E0|E0]; simpl;
      symmetry; [apply Z.eqb_eq | apply Z.eqb_neq | apply Z.eqb_neq | apply Z.eqb_neq]; nia.
Qed.

Lemma magnitude_nonneg (x : t) : wf x = true -> 0 <= magnitude x.
Proof.
  intros W. destruct (wf_range x W) as [L H].
  pose proof (mag_upto_bound (digits x) (Z.to_nat (length x))
                ltac:(intros; apply H; lia)). unfold magnitude. lia.
Qed.

Lemma isZero_value (x : t) : wf x = true -> isZero x = (value x =? 0).
Proof.
  intros W. destruct (wf_range x W) as [L H].
  unfold isZero. rewrite (zero_scan (digits x) 0 (length x)) by (lia || exact H).
  change (mag_upto (digits x) (Z.to_nat 0)) with 0.
  unfold value, signed. fold (magnitude x).
  destruct (isNegative x); [|reflexivity].
  destruct (Z.eqb_spec (magnitude x) 0), (Z.eqb_spec (- magnitude x) 0); try reflexivity; lia.
Qed.

Lemma isOne_value (x : t) : wf x = true -> isOne x = (Z.abs (value x) =? 1).
Proof.
  intros W. destruct (wf_range x W) as [L H].
  pose proof (magnitude_nonneg x W) as Hm.
  assert (Ha : Z.abs (value x) = magnitude x)
    by (unfold value, signed; destruct (isNegative x); lia).
  rewrite Ha. unfold isOne.
  destruct (Z.ltb_spec (length x) 1) as [?|_]; [lia|].
  rewrite (digit_one_iff _ (H 0 ltac:(lia))).
  rewrite (zero_scan (digits x) 1 (length x)) by (lia || exact H).
  change (mag_upto (digits x) (Z.to_nat 1)) with (0 + convertHexDigitToInt (get (digits x) 0) * 1).
  fold (magnitude x).
  (* the magnitude is the low digit plus a multiple of sixteen *)
  assert (Hsplit : exists q, 0 <= q
            /\ magnitude x = convertHexDigitToInt (get (digits x) 0) + 16 * q).
  { unfold magnitude. clear Ha Hm.
    assert (Hk : (1 <= Z.to_nat (length x))%nat) by lia.
    assert (Hr : forall i, 0 <= i < Z.of_nat (Z.to_nat (length x)) ->
                           0 <= convertHexDigitToInt (get (digits x) i) <= 15)
      by (intros; apply H; lia).
    revert Hk Hr. generalize (Z.to_nat (length x)) as k.
    induction k as [|k IH]; intros Hk Hr; [lia|].
    destruct k as [|k].
    - exists 0. split; [lia|]. simpl. change (Z.of_nat 0) with 0. lia.
    - destruct (IH ltac:(lia) ltac:(intros; apply Hr; lia)) as (q & Hq & E).
      pose proof (Hr (Z.of_nat (S k)) ltac:(lia)) as Hc.
      exists (q + convertHexDigitToInt (get (digits x) (Z.of_nat (S k))) * 16 ^ Z.of_nat k).
      assert (0 <= 16 ^ Z.of_nat k) by (apply Z.pow_nonneg; lia).
      split; [nia|].
      change (mag_upto (digits x) (S (S k)))
        with (mag_upto (digits x) (S k)
              + convertHexDigitToInt (get (digits x) (Z.of_nat (S k))) * 16 ^ Z.of_nat (S k)).
      rewrite E, Nat2Z.inj_succ, Z.pow_succ_r by lia. ring. }
  destruct Hsplit as (q & Hq & E).
  pose proof (H 0 ltac:(lia)) as Hc.
  destruct (Z.eqb_spec (convertHexDigitToInt (get (digits x) 0)) 1) as [E1|E1]; simpl.
  - rewrite E1. f_equal; lia.
  - symmetry. apply Z.eqb_neq. lia.
Qed.

(** C3, the claim as stated fails.  With modulus one, [modPow] returns zero
    for the negative exponent -1, and so it does for base zero and modulus
    five; with modulus minus one it returns zero for the exponent zero and
    for the negative exponent -3; and the failure on a zero modulus is a
    [std::invalid_argument], not a [DivisionByZeroException]. *)
Lemma modPow_returns_on_negative_exponents :
  isNegative (hex "-1") = true ∧ value (hex "-1") = -1
  ∧ value <$> fst (modPow (hex "2") (hex "-1") (hex "1") ∅) = Ok 0
  ∧ value <$> fst (modPow (hex "0") (hex "-1") (hex "5") ∅) = Ok 0
  ∧ value <$> fst (modPow (hex "2") (hex "0") (hex "-1") ∅) = Ok 0
  ∧ value (hex "-3") = -3
  ∧ value <$> fst (modPow (hex "2") (hex "-3") (hex "-1") ∅) = Ok 0
  ∧ fst (modPow (hex "2") (hex "3") (hex "0") ∅)
    = Throw (std_invalid_argument "Modulus cannot be zero").
Proof. by_evaluation. Qed.

(** C3, amended.  The case ladder of [modPow] on well-formed values, read on
    the integers they stand for: a zero modulus fails with
    [std::invalid_argument]; a modulus of one or minus one gives zero,
    whatever the exponent; for any other modulus a zero exponent gives one, a
    zero base with a positive exponent gives zero, and a negative exponent
    with a base that is not zero fails with [std::invalid_argument].  The
    values returned are the literals [0] and [1], and none of these cases
    reads or writes the memoization table. *)
Theorem modPow_case_ladder (a exponent modulus : t) (memo : memo_t) :
  wf a = true → wf exponent = true → wf modulus = true →
  (value modulus = 0 →
   modPow a exponent modulus memo
   = (Throw (std_invalid_argument "Modulus cannot be zero"), memo))
  ∧ (Z.abs (value modulus) = 1 →
     modPow a exponent modulus memo = (Ok (hex "0"), memo))
  ∧ (1 < Z.abs (value modulus) → value exponent = 0 →
     modPow a exponent modulus memo = (Ok (hex "1"), memo))
  ∧ (1 < Z.abs (value modulus) → 0 < value exponent → value a = 0 →
     modPow a exponent modulus memo = (Ok (hex "0"), memo))
  ∧ (1 < Z.abs (value modulus) → value exponent < 0 → value a ≠ 0 →
     modPow a exponent modulus memo
     = (Throw (std_invalid_argument
                 "Negative exponents not supported in modular exponentiation"), memo))
  ∧ value (hex "0") = 0 ∧ toString (hex "0") = "0"
  ∧ value (hex "1") = 1 ∧ toString (hex "1") = "1".
Proof.
  intros Wa We Wm. unfold modPow.
  rewrite (isZero_value modulus Wm), (isOne_value modulus Wm),
    (isZero_value exponent We), (isZero_value a Wa).
  assert (Hneg : value exponent < 0 → isNegative exponent = true).
  { unfold value, signed. pose proof (magnitude_nonneg exponent We).
    destruct (isNegative exponent); [reflexivity | lia]. }
  split; [|split; [|split; [|split; [|split]]]].
  - intros E. rewrite E. reflexivity.
  - intros E.
    destruct (Z.eqb_spec (value modulus) 0) as [E0|_]; [rewrite E0 in E; discriminate E|].
    rewrite E. reflexivity.
  - intros Hm E.
    destruct (Z.eqb_spec (value modulus) 0) as [E0|_]; [rewrite E0 in Hm; simpl in Hm; lia|].
    destruct (Z.eqb_spec (Z.abs (value modulus)) 1) as [E1|_]; [lia|].
    rewrite E. reflexivity.
  - intros Hm He E.
    destruct (Z.eqb_spec (value modulus) 0) as [E0|_]; [rewrite E0 in Hm; simpl in Hm; lia|].
    destruct (Z.eqb_spec (Z.abs (value modulus)) 1) as [E1|_]; [lia|].
    destruct (Z.eqb_spec (value exponent) 0) as [E2|_]; [lia|].
    rewrite E. reflexivity.
  - intros Hm He Ha.
    destruct (Z.eqb_spec (value modulus) 0) as [E0|_]; [rewrite E0 in Hm; simpl in Hm; lia|].
    destruct (Z.eqb_spec (Z.abs (value modulus)) 1) as [E1|_]; [lia|].
    destruct (Z.eqb_spec (value exponent) 0) as [E2|_]; [lia|].
    destruct (Z.eqb_spec (value a) 0) as [E3|_]; [contradiction|].
    rewrite (Hneg He). reflexivity.
  - by_evaluation.
Qed.

Lemma modPow_case_ladder_witness :
  modPow (hex "2") (hex "3") (hex "0") ∅
  = (Throw (std_invalid_argument "Modulus cannot be zero"), ∅)
  ∧ modPow (hex "2") (hex "-3") (hex "-1") ∅ = (Ok (hex "0"), ∅)
  ∧ modPow (hex "2") (hex "0") (hex "d") ∅ = (Ok (hex "1"), ∅)
  ∧ modPow (hex "0") (hex "3") (hex "d") ∅ = (Ok (hex "0"), ∅)
  ∧ modPow (hex "2") (hex "-3") (hex "d") ∅
    = (Throw (std_invalid_argument
                "Negative exponents not supported in modular exponentiation"), ∅).
Proof.
  split; [|split; [|split; [|split]]].
  - destruct (modPow_case_ladder (hex "2") (hex "3") (hex "0") ∅) as (H & _);
      [vm_compute; reflexivity ..|].
    apply H. vm_compute. reflexivity.
  - destruct (modPow_case_ladder (hex "2") (hex "-3") (hex "-1") ∅) as (_ & H & _);
      [vm_compute; reflexivity ..|].
    apply H. vm_compute. reflexivity.
  - destruct (modPow_case_ladder (hex "2") (hex "0") (hex "d") ∅) as (_ & _ & H & _);
      [vm_compute; reflexivity ..|].
    apply H; vm_compute; reflexivity.
  - destruct (modPow_case_ladder (hex "0") (hex "3") (hex "d") ∅) as (_ & _ & _ & H & _);
      [vm_compute; reflexivity ..|].
    apply H; vm_compute; reflexivity.
  - destruct (modPow_case_ladder (hex "2") (hex "-3") (hex "d") ∅)
      as (_ & _ & _ & _ & H & _); [vm_compute; reflexivity ..|].
    apply H; [vm_compute; reflexivity | vm_compute; reflexivity | vm_compute; discriminate].
Defined.

(** C5.  [BigInt::compare] of BigInt.cpp never reads the signs: it places -5
    above 3 and above -3.  The same class in BigIntv1.cpp and
    [BigHexInt::compare] of BigInt.cpp itself decide by the signs first and
    invert the order of two negative operands. *)
Theorem BigInt_compare_ignores_the_signs :
  dec_value (dec "-5") = -5 ∧ dec_value (dec "3") = 3 ∧ dec_value (dec "-3") = -3
  ∧ BigInt.compare (dec "-5") (dec "3") = 1
  ∧ BigInt.compare (dec "-5") (dec "-3") = 1
  ∧ V1.BigInt.compare (V1Spec.dec "-5") (V1Spec.dec "3") = -1
  ∧ V1.BigInt.compare (V1Spec.dec "-5") (V1Spec.dec "-3") = -1
  ∧ compare (hex "-5") (hex "3") = -1
  ∧ compare (hex "-5") (hex "-3") = -1.
Proof. by_evaluation. Qed.

(** C8.  [BigInt::operator+] of BigInt.cpp tests the length of the longer
    operand against [MAX_DIGITS - 1] before it adds: the 617-digit value
    [10^616] plus zero throws [OverflowException], although the sum has 617
    digits and the buffer holds [MAX_DIGITS = 618].  The same class in
    BigIntv1.cpp tests the position it is about to write and returns the
    sum. *)
Theorem BigInt_operator_add_rejects_a_sum_that_fits :
  let text := "1" +:+ V1.zeros_text 616 in
  BigInt.length (dec text) = 617 ∧ dec_value (dec text) = 10 ^ 616
  ∧ dec_value (dec "0") = 0
  ∧ BigInt.operator_add (dec text) (dec "0") = Throw (OverflowException "addition")
  ∧ V1Spec.dec_value <$> V1.BigInt.operator_add (V1Spec.dec text) (V1Spec.dec "0")
    = Ok (10 ^ 616).
Proof. by_evaluation. Qed.

End V0Facts.

(** ** Facts about [BigIntv1.cpp] *)

Module V1Facts.
Import V1 V1.BigHexInt V1Spec.

Lemma wf_elim (x : t) :
  wf x = true ->
  1 <= length x <= HEX_SIZE
  /\ Z.of_nat (List.length (digits x)) = HEX_SIZE
  /\ forall i, 0 <= i < length x -> is_hex (get (digits x) i) = true.
Proof.
  unfold wf. rewrite !andb_true_iff, !Z.leb_le, Z.eqb_eq, forallb_forall.
  intros [[[H1 H2] H3] H4]. repeat split; try assumption.
  intros i Hi. apply H4. rewrite get_nonneg by lia.
  replace (nth (Z.to_nat i) (digits x) NUL)
    with (nth (Z.to_nat i) (take (Z.to_nat (length x)) (digits x)) NUL).
  - apply nth_In. rewrite length_take. unfold HEX_SIZE in *. lia.
  - rewrite !nth_lookup. rewrite lookup_take_lt by lia. reflexivity.
Qed.

Lemma wf_digits (x : t) :
  wf x = true ->
  forall i, 0 <= i < Z.of_nat (Z.to_nat (length x)) ->
            0 <= convertHexDigitToInt (get (digits x) i) <= 15.
Proof.
  intros H i Hi. destruct (wf_elim x H) as (H1 & _ & H3).
  apply is_hex_range. apply H3. lia.
Qed.

Lemma magnitude_bound (x : t) :
  wf x = true -> 0 <= magnitude x < 16 ^ length x.
Proof.
  intros H. destruct (wf_elim x H) as (H1 & _ & _).
  pose proof (mag_upto_bound (digits x) (Z.to_nat (length x)) (wf_digits x H)) as Hb.
  rewrite Z2Nat.id in Hb by lia. exact Hb.
Qed.

Lemma canonical_elim (x : t) :
  canonical x = true ->
  wf x = true
  /\ (length x = 1 \/ convertHexDigitToInt (get (digits x) (length x - 1)) <> 0)
  /\ (isNegative x = true -> magnitude x <> 0).
Proof.
  unfold canonical. rewrite !andb_true_iff, orb_true_iff, !negb_true_iff, Z.eqb_eq.
  intros [[H1 H2] H3]. split; [exact H1|]. split.
  - destruct H2 as [H2|H2]; [left; exact H2 | right; apply Z.eqb_neq; exact H2].
  - intros Hn. rewrite Hn in H3. simpl in H3. apply Z.eqb_neq. exact H3.
Qed.

Lemma canonical_lower (x : t) :
  canonical x = true -> 1 < length x -> 16 ^ (length x - 1) <= magnitude x.
Proof.
  intros H Hlen. destruct (canonical_elim x H) as (Hwf & [Hl|Htop] & _); [lia|].
  destruct (wf_elim x Hwf) as (H1 & _ & _).
  unfold magnitude.
  replace (Z.to_nat (length x)) with (S (Z.to_nat (length x - 1))) by lia.
  replace (length x - 1) with (Z.of_nat (Z.to_nat (length x - 1))) at 1 by lia.
  apply mag_upto_top.
  - intros i Hi. apply (wf_digits x Hwf). lia.
  - rewrite Z2Nat.id by lia. exact Htop.
Qed.

Lemma first_difference_spec (a b : t) (n : nat) :
  n = Z.to_nat (length a) ->
  (forall j, 0 <= j < Z.of_nat n -> 0 <= convertHexDigitToInt (get (digits a) j) <= 15) ->
  (forall j, 0 <= j < Z.of_nat n -> 0 <= convertHexDigitToInt (get (digits b) j) <= 15) ->
  match first_difference a b with
  | Some c => (c = 1 /\ mag_upto (digits b) n < mag_upto (digits a) n)
              \/ (c = -1 /\ mag_upto (digits a) n < mag_upto (digits b) n)
  | None => mag_upto (digits a) n = mag_upto (digits b) n
  end.
Proof.
  intros Hn Ha Hb. unfold first_difference.
  set (body := fun (i : Z) (r : option Z) => _).
  set (P := fun (i : Z) (r : option Z) =>
              match r with
              | Some c => (c = 1 /\ mag_upto (digits b) n < mag_upto (digits a) n)
                          \/ (c = -1 /\ mag_upto (digits a) n < mag_upto (digits b) n)
              | None => forall j, i < j < Z.of_nat n ->
                                  convertHexDigitToInt (get (digits a) j)
                                  = convertHexDigitToInt (get (digits b) j)
              end).
  destruct (Z.le_gt_cases (length a) 0) as [Hlen|Hlen].
  { unfold for_down. replace (Z.to_nat (length a - 1 - 0 + 1)) with O by lia.
    simpl. replace n with O by lia. reflexivity. }
  assert (HP : P (0 - 1) (for_down (length a - 1) 0 body None)).
  { apply for_down_inv.
    - lia.
    - unfold P. intros j Hj. lia.
    - intros i r Hi HPr. unfold P in *. destruct r as [c|].
      + subst body. simpl. exact HPr.
      + subst body. cbv beta.
        destruct (Z.eqb_spec (convertHexDigitToInt (get (digits a) i))
                             (convertHexDigitToInt (get (digits b) i))) as [E|E]; simpl.
        * intros j Hj. destruct (Z.eq_dec j i) as [->|Hne]; [exact E | apply HPr; lia].
        * destruct (Z.gtb_spec (convertHexDigitToInt (get (digits a) i))
                               (convertHexDigitToInt (get (digits b) i))) as [G|G].
          -- left. split; [reflexivity|].
             apply (mag_upto_decided_at (digits b) (digits a) (Z.to_nat i) n);
               try assumption; try lia.
             ++ intros j Hj. symmetry. apply HPr. lia.
             ++ rewrite Z2Nat.id by lia. lia.
          -- right. split; [reflexivity|].
             apply (mag_upto_decided_at (digits a) (digits b) (Z.to_nat i) n);
               try assumption; try lia.
             ++ intros j Hj. apply HPr. lia.
             ++ rewrite Z2Nat.id by lia. lia. }
  unfold P in HP. destruct (for_down (length a - 1) 0 body None) as [c|]; [exact HP|].
  apply mag_upto_eq. intros j Hj. apply HP. lia.
Qed.

Lemma compare_sgn (a b : t) :
  canonical a = true -> canonical b = true ->
  compare a b = Z.sgn (value a - value b).
Proof.
  intros Ca Cb.
  destruct (canonical_elim a Ca) as (Wa & Ta & Na).
  destruct (canonical_elim b Cb) as (Wb & Tb & Nb).
  pose proof (magnitude_bound a Wa) as Ba.
  pose proof (magnitude_bound b Wb) as Bb.
  destruct (wf_elim a Wa) as (La & _ & _).
  destruct (wf_elim b Wb) as (Lb & _ & _).
  unfold compare, value, signed.
  destruct (isNegative a) eqn:Ea, (isNegative b) eqn:Eb; simpl;
    try (specialize (Na eq_refl)); try (specialize (Nb eq_refl)); try lia.
  - (* both negative *)
    destruct (Z.eqb_spec (length a) (length b)) as [E|E]; simpl.
    + pose proof (first_difference_spec a b _ eq_refl (wf_digits a Wa)) as Hfd.
      unfold magnitude. rewrite <- E.
      specialize (Hfd ltac:(rewrite E; apply (wf_digits b Wb))).
      destruct (first_difference a b) as [c|]; [|lia].
      destruct Hfd as [[-> H]|[-> H]]; lia.
    + destruct (Z.gtb_spec (length a) (length b)) as [G|G].
      * pose proof (canonical_lower a Ca ltac:(lia)) as Hl.
        assert (16 ^ length b <= 16 ^ (length a - 1)) by (apply Z.pow_le_mono_r; lia).
        lia.
      * pose proof (canonical_lower b Cb ltac:(lia)) as Hl.
        assert (16 ^ length a <= 16 ^ (length b - 1)) by (apply Z.pow_le_mono_r; lia).
        lia.
  - (* both non-negative *)
    destruct (Z.eqb_spec (length a) (length b)) as [E|E]; simpl.
    + pose proof (first_difference_spec a b _ eq_refl (wf_digits a Wa)) as Hfd.
      unfold magnitude. rewrite <- E.
      specialize (Hfd ltac:(rewrite E; apply (wf_digits b Wb))).
      destruct (first_difference a b) as [c|]; [|lia].
      destruct Hfd as [[-> H]|[-> H]]; lia.
    + destruct (Z.gtb_spec (length a) (length b)) as [G|G].
      * pose proof (canonical_lower a Ca ltac:(lia)) as Hl.
        assert (16 ^ length b <= 16 ^ (length a - 1)) by (apply Z.pow_le_mono_r; lia).
        lia.
      * pose proof (canonical_lower b Cb ltac:(lia)) as Hl.
        assert (16 ^ length a <= 16 ^ (length b - 1)) by (apply Z.pow_le_mono_r; lia).
        lia.
Qed.

Lemma of_string_small :
  of_string "0" = Ok (hex "0") /\ of_string "1" = Ok (hex "1")
  /\ of_string "2" = Ok (hex "2") /\ of_string "3" = Ok (hex "3").
Proof. by_evaluation. Qed.

Lemma small_constants :
  canonical (hex "1") = true /\ value (hex "1") = 1
  /\ canonical (hex "2") = true /\ value (hex "2") = 2
  /\ canonical (hex "3") = true /\ value (hex "3") = 3.
Proof. by_evaluation. Qed.

Lemma mag_upto_parity (d : list ascii) (n : nat) :
  Z.even (mag_upto d (S n)) = Z.even (convertHexDigitToInt (get d 0)).
Proof.
  induction n as [|n IH].
  - simpl. f_equal. change (Z.of_nat 0) with 0. lia.
  - change (mag_upto d (S (S n)))
      with (mag_upto d (S n) + convertHexDigitToInt (get d (Z.of_nat (S n))) * 16 ^ Z.of_nat (S n)).
    rewrite Z.even_add, IH.
    rewrite Nat2Z.inj_succ, Z.pow_succ_r by lia.
    replace (convertHexDigitToInt (get d (Z.succ (Z.of_nat n))) * (16 * 16 ^ Z.of_nat n))
      with (2 * (8 * convertHexDigitToInt (get d (Z.succ (Z.of_nat n))) * 16 ^ Z.of_nat n)) by ring.
    rewrite Z.even_mul. change (Z.even 2) with true. simpl orb.
    clear IH. destruct (Z.even (convertHexDigitToInt (get d 0))); reflexivity.
Qed.

Lemma isEven_spec (x : t) :
  wf x = true -> isEven x = Z.even (value x).
Proof.
  intros W. destruct (wf_elim x W) as (L & _ & Hd).
  pose proof (is_hex_range _ (Hd 0 ltac:(lia))) as R.
  unfold isEven, value, signed, magnitude.
  replace (Z.to_nat (length x)) with (S (Z.to_nat (length x - 1))) by lia.
  assert (E : Z.even (mag_upto (digits x) (S (Z.to_nat (length x - 1))))
              = (Z.rem (convertHexDigitToInt (get (digits x) 0)) 2 =? 0)).
  { rewrite mag_upto_parity. rewrite Z.rem_mod_nonneg by lia.
    rewrite Zeven_mod. reflexivity. }
  destruct (isNegative x); [rewrite Z.even_opp|]; symmetry; exact E.
Qed.

(** C6.  [millerRabinTest] answers before any witness is drawn, whatever the
    iteration count, the generator and the memoization table are: false for
    [n <= 1], true for 2 and for 3, false for every even [n > 2].  The state
    is returned unchanged. *)
Theorem millerRabinTest_decides_small_and_even_inputs (draws : nat -> Z) (rfuel : nat) (n : t) (k : Z) (st : state) :
  canonical n = true ->
  (value n <= 1 -> millerRabinTest draws rfuel n k st = (Ok false, st))
  /\ (value n = 2 \/ value n = 3 -> millerRabinTest draws rfuel n k st = (Ok true, st))
  /\ (2 < value n -> Z.even (value n) = true ->
      millerRabinTest draws rfuel n k st = (Ok false, st)).
Proof.
  intros C.
  destruct of_string_small as (E0 & E1 & E2 & E3).
  destruct small_constants as (C1 & V1 & C2 & V2 & C3 & V3).
  destruct (canonical_elim n C) as (W & _ & _).
  assert (Hrun : exists rest : M state bool,
            millerRabinTest draws rfuel n k st
            = (if compare n (hex "1") <=? 0 then mret false
               else if (compare n (hex "2") =? 0) || (compare n (hex "3") =? 0)
                    then mret true
               else if isEven n then mret false
               else rest) st).
  { unfold millerRabinTest.
    rewrite E0, Mbind_lift_Ok, E1, Mbind_lift_Ok, E2, Mbind_lift_Ok, E3, Mbind_lift_Ok.
    eexists. reflexivity. }
  destruct Hrun as [rest Hrun].
  rewrite Hrun.
  rewrite !(compare_sgn n) by assumption. rewrite V1, V2, V3.
  rewrite (isEven_spec n W).
  repeat split.
  - intros H. destruct (Z.leb_spec (Z.sgn (value n - 1)) 0); [reflexivity | lia].
  - intros H. destruct (Z.leb_spec (Z.sgn (value n - 1)) 0); [lia|].
    destruct (Z.eqb_spec (Z.sgn (value n - 2)) 0), (Z.eqb_spec (Z.sgn (value n - 3)) 0);
      simpl; try reflexivity; lia.
  - intros H Hev. rewrite Hev. apply Z.even_spec in Hev. destruct Hev as [q Hq].
    destruct (Z.leb_spec (Z.sgn (value n - 1)) 0); [lia|].
    destruct (Z.eqb_spec (Z.sgn (value n - 2)) 0), (Z.eqb_spec (Z.sgn (value n - 3)) 0);
      try lia; reflexivity.
Qed.

Lemma millerRabinTest_decides_small_and_even_inputs_witness :
  millerRabinTest (fun _ => 7) 4 (hex "-a") 10 (mkState ∅ 0) = (Ok false, mkState ∅ 0)
  /\ millerRabinTest (fun _ => 7) 4 (hex "3") 10 (mkState ∅ 0) = (Ok true, mkState ∅ 0)
  /\ millerRabinTest (fun _ => 7) 4 (hex "1c") 10 (mkState ∅ 0) = (Ok false, mkState ∅ 0).
Proof.
  split; [|split].
  - destruct (millerRabinTest_decides_small_and_even_inputs
                (fun _ => 7) 4%nat (hex "-a") 10 (mkState ∅ 0)) as (H & _ & _).
    + vm_compute. reflexivity.
    + apply H. vm_compute. discriminate.
  - destruct (millerRabinTest_decides_small_and_even_inputs
                (fun _ => 7) 4%nat (hex "3") 10 (mkState ∅ 0)) as (_ & H & _).
    + vm_compute. reflexivity.
    + apply H. right. vm_compute. reflexivity.
  - destruct (millerRabinTest_decides_small_and_even_inputs
                (fun _ => 7) 4%nat (hex "1c") 10 (mkState ∅ 0)) as (_ & _ & H).
    + vm_compute. reflexivity.
    + apply H; vm_compute; reflexivity.
Defined.

(** X16.  [compare] orders canonical values as the integers they stand for:
    its result is the sign of [value a - value b].  Operands of different
    signs are decided by the signs alone, non-negative operands of different
    lengths by the lengths, and two negative operands are ordered opposite
    to their magnitudes. *)
Theorem compare_orders_as_integers (a b : t) :
  (canonical a = true -> canonical b = true -> compare a b = Z.sgn (value a - value b))
  /\ (isNegative a = true -> isNegative b = false -> compare a b = -1)
  /\ (isNegative a = false -> isNegative b = true -> compare a b = 1)
  /\ (isNegative a = false -> isNegative b = false -> length a <> length b ->
      compare a b = if length a >? length b then 1 else -1)
  /\ (isNegative a = true -> isNegative b = true ->
      compare a b = - compare (set_sign a false) (set_sign b false)).
Proof.
  split; [apply compare_sgn|].
  unfold compare, set_sign. simpl.
  repeat apply conj; intros Ha Hb; rewrite Ha, Hb; simpl; try reflexivity.
  - intros Hne. destruct (Z.eqb_spec (length a) (length b)); [contradiction|].
    simpl. destruct (length a >? length b); reflexivity.
  - destruct (length a =? length b); simpl.
    + unfold first_difference. simpl. destruct (for_down _ _ _ _); lia.
    + destruct (length a >? length b); reflexivity.
Qed.

Lemma compare_orders_as_integers_witness :
  compare (hex "-1f") (hex "a") = Z.sgn (value (hex "-1f") - value (hex "a"))
  /\ compare (hex "-1f") (hex "a") = -1
  /\ compare (hex "a") (hex "-1f") = 1
  /\ compare (hex "a") (hex "100") = -1
  /\ compare (hex "-1f") (hex "-a") = - compare (hex "1f") (hex "a").
Proof.
  split; [|split; [|split; [|split]]].
  - destruct (compare_orders_as_integers (hex "-1f") (hex "a")) as (H & _).
    apply H; vm_compute; reflexivity.
  - destruct (compare_orders_as_integers (hex "-1f") (hex "a")) as (_ & H & _).
    apply H; vm_compute; reflexivity.
  - destruct (compare_orders_as_integers (hex "a") (hex "-1f")) as (_ & _ & H & _).
    apply H; vm_compute; reflexivity.
  - destruct (compare_orders_as_integers (hex "a") (hex "100")) as (_ & _ & _ & H & _).
    apply H; vm_compute; try reflexivity. discriminate.
  - destruct (compare_orders_as_integers (hex "-1f") (hex "-a")) as (_ & _ & _ & _ & H).
    rewrite H by (vm_compute; reflexivity). vm_compute. reflexivity.
Defined.

Lemma mag_below_step (x : t) (i : Z) :
  0 <= i ->
  mag_below x (i + 1)
  = mag_below x i
    + (if i <? length x then convertHexDigitToInt (get (digits x) i) else 0) * 16 ^ i.
Proof.
  intros Hi. unfold mag_below.
  destruct (Z.ltb_spec i (length x)) as [H|H].
  - replace (Z.to_nat (Z.min (i + 1) (length x))) with (S (Z.to_nat i)) by lia.
    replace (Z.to_nat (Z.min i (length x))) with (Z.to_nat i) by lia.
    simpl. rewrite Z2Nat.id by lia. reflexivity.
  - replace (Z.min (i + 1) (length x)) with (Z.min i (length x)) by lia. lia.
Qed.

Lemma sub_loop_spec (L S : t) (n : Z) :
  0 <= n <= HEX_SIZE ->
  (forall j, 0 <= j < n -> 0 <= convertHexDigitToInt (get (digits L) j) <= 15) ->
  (forall j, 0 <= j < length S -> 0 <= convertHexDigitToInt (get (digits S) j) <= 15) ->
  exists d bw,
    sub_loop L S n = Ok (d, bw)
    /\ (bw = 0 \/ bw = 1)
    /\ Z.of_nat (List.length d) = HEX_SIZE
    /\ mag_upto d (Z.to_nat n)
       = mag_upto (digits L) (Z.to_nat n) - mag_below S n + bw * 16 ^ n
    /\ (forall j, 0 <= j < n -> is_hex (get d j) = true)
    /\ (forall j, n <= j -> get d j = get zeros j).
Proof.
  intros Hn HL HS. unfold sub_loop.
  set (body := fun (i : Z) (st : outcome (list ascii * Z)) => _).
  apply (for_up_inv
    (fun i st => exists d bw,
       st = Ok (d, bw)
       /\ (bw = 0 \/ bw = 1)
       /\ Z.of_nat (List.length d) = HEX_SIZE
       /\ mag_upto d (Z.to_nat i)
          = mag_upto (digits L) (Z.to_nat i) - mag_below S i + bw * 16 ^ i
       /\ (forall j, 0 <= j < i -> is_hex (get d j) = true)
       /\ (forall j, i <= j -> get d j = get zeros j))
    0 n body (Ok (zeros, 0))); [lia | |].
  - exists zeros, 0.
    split; [reflexivity|]. split; [left; reflexivity|]. split; [reflexivity|].
    split; [|split; [intros; lia | reflexivity]].
    unfold mag_below. destruct (Z.le_ge_cases 0 (length S)).
    + replace (Z.min 0 (length S)) with 0 by lia. reflexivity.
    + replace (Z.to_nat (Z.min 0 (length S))) with O by lia. reflexivity.
  - intros i st Hi (d & bw & -> & Hbw & Hlen & Hmag & Hhex & Hz).
    subst body. cbv beta. simpl mbind.
    set (dL := convertHexDigitToInt (get (digits L) i)).
    set (dS := if i <? length S then convertHexDigitToInt (get (digits S) i) else 0).
    assert (HdL : 0 <= dL <= 15) by (apply HL; lia).
    assert (HdS : 0 <= dS <= 15).
    { subst dS. destruct (Z.ltb_spec i (length S)); [apply HS; lia | lia]. }
    set (bw' := if dL - dS - bw <? 0 then 1 else 0).
    set (diff := if dL - dS - bw <? 0 then dL - dS - bw + 16 else dL - dS - bw).
    assert (Hdiff : 0 <= diff <= 15 /\ diff = dL - dS - bw + 16 * bw' /\ (bw' = 0 \/ bw' = 1)).
    { subst diff bw'. destruct (Z.ltb_spec (dL - dS - bw) 0); lia. }
    destruct Hdiff as (Hd1 & Hd2 & Hd3).
    destruct (convertIntToHexChar_ok "Invalid integer value for hex conversion: " diff Hd1)
      as (c & Hc & Hcv & Hch).
    exists (set d i c), bw'.
    split.
    { unfold mbind, outcome_bind. fold dL. fold dS.
      replace (if dL - dS - bw <? 0 then (dL - dS - bw + 16, 1) else (dL - dS - bw, 0))
        with (diff, bw') by (subst diff bw'; destruct (dL - dS - bw <? 0); reflexivity).
      unfold convertIntToHexChar. rewrite Hc. reflexivity. }
    split; [exact Hd3|].
    split; [rewrite length_set; exact Hlen|].
    split.
    { replace (Z.to_nat (i + 1)) with (Datatypes.S (Z.to_nat i)) by lia.
      simpl mag_upto. rewrite Z2Nat.id by lia.
      rewrite mag_upto_set_ge by lia. rewrite get_set_eq by (unfold HEX_SIZE in *; lia).
      rewrite Hcv, Hmag. rewrite mag_below_step by lia. fold dS. fold dL.
      rewrite Z.pow_add_r by lia. rewrite Hd2. ring. }
    split.
    { intros j Hj. destruct (Z.eq_dec j i) as [->|Hne].
      - rewrite get_set_eq by (unfold HEX_SIZE in *; lia). exact Hch.
      - rewrite get_set_ne by lia. apply Hhex. lia. }
    { intros j Hj. rewrite get_set_ne by lia. apply Hz. lia. }
Qed.
Lemma wf_intro (x : t) :
  1 <= length x <= HEX_SIZE ->
  Z.of_nat (List.length (digits x)) = HEX_SIZE ->
  (forall i, 0 <= i < length x -> is_hex (get (digits x) i) = true) ->
  wf x = true.
Proof.
  intros H1 H2 H3. unfold wf.
  rewrite !andb_true_iff, !Z.leb_le, Z.eqb_eq, forallb_forall.
  repeat split; try lia.
  intros c Hc. apply (In_nth _ _ NUL) in Hc. destruct Hc as (k & Hk & <-).
  rewrite length_take in Hk.
  rewrite nth_lookup, lookup_take_lt, <- nth_lookup by lia.
  rewrite <- (Nat2Z.id k), <- get_nonneg by lia. apply H3. lia.
Qed.

Lemma sub_core_spec (L S : t) (neg : bool) :
  wf L = true -> wf S = true ->
  exists r,
    sub_core L S neg = Ok r
    /\ 1 <= length r <= length L
    /\ wf r = true
    /\ (length S <= length L -> magnitude S <= magnitude L ->
        magnitude r = magnitude L - magnitude S
        /\ canonical r = true
        /\ (magnitude r <> 0 -> isNegative r = neg)).
Proof.
  intros WL WS.
  destruct (wf_elim L WL) as (LL & DL & HL).
  destruct (wf_elim S WS) as (LS & DS & HS).
  destruct (sub_loop_spec L S (length L) ltac:(lia)
              ltac:(intros; apply is_hex_range, HL; lia)
              ltac:(intros; apply is_hex_range, HS; lia))
    as (d & bw & Hrun & Hbw & Hlen & Hmag & Hhex & Hz).
  pose proof (strip_spec d (length L)) as Hs. cbv zeta in Hs.
  pose proof (mag_upto_strip d (length L) ltac:(lia)) as Hms.
  assert (Hcore : sub_core L S neg
                  = Ok (mk d (strip d (length L))
                          (if (strip d (length L) =? 1) && ascii_eqb (get d 0) "0"
                           then false else neg))).
  { unfold sub_core. rewrite Hrun. reflexivity. }
  remember (strip d (length L)) as rl eqn:Hrl. clear Hrl.
  destruct Hs as (S1 & S2 & S3 & S4).
  eexists. split; [exact Hcore|]. simpl.
  assert (Wr : forall b, wf (mk d rl b) = true).
  { intros b. apply wf_intro; simpl; [lia | exact Hlen | intros; apply Hhex; lia]. }
  split; [lia|]. split; [apply Wr|].
  intros Hle Hmle.
  assert (Hb : bw = 0).
  { pose proof (mag_upto_bound d (Z.to_nat (length L))
                  ltac:(intros; apply is_hex_range, Hhex; lia)) as Bd.
    rewrite Z2Nat.id in Bd by lia.
    unfold mag_below in Hmag. replace (Z.min (length L) (length S)) with (length S) in Hmag by lia.
    unfold magnitude in Hmle. destruct Hbw as [->| ->]; [reflexivity | lia]. }
  assert (Hm : magnitude (mk d rl (if (rl =? 1) && ascii_eqb (get d 0) "0" then false else neg))
               = magnitude L - magnitude S).
  { unfold magnitude at 1. simpl. rewrite Hms.
    rewrite Hmag, Hb. unfold mag_below, magnitude.
    replace (Z.min (length L) (length S)) with (length S) by lia. lia. }
  split; [exact Hm|].
  assert (Hzero : (rl =? 1) && ascii_eqb (get d 0) "0" = true ->
                  magnitude (mk d rl false) = 0).
  { rewrite andb_true_iff, Z.eqb_eq, ascii_eqb_eq. intros [E1 E2].
    unfold magnitude. simpl. rewrite E1. change (Z.to_nat 1) with 1%nat.
    simpl mag_upto. change (Z.of_nat 0) with 0. rewrite E2. reflexivity. }
  split.
  - unfold canonical. rewrite Wr. simpl.
    rewrite andb_true_iff. split.
    + destruct S4 as [S4|S4].
      * replace rl with 1 by lia. reflexivity.
      * apply orb_true_iff. right. apply negb_true_iff, Z.eqb_neq.
        intros E. apply S4. apply hex_zero_iff; [apply Hhex; lia | exact E].
    + destruct ((rl =? 1) && ascii_eqb (get d 0) "0") eqn:E; [reflexivity|].
      destruct neg; [|reflexivity]. simpl. apply negb_true_iff, Z.eqb_neq.
      (* the digits are not a single zero, so the magnitude is not zero *)
      intros Hm0. unfold magnitude in Hm0. simpl in Hm0.
      pose proof (mag_upto_zero_all d (Z.to_nat rl)
                    ltac:(intros; apply is_hex_range, Hhex; lia) Hm0) as Hall.
      assert (Hrl : rl = 1).
      { destruct S4 as [S4|S4]; [lia|]. exfalso. apply S4.
        apply hex_zero_iff; [apply Hhex; lia | apply Hall; lia]. }
      apply andb_false_iff in E. destruct E as [E|E].
      * apply Z.eqb_neq in E. lia.
      * apply ascii_eqb_neq in E. apply E.
        apply hex_zero_iff; [apply Hhex; lia | apply Hall; lia].
  - intros Hne. simpl.
    destruct ((rl =? 1) && ascii_eqb (get d 0) "0") eqn:E; [|reflexivity].
    exfalso. apply Hne. exact (Hzero eq_refl).
Qed.
Lemma mag_below_full (x : t) (i : Z) :
  length x <= i -> mag_below x i = magnitude x.
Proof.
  intros H. unfold mag_below, magnitude.
  replace (Z.min i (length x)) with (length x) by lia. reflexivity.
Qed.

Lemma add_loop_spec (a b : t) (n : nat) (i carry rl : Z) (d : list ascii) :
  wf a = true -> wf b = true ->
  0 <= i <= HEX_SIZE ->
  HEX_SIZE - i < Z.of_nat n ->
  (i = 0 /\ rl = 1 \/ 0 < i /\ rl = i) ->
  (carry = 0 \/ carry = 1) ->
  Z.of_nat (List.length d) = HEX_SIZE ->
  (forall j, 0 <= j < i -> is_hex (get d j) = true) ->
  mag_upto d (Z.to_nat i) + carry * 16 ^ i = mag_below a i + mag_below b i ->
  let m := Z.max (length a) (length b) in
  let total := magnitude a + magnitude b in
  (total < 16 ^ HEX_SIZE ->
   exists d' len,
     add_loop n a b m i (d, carry, rl) = Ok (d', 0, len)
     /\ 1 <= len <= HEX_SIZE
     /\ Z.of_nat (List.length d') = HEX_SIZE
     /\ (forall j, 0 <= j < len -> is_hex (get d' j) = true)
     /\ mag_upto d' (Z.to_nat len) = total)
  /\ (16 ^ HEX_SIZE <= total ->
      add_loop n a b m i (d, carry, rl) = Throw (OverflowException "hexadecimal addition")).
Proof.
  intros Wa Wb. revert i carry rl d.
  destruct (wf_elim a Wa) as (La & _ & Ha).
  destruct (wf_elim b Wb) as (Lb & _ & Hb).
  induction n as [|n IH]; intros i carry rl d Hi Hn Hrl Hc Hlen Hhex Hinv m total; [lia|].
  assert (Hpow : 0 < 16 ^ i) by (apply Z.pow_pos_nonneg; lia).
  assert (Hbd : 0 <= mag_upto d (Z.to_nat i) < 16 ^ i).
  { pose proof (mag_upto_bound d (Z.to_nat i)
                  ltac:(intros; apply is_hex_range, Hhex; lia)) as H.
    rewrite Z2Nat.id in H by lia. exact H. }
  simpl add_loop.
  destruct ((i <? m) || negb (carry =? 0)) eqn:Hcond.
  - (* one more round *)
    destruct (Z.geb_spec i HEX_SIZE) as [Hge|Hlt].
    + (* the carry leaves the buffer *)
      assert (i = HEX_SIZE) by lia. subst i.
      assert (carry = 1).
      { apply orb_true_iff in Hcond. destruct Hcond as [H|H].
        - apply Z.ltb_lt in H. lia.
        - apply negb_true_iff, Z.eqb_neq in H. lia. }
      subst carry. rewrite !mag_below_full in Hinv by lia.
      split; [intros; exfalso; subst total; lia | reflexivity].
    + set (dA := if i <? length a then convertHexDigitToInt (get (digits a) i) else 0).
      set (dB := if i <? length b then convertHexDigitToInt (get (digits b) i) else 0).
      assert (HdA : 0 <= dA <= 15).
      { subst dA. destruct (Z.ltb_spec i (length a)); [apply is_hex_range, Ha; lia | lia]. }
      assert (HdB : 0 <= dB <= 15).
      { subst dB. destruct (Z.ltb_spec i (length b)); [apply is_hex_range, Hb; lia | lia]. }
      set (sum := dA + dB + carry).
      assert (Hsum : 0 <= sum <= 31) by (subst sum; lia).
      rewrite Z.rem_mod_nonneg, Z.quot_div_nonneg by lia.
      assert (Hrem : 0 <= sum mod 16 <= 15).
      { pose proof (Z.mod_pos_bound sum 16 ltac:(lia)). lia. }
      destruct (convertIntToHexChar_ok "Invalid integer value for hex conversion: "
                  (sum mod 16) Hrem) as (c & Hcc & Hcv & Hch).
      unfold convertIntToHexChar. rewrite Hcc. simpl mbind.
      apply IH.
      * lia.
      * lia.
      * right. lia.
      * assert (0 <= sum / 16 < 2); [|lia].
        split; [apply Z.div_pos; lia | apply Z.div_lt_upper_bound; lia].
      * rewrite length_set. exact Hlen.
      * intros j Hj. destruct (Z.eq_dec j i) as [->|Hne].
        -- rewrite get_set_eq by lia. exact Hch.
        -- rewrite get_set_ne by lia. apply Hhex. lia.
      * replace (Z.to_nat (i + 1)) with (Datatypes.S (Z.to_nat i)) by lia.
        simpl mag_upto. rewrite Z2Nat.id by lia.
        rewrite mag_upto_set_ge by lia. rewrite get_set_eq by lia.
        rewrite Hcv. rewrite !mag_below_step by lia. fold dA. fold dB.
        rewrite Z.pow_add_r by lia.
        pose proof (Z.div_mod sum 16 ltac:(lia)) as Hdm.
        replace (sum mod 16 * 16 ^ i + sum / 16 * (16 ^ i * 16 ^ 1))
          with (sum * 16 ^ i) by (rewrite Hdm at 1; ring).
        subst sum. lia.
  - (* the loop is left *)
    apply orb_false_iff in Hcond. destruct Hcond as [H1 H2].
    apply Z.ltb_ge in H1. apply negb_false_iff, Z.eqb_eq in H2. subst carry.
    rewrite !mag_below_full in Hinv by lia.
    assert (16 ^ i <= 16 ^ HEX_SIZE) by (apply Z.pow_le_mono_r; lia).
    split; [|intros; exfalso; subst total; lia].
    intros _. exists d, rl.
    assert (rl = i) by lia. subst rl.
    repeat apply conj; try reflexivity; try lia; try assumption.
Qed.

Lemma add_same_sign_spec (a b : t) :
  wf a = true -> wf b = true ->
  (magnitude a + magnitude b < 16 ^ HEX_SIZE ->
   exists r, add_same_sign a b = Ok r
             /\ wf r = true
             /\ magnitude r = magnitude a + magnitude b
             /\ isNegative r = isNegative a)
  /\ (16 ^ HEX_SIZE <= magnitude a + magnitude b ->
      add_same_sign a b = Throw (OverflowException "hexadecimal addition")).
Proof.
  intros Wa Wb.
  destruct (add_loop_spec a b (Z.to_nat HEX_SIZE + 1) 0 0 1 zeros Wa Wb) as [Hok Hov].
  - unfold HEX_SIZE; lia.
  - unfold HEX_SIZE; lia.
  - left; split; reflexivity.
  - left; reflexivity.
  - reflexivity.
  - intros; lia.
  - unfold mag_below. destruct (wf_elim a Wa) as (La & _). destruct (wf_elim b Wb) as (Lb & _).
    replace (Z.min 0 (length a)) with 0 by lia. replace (Z.min 0 (length b)) with 0 by lia.
    reflexivity.
  - cbv zeta in Hok, Hov. unfold add_same_sign. split.
    + intros Hlt. destruct (Hok Hlt) as (d & len & Hrun & Hlen & Hd & Hhex & Hmag).
      change (length default) with 1. rewrite Hrun. simpl mbind.
      destruct (Z.gtb_spec len HEX_SIZE) as [G|G]; [lia|].
      pose proof (strip_spec d len) as Hs. cbv zeta in Hs.
      destruct Hs as (S1 & S2 & _ & _).
      eexists. split; [reflexivity|]. split; [|split; [|reflexivity]].
      * apply wf_intro; simpl; [lia | exact Hd | intros; apply Hhex; lia].
      * unfold magnitude at 1. simpl. rewrite mag_upto_strip by lia. exact Hmag.
    + intros Hge. change (length default) with 1. rewrite (Hov Hge). reflexivity.
Qed.
Lemma sub_same_sign_eq (a b : t) :
  sub_same_sign a b
  = if cmp_abs a b >=? 0 then sub_core a b (isNegative a)
    else sub_core b a (negb (isNegative a)).
Proof.
  unfold sub_same_sign. fold (cmp_abs a b).
  destruct (cmp_abs a b >=? 0); reflexivity.
Qed.

Lemma cmp_abs_spec (a b : t) :
  canonical a = true -> canonical b = true ->
  (0 <= cmp_abs a b -> length b <= length a /\ magnitude b <= magnitude a)
  /\ (cmp_abs a b < 0 -> length a <= length b /\ magnitude a < magnitude b).
Proof.
  intros Ca Cb.
  destruct (canonical_elim a Ca) as (Wa & _ & _).
  destruct (canonical_elim b Cb) as (Wb & _ & _).
  pose proof (magnitude_bound a Wa) as Ba.
  pose proof (magnitude_bound b Wb) as Bb.
  destruct (wf_elim a Wa) as (La & _ & _).
  destruct (wf_elim b Wb) as (Lb & _ & _).
  unfold cmp_abs.
  destruct (Z.eqb_spec (length a) (length b)) as [E|E]; simpl.
  - pose proof (first_difference_spec a b _ eq_refl (wf_digits a Wa)
                  ltac:(rewrite E; apply (wf_digits b Wb))) as Hfd.
    unfold magnitude. rewrite <- E.
    destruct (first_difference a b) as [c|]; [|lia].
    destruct Hfd as [[-> H]|[-> H]]; lia.
  - destruct (Z.gtb_spec (length a) (length b)) as [G|G].
    + pose proof (canonical_lower a Ca ltac:(lia)) as Hl.
      assert (16 ^ length b <= 16 ^ (length a - 1)) by (apply Z.pow_le_mono_r; lia).
      lia.
    + pose proof (canonical_lower b Cb ltac:(lia)) as Hl.
      assert (16 ^ length a <= 16 ^ (length b - 1)) by (apply Z.pow_le_mono_r; lia).
      lia.
Qed.

Lemma sub_same_sign_ok (a b : t) :
  wf a = true -> wf b = true ->
  exists r, sub_same_sign a b = Ok r
            /\ wf r = true
            /\ 1 <= length r <= Z.max (length a) (length b).
Proof.
  intros Wa Wb. rewrite sub_same_sign_eq.
  destruct (cmp_abs a b >=? 0).
  - destruct (sub_core_spec a b (isNegative a) Wa Wb) as (r & Hr & Hl & Wr & _).
    exists r. repeat split; try assumption; lia.
  - destruct (sub_core_spec b a (negb (isNegative a)) Wb Wa) as (r & Hr & Hl & Wr & _).
    exists r. repeat split; try assumption; lia.
Qed.

Lemma sub_same_sign_value (a b : t) :
  canonical a = true -> canonical b = true ->
  exists r, sub_same_sign a b = Ok r
            /\ canonical r = true
            /\ magnitude r = Z.abs (magnitude a - magnitude b)
            /\ (magnitude r <> 0 ->
                isNegative r = if magnitude b <=? magnitude a then isNegative a
                               else negb (isNegative a)).
Proof.
  intros Ca Cb.
  destruct (canonical_elim a Ca) as (Wa & _ & _).
  destruct (canonical_elim b Cb) as (Wb & _ & _).
  destruct (cmp_abs_spec a b Ca Cb) as [Hge Hlt].
  rewrite sub_same_sign_eq.
  destruct (Z.geb_spec (cmp_abs a b) 0) as [G|G].
  - destruct (Hge ltac:(lia)) as [Hl Hm].
    destruct (sub_core_spec a b (isNegative a) Wa Wb) as (r & Hr & _ & _ & Hv).
    destruct (Hv Hl Hm) as (Hmag & Cr & Hs).
    exists r. repeat split; try assumption; [lia|].
    intros Hne. destruct (Z.leb_spec (magnitude b) (magnitude a)); [auto | lia].
  - destruct (Hlt ltac:(lia)) as [Hl Hm].
    destruct (sub_core_spec b a (negb (isNegative a)) Wb Wa) as (r & Hr & _ & _ & Hv).
    destruct (Hv Hl ltac:(lia)) as (Hmag & Cr & Hs).
    exists r. repeat split; try assumption; [lia|].
    intros Hne. destruct (Z.leb_spec (magnitude b) (magnitude a)); [lia | auto].
Qed.

Lemma operator_sub_same_sign (a b : t) :
  isNegative a = isNegative b -> operator_sub a b = sub_same_sign a b.
Proof.
  intros E. unfold operator_sub, operator_sub_body. rewrite E.
  rewrite eqb_reflx. reflexivity.
Qed.

Lemma canonical_abs (x : t) :
  canonical x = true -> canonical (mk (digits x) (length x) false) = true.
Proof.
  unfold canonical, wf. simpl. rewrite !andb_true_iff. intros [[H1 H2] _].
  split; [split; assumption | reflexivity].
Qed.

(** X17.  On canonical operands [operator+] returns the sum whenever the sum
    fits in [HEX_SIZE] digits, and throws [OverflowException] exactly when it
    does not: it never fails on a sum that fits and never truncates one that
    does not. *)
Theorem operator_add_fails_exactly_on_overflow (a b : t) :
  canonical a = true -> canonical b = true ->
  (Z.abs (value a + value b) < 16 ^ HEX_SIZE ->
   exists r, operator_add a b = Ok r /\ wf r = true /\ value r = value a + value b)
  /\ (16 ^ HEX_SIZE <= Z.abs (value a + value b) ->
      operator_add a b = Throw (OverflowException "hexadecimal addition")).
Proof.
  intros Ca Cb.
  destruct (canonical_elim a Ca) as (Wa & _ & _).
  destruct (canonical_elim b Cb) as (Wb & _ & _).
  pose proof (magnitude_bound a Wa) as Ba.
  pose proof (magnitude_bound b Wb) as Bb.
  destruct (wf_elim a Wa) as (La & _ & _).
  destruct (wf_elim b Wb) as (Lb & _ & _).
  assert (Hpa : 16 ^ length a <= 16 ^ HEX_SIZE) by (apply Z.pow_le_mono_r; lia).
  assert (Hpb : 16 ^ length b <= 16 ^ HEX_SIZE) by (apply Z.pow_le_mono_r; lia).
  unfold operator_add, operator_add_body.
  destruct (Bool.eqb (isNegative a) (isNegative b)) eqn:Es; simpl negb; cbv iota.
  - (* equal signs *)
    apply eqb_prop in Es.
    destruct (add_same_sign_spec a b Wa Wb) as [Hok Hov].
    assert (Habs : Z.abs (value a + value b) = magnitude a + magnitude b).
    { unfold value, signed. rewrite <- Es. destruct (isNegative a); lia. }
    rewrite Habs. split.
    + intros Hlt. destruct (Hok Hlt) as (r & Hr & Wr & Hm & Hs).
      exists r. repeat split; try assumption.
      unfold value, signed. rewrite Hs, Hm, <- Es. destruct (isNegative a); lia.
    + exact Hov.
  - (* different signs *)
    apply eqb_false_iff in Es.
    pose proof (canonical_abs a Ca) as Caa. pose proof (canonical_abs b Cb) as Cab.
    set (absA := mk (digits a) (length a) false) in *.
    set (absB := mk (digits b) (length b) false) in *.
    assert (Hcmp : compare absA absB = Z.sgn (magnitude a - magnitude b)).
    { rewrite (compare_sgn absA absB Caa Cab). reflexivity. }
    assert (Habs : Z.abs (value a + value b) = Z.abs (magnitude a - magnitude b)).
    { unfold value, signed. destruct (isNegative a), (isNegative b); try congruence; lia. }
    split; [|intros; exfalso; lia].
    intros _. rewrite Hcmp.
    destruct (Z.geb_spec (Z.sgn (magnitude a - magnitude b)) 0) as [G|G].
    + unfold operator_sub_body at 1. simpl isNegative. simpl negb. cbv iota.
      destruct (sub_same_sign_value absA absB Caa Cab) as (r & Hr & Cr & Hm & _).
      rewrite Hr. simpl mbind. eexists. split; [reflexivity|].
      destruct (canonical_elim r Cr) as (Wr & _ & _). split.
      * unfold wf in *. simpl. exact Wr.
      * unfold value, signed, magnitude in *. simpl in *.
        destruct (isNegative a), (isNegative b); try congruence; lia.
    + unfold operator_sub_body at 1. simpl isNegative. simpl negb. cbv iota.
      destruct (sub_same_sign_value absB absA Cab Caa) as (r & Hr & Cr & Hm & _).
      rewrite Hr. simpl mbind. eexists. split; [reflexivity|].
      destruct (canonical_elim r Cr) as (Wr & _ & _). split.
      * unfold wf in *. simpl. exact Wr.
      * unfold value, signed, magnitude in *. simpl in *.
        destruct (isNegative a), (isNegative b); try congruence; lia.
Qed.

Lemma operator_add_fails_exactly_on_overflow_witness :
  (exists r, operator_add (hex "ff") (hex "1") = Ok r /\ wf r = true
             /\ value r = value (hex "ff") + value (hex "1"))
  /\ operator_add
       (hex "ffffffffffffffffffffffffffffffffffffffffffffffffffffffffffffffffffffffffffffffffffffffffffffffffffffffffffffffffffffffffffffffff")
       (hex "1")
     = Throw (OverflowException "hexadecimal addition").
Proof.
  split.
  - destruct (operator_add_fails_exactly_on_overflow (hex "ff") (hex "1")) as (H & _).
    + vm_compute. reflexivity.
    + vm_compute. reflexivity.
    + apply H. vm_compute. reflexivity.
  - destruct (operator_add_fails_exactly_on_overflow
                (hex "ffffffffffffffffffffffffffffffffffffffffffffffffffffffffffffffffffffffffffffffffffffffffffffffffffffffffffffffffffffffffffffffff")
                (hex "1")) as (_ & H).
    + vm_compute. reflexivity.
    + vm_compute. reflexivity.
    + apply H. vm_compute. discriminate.
Defined.

(** C10.  On operands of equal signs [operator-] always returns: the borrow
    loop never leaves the digit range, so [convertIntToHexChar] does not
    throw, and the significant length of the result is at most the larger
    operand's. *)
Theorem operator_sub_on_equal_signs_never_fails (a b : t) :
  wf a = true -> wf b = true -> isNegative a = isNegative b ->
  exists r, operator_sub a b = Ok r
            /\ wf r = true
            /\ 1 <= length r <= Z.max (length a) (length b).
Proof.
  intros Wa Wb E. rewrite (operator_sub_same_sign a b E).
  apply sub_same_sign_ok; assumption.
Qed.

Lemma operator_sub_on_equal_signs_never_fails_witness :
  exists r, operator_sub (hex "-500") (hex "-7ff") = Ok r
            /\ wf r = true
            /\ 1 <= length r <= Z.max (length (hex "-500")) (length (hex "-7ff")).
Proof.
  apply (operator_sub_on_equal_signs_never_fails (hex "-500") (hex "-7ff"));
    vm_compute; reflexivity.
Defined.

(** C7.  [operator+] returns a negative zero: on [-5 + 5] the mixed-sign
    branch subtracts the magnitudes, which yields the non-negative zero, and
    then overwrites the sign with that of the first operand.  The decimal
    class has the same branch.  The [operator-] of [BigInt.cpp] has no
    normalisation at all: [(-5) - (-5)] is a negative zero there, and so is
    the literal [-0]. *)
Theorem operator_add_returns_a_negative_zero :
  canonical (hex "-5") = true /\ canonical (hex "5") = true
  /\ (fun r => (isNegative r, length r, get (digits r) 0, value r))
       <$> operator_add (hex "-5") (hex "5") = Ok (true, 1, "0"%char, 0)
  /\ (fun r => (BigInt.isNegative r, BigInt.length r, BigInt.getz (BigInt.digits r) 0,
                dec_value r))
       <$> BigInt.operator_add (dec "-5") (dec "5") = Ok (true, 1, 0, 0)
  /\ (fun r => (V0.BigInt.isNegative r, V0.BigInt.length r,
                V0.BigInt.getz (V0.BigInt.digits r) 0, V0Spec.dec_value r))
       <$> V0.BigInt.operator_sub (V0Spec.dec "-5") (V0Spec.dec "-5") = Ok (true, 1, 0, 0)
  /\ (fun r => (V0.BigHexInt.isNegative r, V0Spec.value r))
       <$> V0.BigHexInt.createFromString "-0" = Ok (true, 0).
Proof. by_evaluation. Qed.

(** *** Literals *)

Import LiteralSpec.

Lemma drop_cons_nth (cs : list ascii) (k : nat) :
  (k < List.length cs)%nat -> drop k cs = nth k cs NUL :: drop (S k) cs.
Proof. intros H. apply drop_S. apply nth_lookup_lt. exact H. Qed.

Lemma drop_zeros_cons (c c2 : ascii) (t : list ascii) :
  drop_zeros (c :: c2 :: t)
  = if ascii_eqb c "0" then drop_zeros (c2 :: t) else c :: c2 :: t.
Proof. reflexivity. Qed.

Lemma skip_zeros_spec (s : string) (fuel : nat) (k : Z) :
  0 <= k < str_len s ->
  str_len s - 1 - k <= Z.of_nat fuel ->
  let k' := skip_zeros fuel s k in
  k <= k' < str_len s
  /\ drop (Z.to_nat k') (chars s) = drop_zeros (drop (Z.to_nat k) (chars s))
  /\ (k' = str_len s - 1 \/ str_at s k' <> "0"%char).
Proof.
  revert k. induction fuel as [|fuel IH]; intros k Hk Hf; cbv zeta.
  - simpl. assert (Hl : k = str_len s - 1) by lia.
    split; [lia|]. split; [|left; exact Hl].
    rewrite str_len_chars in *.
    rewrite (drop_cons_nth (chars s) (Z.to_nat k)) by lia.
    rewrite (drop_ge (chars s) (S (Z.to_nat k))) by lia. reflexivity.
  - simpl skip_zeros.
    pose proof (str_len_chars s) as Hlen.
    destruct (Z.ltb_spec k (str_len s - 1)) as [Hlt|Hge]; simpl andb.
    + (* another character follows *)
      rewrite (drop_cons_nth (chars s) (Z.to_nat k)) by lia.
      rewrite (drop_cons_nth (chars s) (S (Z.to_nat k))) by lia.
      rewrite drop_zeros_cons. rewrite <- (drop_cons_nth (chars s) (S (Z.to_nat k))) by lia.
      rewrite <- (str_at_chars s k) by lia.
      destruct (ascii_eqb (str_at s k) "0") eqn:E.
      * specialize (IH (k + 1) ltac:(lia) ltac:(lia)). cbv zeta in IH.
        destruct IH as (H1 & H2 & H3).
        replace (Z.to_nat (k + 1)) with (S (Z.to_nat k)) in H2 by lia.
        split; [lia|]. split; [exact H2 | exact H3].
      * split; [lia|]. split.
        -- rewrite (drop_cons_nth (chars s) (Z.to_nat k)) by lia.
           rewrite <- (str_at_chars s k) by lia. reflexivity.
        -- right. apply ascii_eqb_neq. exact E.
    + assert (Hl : k = str_len s - 1) by lia.
      split; [lia|]. split; [|left; exact Hl].
      rewrite (drop_cons_nth (chars s) (Z.to_nat k)) by lia.
      rewrite (drop_ge (chars s) (S (Z.to_nat k))) by lia. reflexivity.
Qed.

Lemma sign_char (s : string) : ascii_eqb (str_at s 0) "-" = has_sign s.
Proof.
  rewrite str_at_chars by lia. unfold has_sign.
  destruct (chars s) as [|c cs]; reflexivity.
Qed.

Lemma unsigned_part_drop (s : string) :
  unsigned_part s = drop (if has_sign s then 1%nat else 0%nat) (chars s).
Proof.
  unfold unsigned_part, has_sign. destruct (chars s) as [|c cs]; [reflexivity|].
  destruct (ascii_eqb c "-"); reflexivity.
Qed.

Lemma toString_single_zero : toString (mk (set zeros 0 "0") 1 false) = "0".
Proof. vm_compute. reflexivity. Qed.

Lemma find_msb_top (d : list ascii) (n : Z) :
  1 <= n -> (n = 1 \/ get d (n - 1) <> "0"%char) ->
  find_msb (Z.to_nat n) d (n - 1) = n - 1.
Proof.
  intros Hn Htop. replace (Z.to_nat n) with (S (Z.to_nat (n - 1))) by lia.
  simpl. destruct (Z.gtb_spec (n - 1) 0) as [G|G]; [|reflexivity].
  destruct Htop as [->|Htop]; [lia|].
  apply ascii_eqb_neq in Htop. rewrite Htop. reflexivity.
Qed.

Lemma isValidInput_spec (s : string) :
  isValidInput s = is_literal s && (str_len s <=? HEX_SIZE + 1).
Proof.
  pose proof (str_len_chars s) as Hlen.
  pose proof (unsigned_part_drop s) as Hup.
  unfold isValidInput, is_literal. rewrite sign_char, Hup.
  destruct (Z.eqb_spec (str_len s) 0) as [E0|E0].
  { destruct (chars s); [|simpl in Hlen; lia]. rewrite drop_nil. reflexivity. }
  destruct (Z.gtb_spec (str_len s) (HEX_SIZE + 1)) as [G|G].
  { rewrite (proj2 (Z.leb_gt _ _)) by lia. rewrite andb_false_r. reflexivity. }
  rewrite (proj2 (Z.leb_le _ _)) by lia. rewrite andb_true_r.
  destruct (has_sign s) eqn:Es.
  - destruct (Z.eqb_spec (str_len s) 1) as [E1|E1]; simpl andb; cbv iota.
    + rewrite drop_ge by lia. reflexivity.
    + rewrite for_up_forallb by lia. rewrite take_ge by (rewrite length_drop; lia).
      change (Z.to_nat 1) with 1%nat.
      destruct (drop 1 (chars s)) eqn:E; [|reflexivity].
      assert (H : List.length (drop 1 (chars s)) = O) by (rewrite E; reflexivity).
      rewrite length_drop in H. lia.
  - simpl andb. cbv iota. rewrite for_up_forallb by lia.
    rewrite take_ge by (rewrite length_drop; lia).
    change (Z.to_nat 0) with 0%nat.
    destruct (drop 0 (chars s)) eqn:E; [|reflexivity].
    assert (H : List.length (drop 0 (chars s)) = O) by (rewrite E; reflexivity).
    rewrite length_drop in H. lia.
Qed.

Lemma createFromString_literal (s : string) :
  is_literal s = true ->
  str_len s <= HEX_SIZE + 1 ->
  (Z.of_nat (List.length (significant_digits s)) <= HEX_SIZE ->
   exists v, createFromString s = Ok v /\ toString v = canonical_form s)
  /\ (HEX_SIZE < Z.of_nat (List.length (significant_digits s)) ->
      exists e, createFromString s = Throw e).
Proof.
  intros Hlit Hraw.
  pose proof (str_len_chars s) as Hlen.
  pose proof (unsigned_part_drop s) as Hup.
  set (start := if has_sign s then 1 else 0).
  assert (Hstart : (if has_sign s then 1%nat else 0%nat) = Z.to_nat start)
    by (subst start; destruct (has_sign s); reflexivity).
  rewrite Hstart in Hup.
  assert (Hs01 : 0 <= start <= 1) by (subst start; destruct (has_sign s); lia).
  (* the literal has digits, all of the alphabet *)
  assert (Hne : start < str_len s /\ forallb is_hex_char (drop (Z.to_nat start) (chars s)) = true).
  { unfold is_literal in Hlit. rewrite Hup in Hlit.
    destruct (drop (Z.to_nat start) (chars s)) as [|c l] eqn:E; [discriminate|].
    split; [|exact Hlit].
    assert (List.length (drop (Z.to_nat start) (chars s)) <> O) by (rewrite E; discriminate).
    rewrite length_drop in H. lia. }
  destruct Hne as [Hslt Hhex].
  assert (Hvalid : isValidInput s = true).
  { rewrite isValidInput_spec, Hlit. apply Z.leb_le. exact Hraw. }
  destruct (skip_zeros_spec s (String.length s) start ltac:(lia)
              ltac:(unfold str_len; lia)) as (Hk & Hdrop & Htop).
  set (k := skip_zeros (String.length s) s start) in *.
  assert (Hsig : significant_digits s = drop (Z.to_nat k) (chars s)).
  { unfold significant_digits. rewrite Hup. symmetry. exact Hdrop. }
  rewrite Hsig. rewrite length_drop.
  set (n := str_len s - k).
  assert (Hge1 : 1 <= n) by (subst n; lia).
  unfold createFromString. rewrite Hvalid. simpl negb. cbv iota.
  rewrite sign_char. fold start. fold k. fold n.
  destruct (Z.gtb_spec n HEX_SIZE) as [G|G];
    (split; intros Hcap; [|try (subst n; lia); eexists; reflexivity]);
    [subst n; lia|].
  assert (Hn : 1 <= n <= HEX_SIZE) by lia.
  assert (Hds : drop (Z.to_nat k) (chars s)
                = str_at s k :: drop (S (Z.to_nat k)) (chars s)).
  { rewrite (drop_cons_nth (chars s) (Z.to_nat k)) by lia.
    rewrite <- (str_at_chars s k) by lia. reflexivity. }
  unfold canonical_form. rewrite Hsig.
  destruct ((n =? 1) && ascii_eqb (str_at s k) "0") eqn:Ez.
  - (* the literal is a zero *)
    apply andb_true_iff in Ez. destruct Ez as [E1 E2].
    apply Z.eqb_eq in E1. apply ascii_eqb_eq in E2.
    eexists. split; [reflexivity|]. rewrite toString_single_zero.
    rewrite Hds, E2. rewrite (drop_ge (chars s) (S (Z.to_nat k))) by lia.
    simpl. rewrite andb_false_r. reflexivity.
  - eexists. split; [reflexivity|].
    destruct (for_up_fill (fun i => str_at s (k + n - 1 - i)) zeros n
                ltac:(unfold HEX_SIZE in *; simpl; lia)) as (Hl & Hget & _).
    set (d := for_up 0 n (fun i d => set d i (str_at s (k + n - 1 - i))) zeros) in *.
    assert (Htopd : n = 1 \/ get d (n - 1) <> "0"%char).
    { destruct Htop as [Htop|Htop]; [left; lia|].
      right. rewrite Hget by lia. replace (k + n - 1 - (n - 1)) with k by lia. exact Htop. }
    assert (Hnz : (n =? 1) && ascii_eqb (get d 0) "0" = false).
    { destruct (Z.eqb_spec n 1) as [E|E]; [|reflexivity]. simpl.
      rewrite Hget by lia. replace (k + n - 1 - 0) with k by lia.
      simpl in Ez. exact Ez. }
    unfold toString, isZero. simpl digits. simpl length. simpl isNegative.
    rewrite Hnz. rewrite find_msb_top by (try lia; exact Htopd).
    rewrite (for_down_emit d (drop (Z.to_nat k) (chars s))).
    + assert (His : is_zero_text (drop (Z.to_nat k) (chars s)) = false).
      { rewrite Hds. unfold is_zero_text.
        destruct (drop (S (Z.to_nat k)) (chars s)) eqn:E; [|reflexivity].
        assert (Hn1 : n = 1).
        { assert (H : List.length (drop (S (Z.to_nat k)) (chars s)) = O)
            by (rewrite E; reflexivity).
          rewrite length_drop in H. lia. }
        apply andb_false_iff in Ez. destruct Ez as [Ez|Ez]; [|exact Ez].
        apply Z.eqb_neq in Ez. lia. }
      rewrite His. destruct (has_sign s); reflexivity.
    + lia.
    + rewrite length_drop. lia.
    + intros i Hi. rewrite Hget by lia. rewrite str_at_chars by lia.
      rewrite nth_skipn. f_equal. lia.
Qed.

(** The two ways [createFromString] refuses a text. *)
Lemma createFromString_rejects (s : string) :
  (is_literal s = false \/ HEX_SIZE + 1 < str_len s ->
   createFromString s = Throw (InvalidInputException s))
  /\ (is_literal s = true -> str_len s <= HEX_SIZE + 1 ->
      HEX_SIZE < Z.of_nat (List.length (significant_digits s)) ->
      createFromString s
      = Throw (OverflowException "BigHexInt creation: input too long (max 128 hex digits)")).
Proof.
  split.
  - intros H. unfold createFromString. rewrite isValidInput_spec.
    destruct H as [H|H].
    + rewrite H. reflexivity.
    + destruct (Z.leb_spec (str_len s) (HEX_SIZE + 1)) as [?|_]; [lia|].
      rewrite andb_false_r. reflexivity.
  - intros Hlit Hraw Hcap.
    destruct (createFromString_literal s Hlit Hraw) as [_ Hov].
    destruct (Hov Hcap) as (e & He).
    assert (Hvalid : isValidInput s = true).
    { rewrite isValidInput_spec, Hlit. apply Z.leb_le. exact Hraw. }
    unfold createFromString in *. rewrite Hvalid in *. cbv zeta in *.
    change (negb true) with false in *. cbv iota in *.
    destruct (_ >? HEX_SIZE); [reflexivity|].
    destruct (_ && _); discriminate He.
Qed.

(** C4, the claim as stated fails.  [createFromString] of BigIntv1.cpp
    refuses a valid literal of 130 characters although its canonical form is
    [1] ([isValidInput] bounds the length of the text as written), and one of
    129 significant digits; and the decimal [createFromString] of BigInt.cpp
    keeps the leading zeros and the sign of a zero, which [print] then
    shows. *)
Lemma createFromString_refuses_valid_literals :
  let padded := zeros_text 129 +:+ "1" in
  let long := "1" +:+ zeros_text 128 in
  is_literal padded = true /\ canonical_form padded = "1"
  /\ createFromString padded = Throw (InvalidInputException padded)
  /\ is_literal long = true /\ canonical_form long = long
  /\ createFromString long
     = Throw (OverflowException "BigHexInt creation: input too long (max 128 hex digits)")
  /\ V0.BigInt.print <$> V0.BigInt.createFromString "007" = Ok ("007" +:+ String (chr 10) "")
  /\ V0.BigInt.print <$> V0.BigInt.createFromString "-0" = Ok ("-0" +:+ String (chr 10) "").
Proof. by_evaluation. Qed.

(** C4, amended.  Rendering a parsed literal yields its canonical form:
    whenever [createFromString] accepts [s], [toString] of the result is [s]
    without its redundant leading zeros, with a sign only if [s] has one and
    its value is not zero; the digit characters are rendered as they were
    written.  [createFromString] accepts every literal of at most
    [HEX_SIZE + 1] characters whose significant digits fit the capacity; it
    refuses a longer text with [InvalidInputException], whatever its
    significant digits, and a literal of more than [HEX_SIZE] significant
    digits with [OverflowException]. *)
Theorem toString_createFromString_is_canonical (s : string) :
  (forall v, createFromString s = Ok v -> toString v = canonical_form s)
  /\ (is_literal s = true ->
      str_len s <= HEX_SIZE + 1 ->
      Z.of_nat (List.length (significant_digits s)) <= HEX_SIZE ->
      exists v, createFromString s = Ok v)
  /\ (HEX_SIZE + 1 < str_len s ->
      createFromString s = Throw (InvalidInputException s))
  /\ (is_literal s = true ->
      str_len s <= HEX_SIZE + 1 ->
      HEX_SIZE < Z.of_nat (List.length (significant_digits s)) ->
      createFromString s
      = Throw (OverflowException "BigHexInt creation: input too long (max 128 hex digits)")).
Proof.
  split; [|split; [|split]].
  - intros v Hv.
    assert (Hvalid : isValidInput s = true).
    { unfold createFromString in Hv. destruct (isValidInput s); [reflexivity | discriminate]. }
    rewrite isValidInput_spec in Hvalid. apply andb_true_iff in Hvalid.
    destruct Hvalid as [Hlit Hraw]. apply Z.leb_le in Hraw.
    destruct (createFromString_literal s Hlit Hraw) as [Hok Hov].
    destruct (Z.le_gt_cases (Z.of_nat (List.length (significant_digits s))) HEX_SIZE)
      as [Hc|Hc].
    + destruct (Hok Hc) as (v' & Hv' & Hs). congruence.
    + destruct (Hov Hc) as (e & He). congruence.
  - intros Hlit Hraw Hcap.
    destruct (createFromString_literal s Hlit Hraw) as [Hok _].
    destruct (Hok Hcap) as (v & Hv & _). exists v. exact Hv.
  - intros Hlong. destruct (createFromString_rejects s) as [H _]. apply H. right. exact Hlong.
  - destruct (createFromString_rejects s) as [_ H]. exact H.
Qed.

Lemma toString_createFromString_is_canonical_witness :
  toString (hex "-00aB0") = canonical_form "-00aB0"
  /\ canonical_form "-00aB0" = "-aB0"
  /\ (exists v, createFromString "-00aB0" = Ok v)
  /\ createFromString (zeros_text 129 +:+ "1")
     = Throw (InvalidInputException (zeros_text 129 +:+ "1"))
  /\ createFromString ("1" +:+ zeros_text 128)
     = Throw (OverflowException "BigHexInt creation: input too long (max 128 hex digits)").
Proof.
  destruct (toString_createFromString_is_canonical "-00aB0") as (H1 & H2 & _).
  destruct (toString_createFromString_is_canonical (zeros_text 129 +:+ "1"))
    as (_ & _ & H3 & _).
  destruct (toString_createFromString_is_canonical ("1" +:+ zeros_text 128))
    as (_ & _ & _ & H4).
  split; [|split; [|split; [|split]]].
  - apply H1. vm_compute. reflexivity.
  - vm_compute. reflexivity.
  - apply H2; vm_compute; [reflexivity | discriminate | discriminate].
  - apply H3. vm_compute. reflexivity.
  - apply H4; vm_compute; [reflexivity | discriminate | reflexivity].
Defined.

(** *** Subtraction as an operation on integers *)

Lemma wf_sign (x : t) (s : bool) : wf (mk (digits x) (length x) s) = wf x.
Proof. reflexivity. Qed.

Lemma magnitude_sign (x : t) (s : bool) :
  magnitude (mk (digits x) (length x) s) = magnitude x.
Proof. reflexivity. Qed.

(** The result of the same-sign branch of [operator+] has no leading zero. *)
Lemma add_same_sign_top (a b r : t) :
  add_same_sign a b = Ok r ->
  length r <= 1 \/ get (digits r) (length r - 1) <> "0"%char.
Proof.
  unfold add_same_sign.
  destruct (add_loop _ a b _ 0 _) as [[[d c] rl]| |]; simpl; try discriminate.
  destruct (rl >? HEX_SIZE); [discriminate|].
  intros [= <-]. simpl.
  destruct (strip_spec d rl) as (_ & _ & _ & H). exact H.
Qed.

Lemma canonical_intro (x : t) :
  wf x = true ->
  (length x <= 1 \/ get (digits x) (length x - 1) <> "0"%char) ->
  (isNegative x = true -> magnitude x <> 0) ->
  canonical x = true.
Proof.
  intros W T N. destruct (wf_elim x W) as (L & _ & H).
  unfold canonical. rewrite W. simpl.
  apply andb_true_iff. split.
  - destruct T as [T|T].
    + replace (length x) with 1 by lia. reflexivity.
    + apply orb_true_iff. right. apply negb_true_iff, Z.eqb_neq.
      intros E. apply T. apply hex_zero_iff; [apply H; lia | exact E].
  - destruct (isNegative x); [|reflexivity]. simpl.
    apply negb_true_iff, Z.eqb_neq. apply N. reflexivity.
Qed.

Lemma operator_sub_mixed_sign (a b : t) :
  isNegative a <> isNegative b ->
  operator_sub a b = add_same_sign a (mk (digits b) (length b) (negb (isNegative b))).
Proof.
  intros Es. unfold operator_sub.
  change (operator_sub_body ?f a b)
    with (if negb (eqb (isNegative a) (isNegative b))
          then f a (mk (digits b) (length b) (negb (isNegative b)))
          else sub_same_sign a b).
  destruct (isNegative a) eqn:Ea, (isNegative b) eqn:Eb; try congruence; simpl;
    unfold operator_add_body; simpl; rewrite Ea; reflexivity.
Qed.

Lemma operator_sub_spec (a b : t) :
  canonical a = true -> canonical b = true ->
  (Z.abs (value a - value b) < 16 ^ HEX_SIZE ->
   exists r, operator_sub a b = Ok r /\ canonical r = true
             /\ value r = value a - value b)
  /\ (16 ^ HEX_SIZE <= Z.abs (value a - value b) ->
      operator_sub a b = Throw (OverflowException "hexadecimal addition")).
Proof.
  intros Ca Cb.
  destruct (canonical_elim a Ca) as (Wa & _ & Na).
  destruct (canonical_elim b Cb) as (Wb & _ & Nb).
  pose proof (magnitude_bound a Wa) as Ba.
  pose proof (magnitude_bound b Wb) as Bb.
  destruct (wf_elim a Wa) as (La & _ & _).
  destruct (wf_elim b Wb) as (Lb & _ & _).
  assert (Hpa : 16 ^ length a <= 16 ^ HEX_SIZE) by (apply Z.pow_le_mono_r; lia).
  assert (Hpb : 16 ^ length b <= 16 ^ HEX_SIZE) by (apply Z.pow_le_mono_r; lia).
  destruct (Bool.eqb (isNegative a) (isNegative b)) eqn:Es.
  - (* equal signs: the borrow loop *)
    apply eqb_prop in Es.
    rewrite (operator_sub_same_sign a b Es).
    destruct (sub_same_sign_value a b Ca Cb) as (r & Hr & Cr & Hm & Hs).
    assert (Habs : Z.abs (value a - value b) = Z.abs (magnitude a - magnitude b)).
    { unfold value, signed. rewrite <- Es. destruct (isNegative a); lia. }
    split; [|intros; exfalso; lia].
    intros _. exists r. split; [exact Hr|]. split; [exact Cr|].
    unfold value, signed. rewrite <- Es.
    destruct (Z.eq_dec (magnitude r) 0) as [Z0|NZ].
    + rewrite Z0. destruct (isNegative r), (isNegative a); lia.
    + rewrite (Hs NZ).
      destruct (Z.leb_spec (magnitude b) (magnitude a)); destruct (isNegative a); simpl; lia.
  - (* different signs: the carry loop on the magnitudes *)
    apply eqb_false_iff in Es.
    rewrite (operator_sub_mixed_sign a b Es).
    set (b' := mk (digits b) (length b) (negb (isNegative b))).
    assert (Wb' : wf b' = true) by exact Wb.
    assert (Mb' : magnitude b' = magnitude b) by reflexivity.
    destruct (add_same_sign_spec a b' Wa Wb') as [Hok Hov]. rewrite Mb' in Hok, Hov.
    assert (Habs : Z.abs (value a - value b) = magnitude a + magnitude b).
    { unfold value, signed. destruct (isNegative a), (isNegative b); try congruence; lia. }
    rewrite Habs. split; [|exact Hov].
    intros Hlt. destruct (Hok Hlt) as (r & Hr & Wr & Hm & Hs).
    exists r. split; [exact Hr|]. split.
    + apply canonical_intro; [exact Wr | exact (add_same_sign_top a b' r Hr) |].
      intros Hn. rewrite Hs in Hn. specialize (Na Hn). lia.
    + unfold value, signed. rewrite Hs, Hm.
      destruct (isNegative a), (isNegative b); try congruence; lia.
Qed.

(** X1.  [operator-] on canonical operands returns the canonical form of the
    difference whenever the difference fits in [HEX_SIZE] digits, and throws
    [OverflowException] exactly when it does not (which needs operands of
    different signs). *)
Theorem operator_sub_computes_the_difference (a b : t) :
  canonical a = true -> canonical b = true ->
  (Z.abs (value a - value b) < 16 ^ HEX_SIZE ->
   exists r, operator_sub a b = Ok r /\ canonical r = true
             /\ value r = value a - value b)
  /\ (16 ^ HEX_SIZE <= Z.abs (value a - value b) ->
      operator_sub a b = Throw (OverflowException "hexadecimal addition"))
  /\ (isNegative a = isNegative b -> Z.abs (value a - value b) < 16 ^ HEX_SIZE).
Proof.
  intros Ca Cb. destruct (operator_sub_spec a b Ca Cb) as [H1 H2].
  split; [exact H1|]. split; [exact H2|].
  intros Es.
  destruct (canonical_elim a Ca) as (Wa & _ & _).
  destruct (canonical_elim b Cb) as (Wb & _ & _).
  pose proof (magnitude_bound a Wa) as Ba.
  pose proof (magnitude_bound b Wb) as Bb.
  destruct (wf_elim a Wa) as (La & _ & _).
  destruct (wf_elim b Wb) as (Lb & _ & _).
  assert (Hpa : 16 ^ length a <= 16 ^ HEX_SIZE) by (apply Z.pow_le_mono_r; lia).
  assert (Hpb : 16 ^ length b <= 16 ^ HEX_SIZE) by (apply Z.pow_le_mono_r; lia).
  unfold value, signed. rewrite <- Es. destruct (isNegative a); lia.
Qed.

Lemma operator_sub_computes_the_difference_witness :
  (exists r, operator_sub (hex "-1f") (hex "a0") = Ok r /\ canonical r = true
             /\ value r = value (hex "-1f") - value (hex "a0"))
  /\ operator_sub
       (hex "-ffffffffffffffffffffffffffffffffffffffffffffffffffffffffffffffffffffffffffffffffffffffffffffffffffffffffffffffffffffffffffffffff")
       (hex "1")
     = Throw (OverflowException "hexadecimal addition").
Proof.
  split.
  - destruct (operator_sub_computes_the_difference (hex "-1f") (hex "a0")) as (H & _).
    + vm_compute. reflexivity.
    + vm_compute. reflexivity.
    + apply H. vm_compute. reflexivity.
  - destruct (operator_sub_computes_the_difference
                (hex "-ffffffffffffffffffffffffffffffffffffffffffffffffffffffffffffffffffffffffffffffffffffffffffffffffffffffffffffffffffffffffffffffff")
                (hex "1")) as (_ & H & _).
    + vm_compute. reflexivity.
    + vm_compute. reflexivity.
    + apply H. vm_compute. discriminate.
Defined.

(** *** Copies *)

(** A loop that fills the positions [lo .. hi-1] of a buffer. *)
Lemma for_up_fill_range (f : Z -> ascii) (d0 : list ascii) (lo hi : Z) :
  0 <= lo <= hi -> hi <= Z.of_nat (List.length d0) ->
  let d := for_up lo hi (fun i d => set d i (f i)) d0 in
  List.length d = List.length d0
  /\ (forall j, lo <= j < hi -> get d j = f j)
  /\ (forall j, j < lo \/ hi <= j -> get d j = get d0 j).
Proof.
  intros Hlo Hhi. cbv zeta.
  apply (for_up_inv
    (fun i d => List.length d = List.length d0
                /\ (forall j, lo <= j < i -> get d j = f j)
                /\ (forall j, j < lo \/ i <= j -> get d j = get d0 j))
    lo hi); [lia | |].
  - split; [reflexivity|]. split; [intros; lia | intros; reflexivity].
  - intros i d Hi (H1 & H2 & H3). split; [rewrite length_set; exact H1|]. split.
    + intros j Hj. destruct (Z.eq_dec j i) as [->|Hne].
      * apply get_set_eq. lia.
      * rewrite get_set_ne by lia. apply H2. lia.
    + intros j Hj. rewrite get_set_ne by lia. apply H3. lia.
Qed.

Lemma length_zeros : Z.of_nat (List.length zeros) = HEX_SIZE.
Proof. reflexivity. Qed.

Lemma get_zeros (j : Z) : 0 <= j < HEX_SIZE -> get zeros j = "0"%char.
Proof. intros H. apply get_replicate. exact H. Qed.

(** A buffer copied from position [k] on: the loops of [operator=], [clone],
    [getLower] and [getHigher]. *)
Lemma copy_from_spec (src : list ascii) (k n : Z) :
  0 <= n <= HEX_SIZE ->
  let d := for_up 0 n (fun i d => set d i (get src (i + k))) zeros in
  Z.of_nat (List.length d) = HEX_SIZE
  /\ (forall j, 0 <= j < n -> get d j = get src (j + k))
  /\ (forall j, n <= j < HEX_SIZE -> get d j = "0"%char).
Proof.
  intros Hn.
  destruct (for_up_fill (fun i => get src (i + k)) zeros n) as (H1 & H2 & H3).
  { rewrite length_zeros. exact Hn. }
  cbv zeta. split; [rewrite H1; apply length_zeros|]. split; [exact H2|].
  intros j Hj. rewrite H3 by lia. apply get_zeros. lia.
Qed.

Lemma for_up_ext {S : Type} (lo hi : Z) (f g : Z -> S -> S) (s : S) :
  (forall i s, lo <= i < hi -> f i s = g i s) ->
  for_up lo hi f s = for_up lo hi g s.
Proof.
  intros H. destruct (Z.le_gt_cases lo hi) as [Hle|Hgt].
  - apply (for_up_inv (fun i s' => for_up lo i f s = s' ) lo hi g s); [lia | |].
    + apply for_up_empty. lia.
    + intros i s' Hi <-. unfold for_up.
      replace (Z.to_nat (i + 1 - lo)) with (Datatypes.S (Z.to_nat (i - lo))) by lia.
      rewrite for_up_aux_snoc. rewrite Z2Nat.id by lia.
      replace (lo + (i - lo)) with i by lia. apply H. lia.
  - rewrite !for_up_empty by lia. reflexivity.
Qed.

Lemma operator_assign_spec (x : t) :
  0 <= length x <= HEX_SIZE ->
  let y := operator_assign x in
  length y = length x /\ isNegative y = isNegative x
  /\ Z.of_nat (List.length (digits y)) = HEX_SIZE
  /\ (forall j, 0 <= j < length x -> get (digits y) j = get (digits x) j)
  /\ (forall j, length x <= j < HEX_SIZE -> get (digits y) j = "0"%char).
Proof.
  intros L. cbv zeta. unfold operator_assign. simpl.
  destruct (copy_from_spec (digits x) 0 (length x) L) as (H1 & H2 & H3).
  assert (E : for_up 0 (length x) (fun i d => set d i (get (digits x) i)) zeros
              = for_up 0 (length x) (fun i d => set d i (get (digits x) (i + 0))) zeros).
  { apply for_up_ext. intros i s _. rewrite Z.add_0_r. reflexivity. }
  rewrite E. split; [reflexivity|]. split; [reflexivity|]. split; [exact H1|].
  split; [|exact H3]. intros j Hj. rewrite H2 by lia. rewrite Z.add_0_r. reflexivity.
Qed.

Lemma clone_eq (x : t) : clone x = operator_assign x.
Proof. reflexivity. Qed.

Lemma mag_upto_agree (a b : list ascii) (n : nat) :
  (forall j, 0 <= j < Z.of_nat n -> get a j = get b j) -> mag_upto a n = mag_upto b n.
Proof. apply mag_upto_ext. Qed.

Lemma operator_assign_wf (x : t) :
  wf x = true ->
  wf (operator_assign x) = true
  /\ magnitude (operator_assign x) = magnitude x
  /\ value (operator_assign x) = value x.
Proof.
  intros W. destruct (wf_elim x W) as (L & _ & H).
  destruct (operator_assign_spec x ltac:(lia)) as (E1 & E2 & E3 & E4 & E5).
  assert (M : magnitude (operator_assign x) = magnitude x).
  { unfold magnitude. rewrite E1. apply mag_upto_ext. intros j Hj. apply E4. lia. }
  split; [|split; [exact M|]].
  - apply wf_intro; [lia | exact E3 |].
    intros i Hi. rewrite E1 in Hi. rewrite E4 by lia. apply H. lia.
  - unfold value. rewrite E2, M. reflexivity.
Qed.

Lemma operator_assign_canonical (x : t) :
  canonical x = true -> canonical (operator_assign x) = true.
Proof.
  intros C. destruct (canonical_elim x C) as (W & T & N).
  destruct (wf_elim x W) as (L & _ & H).
  destruct (operator_assign_wf x W) as (W' & M & _).
  destruct (operator_assign_spec x ltac:(lia)) as (E1 & E2 & E3 & E4 & E5).
  apply canonical_intro; [exact W' | |].
  - rewrite E1. destruct T as [T|T]; [left; lia|]. right.
    rewrite E4 by lia. intros E. apply T. rewrite E. reflexivity.
  - rewrite E2, M. exact N.
Qed.

(** *** Shifts *)

(** Digits moved up by [n] positions over zeros stand for the magnitude
    times [16^n]. *)
Lemma mag_upto_shifted (d d0 : list ascii) (n len : nat) :
  (forall j, 0 <= j < Z.of_nat n -> convertHexDigitToInt (get d j) = 0) ->
  (forall j, 0 <= j < Z.of_nat len -> get d (j + Z.of_nat n) = get d0 j) ->
  mag_upto d (n + len) = mag_upto d0 len * 16 ^ Z.of_nat n.
Proof.
  intros Hz. induction len as [|len IH]; intros Hs.
  - rewrite Nat.add_0_r. simpl.
    rewrite (mag_upto_zeros d 0 n) by (try lia; intros; apply Hz; lia). reflexivity.
  - replace (n + S len)%nat with (S (n + len)) by lia. simpl mag_upto.
    rewrite IH by (intros; apply Hs; lia).
    replace (Z.of_nat (n + len)) with (Z.of_nat len + Z.of_nat n) by lia.
    rewrite Hs by lia. rewrite Z.pow_add_r by lia. ring.
Qed.

(** The loop of [shiftLeftInPlace] that moves the digits up, from the top. *)
Lemma shift_loop_spec (d0 : list ascii) (len n : Z) :
  0 < n -> 0 <= len -> len + n <= Z.of_nat (List.length d0) ->
  let d := for_down (len - 1) 0 (fun i d => set d (i + n) (get d i)) d0 in
  List.length d = List.length d0
  /\ (forall j, 0 <= j < len -> get d (j + n) = get d0 j).
Proof.
  intros Hn Hlen Hfit. cbv zeta.
  assert (H : (fun i d => List.length d = List.length d0
                 /\ (forall j, i < j < len -> get d (j + n) = get d0 j)
                 /\ (forall j, 0 <= j <= i -> get d j = get d0 j))
              (0 - 1) (for_down (len - 1) 0 (fun i d => set d (i + n) (get d i)) d0)).
  { apply for_down_inv; [lia | |].
    - split; [reflexivity|]. split; [intros; lia | intros; reflexivity].
    - intros i d Hi (H1 & H2 & H3). split; [rewrite length_set; exact H1|]. split.
      + intros j Hj. destruct (Z.eq_dec j i) as [->|Hne].
        * rewrite get_set_eq by lia. apply H3. lia.
        * rewrite get_set_ne by lia. apply H2. lia.
      + intros j Hj. rewrite get_set_ne by lia. apply H3. lia. }
  destruct H as (H1 & H2 & _). split; [exact H1|]. intros j Hj. apply H2. lia.
Qed.

Lemma isZero_magnitude (x : t) : isZero x = true -> magnitude x = 0.
Proof.
  unfold isZero. rewrite andb_true_iff, Z.eqb_eq, ascii_eqb_eq. intros [E1 E2].
  unfold magnitude. rewrite E1. change (Z.to_nat 1) with 1%nat. simpl.
  change (Z.of_nat 0) with 0. rewrite E2. reflexivity.
Qed.

Lemma shiftLeftInPlace_spec (x : t) (n : Z) :
  wf x = true -> 0 <= n ->
  (isZero x = true \/ n = 0 \/ length x + n <= HEX_SIZE ->
   exists r, shiftLeftInPlace x n = Ok r /\ wf r = true
             /\ magnitude r = magnitude x * 16 ^ n
             /\ isNegative r = isNegative x
             /\ (isZero x = false -> length r = length x + n))
  /\ (isZero x = false -> 0 < n -> HEX_SIZE < length x + n ->
      shiftLeftInPlace x n
      = Throw (OverflowException "shift left operation: result exceeds max hex digits")).
Proof.
  intros W Hn. destruct (wf_elim x W) as (L & D & H).
  unfold shiftLeftInPlace.
  destruct (Z.ltb_spec n 0) as [?|_]; [lia|].
  destruct (Z.eqb_spec n 0) as [->|Hn0].
  { split; [|intros; lia]. intros _. exists x. rewrite Z.pow_0_r, Z.mul_1_r, Z.add_0_r.
    repeat split; try reflexivity. exact W. }
  destruct (isZero x) eqn:Ez.
  { split; [|intros; discriminate]. intros _. exists x.
    rewrite (isZero_magnitude x Ez). repeat split; try reflexivity; [exact W | discriminate]. }
  destruct (Z.gtb_spec (length x + n) HEX_SIZE) as [G|G].
  { split; [intros [?|[?|?]]; [discriminate | lia | lia] | reflexivity]. }
  split; [|intros; lia]. intros _.
  destruct (shift_loop_spec (digits x) (length x) n ltac:(lia) ltac:(lia) ltac:(lia))
    as (S1 & S2).
  set (d1 := for_down (length x - 1) 0 (fun i d => set d (i + n) (get d i)) (digits x)) in *.
  destruct (for_up_fill (fun _ => "0"%char) d1 n ltac:(lia)) as (F1 & F2 & F3).
  set (d2 := for_up 0 n (fun i d => set d i "0"%char) d1) in *.
  eexists. split; [reflexivity|]. simpl.
  assert (Hd2 : forall j, 0 <= j < length x -> get d2 (j + n) = get (digits x) j).
  { intros j Hj. rewrite F3 by lia. apply S2. exact Hj. }
  split; [|split; [|split; [reflexivity | intros; reflexivity]]].
  - apply wf_intro; simpl; [lia | lia |].
    intros i Hi. destruct (Z.lt_ge_cases i n) as [Hlt|Hge].
    + rewrite F2 by lia. reflexivity.
    + replace i with ((i - n) + n) by lia. rewrite Hd2 by lia. apply H. lia.
  - unfold magnitude. simpl.
    replace (Z.to_nat (length x + n)) with (Z.to_nat n + Z.to_nat (length x))%nat by lia.
    rewrite (mag_upto_shifted d2 (digits x)).
    + rewrite Z2Nat.id by lia. reflexivity.
    + intros j Hj. rewrite F2 by lia. reflexivity.
    + intros j Hj. rewrite Z2Nat.id by lia. apply Hd2. lia.
Qed.

Lemma isZero_operator_assign (x : t) :
  1 <= length x <= HEX_SIZE -> isZero (operator_assign x) = isZero x.
Proof.
  intros L. destruct (operator_assign_spec x ltac:(lia)) as (E1 & _ & _ & E4 & _).
  unfold isZero. rewrite E1, E4 by lia. reflexivity.
Qed.

Lemma shiftLeft_spec (x : t) (n : Z) :
  wf x = true -> 0 <= n ->
  (isZero x = true \/ n = 0 \/ length x + n <= HEX_SIZE ->
   exists r, shiftLeft x n = Ok r /\ wf r = true
             /\ magnitude r = magnitude x * 16 ^ n
             /\ isNegative r = isNegative x
             /\ (isZero x = false -> length r = length x + n))
  /\ (isZero x = false -> 0 < n -> HEX_SIZE < length x + n ->
      shiftLeft x n
      = Throw (OverflowException "shift left operation: result exceeds max hex digits")).
Proof.
  intros W Hn. destruct (wf_elim x W) as (L & _ & _).
  destruct (operator_assign_wf x W) as (W' & M & _).
  destruct (operator_assign_spec x ltac:(lia)) as (E1 & E2 & _).
  unfold shiftLeft. rewrite clone_eq.
  pose proof (shiftLeftInPlace_spec (operator_assign x) n W' Hn) as HS.
  rewrite (isZero_operator_assign x L), E1, E2, M in HS. exact HS.
Qed.



(** *** Splitting and padding *)

(** The digits from position [k] on stand for the quotient by [16^k]. *)
Lemma mag_upto_split (d : list ascii) (k n : nat) :
  mag_upto d (k + n)
  = mag_upto d k
    + 16 ^ Z.of_nat k
      * mag_upto (for_up 0 (Z.of_nat n) (fun i b => set b i (get d (i + Z.of_nat k))) zeros) n
  \/ HEX_SIZE < Z.of_nat n.
Proof.
  destruct (Z.lt_ge_cases HEX_SIZE (Z.of_nat n)) as [?|Hn]; [right; assumption | left].
  destruct (copy_from_spec d (Z.of_nat k) (Z.of_nat n) ltac:(lia)) as (_ & H & _).
  cbv zeta in H.
  set (h := for_up 0 (Z.of_nat n) _ zeros) in *.
  rewrite Nat.add_comm.
  assert (G : forall m, (m <= n)%nat ->
            mag_upto d (m + k) = mag_upto d k + 16 ^ Z.of_nat k * mag_upto h m).
  { induction m as [|m IH]; intros Hm.
    - simpl. lia.
    - simpl. rewrite IH by lia. rewrite H by lia.
      replace (Z.of_nat (m + k)) with (Z.of_nat m + Z.of_nat k) by lia.
      rewrite (Z.pow_add_r 16) by lia. ring. }
  apply G. lia.
Qed.

Lemma getLower_spec (x : t) (n : Z) :
  wf x = true -> 0 <= n ->
  wf (getLower x n) = true
  /\ isNegative (getLower x n) = false
  /\ magnitude (getLower x n) = mag_below x n.
Proof.
  intros W Hn. destruct (wf_elim x W) as (L & _ & H).
  unfold getLower.
  set (al := Z.min (length x) n).
  destruct (copy_from_spec (digits x) 0 al ltac:(lia)) as (C1 & C2 & C3).
  assert (E : for_up 0 al (fun i d => set d i (get (digits x) i)) zeros
              = for_up 0 al (fun i d => set d i (get (digits x) (i + 0))) zeros).
  { apply for_up_ext. intros i s _. rewrite Z.add_0_r. reflexivity. }
  rewrite E. cbv zeta in C1, C2, C3.
  set (d := for_up 0 al _ zeros) in *.
  split; [|split; [reflexivity|]].
  - apply wf_intro; simpl.
    + destruct (Z.eqb_spec al 0); lia.
    + exact C1.
    + intros i Hi. destruct (Z.eqb_spec al 0) as [E0|E0].
      * rewrite C3 by lia. reflexivity.
      * rewrite C2 by lia. rewrite Z.add_0_r. apply H. lia.
  - unfold magnitude, mag_below. simpl.
    replace (Z.min n (length x)) with al by lia.
    destruct (Z.eqb_spec al 0) as [E0|E0].
    + rewrite E0. change (Z.to_nat 1) with 1%nat. simpl mag_upto.
      change (Z.of_nat 0) with 0. rewrite C3 by lia. reflexivity.
    + apply mag_upto_ext. intros j Hj. rewrite C2 by lia. rewrite Z.add_0_r. reflexivity.
Qed.

Lemma getHigher_spec (x : t) (n : Z) :
  wf x = true -> 0 <= n ->
  wf (getHigher x n) = true
  /\ isNegative (getHigher x n) = false
  /\ magnitude x = mag_below x n + 16 ^ n * magnitude (getHigher x n).
Proof.
  intros W Hn. destruct (wf_elim x W) as (L & _ & H).
  unfold getHigher.
  destruct (Z.leb_spec (length x) n) as [Hle|Hgt].
  - split; [reflexivity|]. split; [reflexivity|].
    rewrite mag_below_full by lia.
    change (magnitude (mk (set zeros 0 "0") 1 false)) with 0. lia.
  - destruct (copy_from_spec (digits x) n (length x - n) ltac:(lia)) as (C1 & C2 & C3).
    cbv zeta in C1, C2, C3.
    split; [|split; [reflexivity|]].
    + apply wf_intro; simpl; [lia | exact C1 |].
      intros i Hi. rewrite C2 by lia. apply H. lia.
    + unfold magnitude at 2. simpl.
      unfold magnitude, mag_below.
      replace (Z.min n (length x)) with n by lia.
      replace (Z.to_nat (length x)) with (Z.to_nat n + Z.to_nat (length x - n))%nat by lia.
      destruct (mag_upto_split (digits x) (Z.to_nat n) (Z.to_nat (length x - n))) as [E|E];
        [|lia].
      rewrite !Z2Nat.id in E by lia. exact E.
Qed.

Lemma mag_below_bound (x : t) (n : Z) :
  wf x = true -> 0 <= n -> 0 <= mag_below x n < 16 ^ n.
Proof.
  intros W Hn. destruct (wf_elim x W) as (L & _ & H).
  unfold mag_below.
  pose proof (mag_upto_bound (digits x) (Z.to_nat (Z.min n (length x)))
                ltac:(intros; apply is_hex_range, H; lia)) as B.
  rewrite Z2Nat.id in B by lia.
  assert (16 ^ Z.min n (length x) <= 16 ^ n) by (apply Z.pow_le_mono_r; lia).
  lia.
Qed.

(** X3.  [getLower] and [getHigher] split a value at digit [n]: both parts
    are well-formed and non-negative, the lower part is the magnitude modulo
    [16^n] and the higher part its quotient by [16^n]. *)
Theorem getLower_getHigher_split_the_magnitude (x : t) (n : Z) :
  wf x = true -> 0 <= n ->
  wf (getLower x n) = true /\ wf (getHigher x n) = true
  /\ value (getLower x n) = magnitude x mod 16 ^ n
  /\ value (getHigher x n) = magnitude x / 16 ^ n.
Proof.
  intros W Hn.
  destruct (getLower_spec x n W Hn) as (WL & SL & ML).
  destruct (getHigher_spec x n W Hn) as (WH & SH & MH).
  pose proof (mag_below_bound x n W Hn) as B.
  assert (P : 0 < 16 ^ n) by (apply Z.pow_pos_nonneg; lia).
  split; [exact WL|]. split; [exact WH|].
  unfold value, signed. rewrite SL, SH, ML.
  split.
  - apply (Z.mod_unique_pos _ _ (magnitude (getHigher x n))); lia.
  - apply (Z.div_unique_pos _ _ _ (mag_below x n)); lia.
Qed.

Lemma getLower_getHigher_split_the_magnitude_witness :
  wf (getLower (hex "-12345") 2) = true /\ wf (getHigher (hex "-12345") 2) = true
  /\ value (getLower (hex "-12345") 2) = magnitude (hex "-12345") mod 16 ^ 2
  /\ value (getHigher (hex "-12345") 2) = magnitude (hex "-12345") / 16 ^ 2.
Proof.
  apply (getLower_getHigher_split_the_magnitude (hex "-12345") 2);
    [vm_compute; reflexivity | lia].
Defined.

Lemma pad_spec (x : t) (targetLen : Z) :
  wf x = true ->
  (targetLen <= length x \/ targetLen <= HEX_SIZE ->
   exists r, pad x targetLen = Ok r /\ wf r = true
             /\ magnitude r = magnitude x /\ isNegative r = isNegative x
             /\ length r = Z.max (length x) targetLen)
  /\ (length x < targetLen -> HEX_SIZE < targetLen ->
      pad x targetLen
      = Throw (OverflowException "padding: target length exceeds max hex digits")).
Proof.
  intros W. destruct (wf_elim x W) as (L & _ & H).
  destruct (operator_assign_wf x W) as (W' & M & _).
  destruct (operator_assign_spec x ltac:(lia)) as (E1 & E2 & E3 & E4 & E5).
  unfold pad. rewrite clone_eq. rewrite E1.
  destruct (Z.ltb_spec (length x) targetLen) as [Hlt|Hge].
  - destruct (Z.gtb_spec targetLen HEX_SIZE) as [G|G].
    + split; [intros [?|?]; lia | reflexivity].
    + split; [|intros; lia]. intros _.
      destruct (for_up_fill_range (fun _ => "0"%char) (digits (operator_assign x))
                  (length x) targetLen ltac:(lia) ltac:(lia)) as (F1 & F2 & F3).
      cbv zeta in F1, F2, F3.
      eexists. split; [reflexivity|]. cbn [length digits isNegative].
      split; [|split; [|split; [exact E2 | lia]]].
      * apply wf_intro; cbn [length digits isNegative]; [lia | rewrite F1; exact E3 |].
        intros i Hi. destruct (Z.lt_ge_cases i (length x)) as [Hi'|Hi'].
        -- rewrite F3 by lia. rewrite E4 by lia. apply H. lia.
        -- rewrite F2 by lia. reflexivity.
      * unfold magnitude at 1. cbn [length digits isNegative].
        rewrite (mag_upto_zeros _ (Z.to_nat (length x))) by
          (try lia; intros i Hi; rewrite F2 by lia; reflexivity).
        unfold magnitude. apply mag_upto_ext. intros j Hj.
        rewrite F3 by lia. apply E4. lia.
  - split; [|intros; lia]. intros _. exists (operator_assign x).
    split; [reflexivity|]. split; [exact W'|]. split; [exact M|]. split; [exact E2|]. lia.
Qed.

(** X4.  [pad] extends a value to [targetLen] digits without changing it:
    the result has the same value and [max(length, targetLen)] digits, and
    [OverflowException] is thrown exactly when digits have to be added beyond
    [HEX_SIZE]. *)
Theorem pad_keeps_the_value (x : t) (targetLen : Z) :
  wf x = true ->
  (targetLen <= length x \/ targetLen <= HEX_SIZE ->
   exists r, pad x targetLen = Ok r /\ wf r = true /\ value r = value x
             /\ length r = Z.max (length x) targetLen)
  /\ (length x < targetLen -> HEX_SIZE < targetLen ->
      pad x targetLen
      = Throw (OverflowException "padding: target length exceeds max hex digits")).
Proof.
  intros W. destruct (pad_spec x targetLen W) as [Hok Hov]. split; [|exact Hov].
  intros Hfit. destruct (Hok Hfit) as (r & Hr & Wr & Hm & Hs & Hl).
  exists r. split; [exact Hr|]. split; [exact Wr|]. split; [|exact Hl].
  unfold value. rewrite Hs, Hm. reflexivity.
Qed.

Lemma pad_keeps_the_value_witness :
  (exists r, pad (hex "-1f") 6 = Ok r /\ wf r = true /\ value r = value (hex "-1f")
             /\ length r = Z.max (length (hex "-1f")) 6)
  /\ pad (hex "-1f") 129
     = Throw (OverflowException "padding: target length exceeds max hex digits").
Proof.
  destruct (pad_keeps_the_value (hex "-1f") 6) as (H1 & _); [vm_compute; reflexivity|].
  destruct (pad_keeps_the_value (hex "-1f") 129) as (_ & H2); [vm_compute; reflexivity|].
  split.
  - apply H1. right. vm_compute. discriminate.
  - apply H2; vm_compute; reflexivity.
Defined.

(** *** Schoolbook multiplication *)

(** Overwriting a digit changes the magnitude by the difference of the
    digits at its weight. *)
Lemma mag_upto_set_lt (d : list ascii) (n : nat) (p : Z) (c : ascii) :
  0 <= p < Z.of_nat n -> p < Z.of_nat (List.length d) ->
  mag_upto (set d p c) n
  = mag_upto d n + (convertHexDigitToInt c - convertHexDigitToInt (get d p)) * 16 ^ p.
Proof.
  intros Hp Hd. induction n as [|n IH]; [lia|].
  simpl mag_upto. destruct (Z.eq_dec p (Z.of_nat n)) as [E|E].
  - rewrite mag_upto_set_ge by lia. rewrite <- E. rewrite get_set_eq by lia. ring.
  - rewrite IH by lia. rewrite get_set_ne by lia. ring.
Qed.

Lemma mul_inner_spec (b : t) (a_digit i : Z) (d0 : list ascii) (N : Z) :
  wf b = true -> 0 <= a_digit <= 15 -> 0 <= i -> i + length b < N -> N <= HEX_SIZE ->
  Z.of_nat (List.length d0) = HEX_SIZE ->
  (forall k, 0 <= k < HEX_SIZE -> is_hex (get d0 k) = true) ->
  (forall k, i + length b <= k < HEX_SIZE -> get d0 k = "0"%char) ->
  forall (n : nat) (j carry : Z) (d : list ascii),
    0 <= j <= length b + 1 -> (j <= length b \/ carry = 0) ->
    length b + 1 - j <= Z.of_nat n ->
    0 <= carry <= 15 ->
    Z.of_nat (List.length d) = HEX_SIZE ->
    (forall k, 0 <= k < HEX_SIZE -> is_hex (get d k) = true) ->
    (forall k, i + j <= k < HEX_SIZE -> get d k = get d0 k) ->
    mag_upto d (Z.to_nat N) + carry * 16 ^ (i + j)
    = mag_upto d0 (Z.to_nat N) + a_digit * mag_below b j * 16 ^ i ->
    exists d' c',
      mul_inner n b a_digit i j (d, carry) = Ok (d', c')
      /\ Z.of_nat (List.length d') = HEX_SIZE
      /\ (forall k, 0 <= k < HEX_SIZE -> is_hex (get d' k) = true)
      /\ (forall k, i + length b + 1 <= k < HEX_SIZE -> get d' k = "0"%char)
      /\ mag_upto d' (Z.to_nat N)
         = mag_upto d0 (Z.to_nat N) + a_digit * magnitude b * 16 ^ i.
Proof.
  intros Wb Ha Hi HN HN' Hl0 Hh0 Hz0.
  destruct (wf_elim b Wb) as (Lb & _ & Hb).
  induction n as [|n IH]; intros j carry d Hj Hjc Hfuel Hc Hl Hh Hsame Hinv.
  - (* no round is left to run *)
    assert (carry = 0) by lia. subst carry.
    simpl. replace (j <? length b) with false by (symmetry; apply Z.ltb_ge; lia). simpl.
    exists d, 0. split; [reflexivity|]. split; [exact Hl|]. split; [exact Hh|]. split.
    + intros k Hk. rewrite Hsame by lia. apply Hz0. lia.
    + rewrite mag_below_full in Hinv by lia. lia.
  - simpl mul_inner.
    destruct ((j <? length b) || negb (carry =? 0)) eqn:Hcond.
    + (* one more round *)
      assert (Hjle : j <= length b).
      { destruct Hjc as [?| ->]; [assumption|].
        simpl in Hcond. rewrite orb_false_r in Hcond. apply Z.ltb_lt in Hcond. lia. }
      set (b_digit := if j <? length b then convertHexDigitToInt (get (digits b) j) else 0).
      assert (Hbd : 0 <= b_digit <= 15).
      { subst b_digit. destruct (Z.ltb_spec j (length b)); [apply is_hex_range, Hb; lia | lia]. }
      set (current := convertHexDigitToInt (get d (i + j))).
      assert (Hcur : 0 <= current <= 15) by (apply is_hex_range, Hh; lia).
      set (prod := current + a_digit * b_digit + carry).
      assert (Hprod : 0 <= prod <= 255) by (subst prod; nia).
      rewrite Z.rem_mod_nonneg, Z.quot_div_nonneg by lia.
      assert (Hrem : 0 <= prod mod 16 <= 15).
      { pose proof (Z.mod_pos_bound prod 16 ltac:(lia)). lia. }
      assert (Hquo : 0 <= prod / 16 <= 15).
      { split; [apply Z.div_pos; lia|].
        assert (prod / 16 < 16) by (apply Z.div_lt_upper_bound; lia). lia. }
      destruct (convertIntToHexChar_ok "Invalid integer value for hex conversion: "
                  (prod mod 16) Hrem) as (c & Hcc & Hcv & Hch).
      unfold convertIntToHexChar. rewrite Hcc. simpl mbind.
      apply IH.
      * lia.
      * destruct (Z.eq_dec j (length b)) as [E|E]; [right | left; lia].
        (* the round at [j = length b] consumes the carry *)
        assert (current = 0).
        { subst current. rewrite Hsame by lia. rewrite Hz0 by lia. reflexivity. }
        assert (b_digit = 0).
        { subst b_digit. destruct (Z.ltb_spec j (length b)); [lia | reflexivity]. }
        apply Z.div_small. subst prod. lia.
      * lia.
      * exact Hquo.
      * rewrite length_set. exact Hl.
      * intros k Hk. destruct (Z.eq_dec k (i + j)) as [->|Hne].
        -- rewrite get_set_eq by lia. exact Hch.
        -- rewrite get_set_ne by lia. apply Hh. lia.
      * intros k Hk. rewrite get_set_ne by lia. apply Hsame. lia.
      * rewrite mag_upto_set_lt by lia. rewrite Hcv. fold current.
        rewrite mag_below_step by lia. fold b_digit.
        replace (i + (j + 1)) with (i + j + 1) by lia.
        rewrite (Z.pow_add_r 16 (i + j) 1) by lia.
        rewrite (Z.pow_add_r 16 i j) in * by lia.
        pose proof (Z.div_mod prod 16 ltac:(lia)) as Hdm.
        change (16 ^ 1) with 16.
        replace (prod mod 16) with (prod - 16 * (prod / 16)) by lia.
        subst prod. nia.
    + (* the loop is left *)
      apply orb_false_iff in Hcond. destruct Hcond as [H1 H2].
      apply Z.ltb_ge in H1. apply negb_false_iff, Z.eqb_eq in H2. subst carry.
      exists d, 0. split; [reflexivity|]. split; [exact Hl|]. split; [exact Hh|]. split.
      * intros k Hk.
        destruct (Z.le_gt_cases (i + j) k) as [Hk'|Hk'].
        -- rewrite Hsame by lia. apply Hz0. lia.
        -- (* positions written by the loop lie below [i + j <= i + length b + 1] *)
           lia.
      * rewrite mag_below_full in Hinv by lia. lia.
Qed.

Lemma mag_upto_zeros_buffer (n : nat) : Z.of_nat n <= HEX_SIZE -> mag_upto zeros n = 0.
Proof.
  intros H. rewrite (mag_upto_zeros zeros 0 n); [reflexivity | lia |].
  intros i Hi. rewrite get_zeros by lia. reflexivity.
Qed.

Lemma canonical_nonzero (x : t) :
  canonical x = true -> isZero x = false -> magnitude x <> 0.
Proof.
  intros C Z0 M. destruct (canonical_elim x C) as (W & T & _).
  destruct (wf_elim x W) as (L & _ & H).
  pose proof (mag_upto_zero_all (digits x) (Z.to_nat (length x)) (wf_digits x W) M) as Hall.
  assert (E : length x = 1).
  { destruct T as [T|T]; [exact T|]. exfalso. apply T. apply Hall. lia. }
  unfold isZero in Z0. rewrite E in Z0. simpl in Z0.
  apply ascii_eqb_neq in Z0. apply Z0.
  apply hex_zero_iff; [apply H; lia | apply Hall; lia].
Qed.

Lemma bind_Ok {A B : Type} (a : A) (f : A -> outcome B) : (Ok a ≫= f) = f a.
Proof. reflexivity. Qed.

Lemma zero_constant :
  of_string "0" = Ok (hex "0") /\ wf (hex "0") = true /\ canonical (hex "0") = true
  /\ magnitude (hex "0") = 0 /\ isNegative (hex "0") = false /\ length (hex "0") = 1
  /\ isZero (hex "0") = true.
Proof. by_evaluation. Qed.

Lemma multiplyNaive_spec (a b : t) :
  wf a = true -> wf b = true ->
  (isZero a || isZero b = true \/ length a + length b <= HEX_SIZE ->
   exists r, multiplyNaive a b = Ok r /\ wf r = true
             /\ magnitude r = magnitude a * magnitude b
             /\ (length r <= 1 \/ get (digits r) (length r - 1) <> "0"%char)
             /\ (isNegative r = true -> isNegative a <> isNegative b)
             /\ (isZero a || isZero b = false ->
                 isNegative r = negb (eqb (isNegative a) (isNegative b))))
  /\ (isZero a || isZero b = false -> HEX_SIZE < length a + length b ->
      multiplyNaive a b = Throw (OverflowException "naive multiplication: result too large")).
Proof.
  intros Wa Wb.
  destruct (wf_elim a Wa) as (La & _ & Ha).
  destruct (wf_elim b Wb) as (Lb & _ & Hb).
  unfold multiplyNaive.
  destruct (isZero a || isZero b) eqn:Ez.
  { split; [|intros; discriminate]. intros _.
    destruct zero_constant as (E0 & W0 & _ & M0 & S0 & L0 & _). rewrite E0.
    exists (hex "0"). split; [reflexivity|]. split; [exact W0|].
    rewrite M0, S0, L0.
    split; [|split; [left; lia | split; [|intros; discriminate]]].
    - apply orb_true_iff in Ez. destruct Ez as [Ez|Ez];
        rewrite (isZero_magnitude _ Ez); lia.
    - discriminate. }
  destruct (Z.gtb_spec (length a + length b) HEX_SIZE) as [G|G].
  { split; [intros [?|?]; [discriminate | lia] | reflexivity]. }
  split; [|intros; lia]. intros _.
  set (N := length a + length b) in *.
  set (body := fun (i : Z) (st : outcome (list ascii)) => _).
  assert (Hloop : exists d, for_up 0 (length a) body (Ok zeros) = Ok d
            /\ Z.of_nat (List.length d) = HEX_SIZE
            /\ (forall k, 0 <= k < HEX_SIZE -> is_hex (get d k) = true)
            /\ mag_upto d (Z.to_nat N) = mag_below a (length a) * magnitude b).
  { assert (HP : (fun i st => exists d, st = Ok d
                   /\ Z.of_nat (List.length d) = HEX_SIZE
                   /\ (forall k, 0 <= k < HEX_SIZE -> is_hex (get d k) = true)
                   /\ (forall k, i + length b <= k < HEX_SIZE -> get d k = "0"%char)
                   /\ mag_upto d (Z.to_nat N) = mag_below a i * magnitude b)
                 (length a) (for_up 0 (length a) body (Ok zeros))).
    { apply for_up_inv; [lia | |].
      - exists zeros. split; [reflexivity|]. split; [reflexivity|].
        split; [intros; rewrite get_zeros by lia; reflexivity|].
        split; [intros; apply get_zeros; lia|].
        rewrite mag_upto_zeros_buffer by lia.
        unfold mag_below. replace (Z.min 0 (length a)) with 0 by lia. reflexivity.
      - intros i st Hi (d & -> & Hl & Hh & Hz & Hm).
        subst body. cbv beta. rewrite bind_Ok.
        pose proof (is_hex_range _ (Ha i ltac:(lia))) as Had.
        destruct (mul_inner_spec b (convertHexDigitToInt (get (digits a) i)) i d N
                    Wb Had ltac:(lia) ltac:(lia) ltac:(lia) Hl Hh Hz
                    (Z.to_nat HEX_SIZE + 1) 0 0 d)
          as (d' & c' & Hrun & Hl' & Hh' & Hz' & Hm').
        + lia.
        + left. lia.
        + unfold HEX_SIZE in *. lia.
        + lia.
        + exact Hl.
        + exact Hh.
        + intros; reflexivity.
        + unfold mag_below at 1. replace (Z.min 0 (length b)) with 0 by lia. simpl. lia.
        + rewrite Hrun, bind_Ok. exists d'. split; [reflexivity|]. split; [exact Hl'|].
          split; [exact Hh'|]. split; [intros; apply Hz'; lia|].
          rewrite Hm', Hm. rewrite (mag_below_step a i) by lia.
          destruct (Z.ltb_spec i (length a)); [ring | lia]. }
    destruct HP as (d & E & Hl & Hh & _ & Hm). exists d. auto. }
  destruct Hloop as (d & Hrun & Hl & Hh & Hm). rewrite Hrun, bind_Ok.
  rewrite mag_below_full in Hm by lia.
  pose proof (strip_spec d N) as Hs. cbv zeta in Hs. destruct Hs as (S1 & S2 & S3 & S4).
  eexists. split; [reflexivity|]. cbn [length digits isNegative].
  split; [|split; [|split; [|split]]].
  - apply wf_intro; cbn [length digits isNegative]; [lia | exact Hl | intros; apply Hh; lia].
  - unfold magnitude at 1. cbn [length digits]. rewrite mag_upto_strip by lia. exact Hm.
  - destruct S4 as [S4|S4]; [left; lia | right; exact S4].
  - destruct (isNegative a), (isNegative b); simpl; congruence.
  - intros _. reflexivity.
Qed.

(** X5.  [multiplyNaive] returns the product of well-formed operands, and
    refuses with [OverflowException] exactly when neither operand is the
    zero value and their digit counts add up to more than [HEX_SIZE]: also
    when the product itself would fit, as for a value of [HEX_SIZE] digits
    times one. *)
Theorem multiplyNaive_computes_the_product (a b : t) :
  wf a = true -> wf b = true ->
  (isZero a || isZero b = true \/ length a + length b <= HEX_SIZE ->
   exists r, multiplyNaive a b = Ok r /\ wf r = true /\ value r = value a * value b)
  /\ (isZero a || isZero b = false -> HEX_SIZE < length a + length b ->
      multiplyNaive a b = Throw (OverflowException "naive multiplication: result too large")).
Proof.
  intros Wa Wb. destruct (multiplyNaive_spec a b Wa Wb) as [Hok Hov].
  split; [|exact Hov].
  intros Hfit. destruct (Hok Hfit) as (r & Hr & Wr & Hm & _ & _ & Hs).
  exists r. split; [exact Hr|]. split; [exact Wr|].
  unfold value, signed. rewrite Hm.
  destruct (isZero a || isZero b) eqn:Ez.
  - assert (Z0 : magnitude a * magnitude b = 0).
    { apply orb_true_iff in Ez. destruct Ez as [Ez|Ez];
        rewrite (isZero_magnitude _ Ez); lia. }
    rewrite Z0. destruct (isNegative r), (isNegative a), (isNegative b); lia.
  - rewrite (Hs eq_refl). destruct (isNegative a), (isNegative b); simpl; ring.
Qed.

Lemma multiplyNaive_computes_the_product_witness :
  (exists r, multiplyNaive (hex "-1f") (hex "a0") = Ok r /\ wf r = true
             /\ value r = value (hex "-1f") * value (hex "a0"))
  /\ multiplyNaive
       (hex "ffffffffffffffffffffffffffffffffffffffffffffffffffffffffffffffffffffffffffffffffffffffffffffffffffffffffffffffffffffffffffffffff")
       (hex "1")
     = Throw (OverflowException "naive multiplication: result too large").
Proof.
  destruct (multiplyNaive_computes_the_product (hex "-1f") (hex "a0")) as (H1 & _);
    [vm_compute; reflexivity | vm_compute; reflexivity |].
  destruct (multiplyNaive_computes_the_product
              (hex "ffffffffffffffffffffffffffffffffffffffffffffffffffffffffffffffffffffffffffffffffffffffffffffffffffffffffffffffffffffffffffffffff")
              (hex "1")) as (_ & H2);
    [vm_compute; reflexivity | vm_compute; reflexivity |].
  split.
  - apply H1. right. vm_compute. discriminate.
  - apply H2; vm_compute; reflexivity.
Defined.

(** *** The integer a text denotes *)

Lemma fold_left_horner (l : list ascii) (acc : Z) :
  fold_left (fun acc c => acc * 16 + convertHexDigitToInt c) l acc
  = acc * 16 ^ Z.of_nat (List.length l) + digits_value l.
Proof.
  unfold digits_value. revert acc. induction l as [|c l IH]; intros acc.
  - simpl. lia.
  - cbn [fold_left List.length]. rewrite IH. rewrite (IH (0 * 16 + _)).
    rewrite Nat2Z.inj_succ, Z.pow_succ_r by lia. ring.
Qed.

Lemma digits_value_cons (c : ascii) (l : list ascii) :
  digits_value (c :: l)
  = convertHexDigitToInt c * 16 ^ Z.of_nat (List.length l) + digits_value l.
Proof.
  unfold digits_value at 1. cbn [fold_left]. rewrite fold_left_horner. ring.
Qed.

Lemma digits_value_drop_zeros (l : list ascii) :
  digits_value (drop_zeros l) = digits_value l.
Proof.
  induction l as [|c l IH]; [reflexivity|].
  destruct l as [|c2 t]; [reflexivity|].
  rewrite drop_zeros_cons. destruct (ascii_eqb c "0") eqn:E; [|reflexivity].
  apply ascii_eqb_eq in E. subst c. rewrite IH.
  rewrite (digits_value_cons "0"). change (convertHexDigitToInt "0") with 0. lia.
Qed.

(** A buffer that holds the characters of [l] in reverse order stands for
    the number [l] denotes. *)
Lemma mag_upto_reversed (d : list ascii) (l : list ascii) :
  (forall i, 0 <= i < Z.of_nat (List.length l) ->
             get d i = nth (Z.to_nat (Z.of_nat (List.length l) - 1 - i)) l NUL) ->
  mag_upto d (List.length l) = digits_value l.
Proof.
  induction l as [|c l IH]; intros H; [reflexivity|].
  cbn [List.length mag_upto]. rewrite digits_value_cons.
  rewrite IH.
  - rewrite (H (Z.of_nat (List.length l))) by (cbn [List.length]; lia).
    replace (Z.to_nat (Z.of_nat (List.length (c :: l)) - 1 - Z.of_nat (List.length l)))
      with O by (cbn [List.length]; lia).
    simpl nth. ring.
  - intros i Hi. rewrite H by (cbn [List.length]; lia).
    replace (Z.to_nat (Z.of_nat (List.length (c :: l)) - 1 - i))
      with (S (Z.to_nat (Z.of_nat (List.length l) - 1 - i))) by (cbn [List.length]; lia).
    reflexivity.
Qed.

Lemma drop_zeros_top (l : list ascii) :
  l <> [] -> drop_zeros l <> []
  /\ (List.length (drop_zeros l) = 1%nat \/ nth 0 (drop_zeros l) NUL <> "0"%char).
Proof.
  induction l as [|c l IH]; intros Hne; [congruence|].
  destruct l as [|c2 t]; [split; [discriminate | left; reflexivity]|].
  rewrite drop_zeros_cons. destruct (ascii_eqb c "0") eqn:E.
  - apply IH. discriminate.
  - split; [discriminate|]. right. simpl. apply ascii_eqb_neq. exact E.
Qed.

Lemma forallb_drop_zeros (p : ascii -> bool) (l : list ascii) :
  forallb p l = true -> forallb p (drop_zeros l) = true.
Proof.
  induction l as [|c l IH]; intros H; [reflexivity|].
  destruct l as [|c2 t]; [exact H|].
  rewrite drop_zeros_cons. destruct (ascii_eqb c "0"); [|exact H].
  apply IH. simpl in H. apply andb_true_iff in H. apply H.
Qed.

(** What [createFromString] builds from an accepted text, in terms of the
    significant digits of the text. *)
Lemma createFromString_shape (s : string) (v : t) :
  createFromString s = Ok v ->
  let ds := significant_digits s in
  let n := Z.of_nat (List.length ds) in
  1 <= n <= HEX_SIZE
  /\ forallb is_hex_char ds = true
  /\ (n = 1 \/ nth 0 ds NUL <> "0"%char)
  /\ length v = n
  /\ isNegative v = has_sign s && negb (is_zero_text ds)
  /\ Z.of_nat (List.length (digits v)) = HEX_SIZE
  /\ (forall i, 0 <= i < n -> get (digits v) i = nth (Z.to_nat (n - 1 - i)) ds NUL)
  /\ (forall i, n <= i < HEX_SIZE -> get (digits v) i = "0"%char).
Proof.
  intros Hv.
  assert (Hvalid : isValidInput s = true).
  { unfold createFromString in Hv. destruct (isValidInput s); [reflexivity | discriminate]. }
  pose proof Hvalid as Hvalid'.
  rewrite isValidInput_spec in Hvalid'. apply andb_true_iff in Hvalid'.
  destruct Hvalid' as [Hlit Hraw]. apply Z.leb_le in Hraw.
  pose proof (str_len_chars s) as Hlen.
  pose proof (unsigned_part_drop s) as Hup.
  set (start := if has_sign s then 1 else 0).
  assert (Hstart : (if has_sign s then 1%nat else 0%nat) = Z.to_nat start)
    by (subst start; destruct (has_sign s); reflexivity).
  rewrite Hstart in Hup.
  assert (Hs01 : 0 <= start <= 1) by (subst start; destruct (has_sign s); lia).
  assert (Hne : start < str_len s /\ forallb is_hex_char (drop (Z.to_nat start) (chars s)) = true).
  { unfold is_literal in Hlit. rewrite Hup in Hlit.
    destruct (drop (Z.to_nat start) (chars s)) as [|c l] eqn:E; [discriminate|].
    split; [|exact Hlit].
    assert (List.length (drop (Z.to_nat start) (chars s)) <> O) by (rewrite E; discriminate).
    rewrite length_drop in H. lia. }
  destruct Hne as [Hslt Hhex].
  destruct (skip_zeros_spec s (String.length s) start ltac:(lia)
              ltac:(unfold str_len; lia)) as (Hk & Hdrop & Htop).
  set (k := skip_zeros (String.length s) s start) in *.
  assert (Hsig : significant_digits s = drop (Z.to_nat k) (chars s)).
  { unfold significant_digits. rewrite Hup. symmetry. exact Hdrop. }
  assert (Hhexs : forallb is_hex_char (significant_digits s) = true).
  { unfold significant_digits. rewrite Hup. apply forallb_drop_zeros. exact Hhex. }
  cbv zeta. rewrite Hsig in *. rewrite length_drop.
  set (n := str_len s - k).
  replace (Z.of_nat (List.length (chars s) - Z.to_nat k)) with n by (subst n; lia).
  assert (Hge1 : 1 <= n) by (subst n; lia).
  assert (Hds : drop (Z.to_nat k) (chars s)
                = str_at s k :: drop (S (Z.to_nat k)) (chars s)).
  { rewrite (drop_cons_nth (chars s) (Z.to_nat k)) by lia.
    rewrite <- (str_at_chars s k) by lia. reflexivity. }
  assert (Hnth : forall i, 0 <= i < n ->
            nth (Z.to_nat (n - 1 - i)) (drop (Z.to_nat k) (chars s)) NUL
            = str_at s (k + n - 1 - i)).
  { intros i Hi. rewrite str_at_chars by lia. rewrite nth_skipn. f_equal. lia. }
  unfold createFromString in Hv. rewrite Hvalid in Hv. simpl negb in Hv. cbv iota in Hv.
  rewrite sign_char in Hv. fold start in Hv. fold k in Hv. fold n in Hv.
  destruct (Z.gtb_spec n HEX_SIZE) as [G|G]; [discriminate|].
  split; [lia|]. split; [exact Hhexs|].
  split.
  { destruct Htop as [Htop|Htop]; [left; lia|]. right. rewrite Hds. exact Htop. }
  destruct ((n =? 1) && ascii_eqb (str_at s k) "0") eqn:Ez.
  - (* the literal is a zero *)
    apply andb_true_iff in Ez. destruct Ez as [E1 E2].
    apply Z.eqb_eq in E1. apply ascii_eqb_eq in E2.
    injection Hv as <-. cbn [length isNegative digits].
    assert (Hz : is_zero_text (drop (Z.to_nat k) (chars s)) = true).
    { rewrite Hds, E2. rewrite (drop_ge (chars s) (S (Z.to_nat k))) by lia. reflexivity. }
    rewrite Hz. simpl negb. rewrite andb_false_r.
    split; [lia|]. split; [reflexivity|]. split; [reflexivity|]. split.
    + intros i Hi. assert (i = 0) by lia. subst i. rewrite Hnth by lia.
      replace (k + n - 1 - 0) with k by lia. rewrite E2.
      apply get_set_eq. rewrite length_zeros. unfold HEX_SIZE. lia.
    + intros i Hi. rewrite get_set_ne by lia. apply get_zeros. lia.
  - injection Hv as <-. cbn [length isNegative digits].
    destruct (for_up_fill (fun i => str_at s (k + n - 1 - i)) zeros n
                ltac:(rewrite length_zeros; lia)) as (Hl & Hget & Habove).
    cbv zeta in Hl, Hget, Habove.
    assert (His : is_zero_text (drop (Z.to_nat k) (chars s)) = false).
    { rewrite Hds. unfold is_zero_text.
      destruct (drop (S (Z.to_nat k)) (chars s)) eqn:E; [|reflexivity].
      assert (Hn1 : n = 1).
      { assert (H : List.length (drop (S (Z.to_nat k)) (chars s)) = O)
          by (rewrite E; reflexivity).
        rewrite length_drop in H. lia. }
      apply andb_false_iff in Ez. destruct Ez as [Ez|Ez]; [|exact Ez].
      apply Z.eqb_neq in Ez. lia. }
    rewrite His. simpl negb. rewrite andb_true_r.
    split; [reflexivity|]. split; [reflexivity|].
    split; [rewrite Hl; apply length_zeros|]. split.
    + intros i Hi. rewrite Hget by lia. rewrite Hnth by lia. reflexivity.
    + intros i Hi. rewrite Habove by lia. apply get_zeros. lia.
Qed.

Lemma is_zero_text_value (ds : list ascii) :
  is_zero_text ds = true -> digits_value ds = 0.
Proof.
  destruct ds as [|c [|c2 t]]; try discriminate. simpl.
  intros E. apply ascii_eqb_eq in E. subst c. reflexivity.
Qed.

Lemma createFromString_value (s : string) (v : t) :
  createFromString s = Ok v ->
  canonical v = true /\ value v = literal_value s
  /\ magnitude v = digits_value (significant_digits s).
Proof.
  intros Hv. pose proof (createFromString_shape s v Hv) as Hs. cbv zeta in Hs.
  destruct Hs as (Hn & Hhex & Htop & Hlen & Hneg & Hl & Hget & Habove).
  set (ds := significant_digits s) in *.
  assert (Hin : forall i, 0 <= i < Z.of_nat (List.length ds) ->
            is_hex (nth (Z.to_nat i) ds NUL) = true).
  { intros i Hi. rewrite forallb_forall in Hhex. apply Hhex. apply nth_In. lia. }
  assert (W : wf v = true).
  { apply wf_intro; [lia | exact Hl |].
    intros i Hi. rewrite Hget by lia. apply Hin. lia. }
  assert (M : magnitude v = digits_value ds).
  { unfold magnitude. rewrite Hlen, Nat2Z.id. apply mag_upto_reversed. exact Hget. }
  split; [|split; [|exact M]].
  - apply canonical_intro; [exact W | |].
    + rewrite Hlen. destruct Htop as [Htop|Htop]; [left; lia | right].
      rewrite Hget by lia.
      replace (Z.to_nat (Z.of_nat (List.length ds) - 1 - (Z.of_nat (List.length ds) - 1)))
        with O by lia.
      exact Htop.
    + rewrite Hneg, M. intros E. apply andb_true_iff in E. destruct E as [_ E].
      apply negb_true_iff in E. intros Z0.
      (* a text that denotes zero has the single significant digit 0 *)
      assert (Hz : forall j, 0 <= j < Z.of_nat (Z.to_nat (length v)) ->
                convertHexDigitToInt (get (digits v) j) = 0).
      { apply mag_upto_zero_all; [apply (wf_digits v W)|].
        fold (magnitude v). rewrite M. exact Z0. }
      assert (Hn1 : Z.of_nat (List.length ds) = 1).
      { destruct Htop as [Htop|Htop]; [exact Htop|]. exfalso. apply Htop.
        specialize (Hz (Z.of_nat (List.length ds) - 1) ltac:(lia)).
        rewrite Hget in Hz by lia.
        replace (Z.to_nat (Z.of_nat (List.length ds) - 1 - (Z.of_nat (List.length ds) - 1)))
          with O in Hz by lia.
        apply hex_zero_iff; [|exact Hz]. apply (Hin 0). lia. }
      specialize (Hz 0 ltac:(lia)). rewrite Hget in Hz by lia.
      replace (Z.to_nat (Z.of_nat (List.length ds) - 1 - 0)) with O in Hz by lia.
      destruct ds as [|c [|c2 t]]; cbn [List.length] in Hn1; try lia.
      simpl in Hz, E. apply ascii_eqb_neq in E. apply E.
      apply hex_zero_iff; [apply (Hin 0); simpl; lia | exact Hz].
  - unfold value, literal_value. rewrite M, Hneg.
    unfold ds at 2. unfold significant_digits. rewrite digits_value_drop_zeros.
    destruct (is_zero_text ds) eqn:Ezt.
    + pose proof (is_zero_text_value ds Ezt) as Z0.
      unfold ds, significant_digits in Z0. rewrite digits_value_drop_zeros in Z0.
      rewrite Z0. destruct (has_sign s); reflexivity.
    + simpl negb. rewrite andb_true_r. reflexivity.
Qed.

(** X6.  Whatever [createFromString] accepts is built in canonical form
    (significant digits only, no leading zero, no negative zero) and stands
    for the integer the text denotes. *)
Theorem createFromString_returns_the_denoted_integer (s : string) (v : t) :
  createFromString s = Ok v -> canonical v = true /\ value v = literal_value s.
Proof.
  intros Hv. destruct (createFromString_value s v Hv) as (C & V & _). split; assumption.
Qed.

Lemma createFromString_returns_the_denoted_integer_witness :
  exists v, createFromString "-00aB0" = Ok v
            /\ canonical v = true /\ value v = literal_value "-00aB0"
            /\ literal_value "-00aB0" = -2736.
Proof.
  eexists. split; [vm_compute; reflexivity|].
  split; [|split; [|vm_compute; reflexivity]].
  - eapply (createFromString_returns_the_denoted_integer "-00aB0"). vm_compute. reflexivity.
  - eapply (createFromString_returns_the_denoted_integer "-00aB0"). vm_compute. reflexivity.
Defined.

(** *** Parsing what [toString] renders *)

Lemma chars_append (a b : string) : chars (a +:+ b) = (chars a ++ chars b)%list.
Proof.
  unfold chars. induction a as [|c a IH]; [reflexivity|].
  rewrite append_cons. simpl. rewrite IH. reflexivity.
Qed.

Lemma chars_of_list (l : list ascii) : chars (string_of_list_ascii l) = l.
Proof. apply list_ascii_of_string_of_list_ascii. Qed.

Lemma buffer_eq (a b : list ascii) :
  List.length a = List.length b ->
  (forall i, 0 <= i < Z.of_nat (List.length a) -> get a i = get b i) ->
  a = b.
Proof.
  intros Hl H. apply (nth_ext a b NUL NUL Hl). intros n Hn.
  specialize (H (Z.of_nat n) ltac:(lia)). rewrite !get_nonneg in H by lia.
  rewrite Nat2Z.id in H. exact H.
Qed.

Lemma drop_zeros_id (l : list ascii) :
  (List.length l = 1%nat \/ nth 0 l NUL <> "0"%char) -> drop_zeros l = l.
Proof.
  destruct l as [|c [|c2 t]]; try reflexivity.
  intros [H|H]; [discriminate H|]. rewrite drop_zeros_cons.
  simpl in H. apply ascii_eqb_neq in H. rewrite H. reflexivity.
Qed.

(** The characters [toString] writes for a canonical value: the sign, then
    the significant digits from the top. *)
Lemma toString_chars (x : t) :
  canonical x = true ->
  let l := rev (take (Z.to_nat (length x)) (digits x)) in
  toString x = (if isNegative x then "-" else "") +:+ string_of_list_ascii l
  /\ Z.of_nat (List.length l) = length x
  /\ (forall i, 0 <= i < length x -> nth (Z.to_nat (length x - 1 - i)) l NUL = get (digits x) i).
Proof.
  intros C. destruct (canonical_elim x C) as (W & T & N).
  destruct (wf_elim x W) as (L & D & H). cbv zeta.
  set (l := rev (take (Z.to_nat (length x)) (digits x))).
  assert (Hl : Z.of_nat (List.length l) = length x).
  { subst l. rewrite length_rev, length_take. lia. }
  assert (Hnth : forall i, 0 <= i < length x ->
            nth (Z.to_nat (length x - 1 - i)) l NUL = get (digits x) i).
  { intros i Hi. subst l. rewrite rev_nth by (rewrite length_take; lia).
    rewrite length_take.
    replace (Init.Nat.min (Z.to_nat (length x)) (List.length (digits x))
             - S (Z.to_nat (length x - 1 - i)))%nat with (Z.to_nat i) by lia.
    rewrite get_nonneg by lia.
    rewrite !nth_lookup. rewrite lookup_take_lt by lia. reflexivity. }
  split; [|split; [exact Hl | exact Hnth]].
  unfold toString.
  assert (Hsign : isNegative x && negb (isZero x) = isNegative x).
  { destruct (isNegative x) eqn:E; [|reflexivity]. simpl.
    destruct (isZero x) eqn:Ez; [|reflexivity].
    exfalso. apply (N eq_refl). apply isZero_magnitude. exact Ez. }
  rewrite Hsign.
  rewrite find_msb_top.
  - apply for_down_emit; [lia | lia |].
    intros i Hi. symmetry. apply Hnth. lia.
  - lia.
  - destruct T as [T|T]; [left; exact T | right].
    intros E. apply T. rewrite E. reflexivity.
Qed.

Lemma createFromString_toString (x : t) :
  canonical x = true -> createFromString (toString x) = Ok (operator_assign x).
Proof.
  intros C. destruct (canonical_elim x C) as (W & T & N).
  destruct (wf_elim x W) as (L & D & H).
  destruct (toString_chars x C) as (Hs & Hl & Hnth). cbv zeta in Hs, Hl, Hnth.
  set (l := rev (take (Z.to_nat (length x)) (digits x))) in *.
  set (s := toString x) in *.
  assert (Hhexl : forallb is_hex_char l = true).
  { apply forallb_forall. intros c Hc. apply (In_nth _ _ NUL) in Hc.
    destruct Hc as (k & Hk & <-).
    replace k with (Z.to_nat (length x - 1 - (length x - 1 - Z.of_nat k))) by lia.
    rewrite Hnth by lia. apply H. lia. }
  assert (Hl0 : nth 0 l NUL = get (digits x) (length x - 1)).
  { rewrite <- Hnth by lia. f_equal. lia. }
  assert (Hne : l <> []) by (intros E; rewrite E in Hl; simpl in Hl; lia).
  assert (Hchars : chars s = ((if isNegative x then ["-"%char] else []) ++ l)%list).
  { rewrite Hs, chars_append, chars_of_list. destruct (isNegative x); reflexivity. }
  assert (Hsign : has_sign s = isNegative x).
  { unfold has_sign. rewrite Hchars. destruct (isNegative x); [reflexivity|].
    destruct l as [|c l']; [congruence|]. simpl in *.
    rewrite Hl0. specialize (H (length x - 1) ltac:(lia)).
    destruct (ascii_eqb (get (digits x) (length x - 1)) "-") eqn:E; [|reflexivity].
    apply ascii_eqb_eq in E. rewrite E in H. discriminate H. }
  assert (Hup : unsigned_part s = l).
  { rewrite unsigned_part_drop, Hsign, Hchars. destruct (isNegative x); reflexivity. }
  assert (Htopl : List.length l = 1%nat \/ nth 0 l NUL <> "0"%char).
  { destruct T as [T|T]; [left; lia | right].
    rewrite Hl0. intros E. apply T. rewrite E. reflexivity. }
  assert (Hsig : significant_digits s = l).
  { unfold significant_digits. rewrite Hup. apply drop_zeros_id. exact Htopl. }
  assert (Hlit : is_literal s = true).
  { unfold is_literal. rewrite Hup. destruct l; [congruence | exact Hhexl]. }
  assert (Hraw : str_len s <= HEX_SIZE + 1).
  { rewrite str_len_chars, Hchars, length_app. destruct (isNegative x); simpl; lia. }
  destruct (createFromString_literal s Hlit Hraw) as [Hok _].
  destruct (Hok ltac:(rewrite Hsig; lia)) as (v & Hv & _).
  rewrite Hv. f_equal.
  pose proof (createFromString_shape s v Hv) as Sh. cbv zeta in Sh.
  rewrite Hsig, Hl, Hsign in Sh.
  destruct Sh as (_ & _ & _ & Vlen & Vneg & Vl & Vget & Vabove).
  destruct (operator_assign_spec x ltac:(lia)) as (E1 & E2 & E3 & E4 & E5).
  assert (Hzt : isNegative x && negb (is_zero_text l) = isNegative x).
  { destruct (isNegative x) eqn:En; [|reflexivity]. simpl.
    destruct (is_zero_text l) eqn:Ez; [|reflexivity]. exfalso.
    apply (N eq_refl). unfold magnitude.
    replace (Z.to_nat (length x)) with (List.length l) by lia.
    rewrite (mag_upto_reversed (digits x) l).
    - apply is_zero_text_value. exact Ez.
    - intros i Hi. rewrite Hl. symmetry. apply Hnth. lia. }
  rewrite Hzt in Vneg.
  destruct v as [vd vl vn]. cbn [length digits isNegative] in *.
  destruct (operator_assign x) as [yd yl yn] eqn:Ey. cbn [length digits isNegative] in *.
  assert (vd = yd).
  { apply buffer_eq; [lia|]. intros i Hi.
    destruct (Z.lt_ge_cases i (length x)) as [Hi'|Hi'].
    - rewrite Vget, E4 by lia. apply Hnth. lia.
    - rewrite Vabove, E5 by lia. reflexivity. }
  congruence.
Qed.

(** X7.  Parsing what [toString] renders gives the value back: for a
    canonical [x], [createFromString (toString x)] succeeds with the copy of
    [x] that [operator=] makes (the digits of [x] up to its length, zeros
    above), so the text carries the whole value. *)
Theorem createFromString_inverts_toString (x : t) :
  canonical x = true ->
  createFromString (toString x) = Ok (operator_assign x)
  /\ value (operator_assign x) = value x
  /\ toString (operator_assign x) = toString x.
Proof.
  intros C. destruct (canonical_elim x C) as (W & _ & _).
  destruct (wf_elim x W) as (L & D & _).
  destruct (operator_assign_wf x W) as (_ & _ & V).
  split; [apply createFromString_toString; exact C|]. split; [exact V|].
  pose proof (operator_assign_canonical x C) as C'.
  destruct (toString_chars x C) as (Hs & _). destruct (toString_chars _ C') as (Hs' & _).
  cbv zeta in Hs, Hs'. rewrite Hs, Hs'.
  destruct (operator_assign_spec x ltac:(lia)) as (E1 & E2 & E3 & E4 & E5).
  rewrite E1, E2. f_equal. f_equal. f_equal.
  apply (nth_ext _ _ NUL NUL).
  - rewrite !length_take. lia.
  - intros n Hn. rewrite length_take in Hn.
    rewrite !nth_lookup, !lookup_take_lt by lia. rewrite <- !nth_lookup.
    specialize (E4 (Z.of_nat n) ltac:(lia)). rewrite !get_nonneg in E4 by lia.
    rewrite Nat2Z.id in E4. exact E4.
Qed.

Lemma createFromString_inverts_toString_witness :
  createFromString (toString (hex "-aB0")) = Ok (operator_assign (hex "-aB0"))
  /\ value (operator_assign (hex "-aB0")) = value (hex "-aB0")
  /\ toString (operator_assign (hex "-aB0")) = toString (hex "-aB0").
Proof.
  apply (createFromString_inverts_toString (hex "-aB0")). vm_compute. reflexivity.
Defined.

(** *** Predicates and unit steps *)

Lemma hex_one_iff (c : ascii) :
  is_hex c = true -> (convertHexDigitToInt c = 1 <-> c = "1"%char).
Proof.
  destruct c as [[] [] [] [] [] [] [] []]; vm_compute; intros H;
    solve [discriminate H | split; intros E; solve [discriminate E | reflexivity]].
Qed.

Lemma magnitude_single (x : t) :
  length x = 1 -> magnitude x = convertHexDigitToInt (get (digits x) 0).
Proof.
  intros E. unfold magnitude. rewrite E. change (Z.to_nat 1) with 1%nat.
  simpl. change (Z.of_nat 0) with 0. lia.
Qed.

Lemma canonical_small (x : t) :
  canonical x = true -> magnitude x < 16 -> length x = 1.
Proof.
  intros C Hm. destruct (canonical_elim x C) as (W & _ & _).
  destruct (wf_elim x W) as (L & _ & _).
  destruct (Z.eq_dec (length x) 1) as [E|E]; [exact E|].
  pose proof (canonical_lower x C ltac:(lia)) as Hl.
  assert (16 ^ 1 <= 16 ^ (length x - 1)) by (apply Z.pow_le_mono_r; lia).
  change (16 ^ 1) with 16 in *. lia.
Qed.

Lemma isZero_spec (x : t) : canonical x = true -> isZero x = (value x =? 0).
Proof.
  intros C. destruct (isZero x) eqn:Ez.
  - symmetry. apply Z.eqb_eq. unfold value, signed.
    rewrite (isZero_magnitude x Ez). destruct (isNegative x); reflexivity.
  - symmetry. apply Z.eqb_neq. pose proof (canonical_nonzero x C Ez).
    unfold value, signed. destruct (isNegative x); lia.
Qed.

Lemma isOne_spec (x : t) : canonical x = true -> isOne x = (value x =? 1).
Proof.
  intros C. destruct (canonical_elim x C) as (W & _ & N).
  destruct (wf_elim x W) as (L & _ & H).
  pose proof (magnitude_bound x W) as B.
  unfold isOne. destruct (Z.eqb_spec (value x) 1) as [E|E].
  - assert (isNegative x = false /\ magnitude x = 1) as [Hs Hm].
    { unfold value, signed in E. destruct (isNegative x); [lia | auto]. }
    pose proof (canonical_small x C ltac:(lia)) as Hl.
    rewrite Hl, Hs. rewrite (magnitude_single x Hl) in Hm.
    apply hex_one_iff in Hm; [|apply H; lia]. rewrite Hm. reflexivity.
  - apply not_true_is_false. intros T.
    rewrite !andb_true_iff, Z.eqb_eq, ascii_eqb_eq, negb_true_iff in T.
    destruct T as [[Hl Hd] Hs]. apply E.
    unfold value, signed. rewrite Hs, (magnitude_single x Hl), Hd. reflexivity.
Qed.

(** X8.  On canonical values the three predicates decide what their names
    say: [isZero] holds exactly for the value 0, [isOne] exactly for the value
    1 (not for -1), and [isEven] is the parity of the value, read off the
    lowest digit. *)
Theorem isZero_isOne_isEven_decide_the_value (x : t) :
  canonical x = true ->
  isZero x = (value x =? 0) /\ isOne x = (value x =? 1) /\ isEven x = Z.even (value x).
Proof.
  intros C. destruct (canonical_elim x C) as (W & _ & _).
  split; [apply isZero_spec; exact C|]. split; [apply isOne_spec; exact C|].
  apply isEven_spec. exact W.
Qed.

Lemma isZero_isOne_isEven_decide_the_value_witness :
  isZero (hex "-1") = (value (hex "-1") =? 0)
  /\ isOne (hex "-1") = (value (hex "-1") =? 1)
  /\ isEven (hex "-1") = Z.even (value (hex "-1")).
Proof.
  apply (isZero_isOne_isEven_decide_the_value (hex "-1")). vm_compute. reflexivity.
Defined.

(** [operator+] on canonical operands, with what is known about the form of
    the result. *)
Lemma operator_add_spec (a b : t) :
  canonical a = true -> canonical b = true ->
  (Z.abs (value a + value b) < 16 ^ HEX_SIZE ->
   exists r, operator_add a b = Ok r /\ wf r = true /\ value r = value a + value b
             /\ (value r <> 0 -> canonical r = true))
  /\ (16 ^ HEX_SIZE <= Z.abs (value a + value b) ->
      operator_add a b = Throw (OverflowException "hexadecimal addition")).
Proof.
  intros Ca Cb.
  destruct (canonical_elim a Ca) as (Wa & _ & Na).
  destruct (canonical_elim b Cb) as (Wb & _ & Nb).
  pose proof (magnitude_bound a Wa) as Ba.
  pose proof (magnitude_bound b Wb) as Bb.
  destruct (wf_elim a Wa) as (La & _ & _).
  destruct (wf_elim b Wb) as (Lb & _ & _).
  assert (Hpa : 16 ^ length a <= 16 ^ HEX_SIZE) by (apply Z.pow_le_mono_r; lia).
  assert (Hpb : 16 ^ length b <= 16 ^ HEX_SIZE) by (apply Z.pow_le_mono_r; lia).
  unfold operator_add, operator_add_body.
  destruct (Bool.eqb (isNegative a) (isNegative b)) eqn:Es; simpl negb; cbv iota.
  - (* equal signs *)
    apply eqb_prop in Es.
    destruct (add_same_sign_spec a b Wa Wb) as [Hok Hov].
    assert (Habs : Z.abs (value a + value b) = magnitude a + magnitude b).
    { unfold value, signed. rewrite <- Es. destruct (isNegative a); lia. }
    rewrite Habs. split; [|exact Hov].
    intros Hlt. destruct (Hok Hlt) as (r & Hr & Wr & Hm & Hs).
    exists r. split; [exact Hr|]. split; [exact Wr|].
    assert (V : value r = value a + value b).
    { unfold value, signed. rewrite Hs, Hm, <- Es. destruct (isNegative a); lia. }
    split; [exact V|]. intros NZ.
    apply canonical_intro; [exact Wr | exact (add_same_sign_top a b r Hr) |].
    intros _ M0. apply NZ. unfold value, signed. rewrite M0.
    destruct (isNegative r); reflexivity.
  - (* different signs *)
    apply eqb_false_iff in Es.
    pose proof (canonical_abs a Ca) as Caa. pose proof (canonical_abs b Cb) as Cab.
    set (absA := mk (digits a) (length a) false) in *.
    set (absB := mk (digits b) (length b) false) in *.
    assert (Hcmp : compare absA absB = Z.sgn (magnitude a - magnitude b)).
    { rewrite (compare_sgn absA absB Caa Cab). reflexivity. }
    assert (Habs : Z.abs (value a + value b) = Z.abs (magnitude a - magnitude b)).
    { unfold value, signed. destruct (isNegative a), (isNegative b); try congruence; lia. }
    split; [|intros; exfalso; lia].
    intros _. rewrite Hcmp.
    destruct (Z.geb_spec (Z.sgn (magnitude a - magnitude b)) 0) as [G|G].
    + unfold operator_sub_body at 1. simpl isNegative. simpl negb. cbv iota.
      destruct (sub_same_sign_value absA absB Caa Cab) as (r & Hr & Cr & Hm & _).
      rewrite Hr. rewrite bind_Ok. eexists. split; [reflexivity|].
      destruct (canonical_elim r Cr) as (Wr & Tr & _).
      assert (V : value (mk (digits r) (length r) (isNegative a)) = value a + value b).
      { unfold value, signed, magnitude in *. simpl in *.
        destruct (isNegative a), (isNegative b); try congruence; lia. }
      split; [exact Wr|]. split; [exact V|]. intros NZ.
      apply canonical_intro; [exact Wr | |].
      * cbn [length digits]. destruct Tr as [Tr|Tr]; [left; lia | right].
        intros E. apply Tr. rewrite E. reflexivity.
      * intros _ M0. apply NZ. unfold value, signed. rewrite M0.
        cbn [isNegative]. destruct (isNegative a); reflexivity.
    + unfold operator_sub_body at 1. simpl isNegative. simpl negb. cbv iota.
      destruct (sub_same_sign_value absB absA Cab Caa) as (r & Hr & Cr & Hm & _).
      rewrite Hr. rewrite bind_Ok. eexists. split; [reflexivity|].
      destruct (canonical_elim r Cr) as (Wr & Tr & _).
      assert (V : value (mk (digits r) (length r) (isNegative b)) = value a + value b).
      { unfold value, signed, magnitude in *. simpl in *.
        destruct (isNegative a), (isNegative b); try congruence; lia. }
      split; [exact Wr|]. split; [exact V|]. intros NZ.
      apply canonical_intro; [exact Wr | |].
      * cbn [length digits]. destruct Tr as [Tr|Tr]; [left; lia | right].
        intros E. apply Tr. rewrite E. reflexivity.
      * intros _ M0. apply NZ. unfold value, signed. rewrite M0.
        cbn [isNegative]. destruct (isNegative b); reflexivity.
Qed.

Lemma one_constant :
  of_string "1" = Ok (hex "1") /\ canonical (hex "1") = true /\ value (hex "1") = 1.
Proof. by_evaluation. Qed.

(** X9.  [addOne] and [subtractOne] move a canonical value by one: they
    return [x + 1] and [x - 1], and throw [OverflowException] only at the two
    ends of the range, [16^HEX_SIZE - 1] and its negative. *)
Theorem addOne_subtractOne_step_by_one (x : t) :
  canonical x = true ->
  (value x <> 16 ^ HEX_SIZE - 1 ->
   exists r, addOne x = Ok r /\ wf r = true /\ value r = value x + 1)
  /\ (value x = 16 ^ HEX_SIZE - 1 ->
      addOne x = Throw (OverflowException "hexadecimal addition"))
  /\ (value x <> - (16 ^ HEX_SIZE - 1) ->
      exists r, subtractOne x = Ok r /\ canonical r = true /\ value r = value x - 1)
  /\ (value x = - (16 ^ HEX_SIZE - 1) ->
      subtractOne x = Throw (OverflowException "hexadecimal addition")).
Proof.
  intros C. destruct one_constant as (E1 & C1 & V1).
  destruct (canonical_elim x C) as (W & _ & _).
  pose proof (magnitude_bound x W) as B.
  destruct (wf_elim x W) as (L & _ & _).
  assert (Hp : 16 ^ length x <= 16 ^ HEX_SIZE) by (apply Z.pow_le_mono_r; lia).
  assert (Hv : - 16 ^ HEX_SIZE < value x < 16 ^ HEX_SIZE).
  { unfold value, signed. destruct (isNegative x); lia. }
  destruct (operator_add_spec x (hex "1") C C1) as [Aok Aov].
  destruct (operator_sub_spec x (hex "1") C C1) as [Sok Sov].
  rewrite V1 in Aok, Aov, Sok, Sov.
  unfold addOne, subtractOne. rewrite E1, !bind_Ok.
  split; [|split; [|split]].
  - intros Hne. destruct (Aok ltac:(lia)) as (r & Hr & Wr & Vr & _).
    exists r. auto.
  - intros He. apply Aov. lia.
  - intros Hne. apply Sok. lia.
  - intros He. apply Sov. lia.
Qed.

Lemma addOne_subtractOne_step_by_one_witness :
  (exists r, addOne (hex "-1") = Ok r /\ wf r = true /\ value r = value (hex "-1") + 1)
  /\ addOne (hex "ffffffffffffffffffffffffffffffffffffffffffffffffffffffffffffffffffffffffffffffffffffffffffffffffffffffffffffffffffffffffffffffff")
     = Throw (OverflowException "hexadecimal addition")
  /\ (exists r, subtractOne (hex "10") = Ok r /\ canonical r = true
                /\ value r = value (hex "10") - 1)
  /\ subtractOne (hex "-ffffffffffffffffffffffffffffffffffffffffffffffffffffffffffffffffffffffffffffffffffffffffffffffffffffffffffffffffffffffffffffffff")
     = Throw (OverflowException "hexadecimal addition").
Proof.
  destruct (addOne_subtractOne_step_by_one (hex "-1")) as (H1 & _);
    [vm_compute; reflexivity|].
  destruct (addOne_subtractOne_step_by_one
              (hex "ffffffffffffffffffffffffffffffffffffffffffffffffffffffffffffffffffffffffffffffffffffffffffffffffffffffffffffffffffffffffffffffff"))
    as (_ & H2 & _); [vm_compute; reflexivity|].
  destruct (addOne_subtractOne_step_by_one (hex "10")) as (_ & _ & H3 & _);
    [vm_compute; reflexivity|].
  destruct (addOne_subtractOne_step_by_one
              (hex "-ffffffffffffffffffffffffffffffffffffffffffffffffffffffffffffffffffffffffffffffffffffffffffffffffffffffffffffffffffffffffffffffff"))
    as (_ & _ & _ & H4); [vm_compute; reflexivity|].
  split; [|split; [|split]].
  - apply H1. vm_compute. discriminate.
  - apply H2. vm_compute. reflexivity.
  - apply H3. vm_compute. discriminate.
  - apply H4. vm_compute. reflexivity.
Defined.

(** *** Long division *)

(** Digits moved up by one position, with a new lowest digit. *)
Lemma mag_upto_pushed (d d0 : list ascii) (len : nat) :
  (forall j, 0 <= j < Z.of_nat len -> get d (j + 1) = get d0 j) ->
  mag_upto d (S len) = convertHexDigitToInt (get d 0) + 16 * mag_upto d0 len.
Proof.
  induction len as [|len IH]; intros H.
  - simpl. change (Z.of_nat 0) with 0. lia.
  - change (mag_upto d (S (S len)))
      with (mag_upto d (S len)
            + convertHexDigitToInt (get d (Z.of_nat (S len))) * 16 ^ Z.of_nat (S len)).
    rewrite IH by (intros; apply H; lia).
    simpl mag_upto.
    replace (Z.of_nat (S len)) with (Z.of_nat len + 1) by lia.
    rewrite H by lia. rewrite Z.pow_add_r by lia. ring.
Qed.

Lemma push_low_digit_spec (x : t) (c : ascii) :
  wf x = true -> length x < HEX_SIZE -> is_hex c = true ->
  let y := push_low_digit x c in
  wf y = true
  /\ magnitude y = 16 * magnitude x + convertHexDigitToInt c
  /\ isNegative y = isNegative x
  /\ (length y <= 1 \/ get (digits y) (length y - 1) <> "0"%char).
Proof.
  intros W Hlen Hc. destruct (wf_elim x W) as (L & D & H). cbv zeta.
  unfold push_low_digit.
  set (body := fun (k : Z) (d : list ascii) => set d k (get d (k - 1))).
  assert (HP : (fun k d => List.length d = List.length (digits x)
                  /\ (forall j, k < j <= length x -> get d j = get (digits x) (j - 1))
                  /\ (forall j, 0 <= j <= k -> get d j = get (digits x) j))
               (1 - 1) (for_down (length x) 1 body (digits x))).
  { apply for_down_inv; [lia | |].
    - split; [reflexivity|]. split; [intros; lia | intros; reflexivity].
    - intros k d Hk (H1 & H2 & H3). subst body. cbv beta.
      split; [rewrite length_set; exact H1|]. split.
      + intros j Hj. destruct (Z.eq_dec j k) as [->|Hne].
        * rewrite get_set_eq by lia. apply H3. lia.
        * rewrite get_set_ne by lia. apply H2. lia.
      + intros j Hj. rewrite get_set_ne by lia. apply H3. lia. }
  set (d1 := for_down (length x) 1 body (digits x)) in *.
  destruct HP as (P1 & P2 & _).
  set (d2 := set d1 0 c).
  assert (Hd2 : forall j, 0 <= j < length x -> get d2 (j + 1) = get (digits x) j).
  { intros j Hj. subst d2. rewrite get_set_ne by lia. rewrite P2 by lia. f_equal. lia. }
  assert (Hd0 : get d2 0 = c) by (subst d2; apply get_set_eq; lia).
  assert (Hl2 : Z.of_nat (List.length d2) = HEX_SIZE)
    by (subst d2; rewrite length_set; lia).
  pose proof (strip_spec d2 (length x + 1)) as Hs. cbv zeta in Hs.
  destruct Hs as (S1 & S2 & S3 & S4).
  cbn [length digits isNegative].
  split; [|split; [|split; [reflexivity|]]].
  - apply wf_intro; cbn [length digits isNegative]; [lia | exact Hl2 |].
    intros i Hi. destruct (Z.eq_dec i 0) as [->|Hne].
    + rewrite Hd0. exact Hc.
    + replace i with ((i - 1) + 1) by lia. rewrite Hd2 by lia. apply H. lia.
  - unfold magnitude at 1. cbn [length digits]. rewrite mag_upto_strip by lia.
    replace (Z.to_nat (length x + 1)) with (S (Z.to_nat (length x))) by lia.
    rewrite (mag_upto_pushed d2 (digits x)).
    + rewrite Hd0. unfold magnitude. lia.
    + intros j Hj. apply Hd2. lia.
  - destruct S4 as [S4|S4]; [left; lia | right; exact S4].
Qed.

Lemma of_digit_spec (d : Z) :
  0 <= d <= 15 ->
  exists dd c, of_digit d = Ok dd /\ convertIntToHexChar d = Ok c /\ is_hex c = true
               /\ convertHexDigitToInt c = d
               /\ canonical dd = true /\ value dd = d /\ length dd = 1
               /\ isNegative dd = false /\ isZero dd = (d =? 0).
Proof.
  intros H.
  assert (Hv : d = 0 \/ d = 1 \/ d = 2 \/ d = 3 \/ d = 4 \/ d = 5 \/ d = 6 \/ d = 7
               \/ d = 8 \/ d = 9 \/ d = 10 \/ d = 11 \/ d = 12 \/ d = 13 \/ d = 14
               \/ d = 15) by lia.
  exists (match of_digit d with Ok v => v | _ => default end),
         (match convertIntToHexChar d with Ok c => c | _ => NUL end).
  repeat (destruct Hv as [-> | Hv]); try subst d; by_evaluation.
Qed.

Lemma canonical_nonneg_intro (x : t) :
  wf x = true -> isNegative x = false ->
  (length x <= 1 \/ get (digits x) (length x - 1) <> "0"%char) ->
  canonical x = true.
Proof.
  intros W S T. apply canonical_intro; [exact W | exact T |].
  intros E. congruence.
Qed.

Lemma value_nonneg (x : t) : isNegative x = false -> value x = magnitude x.
Proof. intros E. unfold value, signed. rewrite E. reflexivity. Qed.

(** The product of a non-negative canonical value and a digit. *)
Lemma multiply_by_digit (b dd : t) (d : Z) :
  canonical b = true -> isNegative b = false -> isZero b = false ->
  canonical dd = true -> isNegative dd = false -> value dd = d -> length dd = 1 ->
  1 <= d <= 15 ->
  (length b < HEX_SIZE ->
   exists r, multiplyNaive b dd = Ok r /\ canonical r = true /\ isNegative r = false
             /\ value r = value b * d)
  /\ (length b = HEX_SIZE ->
      multiplyNaive b dd = Throw (OverflowException "naive multiplication: result too large")).
Proof.
  intros Cb Sb Zb Cd Sd Vd Ld Hd.
  destruct (canonical_elim b Cb) as (Wb & _ & _).
  destruct (canonical_elim dd Cd) as (Wd & _ & _).
  destruct (multiplyNaive_spec b dd Wb Wd) as [Hok Hov].
  assert (Zd : isZero dd = false).
  { rewrite (isZero_spec dd Cd), Vd. apply Z.eqb_neq. lia. }
  rewrite Zb, Zd in Hok, Hov. simpl orb in Hok, Hov. rewrite Ld in Hok, Hov.
  split.
  - intros Hl. destruct (Hok ltac:(right; lia)) as (r & Hr & Wr & Hm & Ht & Hs & Hs').
    exists r. split; [exact Hr|].
    assert (Sr : isNegative r = false).
    { rewrite (Hs' eq_refl), Sb, Sd. reflexivity. }
    split; [apply canonical_nonneg_intro; assumption|]. split; [exact Sr|].
    rewrite (value_nonneg r Sr), (value_nonneg b Sb), Hm.
    rewrite <- Vd, (value_nonneg dd Sd). reflexivity.
  - intros Hl. apply Hov; [reflexivity | lia].
Qed.

Lemma estimate_digit_spec (cdp b : t) :
  canonical cdp = true -> isNegative cdp = false ->
  canonical b = true -> isNegative b = false -> isZero b = false ->
  length b < HEX_SIZE ->
  value b <= value cdp < 16 * value b ->
  estimate_digit cdp b = Ok (value cdp / value b) /\ 1 <= value cdp / value b <= 15.
Proof.
  intros Cc Sc Cb Sb Zb Lb HC.
  set (C := value cdp) in *. set (B := value b) in *.
  assert (HB : 0 < B).
  { pose proof (canonical_nonzero b Cb Zb). subst B. rewrite (value_nonneg b Sb).
    destruct (canonical_elim b Cb) as (Wb & _ & _).
    pose proof (magnitude_bound b Wb). lia. }
  unfold estimate_digit.
  set (body := fun (d : Z) (st : outcome (Z * bool)) => _).
  assert (HP : (fun d st => exists q stop, st = Ok (q, stop)
                  /\ (stop = false -> q = d - 1 /\ q * B <= C)
                  /\ (stop = true -> 0 <= q <= 15 /\ q * B <= C < (q + 1) * B))
               16 (for_up 1 16 body (Ok (0, false)))).
  { apply for_up_inv; [lia | |].
    - exists 0, false. split; [reflexivity|]. split; [intros; lia | intros; discriminate].
    - intros d st Hd (q & stop & -> & H1 & H2). subst body. cbv beta. rewrite bind_Ok.
      cbv beta iota. destruct stop.
      + exists q, true. split; [reflexivity|]. split; [intros; discriminate | exact H2].
      + destruct (H1 eq_refl) as [-> Hq].
        destruct (of_digit_spec d ltac:(lia))
          as (dd & c & Hdd & _ & _ & _ & Cd & Vd & Ld & Sd & _).
        rewrite Hdd, bind_Ok.
        destruct (multiply_by_digit b dd d Cb Sb Zb Cd Sd Vd Ld ltac:(lia)) as [Hok _].
        destruct (Hok Lb) as (r & Hr & Cr & Sr & Vr). rewrite Hr, bind_Ok.
        rewrite (compare_sgn cdp r Cc Cr). fold C. rewrite Vr. fold B.
        destruct (Z.geb_spec (Z.sgn (C - B * d)) 0) as [G|G].
        * exists d, false. split; [reflexivity|]. split; [intros; lia | intros; discriminate].
        * exists (d - 1), true. split; [reflexivity|]. split; [intros; discriminate|].
          intros _. split; [lia|]. split; [exact Hq | lia]. }
  destruct HP as (q & stop & E & H1 & H2). rewrite E.
  assert (Hq : 0 <= q <= 15 /\ q * B <= C < (q + 1) * B).
  { destruct stop; [apply H2; reflexivity|].
    destruct (H1 eq_refl) as [-> Hq]. split; [lia|]. lia. }
  destruct Hq as [Hq1 Hq2].
  assert (Eq : q = C / B) by (apply (Z.div_unique_pos C B q (C - q * B)); lia).
  rewrite <- Eq. split; [reflexivity|].
  assert (q <> 0) by (intros ->; lia). lia.
Qed.

Lemma canonical_length_le (x : t) (k : Z) :
  canonical x = true -> 1 <= k -> magnitude x < 16 ^ k -> length x <= k.
Proof.
  intros C Hk Hm. destruct (Z.le_gt_cases (length x) k) as [?|G]; [assumption|].
  pose proof (canonical_lower x C ltac:(lia)) as Hl.
  assert (16 ^ k <= 16 ^ (length x - 1)) by (apply Z.pow_le_mono_r; lia). lia.
Qed.

(** A well-formed value whose magnitude reaches [16^(length - 1)] has no
    leading zero. *)
Lemma top_digit_of_lower_bound (x : t) :
  wf x = true -> 16 ^ (length x - 1) <= magnitude x ->
  length x <= 1 \/ get (digits x) (length x - 1) <> "0"%char.
Proof.
  intros W Hm. destruct (wf_elim x W) as (L & _ & H).
  destruct (Z.eq_dec (length x) 1) as [E|E]; [left; lia | right].
  intros E0. unfold magnitude in Hm.
  replace (Z.to_nat (length x)) with (S (Z.to_nat (length x - 1))) in Hm by lia.
  simpl mag_upto in Hm. rewrite Z2Nat.id in Hm by lia. rewrite E0 in Hm.
  change (convertHexDigitToInt "0") with 0 in Hm.
  pose proof (mag_upto_bound (digits x) (Z.to_nat (length x - 1))
                ltac:(intros; apply is_hex_range, H; lia)) as B.
  rewrite Z2Nat.id in B by lia. lia.
Qed.

Lemma canonical_magnitude_lower (x : t) :
  canonical x = true -> isZero x = false -> 16 ^ (length x - 1) <= magnitude x.
Proof.
  intros C Z0. destruct (canonical_elim x C) as (W & _ & _).
  destruct (wf_elim x W) as (L & _ & _).
  destruct (Z.eq_dec (length x) 1) as [E|E].
  - rewrite E. simpl. pose proof (canonical_nonzero x C Z0).
    pose proof (magnitude_bound x W). lia.
  - apply canonical_lower; [exact C | lia].
Qed.

Lemma divide_step_spec (a b q c : t) (i Ahi : Z) :
  wf a = true -> 0 <= i < length a ->
  canonical b = true -> isNegative b = false -> isZero b = false ->
  canonical q = true -> isNegative q = false ->
  canonical c = true -> isNegative c = false ->
  0 <= Ahi < 16 ^ (HEX_SIZE - 1) ->
  value q = Ahi / value b -> value c = Ahi mod value b ->
  let Alo := 16 * Ahi + convertHexDigitToInt (get (digits a) i) in
  (16 * value c + convertHexDigitToInt (get (digits a) i) < value b
   \/ length b < HEX_SIZE ->
   exists q' c', divide_step a b i (q, c) = Ok (q', c')
                 /\ canonical q' = true /\ isNegative q' = false
                 /\ canonical c' = true /\ isNegative c' = false
                 /\ value q' = Alo / value b /\ value c' = Alo mod value b)
  /\ (value b <= 16 * value c + convertHexDigitToInt (get (digits a) i) ->
      length b = HEX_SIZE ->
      divide_step a b i (q, c)
      = Throw (OverflowException "naive multiplication: result too large")).
Proof.
  intros Wa Hi Cb Sb Zb Cq Sq Cc Sc HA Vq Vc Alo.
  destruct (wf_elim a Wa) as (La & _ & Ha).
  destruct (canonical_elim b Cb) as (Wb & _ & _).
  destruct (canonical_elim q Cq) as (Wq & _ & _).
  destruct (canonical_elim c Cc) as (Wc & _ & _).
  destruct (wf_elim q Wq) as (Lq & _ & _).
  set (B := value b) in *.
  assert (HB : 0 < B).
  { pose proof (canonical_nonzero b Cb Zb). subst B. rewrite (value_nonneg b Sb).
    pose proof (magnitude_bound b Wb). lia. }
  set (dg := convertHexDigitToInt (get (digits a) i)) in *.
  assert (Hdg : 0 <= dg <= 15) by (apply is_hex_range, Ha; lia).
  pose proof (Z.mod_pos_bound Ahi B HB) as Hmod.
  assert (Hdiv : 0 <= Ahi / B <= Ahi).
  { split; [apply Z.div_pos; lia|]. apply Z.div_le_upper_bound; [lia|]. nia. }
  pose proof (Z.div_mod Ahi B ltac:(lia)) as Hdm.
  (* the operands are short enough for one more digit *)
  assert (Lc : length c <= HEX_SIZE - 1).
  { apply canonical_length_le; [exact Cc | unfold HEX_SIZE; lia|].
    rewrite <- (value_nonneg c Sc), Vc. lia. }
  assert (Lq' : length q <= HEX_SIZE - 1).
  { apply canonical_length_le; [exact Cq | unfold HEX_SIZE; lia|].
    rewrite <- (value_nonneg q Sq), Vq. lia. }
  destruct (push_low_digit_spec c (get (digits a) i) Wc ltac:(lia) (Ha i ltac:(lia)))
    as (Wp & Mp & Sp & Tp).
  set (cdp := push_low_digit c (get (digits a) i)) in *.
  rewrite Sc in Sp.
  pose proof (canonical_nonneg_intro cdp Wp Sp Tp) as Cp.
  fold dg in Mp. rewrite <- (value_nonneg c Sc) in Mp. rewrite <- (value_nonneg cdp Sp) in Mp.
  assert (HAlo : Alo = 16 * (Ahi / B) * B + value cdp) by (subst Alo; rewrite Mp, Vc; lia).
  unfold divide_step. fold cdp.
  rewrite (compare_sgn cdp b Cp Cb). fold B. rewrite <- Mp.
  destruct (Z.ltb_spec (Z.sgn (value cdp - B)) 0) as [Hlt|Hge].
  - (* the quotient digit is zero *)
    split; [|intros; lia]. intros _.
    assert (Hres : Alo / B = 16 * value q /\ Alo mod B = value cdp).
    { rewrite Vq. split.
      - apply eq_sym, (Z.div_unique_pos Alo B _ (value cdp)); lia.
      - apply eq_sym, (Z.mod_unique_pos Alo B (16 * (Ahi / B))); lia. }
    destruct Hres as [R1 R2]. rewrite R1, R2.
    destruct ((length q >? 1) || negb (ascii_eqb (get (digits q) 0) "0")) eqn:Enz.
    + assert (Zq : isZero q = false).
      { unfold isZero. apply orb_true_iff in Enz. destruct Enz as [E|E].
        - apply Z.gtb_lt in E. rewrite (proj2 (Z.eqb_neq _ _)) by lia. reflexivity.
        - apply negb_true_iff in E. rewrite E. apply andb_false_r. }
      destruct (shiftLeftInPlace_spec q 1 Wq ltac:(lia)) as [Hok _].
      destruct (Hok ltac:(right; right; lia)) as (r & Hr & Wr & Mr & Sr & Lr).
      rewrite Hr, bind_Ok. exists r, cdp. split; [reflexivity|].
      rewrite Sq in Sr. specialize (Lr Zq).
      assert (Cr : canonical r = true).
      { apply canonical_nonneg_intro; [exact Wr | exact Sr |].
        apply top_digit_of_lower_bound; [exact Wr|].
        rewrite Lr, Mr. replace (length q + 1 - 1) with (length q - 1 + 1) by lia.
        rewrite Z.pow_add_r by lia. change (16 ^ 1) with 16.
        pose proof (canonical_magnitude_lower q Cq Zq). lia. }
      repeat apply conj; try assumption; try reflexivity.
      rewrite (value_nonneg r Sr), Mr, (value_nonneg q Sq). change (16 ^ 1) with 16. lia.
    + exists q, cdp. split; [reflexivity|].
      assert (Vq0 : value q = 0).
      { apply orb_false_iff in Enz. destruct Enz as [E1 E2].
        rewrite Z.gtb_ltb in E1. apply Z.ltb_ge in E1. apply negb_false_iff, ascii_eqb_eq in E2.
        rewrite (value_nonneg q Sq). apply isZero_magnitude. unfold isZero.
        replace (length q) with 1 by lia. rewrite E2. reflexivity. }
      repeat apply conj; try assumption; try reflexivity. lia.
  - (* a quotient digit between 1 and 15 *)
    assert (HC : B <= value cdp < 16 * B) by lia.
    split.
    + intros [?|Lb]; [lia|].
      destruct (estimate_digit_spec cdp b Cp Sp Cb Sb Zb Lb HC) as [Eq Hq].
      fold B in Eq, Hq. set (qd := value cdp / B) in *.
      rewrite Eq, bind_Ok.
      destruct (of_digit_spec qd ltac:(lia))
        as (dd & ch & Hdd & Hch & Hhex & Hcv & Cd & Vd & Ld & Sd & _).
      rewrite Hdd, bind_Ok.
      destruct (multiply_by_digit b dd qd Cb Sb Zb Cd Sd Vd Ld ltac:(lia)) as [Hok _].
      destruct (Hok Lb) as (sv & Hsv & Csv & Ssv & Vsv). rewrite Hsv, bind_Ok.
      fold B in Vsv.
      pose proof (Z.div_mod (value cdp) B ltac:(lia)) as Hdm2. fold qd in Hdm2.
      pose proof (Z.mod_pos_bound (value cdp) B HB) as Hmod2.
      destruct (operator_sub_spec cdp sv Cp Csv) as [Hsub _].
      assert (Hfit : Z.abs (value cdp - value sv) < 16 ^ HEX_SIZE).
      { pose proof (magnitude_bound cdp Wp).
        destruct (wf_elim cdp Wp) as (Lp & _ & _).
        assert (16 ^ length cdp <= 16 ^ HEX_SIZE) by (apply Z.pow_le_mono_r; lia).
        rewrite (value_nonneg cdp Sp) in *. lia. }
      destruct (Hsub Hfit) as (r & Hr & Cr & Vr).
      rewrite Hr. unfold fmap, outcome_fmap. rewrite bind_Ok.
      unfold convertIntToHexChar in Hch |- *. rewrite Hch, bind_Ok.
      destruct (push_low_digit_spec q ch Wq ltac:(lia) Hhex) as (Wn & Mn & Sn & Tn).
      rewrite Sq in Sn. rewrite Hcv in Mn.
      eexists. eexists. split; [reflexivity|].
      assert (Vr' : value r = value cdp mod B) by lia.
      assert (Sr : isNegative r = false).
      { destruct (isNegative r) eqn:E; [|reflexivity]. exfalso.
        destruct (canonical_elim r Cr) as (Wr & _ & Nr). specialize (Nr E).
        assert (value r = - magnitude r) by (unfold value, signed; rewrite E; reflexivity).
        pose proof (magnitude_bound r Wr). lia. }
      destruct (canonical_elim r Cr) as (Wr & _ & _).
      destruct (operator_assign_wf r Wr) as (_ & _ & Va).
      destruct (wf_elim r Wr) as (Lr & _ & _).
      destruct (operator_assign_spec r ltac:(lia)) as (_ & Sa & _).
      split; [apply canonical_nonneg_intro; assumption|]. split; [exact Sn|].
      split; [apply operator_assign_canonical; exact Cr|].
      split; [rewrite Sa; exact Sr|].
      rewrite (value_nonneg _ Sn), Mn, <- (value_nonneg q Sq), Vq, Va, Vr'.
      split.
      * apply (Z.div_unique_pos Alo B _ (value cdp mod B)); lia.
      * apply (Z.mod_unique_pos Alo B (16 * (Ahi / B) + qd)); lia.
    + intros _ Lb.
      (* the first trial product already exceeds the buffer *)
      unfold estimate_digit.
      set (body := fun (d : Z) (st : outcome (Z * bool)) => _).
      assert (HP : (fun d st => d = 1 /\ st = Ok (0, false)
                      \/ 1 < d /\ st = Throw (OverflowException
                                      "naive multiplication: result too large"))
                   16 (for_up 1 16 body (Ok (0, false)))).
      { apply for_up_inv; [lia | left; auto |].
        intros d st Hd [[-> ->]|[Hd1 ->]]; right; (split; [lia|]); [|reflexivity].
        subst body. cbv beta. rewrite bind_Ok. cbv beta iota.
        destruct (of_digit_spec 1 ltac:(lia))
          as (dd & ch & Hdd & _ & _ & _ & Cd & Vd & Ld & Sd & _).
        rewrite Hdd, bind_Ok.
        destruct (multiply_by_digit b dd 1 Cb Sb Zb Cd Sd Vd Ld ltac:(lia)) as [_ Hov].
        rewrite (Hov Lb). reflexivity. }
      destruct HP as [[? _]|[_ E]]; [lia|]. rewrite E. reflexivity.
Qed.

Lemma for_down_aux_snoc {S : Type} (n : nat) (i : Z) (body : Z -> S -> S) (s : S) :
  for_down_aux (Datatypes.S n) i body s
  = body (i - Z.of_nat n) (for_down_aux n i body s).
Proof.
  revert i s. induction n as [|n IH]; intros i s.
  - simpl. f_equal. lia.
  - change (for_down_aux (Datatypes.S (Datatypes.S n)) i body s)
      with (for_down_aux (Datatypes.S n) (i - 1) body (body i s)).
    rewrite IH. simpl. f_equal. lia.
Qed.

(** The last round of [for (i = hi; i >= lo; i--)]. *)
Lemma for_down_last {S : Type} (hi lo : Z) (body : Z -> S -> S) (s : S) :
  lo <= hi -> for_down hi lo body s = body lo (for_down hi (lo + 1) body s).
Proof.
  intros H. unfold for_down.
  replace (Z.to_nat (hi - lo + 1)) with (Datatypes.S (Z.to_nat (hi - (lo + 1) + 1))) by lia.
  rewrite for_down_aux_snoc. f_equal. lia.
Qed.

(** The digits of [a] from position [i] on, as a number. *)
Lemma digits_above_step (a : t) (i : Z) :
  wf a = true -> 0 <= i < length a ->
  magnitude a / 16 ^ i
  = 16 * (magnitude a / 16 ^ (i + 1)) + convertHexDigitToInt (get (digits a) i).
Proof.
  intros W Hi.
  destruct (getHigher_spec a i W ltac:(lia)) as (_ & _ & H1).
  destruct (getHigher_spec a (i + 1) W ltac:(lia)) as (_ & _ & H2).
  pose proof (mag_below_bound a i W ltac:(lia)) as B1.
  pose proof (mag_below_bound a (i + 1) W ltac:(lia)) as B2.
  pose proof (mag_below_step a i ltac:(lia)) as St.
  destruct (Z.ltb_spec i (length a)) as [_|?]; [|lia].
  assert (P : 0 < 16 ^ i) by (apply Z.pow_pos_nonneg; lia).
  assert (P' : 16 ^ (i + 1) = 16 * 16 ^ i) by (rewrite Z.pow_add_r by lia; ring).
  assert (E1 : magnitude a / 16 ^ i = magnitude (getHigher a i)).
  { apply eq_sym, (Z.div_unique_pos _ _ _ (mag_below a i)); lia. }
  assert (E2 : magnitude a / 16 ^ (i + 1) = magnitude (getHigher a (i + 1))).
  { apply eq_sym, (Z.div_unique_pos _ _ _ (mag_below a (i + 1))); lia. }
  rewrite E1, E2. nia.
Qed.

Lemma digits_above_bound (a : t) (i : Z) :
  wf a = true -> 0 <= i <= length a ->
  0 <= magnitude a / 16 ^ i < 16 ^ (length a - i).
Proof.
  intros W Hi. pose proof (magnitude_bound a W) as B.
  assert (P : 0 < 16 ^ i) by (apply Z.pow_pos_nonneg; lia).
  split; [apply Z.div_pos; lia|].
  apply Z.div_lt_upper_bound; [lia|].
  rewrite <- Z.pow_add_r by lia. replace (i + (length a - i)) with (length a) by lia. lia.
Qed.

Lemma zero_start :
  canonical (mk zeros 1 false) = true /\ value (mk zeros 1 false) = 0.
Proof. by_evaluation. Qed.

Lemma division_loop_spec (a b : t) (lo : Z) :
  wf a = true ->
  canonical b = true -> isNegative b = false -> isZero b = false ->
  0 <= lo <= length a ->
  (length b < HEX_SIZE \/ magnitude a / 16 ^ lo < value b) ->
  division_state a b (lo - 1)
    (for_down (length a - 1) lo
       (fun i (st : outcome (t * t)) => st ← st; divide_step a b i st)
       (Ok (mk zeros 1 false, mk zeros 1 false))).
Proof.
  intros Wa Cb Sb Zb Hlo Hcase.
  destruct (wf_elim a Wa) as (La & _ & Ha).
  destruct zero_start as (C0 & V0).
  assert (HB : 0 < value b).
  { pose proof (canonical_nonzero b Cb Zb). rewrite (value_nonneg b Sb).
    destruct (canonical_elim b Cb) as (Wb & _ & _).
    pose proof (magnitude_bound b Wb). lia. }
  apply (for_down_inv (division_state a b)); [lia | |].
  - exists (mk zeros 1 false), (mk zeros 1 false).
    split; [reflexivity|]. split; [exact C0|]. split; [reflexivity|].
    split; [exact C0|]. split; [reflexivity|].
    replace (length a - 1 + 1) with (length a) by lia.
    pose proof (digits_above_bound a (length a) Wa ltac:(lia)) as Hb.
    replace (length a - length a) with 0 in Hb by lia. change (16 ^ 0) with 1 in Hb.
    replace (magnitude a / 16 ^ length a) with 0 by lia.
    rewrite V0. split; [rewrite Z.div_0_l by lia | rewrite Z.mod_0_l by lia]; reflexivity.
  - intros i st Hi (q & c & -> & Cq & Sq & Cc & Sc & Vq & Vc).
    rewrite bind_Ok.
    pose proof (digits_above_bound a (i + 1) Wa ltac:(lia)) as Hb.
    assert (Hp : 16 ^ (length a - (i + 1)) <= 16 ^ (HEX_SIZE - 1))
      by (apply Z.pow_le_mono_r; lia).
    destruct (divide_step_spec a b q c i (magnitude a / 16 ^ (i + 1))
                Wa ltac:(lia) Cb Sb Zb Cq Sq Cc Sc ltac:(lia) Vq Vc) as [Hok _].
    cbv zeta in Hok. rewrite <- (digits_above_step a i Wa ltac:(lia)) in Hok.
    destruct Hok as (q' & c' & Hrun & Cq' & Sq' & Cc' & Sc' & Vq' & Vc').
    + destruct Hcase as [Hl|Hsmall]; [right; exact Hl | left].
      (* the part of the dividend read so far is below the divisor *)
      pose proof (digits_above_step a i Wa ltac:(lia)) as Hs.
      pose proof (Z.mod_pos_bound (magnitude a / 16 ^ (i + 1)) (value b) HB) as Hm.
      assert (Hmle : (magnitude a / 16 ^ (i + 1)) mod value b <= magnitude a / 16 ^ (i + 1))
        by (apply Z.mod_le; lia).
      assert (Hmono : magnitude a / 16 ^ i <= magnitude a / 16 ^ lo).
      { pose proof (magnitude_bound a Wa).
        assert (0 < 16 ^ lo) by (apply Z.pow_pos_nonneg; lia).
        apply Z.div_le_compat_l; [lia|]. split; [lia|]. apply Z.pow_le_mono_r; lia. }
      rewrite Vc. lia.
    + exists q', c'. replace (i - 1 + 1) with i by lia.
      repeat apply conj; assumption.
Qed.

Lemma canonical_set_sign (x : t) (s : bool) :
  canonical x = true -> (s = true -> magnitude x <> 0) -> canonical (set_sign x s) = true.
Proof.
  intros C N. destruct (canonical_elim x C) as (W & T & _).
  apply canonical_intro.
  - exact W.
  - unfold set_sign. cbn [length digits]. destruct T as [T|T]; [left; lia | right].
    intros E. apply T. rewrite E. reflexivity.
  - unfold set_sign. cbn [isNegative]. exact N.
Qed.

Lemma isZero_set_sign (x : t) (s : bool) : isZero (set_sign x s) = isZero x.
Proof. reflexivity. Qed.

Lemma value_set_sign (x : t) (s : bool) : value (set_sign x s) = signed s (magnitude x).
Proof. reflexivity. Qed.

(** The sign fix-up at the end of [divide]: the sign is kept unless the value
    is zero. *)
Lemma normalized_sign (x : t) (s : bool) :
  canonical x = true -> isNegative x = false ->
  let y := set_sign x s in
  let z := if isZero y then set_sign y false else y in
  canonical z = true /\ value z = signed s (value x).
Proof.
  intros C S. cbv zeta. rewrite isZero_set_sign.
  rewrite (value_nonneg x S).
  destruct (isZero x) eqn:Ez.
  - split.
    + change (canonical (set_sign x false) = true).
      apply canonical_set_sign; [exact C | intros; discriminate].
    + rewrite value_set_sign. change (magnitude (set_sign x s)) with (magnitude x).
      rewrite (isZero_magnitude x Ez). destruct s; reflexivity.
  - split.
    + apply canonical_set_sign; [exact C|]. intros _. apply canonical_nonzero; assumption.
    + apply value_set_sign.
Qed.

Lemma divide_spec (a b : t) :
  canonical a = true -> canonical b = true ->
  (isZero b = true -> divide a b = Throw DivisionByZeroException)
  /\ (isZero b = false -> Z.abs (value a) < Z.abs (value b) ->
      exists q r, divide a b = Ok (q, r) /\ canonical q = true /\ canonical r = true
                  /\ value q = 0 /\ value r = Z.abs (value a))
  /\ (isZero b = false -> Z.abs (value b) <= Z.abs (value a) -> length b < HEX_SIZE ->
      exists q r, divide a b = Ok (q, r) /\ canonical q = true /\ canonical r = true
                  /\ value q = Z.quot (value a) (value b)
                  /\ value r = Z.rem (value a) (value b))
  /\ (isZero b = false -> Z.abs (value b) <= Z.abs (value a) -> length b = HEX_SIZE ->
      divide a b = Throw (OverflowException "naive multiplication: result too large")).
Proof.
  intros Ca Cb.
  destruct (canonical_elim a Ca) as (Wa & _ & _).
  destruct (canonical_elim b Cb) as (Wb & _ & _).
  destruct (wf_elim a Wa) as (La & _ & _).
  pose proof (magnitude_bound a Wa) as Ba.
  pose proof (magnitude_bound b Wb) as Bb.
  assert (Va : Z.abs (value a) = magnitude a)
    by (unfold value, signed; destruct (isNegative a); lia).
  assert (Vb : Z.abs (value b) = magnitude b)
    by (unfold value, signed; destruct (isNegative b); lia).
  rewrite Va, Vb.
  pose proof (canonical_set_sign a false Ca ltac:(intros; discriminate)) as Caa.
  pose proof (canonical_set_sign b false Cb ltac:(intros; discriminate)) as Cbb.
  destruct zero_constant as (E0 & W0 & C0 & M0 & S0 & L0 & Z0).
  assert (V0 : value (hex "0") = 0) by (rewrite (value_nonneg _ S0); exact M0).
  unfold divide. rewrite !isZero_set_sign.
  split; [intros ->; reflexivity|].
  split; [|split].
  - (* the dividend is the smaller one *)
    intros Zb Hlt. rewrite Zb.
    destruct (isZero a) eqn:Za.
    + rewrite E0, !bind_Ok. exists (hex "0"), (operator_assign (hex "0")).
      split; [reflexivity|]. split; [exact C0|].
      split; [apply operator_assign_canonical; exact C0|]. split; [exact V0|].
      destruct (operator_assign_wf _ W0) as (_ & _ & ->). rewrite V0.
      rewrite (isZero_magnitude a Za). reflexivity.
    + rewrite (compare_sgn _ _ Caa Cbb). rewrite !value_set_sign. simpl signed.
      destruct (Z.ltb_spec (Z.sgn (magnitude a - magnitude b)) 0) as [_|?]; [|lia].
      rewrite E0, bind_Ok. exists (hex "0"), (operator_assign (set_sign a false)).
      split; [reflexivity|]. split; [exact C0|].
      split; [apply operator_assign_canonical; exact Caa|]. split; [exact V0|].
      destruct (canonical_elim _ Caa) as (Waa & _ & _).
      destruct (operator_assign_wf _ Waa) as (_ & _ & ->). reflexivity.
  - (* long division *)
    intros Zb Hge Lb. rewrite Zb.
    assert (Za : isZero a = false).
    { destruct (isZero a) eqn:Za; [|reflexivity].
      rewrite (isZero_magnitude a Za) in Hge. pose proof (canonical_nonzero b Cb Zb). lia. }
    rewrite Za. rewrite (compare_sgn _ _ Caa Cbb). rewrite !value_set_sign. simpl signed.
    destruct (Z.ltb_spec (Z.sgn (magnitude a - magnitude b)) 0) as [?|_]; [lia|].
    pose proof (division_loop_spec a (set_sign b false) 0 Wa Cbb eq_refl Zb
                  ltac:(lia) ltac:(left; exact Lb)) as HL.
    destruct HL as (q & c & Hrun & Cq & Sq & Cc & Sc & Vq & Vc).
    rewrite Hrun, bind_Ok. cbv beta iota.
    change (0 - 1 + 1) with 0 in Vq, Vc. change (16 ^ 0) with 1 in Vq, Vc.
    rewrite Z.div_1_r in Vq, Vc.
    change (value (set_sign b false)) with (magnitude b) in Vq, Vc.
    eexists. eexists. split; [reflexivity|].
    destruct (normalized_sign q (negb (eqb (isNegative a) (isNegative b))) Cq Sq)
      as [Cfq Vfq].
    pose proof (operator_assign_canonical c Cc) as Cac.
    destruct (canonical_elim c Cc) as (Wc & _ & _).
    destruct (operator_assign_wf c Wc) as (_ & _ & Vac).
    destruct (wf_elim c Wc) as (Lc & _ & _).
    destruct (operator_assign_spec c ltac:(lia)) as (_ & Sac & _).
    rewrite Sc in Sac.
    destruct (normalized_sign (operator_assign c) (isNegative a) Cac Sac) as [Cfr Vfr].
    cbv zeta in Cfq, Vfq, Cfr, Vfr.
    split; [exact Cfq|]. split; [exact Cfr|].
    rewrite Vfq, Vfr, Vq, Vac, Vc.
    assert (Hb0 : value b <> 0).
    { pose proof (canonical_nonzero b Cb Zb). unfold value, signed.
      destruct (isNegative b); lia. }
    rewrite (Z.quot_div _ _ Hb0), (Z.rem_mod _ _ Hb0). rewrite Va, Vb.
    assert (Hma : magnitude a <> 0) by (apply canonical_nonzero; assumption).
    assert (Hmb : magnitude b <> 0) by (apply canonical_nonzero; assumption).
    unfold value, signed.
    destruct (isNegative a), (isNegative b); simpl;
      rewrite ?Z.sgn_opp; rewrite !(Z.sgn_pos (magnitude _)) by lia; split; ring.
  - (* the divisor fills the buffer *)
    intros Zb Hge Lb. rewrite Zb.
    assert (Za : isZero a = false).
    { destruct (isZero a) eqn:Za; [|reflexivity].
      rewrite (isZero_magnitude a Za) in Hge. pose proof (canonical_nonzero b Cb Zb). lia. }
    rewrite Za. rewrite (compare_sgn _ _ Caa Cbb). rewrite !value_set_sign. simpl signed.
    destruct (Z.ltb_spec (Z.sgn (magnitude a - magnitude b)) 0) as [?|_]; [lia|].
    pose proof (canonical_magnitude_lower b Cb Zb) as Hlow. rewrite Lb in Hlow.
    assert (Hla : length a = HEX_SIZE).
    { destruct (Z.eq_dec (length a) HEX_SIZE) as [E|E]; [exact E|].
      assert (16 ^ length a <= 16 ^ (HEX_SIZE - 1)) by (apply Z.pow_le_mono_r; lia). lia. }
    rewrite for_down_last by lia. change (0 + 1) with 1.
    pose proof (digits_above_bound a 1 Wa ltac:(lia)) as Hb1. rewrite Hla in Hb1.
    pose proof (division_loop_spec a (set_sign b false) 1 Wa Cbb eq_refl Zb
                  ltac:(lia)
                  ltac:(right; change (value (set_sign b false)) with (magnitude b); lia))
      as HL.
    destruct HL as (q & c & Hrun & Cq & Sq & Cc & Sc & Vq & Vc).
    rewrite Hrun, bind_Ok.
    change (1 - 1 + 1) with 1 in Vq, Vc.
    change (value (set_sign b false)) with (magnitude b) in Vq, Vc.
    destruct (divide_step_spec a (set_sign b false) q c 0 (magnitude a / 16 ^ 1)
                Wa ltac:(lia) Cbb eq_refl Zb Cq Sq Cc Sc ltac:(lia) Vq Vc) as [_ Hthrow].
    rewrite Hthrow; [reflexivity | | exact Lb].
    change (value (set_sign b false)) with (magnitude b).
    rewrite Vc. rewrite Z.mod_small by lia.
    pose proof (digits_above_step a 0 Wa ltac:(lia)) as Hs.
    change (0 + 1) with 1 in Hs. change (16 ^ 0) with 1 in Hs. rewrite Z.div_1_r in Hs.
    lia.
Qed.

(** X10.  [operator/] and [operator%] on canonical operands.  A zero
    divisor is refused with [DivisionByZeroException].  When the dividend is
    the smaller one in magnitude the quotient is zero and the remainder is
    the magnitude of the dividend (non-negative, whatever the dividend's sign).
    Otherwise long division returns the quotient truncated towards zero and
    the remainder with the dividend's sign, both canonical, as long as the
    divisor has fewer than [HEX_SIZE] digits; a divisor of [HEX_SIZE] digits
    makes the trial product throw [OverflowException]. *)
Theorem operator_div_mod_truncate (a b : t) :
  canonical a = true -> canonical b = true ->
  (isZero b = true ->
   operator_div a b = Throw DivisionByZeroException
   /\ operator_mod a b = Throw DivisionByZeroException)
  /\ (isZero b = false -> Z.abs (value a) < Z.abs (value b) ->
      exists q r, operator_div a b = Ok q /\ operator_mod a b = Ok r
                  /\ canonical q = true /\ canonical r = true
                  /\ value q = 0 /\ value r = Z.abs (value a))
  /\ (isZero b = false -> Z.abs (value b) <= Z.abs (value a) -> length b < HEX_SIZE ->
      exists q r, operator_div a b = Ok q /\ operator_mod a b = Ok r
                  /\ canonical q = true /\ canonical r = true
                  /\ value q = Z.quot (value a) (value b)
                  /\ value r = Z.rem (value a) (value b))
  /\ (isZero b = false -> Z.abs (value b) <= Z.abs (value a) -> length b = HEX_SIZE ->
      operator_div a b
      = Throw (OverflowException "naive multiplication: result too large")
      /\ operator_mod a b
         = Throw (OverflowException "naive multiplication: result too large")).
Proof.
  intros Ca Cb. destruct (divide_spec a b Ca Cb) as (H1 & H2 & H3 & H4).
  unfold operator_div, operator_mod.
  split; [|split; [|split]].
  - intros Z. rewrite (H1 Z). split; reflexivity.
  - intros Z Hlt. destruct (H2 Z Hlt) as (q & r & -> & Hq).
    exists q, r. split; [reflexivity|]. split; [reflexivity|]. exact Hq.
  - intros Z Hge Hl. destruct (H3 Z Hge Hl) as (q & r & -> & Hq).
    exists q, r. split; [reflexivity|]. split; [reflexivity|]. exact Hq.
  - intros Z Hge Hl. rewrite (H4 Z Hge Hl). split; reflexivity.
Qed.

Lemma operator_div_mod_truncate_witness :
  (operator_div (hex "7") (hex "0") = Throw DivisionByZeroException
   /\ operator_mod (hex "7") (hex "0") = Throw DivisionByZeroException)
  /\ (exists q r, operator_div (hex "-5") (hex "7") = Ok q
                  /\ operator_mod (hex "-5") (hex "7") = Ok r
                  /\ canonical q = true /\ canonical r = true
                  /\ value q = 0 /\ value r = Z.abs (value (hex "-5")))
  /\ (exists q r, operator_div (hex "-100") (hex "f") = Ok q
                  /\ operator_mod (hex "-100") (hex "f") = Ok r
                  /\ canonical q = true /\ canonical r = true
                  /\ value q = Z.quot (value (hex "-100")) (value (hex "f"))
                  /\ value r = Z.rem (value (hex "-100")) (value (hex "f")))
  /\ (let x := hex "ffffffffffffffffffffffffffffffffffffffffffffffffffffffffffffffffffffffffffffffffffffffffffffffffffffffffffffffffffffffffffffffff" in
      operator_div x x
      = Throw (OverflowException "naive multiplication: result too large")
      /\ operator_mod x x
         = Throw (OverflowException "naive multiplication: result too large")).
Proof.
  destruct (operator_div_mod_truncate (hex "7") (hex "0")) as (H1 & _);
    [vm_compute; reflexivity | vm_compute; reflexivity |].
  destruct (operator_div_mod_truncate (hex "-5") (hex "7")) as (_ & H2 & _);
    [vm_compute; reflexivity | vm_compute; reflexivity |].
  destruct (operator_div_mod_truncate (hex "-100") (hex "f")) as (_ & _ & H3 & _);
    [vm_compute; reflexivity | vm_compute; reflexivity |].
  destruct (operator_div_mod_truncate
              (hex "ffffffffffffffffffffffffffffffffffffffffffffffffffffffffffffffffffffffffffffffffffffffffffffffffffffffffffffffffffffffffffffffff")
              (hex "ffffffffffffffffffffffffffffffffffffffffffffffffffffffffffffffffffffffffffffffffffffffffffffffffffffffffffffffffffffffffffffffff"))
    as (_ & _ & _ & H4); [vm_compute; reflexivity | vm_compute; reflexivity |].
  split; [|split; [|split]].
  - apply H1. vm_compute. reflexivity.
  - apply H2; vm_compute; reflexivity.
  - apply H3; vm_compute; [reflexivity | discriminate | reflexivity].
  - apply H4; vm_compute; [reflexivity | discriminate | reflexivity].
Defined.

(** *** The message helpers on an example *)

Example msg_demo :
  stringToHex "Hi!" = "486921"
  /\ hexToString "486921" = "Hi!"
  /\ padHexString "486921" 4 = "48692100"
  /\ removePadding "48692100" = "486921"
  /\ encryptDecryptMessage "Hi!" (hex "1f3") = Ok ["575"; "8d2"]
  /\ decryptMessage ["575"; "8d2"] (hex "1f3") = "Hi!"
  /\ (chunks ← encryptDecryptMessage "help" (hex "1f3"); Ok (decryptMessage chunks (hex "1f3")))
     = Ok ("hel" +:+ String (chr 7) "").
Proof. by_evaluation. Qed.

(** *** Messages as hexadecimal text *)

Lemma chars_inj (s t : string) : chars s = chars t -> s = t.
Proof.
  intros H. rewrite <- (string_of_list_ascii_of_string s), <- (string_of_list_ascii_of_string t).
  unfold chars in H. rewrite H. reflexivity.
Qed.

Lemma chars_cons (c : ascii) (s : string) : chars (String c s) = c :: chars s.
Proof. reflexivity. Qed.

Lemma byte_round_trip (c : ascii) :
  to_char (strtoul16 (String (hex_digit (code c / 16))
                        (String (hex_digit (code c mod 16)) EmptyString))) = c.
Proof. destruct c as [[] [] [] [] [] [] [] []]; vm_compute; reflexivity. Qed.

Lemma hexToString_stringToHex (message : string) :
  hexToString (stringToHex message) = message
  /\ str_len (stringToHex message) = 2 * str_len message.
Proof.
  induction message as [|c m [IH1 IH2]]; [split; reflexivity|].
  split.
  - cbn [stringToHex hexToString]. rewrite byte_round_trip, IH1. reflexivity.
  - unfold str_len in *. cbn [stringToHex String.length]. lia.
Qed.

(** X11.  [hexToString] inverts [stringToHex]: every message, whatever
    its bytes, is recovered from its hexadecimal text, which has two
    characters for each of them. *)
Theorem hexToString_inverts_stringToHex (message : string) :
  hexToString (stringToHex message) = message
  /\ str_len (stringToHex message) = 2 * str_len message.
Proof.
  induction message as [|c m [IH1 IH2]]; [split; reflexivity|].
  split.
  - cbn [stringToHex hexToString]. rewrite byte_round_trip, IH1. reflexivity.
  - unfold str_len in *. cbn [stringToHex String.length]. lia.
Qed.

(** *** Padding *)

Lemma length_append (a b : string) :
  String.length (a +:+ b) = (String.length a + String.length b)%nat.
Proof. induction a as [|c a IH]; [reflexivity|]. rewrite append_cons. simpl. lia. Qed.

Lemma str_len_append (a b : string) : str_len (a +:+ b) = str_len a + str_len b.
Proof. unfold str_len. rewrite length_append. lia. Qed.

Lemma chars_substring (s : string) (n m : nat) :
  chars (substring n m s) = take m (drop n (chars s)).
Proof.
  revert n m. induction s as [|c s IH]; intros n m.
  - destruct n, m; reflexivity.
  - destruct n as [|n].
    + destruct m as [|m]; [reflexivity|]. simpl. rewrite (IH 0%nat m). reflexivity.
    + simpl. apply IH.
Qed.

Lemma str_at_nth (s : string) (i : Z) :
  0 <= i -> str_at s i = nth (Z.to_nat i) (chars s) NUL.
Proof. apply str_at_chars. Qed.

Lemma back_snoc (s : string) (c : ascii) : back (s +:+ String c "") = c.
Proof.
  unfold back. rewrite str_len_append. change (str_len (String c "")) with 1.
  rewrite str_at_chars by (unfold str_len; lia). rewrite chars_append.
  replace (Z.to_nat (str_len s + 1 - 1)) with (List.length (chars s) + 0)%nat
    by (rewrite str_len_chars; lia).
  rewrite app_nth2_plus. reflexivity.
Qed.

Lemma pop_back_snoc (s : string) (c : ascii) : pop_back (s +:+ String c "") = s.
Proof.
  apply chars_inj. unfold pop_back. rewrite chars_substring, drop_0, chars_append.
  rewrite length_append. simpl String.length.
  replace (String.length s + 1 - 1)%nat with (List.length (chars s)).
  - rewrite take_app_length. reflexivity.
  - pose proof (str_len_chars s). unfold str_len in *. lia.
Qed.

(** Every text that is not empty ends with a character. *)
Lemma string_snoc (s : string) :
  str_len s <> 0 -> exists s' c, s = s' +:+ String c "".
Proof.
  induction s as [|a s IH]; intros H; [unfold str_len in H; simpl in H; lia|].
  destruct s as [|b s].
  - exists "", a. reflexivity.
  - destruct IH as (s' & c & E); [unfold str_len; simpl; lia|].
    exists (String a s'), c. rewrite E. reflexivity.
Qed.

Lemma zeros_text_S (k : nat) : zeros_text (S k) = zeros_text k +:+ "0".
Proof.
  unfold zeros_text. rewrite <- string_of_list_ascii_snoc. f_equal.
  induction k as [|k IH]; [reflexivity|]. simpl. f_equal. exact IH.
Qed.

Lemma length_zeros_text (k : nat) : String.length (zeros_text k) = k.
Proof.
  induction k as [|k IH]; [reflexivity|]. rewrite zeros_text_S, length_append, IH. simpl. lia.
Qed.

Lemma removePadding_loop_zero (n : nat) (s : string) :
  removePadding_loop (S n) (s +:+ "0") = removePadding_loop n s.
Proof.
  cbn [removePadding_loop]. rewrite str_len_append, back_snoc, pop_back_snoc.
  change (str_len "0") with 1.
  destruct (Z.eqb_spec (str_len s + 1) 0) as [E|E]; [unfold str_len in E; lia|].
  reflexivity.
Qed.

Lemma removePadding_zeros (hex : string) (k : nat) :
  removePadding (hex +:+ zeros_text k) = removePadding hex.
Proof.
  induction k as [|k IH].
  - unfold zeros_text. simpl. rewrite append_nil_r. reflexivity.
  - rewrite <- IH. unfold removePadding. rewrite zeros_text_S, <- append_assoc.
    rewrite (length_append (hex +:+ zeros_text k) "0"). simpl String.length.
    rewrite Nat.add_1_r. apply removePadding_loop_zero.
Qed.

Lemma removePadding_stop (s : string) :
  str_len s = 0 \/ back s <> "0"%char -> removePadding s = s.
Proof.
  intros H. unfold removePadding. destruct (String.length s) as [|n] eqn:E; [reflexivity|].
  cbn [removePadding_loop]. destruct H as [H|H].
  - unfold str_len in H. lia.
  - apply ascii_eqb_neq in H. rewrite H. rewrite andb_false_r. reflexivity.
Qed.

(** What is left has no trailing zero. *)
Lemma removePadding_loop_end (n : nat) (s : string) :
  (String.length s <= n)%nat ->
  let r := removePadding_loop n s in
  (str_len r = 0 \/ back r <> "0"%char) /\ (String.length r <= String.length s)%nat.
Proof.
  revert s. induction n as [|n IH]; intros s Hn; cbv zeta.
  - split; [left; unfold str_len; simpl; lia | simpl; lia].
  - cbn [removePadding_loop].
    destruct (Z.eqb_spec (str_len s) 0) as [E|E]; simpl negb; cbn [andb].
    + split; [left; exact E | lia].
    + destruct (ascii_eqb (back s) "0") eqn:Eb.
      * destruct (string_snoc s E) as (s' & c & ->).
        rewrite pop_back_snoc. rewrite length_append in Hn |- *. simpl String.length in *.
        destruct (IH s' ltac:(lia)) as [H1 H2]. cbv zeta in H1, H2. split; [exact H1 | lia].
      * split; [right; apply ascii_eqb_neq; exact Eb | lia].
Qed.

Lemma padHexString_spec (hex : string) (chunkSize : Z) :
  0 < chunkSize ->
  exists k, padHexString hex chunkSize = hex +:+ zeros_text k
            /\ Z.of_nat k < chunkSize
            /\ (str_len hex + Z.of_nat k) mod chunkSize = 0.
Proof.
  intros Hk. unfold padHexString.
  assert (Hl : 0 <= str_len hex) by (unfold str_len; lia).
  rewrite Z.rem_mod_nonneg by lia.
  pose proof (Z.mod_pos_bound (str_len hex) chunkSize Hk) as Hm.
  destruct (Z.eqb_spec (str_len hex mod chunkSize) 0) as [E|E]; simpl negb; cbv iota.
  - exists O. unfold zeros_text. simpl. rewrite append_nil_r.
    split; [reflexivity|]. split; [lia|]. rewrite Z.add_0_r. exact E.
  - exists (Z.to_nat (chunkSize - str_len hex mod chunkSize)).
    split; [reflexivity|]. split; [lia|]. rewrite Z2Nat.id by lia.
    replace (str_len hex + (chunkSize - str_len hex mod chunkSize))
      with (str_len hex - str_len hex mod chunkSize + 1 * chunkSize) by lia.
    rewrite Z.mod_add by lia.
    rewrite Zminus_mod, Zmod_mod, Z.sub_diag, Z.mod_0_l by lia. reflexivity.
Qed.

(** X12.  [padHexString] extends a text with zeros to a multiple of the
    chunk size, and [removePadding] afterwards returns the text without any
    trailing zero: the text itself when it is empty or does not end in ['0'],
    and never the text itself when it does. *)
Theorem removePadding_after_padHexString (hex : string) (chunkSize : Z) :
  0 < chunkSize ->
  Z.rem (str_len (padHexString hex chunkSize)) chunkSize = 0
  /\ removePadding (padHexString hex chunkSize) = removePadding hex
  /\ (str_len hex = 0 \/ back hex <> "0"%char ->
      removePadding (padHexString hex chunkSize) = hex)
  /\ (str_len hex <> 0 -> back hex = "0"%char ->
      removePadding (padHexString hex chunkSize) <> hex).
Proof.
  intros Hk. destruct (padHexString_spec hex chunkSize Hk) as (k & E & Hlt & Hm).
  rewrite E, removePadding_zeros.
  split; [|split; [reflexivity|split]].
  - rewrite str_len_append. unfold str_len at 2. rewrite length_zeros_text.
    rewrite Z.rem_mod_nonneg by (unfold str_len; lia). exact Hm.
  - apply removePadding_stop.
  - intros Hne Hb Heq.
    destruct (removePadding_loop_end (String.length hex) hex ltac:(lia)) as [[H|H] _];
      fold (removePadding hex) in H; rewrite Heq in H; [lia | contradiction].
Qed.

Lemma removePadding_after_padHexString_witness :
  Z.rem (str_len (padHexString "48692" 4)) 4 = 0
  /\ removePadding (padHexString "48692" 4) = removePadding "48692"
  /\ (str_len "48692" = 0 \/ back "48692" <> "0"%char ->
      removePadding (padHexString "48692" 4) = "48692")
  /\ (str_len "48692" <> 0 -> back "48692" = "0"%char ->
      removePadding (padHexString "48692" 4) <> "48692").
Proof. apply (removePadding_after_padHexString "48692" 4). lia. Defined.

(** *** The XOR cipher *)

Lemma lower_hex_digit (c : ascii) :
  is_lower_hex c = true -> exists v, 0 <= v <= 15 /\ c = hex_digit v.
Proof.
  intros H.
  assert (G : forall v, 0 <= v <= 15 -> c = hex_digit v ->
                        exists v, 0 <= v <= 15 /\ c = hex_digit v)
    by (intros v Hv E; exists v; split; assumption).
  destruct c as [[] [] [] [] [] [] [] []]; vm_compute in H; try discriminate H; clear H;
    first [ apply (G 0); [lia | reflexivity] | apply (G 1); [lia | reflexivity]
          | apply (G 2); [lia | reflexivity] | apply (G 3); [lia | reflexivity]
          | apply (G 4); [lia | reflexivity] | apply (G 5); [lia | reflexivity]
          | apply (G 6); [lia | reflexivity] | apply (G 7); [lia | reflexivity]
          | apply (G 8); [lia | reflexivity] | apply (G 9); [lia | reflexivity]
          | apply (G 10); [lia | reflexivity] | apply (G 11); [lia | reflexivity]
          | apply (G 12); [lia | reflexivity] | apply (G 13); [lia | reflexivity]
          | apply (G 14); [lia | reflexivity] | apply (G 15); [lia | reflexivity] ].
Qed.

Lemma xor_hex_digit (v w : Z) :
  0 <= v <= 15 -> 0 <= w <= 15 ->
  is_lower_hex (xor_hex_char (hex_digit v) (hex_digit w)) = true
  /\ xor_hex_char (xor_hex_char (hex_digit v) (hex_digit w)) (hex_digit w) = hex_digit v.
Proof.
  intros Hv Hw.
  assert (Ev : v = 0 \/ v = 1 \/ v = 2 \/ v = 3 \/ v = 4 \/ v = 5 \/ v = 6 \/ v = 7
               \/ v = 8 \/ v = 9 \/ v = 10 \/ v = 11 \/ v = 12 \/ v = 13 \/ v = 14
               \/ v = 15) by lia.
  assert (Ew : w = 0 \/ w = 1 \/ w = 2 \/ w = 3 \/ w = 4 \/ w = 5 \/ w = 6 \/ w = 7
               \/ w = 8 \/ w = 9 \/ w = 10 \/ w = 11 \/ w = 12 \/ w = 13 \/ w = 14
               \/ w = 15) by lia.
  clear Hv Hw.
  repeat (destruct Ev as [-> | Ev]); try subst v;
    repeat (destruct Ew as [-> | Ew]); try subst w; by_evaluation.
Qed.

(** On the digits of the cipher, XOR with a key digit is its own inverse. *)
Lemma xor_hex_char_involutive (c k : ascii) :
  is_lower_hex c = true -> is_lower_hex k = true ->
  is_lower_hex (xor_hex_char c k) = true
  /\ xor_hex_char (xor_hex_char c k) k = c.
Proof.
  intros Hc Hk.
  destruct (lower_hex_digit c Hc) as (v & Hv & ->).
  destruct (lower_hex_digit k Hk) as (w & Hw & ->).
  apply xor_hex_digit; assumption.
Qed.

Lemma hex_digit_lower (v : Z) : 0 <= v <= 15 -> is_lower_hex (hex_digit v) = true.
Proof.
  intros Hv.
  assert (Ev : v = 0 \/ v = 1 \/ v = 2 \/ v = 3 \/ v = 4 \/ v = 5 \/ v = 6 \/ v = 7
               \/ v = 8 \/ v = 9 \/ v = 10 \/ v = 11 \/ v = 12 \/ v = 13 \/ v = 14
               \/ v = 15) by lia.
  repeat (destruct Ev as [-> | Ev]); try subst v; reflexivity.
Qed.

Lemma code_range (c : ascii) : 0 <= code c < 256.
Proof. destruct c as [[] [] [] [] [] [] [] []]; vm_compute; split; congruence. Qed.

Lemma stringToHex_lower (message : string) :
  forallb is_lower_hex (chars (stringToHex message)) = true.
Proof.
  induction message as [|c m IH]; [reflexivity|].
  cbn [stringToHex]. rewrite !chars_cons. cbn [forallb].
  pose proof (code_range c) as R.
  rewrite !hex_digit_lower, IH; [reflexivity | |].
  - pose proof (Z.mod_pos_bound (code c) 16 ltac:(lia)). lia.
  - split; [apply Z.div_pos; lia|].
    assert (code c / 16 < 16) by (apply Z.div_lt_upper_bound; lia). lia.
Qed.

(** The text [xor_chunk] builds, character by character. *)
Lemma xor_chunk_spec (chunk key : string) :
  let r := xor_chunk chunk key in
  str_len r = str_len chunk
  /\ forall j, 0 <= j < str_len chunk ->
       str_at r j = xor_hex_char (str_at chunk j) (str_at key (Z.rem j (str_len key))).
Proof.
  cbv zeta. unfold xor_chunk.
  set (f := fun j => xor_hex_char (str_at chunk j) (str_at key (Z.rem j (str_len key)))).
  assert (HP : (fun n acc => str_len acc = n
                  /\ forall j, 0 <= j < n -> str_at acc j = f j)
               (str_len chunk)
               (for_up 0 (str_len chunk) (fun j acc => acc +:+ String (f j) "") "")).
  { apply for_up_inv; [unfold str_len; lia | |].
    - split; [reflexivity | intros; lia].
    - intros i acc Hi (H1 & H2). split.
      + rewrite str_len_append, H1. reflexivity.
      + intros j Hj. rewrite str_at_chars by lia. rewrite chars_append.
        destruct (Z.eq_dec j i) as [->|Hne].
        * replace (Z.to_nat i) with (List.length (chars acc) + 0)%nat
            by (rewrite <- H1, str_len_chars; lia).
          rewrite app_nth2_plus. reflexivity.
        * rewrite app_nth1 by (rewrite str_len_chars in H1; lia).
          rewrite <- str_at_chars by lia. apply H2. lia. }
  exact HP.
Qed.

Lemma string_ext (s t : string) :
  str_len s = str_len t ->
  (forall j, 0 <= j < str_len s -> str_at s j = str_at t j) -> s = t.
Proof.
  intros Hl H. apply chars_inj. rewrite !str_len_chars in Hl.
  apply (nth_ext _ _ NUL NUL); [lia|].
  intros n Hn. specialize (H (Z.of_nat n) ltac:(rewrite str_len_chars; lia)).
  rewrite !str_at_chars in H by lia. rewrite Nat2Z.id in H. exact H.
Qed.

Lemma lower_hex_at (s : string) (j : Z) :
  forallb is_lower_hex (chars s) = true -> 0 <= j < str_len s ->
  is_lower_hex (str_at s j) = true.
Proof.
  intros H Hj. rewrite forallb_forall in H. apply H.
  rewrite str_at_chars by lia. apply nth_In. rewrite str_len_chars in Hj. lia.
Qed.

Lemma xor_chunk_involutive (chunk key : string) :
  forallb is_lower_hex (chars chunk) = true ->
  forallb is_lower_hex (chars key) = true ->
  str_len chunk <= str_len key ->
  xor_chunk (xor_chunk chunk key) key = chunk.
Proof.
  intros Hc Hk Hl.
  destruct (xor_chunk_spec chunk key) as (L1 & A1).
  destruct (xor_chunk_spec (xor_chunk chunk key) key) as (L2 & A2).
  cbv zeta in L1, A1, L2, A2.
  apply string_ext; [lia|].
  intros j Hj. rewrite A2 by lia. rewrite A1 by lia.
  assert (Hr : Z.rem j (str_len key) = j) by (apply Z.rem_small; lia).
  rewrite Hr.
  apply xor_hex_char_involutive; apply lower_hex_at; try assumption; lia.
Qed.

(** *** Encryption and decryption of a message *)

Lemma length_drop_zeros (l : list ascii) : (List.length (drop_zeros l) <= List.length l)%nat.
Proof.
  induction l as [|c l IH]; [simpl; lia|].
  destruct l as [|c2 t]; [simpl; lia|].
  rewrite drop_zeros_cons. destruct (ascii_eqb c "0"); [|lia].
  cbn [List.length] in *. lia.
Qed.

Lemma lower_hex_is_hex (c : ascii) : is_lower_hex c = true -> is_hex_char c = true.
Proof.
  unfold is_lower_hex, is_hex_char. intros H. rewrite H. reflexivity.
Qed.

(** A text of cipher digits that fits the capacity is accepted by the
    constructor. *)
Lemma of_string_lower_hex (s : string) :
  forallb is_lower_hex (chars s) = true -> 1 <= str_len s <= HEX_SIZE ->
  exists v, of_string s = Ok v.
Proof.
  intros Hh Hl. pose proof (str_len_chars s) as Hlen.
  assert (Hns : has_sign s = false).
  { unfold has_sign. destruct (chars s) as [|c l] eqn:E; [reflexivity|].
    simpl in Hh. apply andb_true_iff in Hh. destruct Hh as [Hc _].
    destruct (ascii_eqb c "-") eqn:Em; [|reflexivity].
    apply ascii_eqb_eq in Em. subst c. discriminate Hc. }
  assert (Hup : unsigned_part s = chars s).
  { rewrite unsigned_part_drop, Hns. reflexivity. }
  assert (Hlit : is_literal s = true).
  { unfold is_literal. rewrite Hup. destruct (chars s) as [|c l] eqn:E.
    - simpl in Hlen. lia.
    - rewrite forallb_forall in Hh |- *. intros x Hx. apply lower_hex_is_hex, Hh, Hx. }
  destruct (createFromString_literal s Hlit ltac:(lia)) as [Hok _].
  destruct Hok as (v & Hv & _).
  - unfold significant_digits. rewrite Hup.
    pose proof (length_drop_zeros (chars s)). lia.
  - exists (operator_assign v). unfold of_string. rewrite Hv. reflexivity.
Qed.

Lemma chars_substr (s : string) (pos n : Z) :
  chars (substr s pos n) = take (Z.to_nat n) (drop (Z.to_nat pos) (chars s)).
Proof. apply chars_substring. Qed.

Lemma take_plus (l : list ascii) (a b : nat) :
  take (a + b) l = (take a l ++ take b (drop a l))%list.
Proof.
  revert l. induction a as [|a IH]; intros l; [reflexivity|].
  destruct l as [|c l]; [destruct b; reflexivity|].
  simpl. f_equal. apply IH.
Qed.

Lemma substr_split (s : string) (pos a b : Z) :
  0 <= pos -> 0 <= a -> 0 <= b ->
  substr s pos (a + b) = substr s pos a +:+ substr s (pos + a) b.
Proof.
  intros Hp Ha Hb. apply chars_inj. rewrite chars_append, !chars_substr.
  replace (Z.to_nat (a + b)) with (Z.to_nat a + Z.to_nat b)%nat by lia.
  replace (Z.to_nat (pos + a)) with (Z.to_nat pos + Z.to_nat a)%nat by lia.
  rewrite take_plus, drop_drop. reflexivity.
Qed.

Lemma forallb_take (p : ascii -> bool) (l : list ascii) (a : nat) :
  forallb p l = true -> forallb p (take a l) = true.
Proof.
  revert a. induction l as [|c l IH]; intros [|a] H; try reflexivity.
  simpl in *. apply andb_true_iff in H. destruct H as [H1 H2].
  rewrite H1. apply IH. exact H2.
Qed.

Lemma forallb_drop (p : ascii -> bool) (l : list ascii) (b : nat) :
  forallb p l = true -> forallb p (drop b l) = true.
Proof.
  revert b. induction l as [|c l IH]; intros [|b] H; try reflexivity; [exact H|].
  simpl in *. apply andb_true_iff in H. destruct H as [_ H2]. apply IH. exact H2.
Qed.

Lemma forallb_take_drop (p : ascii -> bool) (l : list ascii) (a b : nat) :
  forallb p l = true -> forallb p (take a (drop b l)) = true.
Proof. intros H. apply forallb_take, forallb_drop, H. Qed.

Lemma substr_whole (s : string) : substr s 0 (str_len s) = s.
Proof.
  apply chars_inj. rewrite chars_substr. simpl drop.
  rewrite drop_0. apply take_ge. rewrite str_len_chars. lia.
Qed.

Lemma substr_empty (s : string) (pos : Z) : substr s pos 0 = "".
Proof. apply chars_inj. rewrite chars_substr. reflexivity. Qed.

(** The rounds of the encryption loop from position [i] on: the chunks they
    append decrypt to the rest of the padded text. *)
Lemma encrypt_chunks_spec (padded key : string) :
  forallb is_lower_hex (chars padded) = true ->
  forallb is_lower_hex (chars key) = true ->
  1 <= str_len key <= HEX_SIZE ->
  forall (cnt : nat) (fuel : nat) (i : Z) (acc : list string),
    0 <= i -> str_len padded - i = Z.of_nat cnt * str_len key -> (cnt <= fuel)%nat ->
    exists cs,
      encrypt_chunks fuel padded key (str_len key) i acc = Ok (acc ++ cs)%list
      /\ forall d0, fold_left (fun d c => d +:+ xor_chunk c key) cs d0
                    = d0 +:+ substr padded i (str_len padded - i).
Proof.
  intros Hp Hk HK.
  destruct (of_string_lower_hex key Hk HK) as (vk & Evk).
  induction cnt as [|cnt IH]; intros fuel i acc Hi Ht Hf.
  - exists []. split.
    + destruct fuel; simpl; (destruct (Z.ltb_spec i (str_len padded)) as [?|_]; [lia|]);
        rewrite app_nil_r; reflexivity.
    + intros d0. simpl. replace (str_len padded - i) with 0 by lia.
      rewrite substr_empty, append_nil_r. reflexivity.
  - destruct fuel as [|fuel]; [lia|]. cbn [encrypt_chunks].
    destruct (Z.ltb_spec i (str_len padded)) as [_|?]; [|nia].
    set (chunk := substr padded i (str_len key)).
    assert (Hcl : str_len chunk = str_len key).
    { rewrite str_len_chars. subst chunk. rewrite chars_substr, length_take, length_drop.
      rewrite str_len_chars in Ht. nia. }
    assert (Hch : forallb is_lower_hex (chars chunk) = true).
    { subst chunk. rewrite chars_substr. apply forallb_take_drop. exact Hp. }
    destruct (of_string_lower_hex chunk Hch ltac:(lia)) as (vc & Evc).
    rewrite Evc, bind_Ok, Evk, bind_Ok.
    destruct (IH fuel (i + str_len key) (acc ++ [xor_chunk chunk key])%list
                ltac:(lia) ltac:(lia) ltac:(lia)) as (cs & Hrun & Hdec).
    exists (xor_chunk chunk key :: cs). split.
    + rewrite Hrun, <- app_assoc. reflexivity.
    + intros d0. cbn [fold_left]. rewrite Hdec.
      rewrite (xor_chunk_involutive chunk key Hch Hk ltac:(lia)).
      rewrite append_assoc. f_equal.
      replace (str_len padded - i) with (str_len key + (str_len padded - (i + str_len key)))
        by lia.
      rewrite substr_split by lia. reflexivity.
Qed.

Lemma hex_digit_zero (v : Z) : 0 <= v <= 15 -> (hex_digit v = "0"%char <-> v = 0).
Proof.
  intros Hv.
  assert (Ev : v = 0 \/ v = 1 \/ v = 2 \/ v = 3 \/ v = 4 \/ v = 5 \/ v = 6 \/ v = 7
               \/ v = 8 \/ v = 9 \/ v = 10 \/ v = 11 \/ v = 12 \/ v = 13 \/ v = 14
               \/ v = 15) by lia.
  repeat (destruct Ev as [-> | Ev]); try subst v; vm_compute;
    (split; intros E; solve [reflexivity | discriminate E]).
Qed.

Lemma stringToHex_append (a b : string) :
  stringToHex (a +:+ b) = stringToHex a +:+ stringToHex b.
Proof.
  induction a as [|c a IH]; [reflexivity|].
  rewrite append_cons. cbn [stringToHex]. rewrite IH. reflexivity.
Qed.

Lemma back_stringToHex (message : string) :
  str_len message <> 0 ->
  back (stringToHex message) = hex_digit (code (back message) mod 16).
Proof.
  intros H. destruct (string_snoc message H) as (m & c & ->).
  rewrite stringToHex_append, back_snoc. cbn [stringToHex].
  change (String (hex_digit (code c / 16)) (String (hex_digit (code c mod 16)) ""))
    with (String (hex_digit (code c / 16)) "" +:+ String (hex_digit (code c mod 16)) "").
  rewrite <- append_assoc. apply back_snoc.
Qed.

Lemma hexToString_after_stringToHex (m : string) (s : string) :
  hexToString (stringToHex m +:+ s) = m +:+ hexToString s.
Proof.
  induction m as [|c m IH]; [reflexivity|].
  cbn [stringToHex]. rewrite !append_cons. cbn [hexToString].
  rewrite byte_round_trip, IH. reflexivity.
Qed.

Lemma str_len_hexToString (s : string) : str_len (hexToString s) = (str_len s + 1) / 2.
Proof.
  assert (G : forall n s, (String.length s <= n)%nat ->
                          str_len (hexToString s) = (str_len s + 1) / 2).
  { induction n as [|n IH]; intros [|a [|b r]] Hn; try reflexivity;
      try (simpl in Hn; lia).
    cbn [hexToString]. unfold str_len in *. cbn [String.length] in *.
    rewrite Nat2Z.inj_succ, (IH r) by lia.
    replace (Z.of_nat (S (S (String.length r))) + 1)
      with (Z.of_nat (String.length r) + 1 + 1 * 2) by lia.
    rewrite Z.div_add by lia. lia. }
  apply (G (String.length s)). lia.
Qed.

Lemma single_digit_byte (v : Z) :
  0 <= v <= 15 -> code (to_char (strtoul16 (String (hex_digit v) ""))) = v.
Proof.
  intros Hv.
  assert (Ev : v = 0 \/ v = 1 \/ v = 2 \/ v = 3 \/ v = 4 \/ v = 5 \/ v = 6 \/ v = 7
               \/ v = 8 \/ v = 9 \/ v = 10 \/ v = 11 \/ v = 12 \/ v = 13 \/ v = 14
               \/ v = 15) by lia.
  repeat (destruct Ev as [-> | Ev]); try subst v; reflexivity.
Qed.

(** What [removePadding] takes away are zeros. *)
Lemma removePadding_prefix (s : string) :
  exists k, s = removePadding s +:+ zeros_text k
            /\ (str_len (removePadding s) = 0 \/ back (removePadding s) <> "0"%char).
Proof.
  unfold removePadding.
  assert (G : forall n s, (String.length s <= n)%nat ->
            exists k, s = removePadding_loop n s +:+ zeros_text k
                      /\ (str_len (removePadding_loop n s) = 0
                          \/ back (removePadding_loop n s) <> "0"%char)).
  { induction n as [|n IH]; intros u Hn.
    - exists O. destruct u; [|simpl in Hn; lia]. split; [reflexivity | left; reflexivity].
    - cbn [removePadding_loop].
      destruct (Z.eqb_spec (str_len u) 0) as [E|E]; simpl negb; cbn [andb].
      + exists O. unfold zeros_text. simpl. rewrite append_nil_r. split; [reflexivity | left; exact E].
      + destruct (ascii_eqb (back u) "0") eqn:Eb.
        * destruct (string_snoc u E) as (u' & c & ->).
          rewrite back_snoc in Eb. apply ascii_eqb_eq in Eb. subst c.
          rewrite pop_back_snoc. rewrite length_append in Hn. simpl String.length in Hn.
          destruct (IH u' ltac:(lia)) as (k & E1 & E2).
          exists (S k). split; [|exact E2].
          rewrite zeros_text_S, <- append_assoc, <- E1. reflexivity.
        * exists O. unfold zeros_text. simpl. rewrite append_nil_r.
          split; [reflexivity | right; apply ascii_eqb_neq; exact Eb]. }
  apply G. lia.
Qed.

Lemma str_len_of_list (l : list ascii) :
  str_len (string_of_list_ascii l) = Z.of_nat (List.length l).
Proof. rewrite str_len_chars, chars_of_list. reflexivity. Qed.

Lemma key_of_secret (secret : t) :
  canonical secret = true ->
  forallb is_lower_hex (chars (toString secret)) = true ->
  1 <= str_len (toString secret) <= HEX_SIZE.
Proof.
  intros C Hk. destruct (canonical_elim secret C) as (W & _ & _).
  destruct (wf_elim secret W) as (L & _ & _).
  destruct (toString_chars secret C) as (Hs & Hl & _). cbv zeta in Hs, Hl.
  rewrite Hs in Hk |- *. rewrite str_len_append, str_len_of_list, Hl.
  destruct (isNegative secret).
  - rewrite chars_append in Hk. simpl in Hk. discriminate Hk.
  - change (str_len "") with 0. lia.
Qed.

Lemma chars_zeros_text (k : nat) : chars (zeros_text k) = replicate k "0"%char.
Proof. apply chars_of_list. Qed.

Lemma forallb_replicate_zero (k : nat) :
  forallb is_lower_hex (replicate k "0"%char) = true.
Proof. induction k as [|k IH]; [reflexivity|]. simpl. exact IH. Qed.

(** X13.  Decrypting what [encryptDecryptMessage] produces, with the same
    canonical key of lower-case digits, gives
    [hexToString (removePadding (stringToHex message))]: the message itself
    when it is empty or the code of its last character is not a multiple of
    16, and never the message itself otherwise (the zero digit its
    hexadecimal text ends with is taken for padding). *)
Theorem decryptMessage_inverts_encryptDecryptMessage (message : string) (secret : t) :
  canonical secret = true ->
  forallb is_lower_hex (chars (toString secret)) = true ->
  exists chunks,
    encryptDecryptMessage message secret = Ok chunks
    /\ decryptMessage chunks secret = hexToString (removePadding (stringToHex message))
    /\ (str_len message = 0 \/ code (back message) mod 16 <> 0 ->
        decryptMessage chunks secret = message)
    /\ (str_len message <> 0 -> code (back message) mod 16 = 0 ->
        decryptMessage chunks secret <> message).
Proof.
  intros C Hk. pose proof (key_of_secret secret C Hk) as HK.
  set (key := toString secret) in *.
  set (H := stringToHex message).
  destruct (padHexString_spec H (str_len key) ltac:(lia)) as (k & EP & Hklt & Hmod).
  assert (HP : forallb is_lower_hex (chars (padHexString H (str_len key))) = true).
  { rewrite EP, chars_append, forallb_app, chars_zeros_text.
    subst H. rewrite stringToHex_lower, forallb_replicate_zero. reflexivity. }
  assert (HL : str_len (padHexString H (str_len key)) = str_len H + Z.of_nat k).
  { rewrite EP, str_len_append. unfold str_len at 2. rewrite length_zeros_text. reflexivity. }
  set (P := padHexString H (str_len key)) in *.
  assert (Hcnt : exists cnt : nat, str_len P - 0 = Z.of_nat cnt * str_len key
                                   /\ (cnt <= String.length P)%nat).
  { exists (Z.to_nat (str_len P / str_len key)).
    assert (0 <= str_len P) by (unfold str_len; lia).
    assert (0 <= str_len P / str_len key) by (apply Z.div_pos; lia).
    rewrite Z2Nat.id by lia. split.
    - rewrite Z.sub_0_r. rewrite HL in *.
      pose proof (Z.div_mod (str_len H + Z.of_nat k) (str_len key) ltac:(lia)). lia.
    - assert (str_len P / str_len key <= str_len P).
      { apply Z.div_le_upper_bound; [lia|]. nia. }
      unfold str_len in *. lia. }
  destruct Hcnt as (cnt & Hc1 & Hc2).
  destruct (encrypt_chunks_spec P key HP Hk HK cnt (String.length P) 0 [] ltac:(lia) Hc1 Hc2)
    as (cs & Hrun & Hdec).
  simpl app in Hrun.
  assert (Hd : decryptMessage cs secret = hexToString (removePadding H)).
  { unfold decryptMessage. fold key. rewrite (Hdec "").
    change ("" +:+ substr P 0 (str_len P - 0)) with (substr P 0 (str_len P - 0)).
    rewrite Z.sub_0_r, substr_whole.
    replace P with (H +:+ zeros_text k) by (symmetry; exact EP).
    rewrite removePadding_zeros. reflexivity. }
  exists cs. split; [exact Hrun|]. split; [exact Hd|]. rewrite Hd.
  pose proof (code_range (back message)) as Rb.
  pose proof (Z.mod_pos_bound (code (back message)) 16 ltac:(lia)) as Rm.
  destruct (hexToString_stringToHex message) as [Hrt Hlen]. fold H in Hrt, Hlen.
  split.
  - (* nothing of the text is taken for padding *)
    intros Hcase. rewrite removePadding_stop; [exact Hrt|].
    destruct (Z.eq_dec (str_len message) 0) as [E0|E0]; [left; lia | right].
    destruct Hcase as [?|Hn]; [lia|].
    subst H. rewrite (back_stringToHex message E0).
    intros E. apply hex_digit_zero in E; [contradiction | lia].
  - (* the last digit of the text is taken for padding *)
    intros Hne Hz Heq.
    destruct (string_snoc message Hne) as (m & c & Em).
    assert (Hbc : back message = c) by (rewrite Em; apply back_snoc).
    rewrite Hbc in Hz, Rb.
    assert (HH : H = (stringToHex m +:+ String (hex_digit (code c / 16)) "") +:+ "0").
    { subst H. rewrite Em, stringToHex_append. cbn [stringToHex]. rewrite Hz.
      rewrite append_assoc. reflexivity. }
    set (H1 := stringToHex m +:+ String (hex_digit (code c / 16)) "") in *.
    assert (HR : removePadding H = removePadding H1).
    { rewrite HH. apply (removePadding_zeros H1 1). }
    rewrite HR in Heq.
    destruct (removePadding_prefix H1) as (j & Ej & Hend).
    set (R := removePadding H1) in *.
    assert (Hl1 : str_len H1 = 2 * str_len m + 1).
    { subst H1. rewrite str_len_append.
      destruct (hexToString_stringToHex m) as [_ ->]. reflexivity. }
    assert (Hlm : str_len message = str_len m + 1).
    { rewrite Em, str_len_append. reflexivity. }
    pose proof (f_equal str_len Heq) as Hlen2.
    rewrite str_len_hexToString in Hlen2.
    pose proof (f_equal str_len Ej) as Hlen3.
    rewrite str_len_append in Hlen3. unfold str_len at 3 in Hlen3.
    rewrite length_zeros_text in Hlen3.
    assert (Hj : j = O).
    { destruct j as [|j]; [reflexivity|]. exfalso.
      assert (str_len R <= 2 * str_len m) by lia.
      assert ((str_len R + 1) / 2 < str_len m + 1).
      { apply Z.div_lt_upper_bound; lia. }
      lia. }
    subst j. unfold zeros_text in Ej. simpl in Ej. rewrite append_nil_r in Ej.
    rewrite <- Ej in Heq, Hend.
    (* the high digit alone is read as the last character *)
    assert (Hhi : 0 <= code c / 16 <= 15).
    { split; [apply Z.div_pos; lia|].
      assert (code c / 16 < 16) by (apply Z.div_lt_upper_bound; lia). lia. }
    unfold H1 in Heq. rewrite hexToString_after_stringToHex in Heq.
    cbn [hexToString] in Heq. rewrite Em in Heq.
    apply (f_equal back) in Heq. rewrite !back_snoc in Heq.
    apply (f_equal code) in Heq. rewrite single_digit_byte in Heq by lia.
    destruct Hend as [Hend|Hend]; [lia|].
    unfold H1 in Hend. rewrite back_snoc in Hend.
    assert (code c / 16 <> 0).
    { intros E. apply Hend. apply hex_digit_zero; [lia | exact E]. }
    pose proof (Z.div_mod (code c) 16 ltac:(lia)). lia.
Qed.

Lemma decryptMessage_inverts_encryptDecryptMessage_witness :
  exists chunks,
    encryptDecryptMessage "Hi!" (hex "1f3") = Ok chunks
    /\ decryptMessage chunks (hex "1f3") = hexToString (removePadding (stringToHex "Hi!"))
    /\ (str_len "Hi!" = 0 \/ code (back "Hi!") mod 16 <> 0 ->
        decryptMessage chunks (hex "1f3") = "Hi!")
    /\ (str_len "Hi!" <> 0 -> code (back "Hi!") mod 16 = 0 ->
        decryptMessage chunks (hex "1f3") <> "Hi!").
Proof.
  apply (decryptMessage_inverts_encryptDecryptMessage "Hi!" (hex "1f3"));
    vm_compute; reflexivity.
Defined.

Import MemoSpec.

(** *** Random values *)

Lemma Mbind_Ok {St A B : Type} (c : M St A) (f : A -> M St B) (st st' : St) (a : A) :
  c st = (Ok a, st') -> (x ← c; f x) st = f a st'.
Proof. intros H. unfold mbind, M_bind, Mbind. rewrite H. reflexivity. Qed.

Lemma getRandomHexDigit_spec (draws : nat -> Z) (st : state) :
  exists c, getRandomHexDigit draws st = (Ok c, mkState (karatsubaMemo st) (S (gen st)))
            /\ is_hex c = true
            /\ convertHexDigitToInt c = draws (gen st) `mod` 16.
Proof.
  unfold getRandomHexDigit.
  pose proof (Z.mod_pos_bound (draws (gen st)) 16 ltac:(lia)) as Hm.
  destruct (convertIntToHexChar_ok "Invalid integer value for hex conversion: "
              (draws (gen st) `mod` 16) ltac:(lia)) as (c & Hc & Hv & Hh).
  exists c. unfold convertIntToHexChar. rewrite Hc. auto.
Qed.

(** The rejection loop on the top digit ends at the first draw that is not
    zero. *)
Lemma redraw_msd_spec (draws : nat -> Z) (n : nat) (c : ascii) (st : state) :
  is_hex c = true ->
  (c <> "0"%char \/ exists k, (k < n)%nat /\ draws (gen st + k)%nat `mod` 16 <> 0) ->
  exists c' st' j,
    redraw_msd draws n c st = (Ok c', st')
    /\ is_hex c' = true /\ c' <> "0"%char
    /\ karatsubaMemo st' = karatsubaMemo st /\ gen st' = (gen st + j)%nat /\ (j <= n)%nat.
Proof.
  revert c st. induction n as [|n IH]; intros c st Hc Hk.
  - destruct Hk as [Hk|(k & Hk & _)]; [|lia].
    exists c, st, O. simpl. apply ascii_eqb_neq in Hk. rewrite Hk.
    apply ascii_eqb_neq in Hk. repeat split; auto.
  - cbn [redraw_msd]. destruct (ascii_eqb c "0") eqn:E.
    + apply ascii_eqb_eq in E. subst c.
      destruct Hk as [Hk|(k & Hk & Hd)]; [congruence|].
      destruct (getRandomHexDigit_spec draws st) as (c1 & Hrun & Hh & Hv).
      rewrite (Mbind_Ok _ _ _ _ _ Hrun).
      destruct (IH c1 (mkState (karatsubaMemo st) (S (gen st))) Hh) as (c' & st' & j & H).
      * destruct k as [|k].
        -- left. intros E. rewrite Nat.add_0_r in Hd. rewrite E in Hv.
           change (convertHexDigitToInt "0") with 0 in Hv. lia.
        -- right. exists k. split; [lia|]. cbn [gen].
           replace (S (gen st) + k)%nat with (gen st + S k)%nat by lia. exact Hd.
      * destruct H as (Hr & H1 & H2 & H3 & H4 & H5). cbn [karatsubaMemo gen] in H3, H4.
        exists c', st', (S j). rewrite Hr. repeat split; auto; lia.
    + exists c, st, O. apply ascii_eqb_neq in E. repeat split; auto; lia.
Qed.

Lemma lor_one (v : Z) :
  0 <= v <= 15 -> 0 <= Z.lor v 1 <= 15 /\ Z.odd (Z.lor v 1) = true.
Proof.
  intros Hv.
  assert (Ev : v = 0 \/ v = 1 \/ v = 2 \/ v = 3 \/ v = 4 \/ v = 5 \/ v = 6 \/ v = 7
               \/ v = 8 \/ v = 9 \/ v = 10 \/ v = 11 \/ v = 12 \/ v = 13 \/ v = 14
               \/ v = 15) by lia.
  repeat (destruct Ev as [-> | Ev]); try subst v;
    (split; [vm_compute; split; discriminate | reflexivity]).
Qed.

(** The loop that draws the digits below the top one. *)
Lemma fill_loop_spec (draws : nat -> Z) (d0 : list ascii) (n : Z) (st : state) :
  0 <= n < HEX_SIZE -> Z.of_nat (List.length d0) = HEX_SIZE ->
  exists d st',
    for_up 0 n
      (fun i (m : M state (list ascii)) =>
         d ← m; c ← getRandomHexDigit draws; mret (set d i c))
      (mret d0) st = (Ok d, st')
    /\ Z.of_nat (List.length d) = HEX_SIZE
    /\ (forall j, 0 <= j < n -> is_hex (get d j) = true)
    /\ (forall j, n <= j -> get d j = get d0 j)
    /\ karatsubaMemo st' = karatsubaMemo st /\ gen st' = (gen st + Z.to_nat n)%nat.
Proof.
  intros Hn Hl.
  apply (for_up_inv
    (fun i (m : M state (list ascii)) =>
       exists d st', m st = (Ok d, st')
         /\ Z.of_nat (List.length d) = HEX_SIZE
         /\ (forall j, 0 <= j < i -> is_hex (get d j) = true)
         /\ (forall j, i <= j -> get d j = get d0 j)
         /\ karatsubaMemo st' = karatsubaMemo st /\ gen st' = (gen st + Z.to_nat i)%nat)
    0 n); [lia | |].
  - exists d0, st. repeat split; auto; try (intros; lia).
  - intros i m Hi (d & st' & Hrun & H1 & H2 & H3 & H4 & H5).
    rewrite (Mbind_Ok _ _ _ _ _ Hrun).
    destruct (getRandomHexDigit_spec draws st') as (c & Hc & Hh & _).
    rewrite (Mbind_Ok _ _ _ _ _ Hc).
    eexists. eexists. split; [reflexivity|]. cbn [karatsubaMemo gen].
    split; [rewrite length_set; exact H1|]. split; [|split; [|split; [exact H4 | lia]]].
    + intros j Hj. destruct (Z.eq_dec j i) as [->|Hne].
      * rewrite get_set_eq by lia. exact Hh.
      * rewrite get_set_ne by lia. apply H2. lia.
    + intros j Hj. rewrite get_set_ne by lia. apply H3. lia.
Qed.

Lemma generateRandom_spec (draws : nat -> Z) (rfuel : nat) (n : Z) (st : state) :
  1 <= n <= HEX_SIZE ->
  (exists k, (k <= rfuel)%nat /\ draws (gen st + k)%nat `mod` 16 <> 0) ->
  exists r st' j,
    generateRandom draws rfuel n st = (Ok r, st')
    /\ canonical r = true /\ isNegative r = false /\ length r = n
    /\ Z.odd (value r) = true
    /\ karatsubaMemo st' = karatsubaMemo st
    /\ gen st' = (gen st + j + Z.to_nat n)%nat /\ (j <= rfuel)%nat.
Proof.
  intros Hn (k & Hk & Hd). unfold generateRandom.
  destruct (Z.leb_spec n 0) as [?|_]; [lia|].
  destruct (Z.gtb_spec n HEX_SIZE) as [?|_]; [lia|]. cbn [orb].
  destruct (getRandomHexDigit_spec draws st) as (c0 & Hc0 & Hh0 & Hv0).
  rewrite (Mbind_Ok _ _ _ _ _ Hc0).
  destruct (redraw_msd_spec draws rfuel c0 (mkState (karatsubaMemo st) (S (gen st))) Hh0)
    as (c & st1 & j & Hc & Hh & Hnz & M1 & G1 & Hj).
  { destruct k as [|k].
    - left. intros E. rewrite Nat.add_0_r in Hd. rewrite E in Hv0.
      change (convertHexDigitToInt "0") with 0 in Hv0. lia.
    - right. exists k. split; [lia|]. cbn [gen].
      replace (S (gen st) + k)%nat with (gen st + S k)%nat by lia. exact Hd. }
  cbn [karatsubaMemo gen] in M1, G1.
  rewrite (Mbind_Ok _ _ _ _ _ Hc).
  assert (Hl0 : Z.of_nat (List.length (set zeros (n - 1) c)) = HEX_SIZE)
    by (rewrite length_set; apply length_zeros).
  destruct (fill_loop_spec draws (set zeros (n - 1) c) (n - 1) st1 ltac:(lia) Hl0)
    as (d & st2 & Hfill & Hl & Hlow & Hup & M2 & G2).
  rewrite (Mbind_Ok _ _ _ _ _ Hfill).
  assert (Htop : get d (n - 1) = c).
  { rewrite Hup by lia. apply get_set_eq. rewrite length_zeros. lia. }
  assert (Hd0 : is_hex (get d 0) = true).
  { destruct (Z.eq_dec n 1) as [->|Hne]; [|apply Hlow; lia].
    change (1 - 1) with 0 in Htop. rewrite Htop. exact Hh. }
  destruct (lor_one _ (is_hex_range _ Hd0)) as [Hr Hodd].
  destruct (convertIntToHexChar_ok "Invalid integer value for hex conversion: " _ Hr)
    as (c1 & Hc1 & Hv1 & Hh1).
  unfold convertIntToHexChar. rewrite Hc1, Mbind_lift_Ok. cbv zeta.
  set (d' := set d 0 c1).
  assert (Hl' : Z.of_nat (List.length d') = HEX_SIZE) by (subst d'; rewrite length_set; exact Hl).
  assert (Hg0 : get d' 0 = c1) by (subst d'; apply get_set_eq; lia).
  assert (Hnz1 : c1 <> "0"%char).
  { intros E. rewrite E in Hv1. change (convertHexDigitToInt "0") with 0 in Hv1.
    rewrite <- Hv1 in Hodd. discriminate Hodd. }
  assert (Htop' : get d' (n - 1) <> "0"%char).
  { destruct (Z.eq_dec n 1) as [->|Hne].
    - change (1 - 1) with 0. rewrite Hg0. exact Hnz1.
    - subst d'. rewrite get_set_ne by lia. rewrite Htop. exact Hnz. }
  assert (Hstrip : strip d' n = n).
  { destruct (strip_spec d' n) as (S1 & S2 & S3 & _).
    destruct (Z.eq_dec (strip d' n) n) as [E|E]; [exact E|].
    exfalso. apply Htop'. apply S3. lia. }
  rewrite Hstrip.
  pose (r := mk d' n false).
  assert (W : wf r = true).
  { apply wf_intro; unfold r; cbn [length digits]; [lia | exact Hl' |].
    intros i Hi. destruct (Z.eq_dec i 0) as [->|Hne]; [rewrite Hg0; exact Hh1|].
    subst d'. rewrite get_set_ne by lia.
    destruct (Z.eq_dec i (n - 1)) as [->|Hne2]; [rewrite Htop; exact Hh | apply Hlow; lia]. }
  exists r, st2, j. split; [reflexivity|].
  split; [apply canonical_nonneg_intro; [exact W | reflexivity | right; exact Htop']|].
  split; [reflexivity|]. split; [reflexivity|]. split.
  - rewrite <- Z.negb_even, <- (isEven_spec r W). unfold isEven, r. cbn [digits].
    rewrite Hg0, Hv1. rewrite Z.rem_mod_nonneg by lia.
    rewrite <- Zeven_mod. rewrite Z.negb_even. exact Hodd.
  - split; [congruence|]. split; [lia | exact Hj].
Qed.

(** X14.  [generateRandom(n)] rejects [n <= 0] and [n > HEX_SIZE] with
    [InvalidInputException] without drawing; otherwise, once the generator
    yields a digit that is not zero for the top position, it returns an odd
    non-negative canonical value of exactly [n] digits, leaves the
    memoization table alone and has drawn [n] digits plus the rejected
    ones. *)
Theorem generateRandom_returns_an_odd_value_of_n_digits
    (draws : nat -> Z) (rfuel : nat) (n : Z) (st : state) :
  (n <= 0 \/ HEX_SIZE < n ->
   generateRandom draws rfuel n st
   = (Throw (InvalidInputException "Invalid number of hex digits for random generation."),
      st))
  /\ (1 <= n <= HEX_SIZE ->
      (exists k, (k <= rfuel)%nat /\ draws (gen st + k)%nat `mod` 16 <> 0) ->
      exists r st' j,
        generateRandom draws rfuel n st = (Ok r, st')
        /\ canonical r = true /\ length r = n
        /\ 16 ^ (n - 1) <= value r < 16 ^ n /\ Z.odd (value r) = true
        /\ karatsubaMemo st' = karatsubaMemo st
        /\ gen st' = (gen st + j + Z.to_nat n)%nat /\ (j <= rfuel)%nat).
Proof.
  split.
  - intros Hn. unfold generateRandom.
    destruct (Z.leb_spec n 0) as [?|?]; [reflexivity|].
    destruct (Z.gtb_spec n HEX_SIZE) as [?|?]; [reflexivity | lia].
  - intros Hn Hk.
    destruct (generateRandom_spec draws rfuel n st Hn Hk)
      as (r & st' & j & Hrun & C & S & L & O & M & G & Hj).
    exists r, st', j. split; [exact Hrun|]. split; [exact C|]. split; [exact L|].
    split; [|auto].
    destruct (canonical_elim r C) as (W & _ & _).
    pose proof (magnitude_bound r W) as B. rewrite (value_nonneg r S), <- L.
    split; [|lia]. apply canonical_magnitude_lower; [exact C|].
    rewrite (isZero_spec r C). apply Z.eqb_neq. intros E. rewrite E in O. discriminate O.
Qed.

Lemma generateRandom_returns_an_odd_value_of_n_digits_witness :
  generateRandom (fun k => Z.of_nat k) 3 0 (mkState ∅ 0)
  = (Throw (InvalidInputException "Invalid number of hex digits for random generation."),
     mkState ∅ 0)
  /\ exists r st' j,
       generateRandom (fun k => Z.of_nat k) 3 4 (mkState ∅ 0) = (Ok r, st')
       /\ canonical r = true /\ length r = 4
       /\ 16 ^ (4 - 1) <= value r < 16 ^ 4 /\ Z.odd (value r) = true
       /\ karatsubaMemo st' = karatsubaMemo (mkState ∅ 0)
       /\ gen st' = (gen (mkState ∅ 0) + j + Z.to_nat 4)%nat /\ (j <= 3)%nat.
Proof.
  destruct (generateRandom_returns_an_odd_value_of_n_digits
              (fun k => Z.of_nat k) 3 0 (mkState ∅ 0)) as (H1 & _).
  destruct (generateRandom_returns_an_odd_value_of_n_digits
              (fun k => Z.of_nat k) 3 4 (mkState ∅ 0)) as (_ & H2).
  split.
  - apply H1. left. lia.
  - apply H2; [vm_compute; split; discriminate|].
    exists 1%nat. split; [lia | vm_compute; discriminate].
Defined.

(** *** Texts of values that are not canonical *)

Lemma find_msb_spec (d : list ascii) (n : nat) (m : Z) :
  m <= Z.of_nat n ->
  let r := find_msb n d m in
  r <= m /\ (0 <= m -> 0 <= r)
  /\ (forall i, r < i <= m -> get d i = "0"%char)
  /\ (r <= 0 \/ get d r <> "0"%char).
Proof.
  revert m. induction n as [|n IH]; intros m Hm; cbv zeta.
  - simpl. split; [lia|]. split; [lia|]. split; [intros; lia | left; lia].
  - cbn [find_msb]. destruct (Z.gtb_spec m 0) as [G|G]; cbn [andb].
    + destruct (ascii_eqb (get d m) "0") eqn:E.
      * destruct (IH (m - 1) ltac:(lia)) as (H1 & H2 & H3 & H4). cbv zeta in *.
        split; [lia|]. split; [intros; apply H2; lia|]. split; [|exact H4].
        intros i Hi. destruct (Z.eq_dec i m) as [->|Hne].
        -- apply ascii_eqb_eq. exact E.
        -- apply H3. lia.
      * split; [lia|]. split; [lia|]. split; [intros; lia|].
        right. apply ascii_eqb_neq. exact E.
    + split; [lia|]. split; [lia|]. split; [intros; lia | left; lia].
Qed.

(** The characters [toString] writes for a well-formed value: the sign unless
    the value is the zero value, then the digits from the highest one that is
    not zero. *)
Lemma toString_wf (x : t) :
  wf x = true ->
  exists l : list ascii,
    toString x = (if isNegative x && negb (isZero x) then "-" else "")
                 +:+ string_of_list_ascii l
    /\ 1 <= Z.of_nat (List.length l) <= length x
    /\ forallb is_hex_char l = true
    /\ (List.length l = 1%nat \/ nth 0 l NUL <> "0"%char)
    /\ digits_value l = magnitude x.
Proof.
  intros W. destruct (wf_elim x W) as (L & D & H).
  destruct (find_msb_spec (digits x) (Z.to_nat (length x)) (length x - 1) ltac:(lia))
    as (M1 & M2 & M3 & M4). cbv zeta in *.
  set (msb := find_msb (Z.to_nat (length x)) (digits x) (length x - 1)) in *.
  specialize (M2 ltac:(lia)).
  set (l := rev (take (Z.to_nat (msb + 1)) (digits x))).
  assert (Hl : Z.of_nat (List.length l) = msb + 1).
  { subst l. rewrite length_rev, length_take. lia. }
  assert (Hnth : forall i, 0 <= i <= msb ->
            nth (Z.to_nat (msb - i)) l NUL = get (digits x) i).
  { intros i Hi. subst l. rewrite rev_nth by (rewrite length_take; lia).
    rewrite length_take.
    replace (Init.Nat.min (Z.to_nat (msb + 1)) (List.length (digits x))
             - S (Z.to_nat (msb - i)))%nat with (Z.to_nat i) by lia.
    rewrite get_nonneg by lia.
    rewrite !nth_lookup. rewrite lookup_take_lt by lia. reflexivity. }
  exists l. split; [|split; [lia | split; [|split]]].
  - unfold toString. fold msb. apply for_down_emit; [lia | lia |].
    intros i Hi. symmetry. apply Hnth. lia.
  - apply forallb_forall. intros c Hc. apply (In_nth _ _ NUL) in Hc.
    destruct Hc as (k & Hk & <-).
    replace k with (Z.to_nat (msb - (msb - Z.of_nat k))) by lia.
    rewrite Hnth by lia. apply H. lia.
  - destruct M4 as [M4|M4]; [left; lia | right].
    pose proof (Hnth msb ltac:(lia)) as E. rewrite Z.sub_diag in E.
    change (Z.to_nat 0) with O in E. rewrite E. exact M4.
  - rewrite <- (mag_upto_reversed (digits x) l).
    + unfold magnitude. replace (List.length l) with (Z.to_nat (msb + 1)) by lia.
      symmetry. apply mag_upto_zeros; [lia|].
      intros i Hi. rewrite M3 by lia. reflexivity.
    + intros i Hi. rewrite Hl. symmetry.
      replace (msb + 1 - 1 - i) with (msb - i) by lia. apply Hnth. lia.
Qed.

Lemma toString_parses (x : t) :
  wf x = true ->
  exists y, createFromString (toString x) = Ok y
            /\ canonical y = true /\ value y = value x.
Proof.
  intros W. destruct (wf_elim x W) as (L & D & H).
  destruct (toString_wf x W) as (l & Hs & Hl & Hhex & Htop & Hv).
  set (s := toString x) in *.
  set (sg := isNegative x && negb (isZero x)) in *.
  assert (Hne : l <> []) by (intros E; rewrite E in Hl; simpl in Hl; lia).
  assert (Hchars : chars s = ((if sg then ["-"%char] else []) ++ l)%list).
  { rewrite Hs, chars_append, chars_of_list. destruct sg; reflexivity. }
  assert (Hsign : has_sign s = sg).
  { unfold has_sign. rewrite Hchars. destruct sg; [reflexivity|].
    destruct l as [|c l']; [congruence|]. simpl in *.
    apply andb_true_iff in Hhex. destruct Hhex as [Hc _].
    destruct (ascii_eqb c "-") eqn:E; [|reflexivity].
    apply ascii_eqb_eq in E. subst c. discriminate Hc. }
  assert (Hup : unsigned_part s = l).
  { rewrite unsigned_part_drop, Hsign, Hchars. destruct sg; reflexivity. }
  assert (Hsig : significant_digits s = l).
  { unfold significant_digits. rewrite Hup. apply drop_zeros_id. exact Htop. }
  assert (Hlit : is_literal s = true).
  { unfold is_literal. rewrite Hup. destruct l; [congruence | exact Hhex]. }
  assert (Hraw : str_len s <= HEX_SIZE + 1).
  { rewrite str_len_chars, Hchars, length_app. destruct sg; simpl; lia. }
  destruct (createFromString_literal s Hlit Hraw) as [Hok _].
  destruct (Hok ltac:(rewrite Hsig; lia)) as (y & Hy & _).
  exists y. split; [exact Hy|].
  destruct (createFromString_value s y Hy) as (Cy & Vy & _).
  split; [exact Cy|]. rewrite Vy. unfold literal_value. rewrite Hsign, Hup, Hv.
  unfold value, signed, sg.
  destruct (isNegative x); [|reflexivity]. simpl.
  destruct (isZero x) eqn:Ez; [|reflexivity]. simpl.
  rewrite (isZero_magnitude x Ez). reflexivity.
Qed.

Lemma toString_literal_value (x : t) :
  wf x = true -> literal_value (toString x) = value x.
Proof.
  intros W. destruct (toString_parses x W) as (y & Hy & _ & Vy).
  destruct (createFromString_value _ y Hy) as (_ & V & _). congruence.
Qed.

(** *** Memoized Karatsuba multiplication *)

Lemma memo_ok_empty : memo_ok ∅.
Proof. intros k1 k2 v H. rewrite lookup_empty in H. discriminate H. Qed.

Lemma fmap_Ok {A B : Type} (f : A -> B) (a : A) : f <$> Ok a = Ok (f a).
Proof. reflexivity. Qed.

Lemma memo_ok_insert (memo : memo_t) (k1 k2 v : string) (y : t) :
  memo_ok memo -> createFromString v = Ok y ->
  value y = literal_value k1 * literal_value k2 ->
  memo_ok (<[(k1, k2) := v]> memo).
Proof.
  intros Hm Hy Hv k1' k2' v' H.
  destruct (decide ((k1, k2) = (k1', k2'))) as [E|E].
  - rewrite E in H. rewrite lookup_insert_eq in H. injection H as <-.
    injection E as <- <-. exists y. auto.
  - rewrite lookup_insert_ne in H by exact E. apply (Hm _ _ _ H).
Qed.

(** The table after a result has been stored under the ordered key. *)
Lemma memo_ok_store (memo : memo_t) (a b r : t) :
  memo_ok memo -> wf a = true -> wf b = true -> wf r = true ->
  value r = value a * value b ->
  memo_ok (<[(if string_gt (toString a) (toString b)
              then (toString b, toString a) else (toString a, toString b))
             := toString r]> memo).
Proof.
  intros Hm Wa Wb Wr Hv.
  destruct (toString_parses r Wr) as (y & Hy & _ & Vy).
  pose proof (toString_literal_value a Wa) as La.
  pose proof (toString_literal_value b Wb) as Lb.
  destruct (string_gt (toString a) (toString b));
    apply (memo_ok_insert _ _ _ _ y Hm Hy); rewrite Vy, Hv, La, Lb; ring.
Qed.

Lemma karatsuba_unfold (fuel : nat) (a other : t) :
  karatsuba fuel a other
  = (let thisStr := toString a in
     let otherStr := toString other in
     let key := if string_gt thisStr otherStr then (otherStr, thisStr)
                else (thisStr, otherStr) in
     s ← Mget;
     match karatsubaMemo s !! key with
     | Some v => lift (createFromString v)
     | None =>
         if (length a <=? KARATSUBA_THRESHOLD) || (length other <=? KARATSUBA_THRESHOLD) then
           r ← lift (multiplyNaive a other);
           let result := operator_assign r in
           memo_store key (toString result);;
           mret result
         else if isZero a || isZero other then
           zero_val ← lift (of_string "0");
           memo_store key (toString zero_val);;
           mret zero_val
         else
           match fuel with
           | O => lift OutOfFuel
           | S fuel' =>
               let n := Z.max (length a) (length other) in
               let n := if negb (Z.rem n 2 =? 0) then n + 1 else n in
               x ← lift (pad a n);
               y ← lift (pad other n);
               let m := Z.quot n 2 in
               let low1 := getLower x m in
               let high1 := getHigher x m in
               let low2 := getLower y m in
               let high2 := getHigher y m in
               z0 ← karatsuba fuel' low1 low2;
               z2 ← karatsuba fuel' high1 high2;
               sum1 ← lift (operator_add low1 high1);
               sum2 ← lift (operator_add low2 high2);
               z1 ← karatsuba fuel' sum1 sum2;
               z1 ← lift (operator_assign <$> operator_sub z1 z2);
               z1 ← lift (operator_assign <$> operator_sub z1 z0);
               part1 ← lift (shiftLeft z2 (2 * m));
               part2 ← lift (shiftLeft z1 m);
               tmp ← lift (operator_add part1 part2);
               r ← lift (operator_add tmp z0);
               let result := operator_assign r in
               let result := set_sign result (negb (eqb (isNegative a) (isNegative other))) in
               let result := set_length result (strip (digits result) (length result)) in
               memo_store key (toString result);;
               mret result
           end
     end).
Proof. destruct fuel; reflexivity. Qed.

Lemma canonical_value_sign (x : t) :
  canonical x = true -> 0 <= value x -> isNegative x = false.
Proof.
  intros C V. destruct (isNegative x) eqn:E; [|reflexivity]. exfalso.
  destruct (canonical_elim x C) as (W & _ & N). specialize (N E).
  pose proof (magnitude_bound x W). unfold value, signed in V. rewrite E in V. lia.
Qed.

Lemma operator_add_nonneg (a b : t) :
  wf a = true -> wf b = true -> isNegative a = false -> isNegative b = false ->
  magnitude a + magnitude b < 16 ^ HEX_SIZE ->
  exists r, operator_add a b = Ok r /\ canonical r = true /\ isNegative r = false
            /\ value r = magnitude a + magnitude b.
Proof.
  intros Wa Wb Sa Sb Hfit.
  destruct (add_same_sign_spec a b Wa Wb) as [Hok _].
  destruct (Hok Hfit) as (r & Hr & Wr & Hm & Hs).
  exists r. unfold operator_add, operator_add_body. rewrite Sa, Sb. cbn [eqb negb].
  split; [exact Hr|]. rewrite Sa in Hs.
  split; [apply canonical_nonneg_intro; [exact Wr | exact Hs | exact (add_same_sign_top a b r Hr)]|].
  split; [exact Hs|]. rewrite (value_nonneg r Hs). exact Hm.
Qed.

Lemma length_getLower (x : t) (m : Z) :
  1 <= m <= length x -> length (getLower x m) = m.
Proof.
  intros H. unfold getLower. cbn [length].
  replace (Z.min (length x) m) with m by lia.
  destruct (Z.eqb_spec m 0); [lia | reflexivity].
Qed.

Lemma length_getHigher (x : t) (m : Z) :
  m < length x -> length (getHigher x m) = length x - m.
Proof.
  intros H. unfold getHigher. destruct (Z.leb_spec (length x) m); [lia | reflexivity].
Qed.

Lemma Mbind_Mget {St B : Type} (f : St -> M St B) (st : St) :
  (s ← Mget; f s) st = f st st.
Proof. reflexivity. Qed.

Lemma store_and_return (key : string * string) (v : string) (r : t) (st : state) :
  (memo_store key v;; mret r) st
  = (Ok r, mkState (<[key := v]> (karatsubaMemo st)) (gen st)).
Proof. reflexivity. Qed.

Lemma value_signed (x : t) : value x = signed (isNegative x) (magnitude x).
Proof. reflexivity. Qed.

(** The last steps of [karatsuba]: the sign is set and the length adjusted. *)
Lemma finish_product (r : t) (sx : bool) :
  canonical r = true -> isNegative r = false ->
  let result := operator_assign r in
  let result := set_sign result sx in
  let result := set_length result (strip (digits result) (length result)) in
  wf result = true /\ value result = signed sx (value r)
  /\ isNegative result = sx
  /\ ((sx = true -> magnitude r <> 0) -> canonical result = true).
Proof.
  intros C S. cbv zeta.
  pose proof (operator_assign_canonical r C) as Ca.
  destruct (canonical_elim r C) as (W & _ & _).
  destruct (operator_assign_wf r W) as (Wa & Ma & _).
  destruct (wf_elim _ Wa) as (La & Da & Ha).
  set (ra := operator_assign r) in *.
  unfold set_length, set_sign. cbn [digits length isNegative].
  pose proof (strip_spec (digits ra) (length ra)) as Hs. cbv zeta in Hs.
  destruct Hs as (S1 & S2 & S3 & S4).
  pose proof (mag_upto_strip (digits ra) (length ra) ltac:(lia)) as Hm.
  set (len := strip (digits ra) (length ra)) in *.
  assert (Wr : forall s, wf (mk (digits ra) len s) = true).
  { intros s. apply wf_intro; cbn [digits length]; [lia | exact Da | intros; apply Ha; lia]. }
  assert (Mr : forall s, magnitude (mk (digits ra) len s) = magnitude r).
  { intros s. unfold magnitude at 1. cbn [digits length]. rewrite Hm. exact Ma. }
  split; [apply Wr|]. split.
  - rewrite value_signed. cbn [isNegative]. rewrite Mr, (value_nonneg r S). reflexivity.
  - split; [reflexivity|]. intros N.
    apply canonical_intro; [apply Wr | |].
    + cbn [digits length]. destruct S4 as [S4|S4]; [left; lia | right; exact S4].
    + cbn [isNegative]. intros E. rewrite Mr. exact (N E).
Qed.

Lemma halves (n0 : Z) :
  1 <= n0 ->
  let n := if negb (Z.rem n0 2 =? 0) then n0 + 1 else n0 in
  n = 2 * Z.quot n 2 /\ n0 <= n <= n0 + 1 /\ (n0 = 2 * (n0 / 2) -> n = n0).
Proof.
  intros H. cbv zeta. rewrite Z.rem_mod_nonneg by lia.
  pose proof (Z.mod_pos_bound n0 2 ltac:(lia)) as Hm.
  pose proof (Z.div_mod n0 2 ltac:(lia)) as Hd.
  destruct (Z.eqb_spec (n0 mod 2) 0) as [E|E]; cbn [negb].
  - rewrite Z.quot_div_nonneg by lia. split; [lia|]. split; [lia | reflexivity].
  - rewrite Z.quot_div_nonneg by lia.
    assert (E1 : n0 mod 2 = 1) by lia.
    assert (E2 : (n0 + 1) / 2 = n0 / 2 + 1).
    { apply eq_sym, (Z.div_unique_pos _ _ _ 0); lia. }
    rewrite E2. split; [lia|]. split; lia.
Qed.

Lemma pow16_le (i j : Z) : 0 <= i <= j -> 16 ^ i <= 16 ^ j.
Proof. intros H. apply Z.pow_le_mono_r; lia. Qed.

Lemma pow16_pos (i : Z) : 0 <= i -> 0 < 16 ^ i.
Proof. intros H. apply Z.pow_pos_nonneg; lia. Qed.

Lemma karatsuba_spec (fuel : nat) :
  forall (a b : t) (st : state),
    wf a = true -> wf b = true ->
    length a <= half_size -> length b <= half_size ->
    Z.max (length a) (length b) <= Z.of_nat fuel + KARATSUBA_THRESHOLD ->
    memo_ok (karatsubaMemo st) ->
    exists r st',
      karatsuba fuel a b st = (Ok r, st')
      /\ wf r = true /\ value r = value a * value b
      /\ (canonical a = true -> canonical b = true -> canonical r = true)
      /\ (isNegative a = false -> isNegative b = false ->
          canonical r = true /\ isNegative r = false)
      /\ memo_ok (karatsubaMemo st') /\ gen st' = gen st.
Proof.
  induction fuel as [|fuel IH]; intros a b st Wa Wb La64 Lb64 Hfuel Hmemo;
    destruct (wf_elim a Wa) as (La & _ & _); destruct (wf_elim b Wb) as (Lb & _ & _);
    rewrite karatsuba_unfold; cbv zeta; rewrite Mbind_Mget;
    set (key := if string_gt (toString a) (toString b)
                then (toString b, toString a) else (toString a, toString b));
    (destruct (karatsubaMemo st !! key) as [v|] eqn:Ek;
     [ (* answered from the table *)
       assert (Hy : exists y, createFromString v = Ok y /\ value y = value a * value b);
       [ pose proof (toString_literal_value a Wa) as Ta;
         pose proof (toString_literal_value b Wb) as Tb;
         subst key; destruct (string_gt (toString a) (toString b));
         destruct (Hmemo _ _ _ Ek) as (y & Hy & Vy); exists y;
         (split; [exact Hy|]); rewrite Vy, Ta, Tb; ring
       | destruct Hy as (y & Hy & Vy); exists y, st;
         destruct (createFromString_value v y Hy) as (Cy & _ & _);
         destruct (canonical_elim y Cy) as (Wy & _ & _);
         unfold lift; rewrite Hy;
         split; [reflexivity|]; split; [exact Wy|]; split; [exact Vy|];
         split; [intros _ _; exact Cy|];
         split; [|split; [exact Hmemo | reflexivity]];
         intros Sa Sb; split; [exact Cy|];
         apply (canonical_value_sign y Cy); rewrite Vy;
         rewrite (value_nonneg a Sa), (value_nonneg b Sb);
         pose proof (magnitude_bound a Wa); pose proof (magnitude_bound b Wb); nia ]
     | ]);
    (destruct ((length a <=? KARATSUBA_THRESHOLD) || (length b <=? KARATSUBA_THRESHOLD))
       eqn:Ebase;
     [ (* the schoolbook product *)
       destruct (multiplyNaive_spec a b Wa Wb) as [Hok _];
       destruct (Hok ltac:(right; unfold half_size, HEX_SIZE in *; lia))
         as (r & Hr & Wr & Mr & Tr & Sr & Sr');
       rewrite Hr, Mbind_lift_Ok; cbv zeta; rewrite store_and_return;
       destruct (operator_assign_wf r Wr) as (Wa' & Ma' & Va');
       destruct (wf_elim r Wr) as (Lr & _ & _);
       destruct (operator_assign_spec r ltac:(lia)) as (E1 & E2 & _ & E4 & _);
       assert (Vr : value r = value a * value b);
       [ rewrite !value_signed, Mr;
         destruct (isZero a || isZero b) eqn:Ez;
         [ assert (Z0 : magnitude a * magnitude b = 0)
             by (apply orb_true_iff in Ez; destruct Ez as [Ez|Ez];
                 rewrite (isZero_magnitude _ Ez); lia);
           rewrite Z0; destruct (isNegative r), (isNegative a), (isNegative b);
           simpl; lia
         | rewrite (Sr' eq_refl); destruct (isNegative a), (isNegative b); simpl; ring ]
       | eexists; eexists; split; [reflexivity|]; cbn [karatsubaMemo gen];
         split; [exact Wa'|]; split; [rewrite Va'; exact Vr|];
         split; [|split; [|split; [|reflexivity]]];
         [ intros Ca Cb; apply operator_assign_canonical;
           apply canonical_intro; [exact Wr | exact Tr |];
           intros En; destruct (isZero a || isZero b) eqn:Ez;
           [ exfalso; unfold multiplyNaive in Hr; rewrite Ez in Hr;
             destruct zero_constant as (E0 & _ & _ & _ & S0 & _);
             rewrite E0 in Hr; injection Hr as <-; congruence
           | apply orb_false_iff in Ez; destruct Ez as [Ez1 Ez2];
             pose proof (canonical_nonzero a Ca Ez1);
             pose proof (canonical_nonzero b Cb Ez2); rewrite Mr; nia ]
         | intros Sa Sb;
           assert (Sn : isNegative r = false)
             by (destruct (isNegative r) eqn:En; [|reflexivity];
                 exfalso; apply (Sr eq_refl); congruence);
           split; [|rewrite E2; exact Sn];
           apply operator_assign_canonical;
           apply canonical_nonneg_intro; assumption
         | apply memo_ok_store; try assumption; rewrite Va'; exact Vr ] ]
     | ]);
    (destruct (isZero a || isZero b) eqn:Ez;
     [ (* one operand is the zero value *)
       destruct zero_constant as (E0 & W0 & C0 & M0 & S0 & L0 & Z0);
       rewrite E0, Mbind_lift_Ok, store_and_return;
       assert (V0 : value (hex "0") = value a * value b)
         by (rewrite !value_signed, M0;
             apply orb_true_iff in Ez; destruct Ez as [Ez|Ez];
             rewrite (isZero_magnitude _ Ez);
             destruct (isNegative a), (isNegative b); simpl; lia);
       eexists; eexists; split; [reflexivity|]; cbn [karatsubaMemo gen];
       split; [exact W0|]; split; [exact V0|];
       split; [intros _ _; exact C0|];
       split; [intros _ _; split; [exact C0 | exact S0]|];
       split; [apply memo_ok_store; assumption | reflexivity]
     | ]).
  - (* no recursion is left; the operands are short *)
    apply orb_false_iff in Ebase. destruct Ebase as [E1 E2].
    apply Z.leb_gt in E1. lia.
  - (* split, three products, recombine *)
    apply orb_false_iff in Ebase. destruct Ebase as [Ea Eb].
    apply Z.leb_gt in Ea. apply Z.leb_gt in Eb. unfold KARATSUBA_THRESHOLD in *.
    destruct (halves (Z.max (length a) (length b)) ltac:(lia)) as (Hn2 & Hn1 & Hn3).
    cbv zeta in Hn2, Hn1, Hn3.
    set (n := if negb (Z.rem (Z.max (length a) (length b)) 2 =? 0)
              then Z.max (length a) (length b) + 1 else Z.max (length a) (length b)) in *.
    set (m := Z.quot n 2) in *.
    assert (Hn64 : n <= 64).
    { unfold half_size in *.
      destruct (Z.eq_dec (Z.max (length a) (length b)) 64) as [E|E]; [|lia].
      rewrite Hn3; [lia|]. rewrite E. reflexivity. }
    assert (Hm : 5 <= m <= 32) by lia.
    destruct (pad_spec a n Wa) as [Hpa _].
    destruct (Hpa ltac:(right; unfold HEX_SIZE; lia)) as (x & Hx & Wx & Mx & Sx & Lx).
    destruct (pad_spec b n Wb) as [Hpb _].
    destruct (Hpb ltac:(right; unfold HEX_SIZE; lia)) as (y & Hy & Wy & My & Sy & Ly).
    rewrite Hx, Mbind_lift_Ok, Hy, Mbind_lift_Ok.
    replace (Z.max (length a) n) with n in Lx by lia.
    replace (Z.max (length b) n) with n in Ly by lia.
    destruct (getLower_spec x m Wx ltac:(lia)) as (Wl1 & Sl1 & Ml1).
    destruct (getHigher_spec x m Wx ltac:(lia)) as (Wh1 & Sh1 & Mh1).
    destruct (getLower_spec y m Wy ltac:(lia)) as (Wl2 & Sl2 & Ml2).
    destruct (getHigher_spec y m Wy ltac:(lia)) as (Wh2 & Sh2 & Mh2).
    pose proof (length_getLower x m ltac:(lia)) as Ll1.
    pose proof (length_getLower y m ltac:(lia)) as Ll2.
    pose proof (length_getHigher x m ltac:(lia)) as Lh1.
    pose proof (length_getHigher y m ltac:(lia)) as Lh2.
    pose proof (mag_below_bound x m Wx ltac:(lia)) as Bl1.
    pose proof (mag_below_bound y m Wy ltac:(lia)) as Bl2.
    pose proof (magnitude_bound _ Wh1) as Bh1. rewrite Lh1, Lx in Bh1.
    pose proof (magnitude_bound _ Wh2) as Bh2. rewrite Lh2, Ly in Bh2.
    replace (n - m) with m in Bh1, Bh2 by lia.
    rewrite <- Ml1 in Bl1, Mh1. rewrite <- Ml2 in Bl2, Mh2.
    set (low1 := getLower x m) in *. set (high1 := getHigher x m) in *.
    set (low2 := getLower y m) in *. set (high2 := getHigher y m) in *.
    set (l1 := magnitude low1) in *. set (h1 := magnitude high1) in *.
    set (l2 := magnitude low2) in *. set (h2 := magnitude high2) in *.
    set (P := 16 ^ m) in *.
    assert (HP : 0 < P) by (apply pow16_pos; lia).
    assert (HP2 : 16 ^ (2 * m) = P * P)
      by (unfold P; rewrite <- Z.pow_add_r by lia; f_equal; lia).
    assert (HP3 : 16 ^ (2 * m + 1) = 16 * (P * P))
      by (rewrite Z.pow_add_r, HP2 by lia; change (16 ^ 1) with 16; ring).
    assert (Hcap : 16 * (P * P) <= 16 ^ HEX_SIZE)
      by (rewrite <- HP3; apply pow16_le; unfold HEX_SIZE; lia).
    assert (Hcap2 : P * P * (P * P) <= 16 ^ HEX_SIZE).
    { rewrite <- HP2, <- Z.pow_add_r by lia. apply pow16_le. unfold HEX_SIZE. lia. }
    (* z0 *)
    destruct (IH low1 low2 st Wl1 Wl2
                ltac:(unfold half_size; lia) ltac:(unfold half_size; lia)
                ltac:(unfold KARATSUBA_THRESHOLD; lia) Hmemo)
      as (z0 & st1 & Hz0 & Wz0 & Vz0 & _ & Cz0 & Hm1 & G1).
    destruct (Cz0 Sl1 Sl2) as [Cz0' Sz0]. clear Cz0.
    rewrite (value_nonneg _ Sl1), (value_nonneg _ Sl2) in Vz0. fold l1 l2 in Vz0.
    rewrite (Mbind_Ok _ _ _ _ _ Hz0).
    (* z2 *)
    destruct (IH high1 high2 st1 Wh1 Wh2
                ltac:(unfold half_size; lia) ltac:(unfold half_size; lia)
                ltac:(unfold KARATSUBA_THRESHOLD; lia) Hm1)
      as (z2 & st2 & Hz2 & Wz2 & Vz2 & _ & Cz2 & Hm2 & G2).
    destruct (Cz2 Sh1 Sh2) as [Cz2' Sz2]. clear Cz2.
    rewrite (value_nonneg _ Sh1), (value_nonneg _ Sh2) in Vz2. fold h1 h2 in Vz2.
    rewrite (Mbind_Ok _ _ _ _ _ Hz2).
    (* the two sums *)
    destruct (operator_add_nonneg low1 high1 Wl1 Wh1 Sl1 Sh1 ltac:(fold l1 h1; nia))
      as (sum1 & Hs1 & Cs1 & Ss1 & Vs1). fold l1 h1 in Vs1.
    destruct (operator_add_nonneg low2 high2 Wl2 Wh2 Sl2 Sh2 ltac:(fold l2 h2; nia))
      as (sum2 & Hs2 & Cs2 & Ss2 & Vs2). fold l2 h2 in Vs2.
    rewrite Hs1, Mbind_lift_Ok, Hs2, Mbind_lift_Ok.
    destruct (canonical_elim _ Cs1) as (Ws1 & _ & _).
    destruct (canonical_elim _ Cs2) as (Ws2 & _ & _).
    assert (Hp1 : 16 ^ (m + 1) = 16 * P)
      by (rewrite Z.pow_add_r by lia; change (16 ^ 1) with 16; unfold P; ring).
    assert (Ls1 : length sum1 <= m + 1).
    { apply canonical_length_le; [exact Cs1 | lia|].
      rewrite <- (value_nonneg _ Ss1), Vs1, Hp1. lia. }
    assert (Ls2 : length sum2 <= m + 1).
    { apply canonical_length_le; [exact Cs2 | lia|].
      rewrite <- (value_nonneg _ Ss2), Vs2, Hp1. lia. }
    (* z1 *)
    destruct (IH sum1 sum2 st2 Ws1 Ws2
                ltac:(unfold half_size; lia) ltac:(unfold half_size; lia)
                ltac:(unfold KARATSUBA_THRESHOLD; lia) Hm2)
      as (z1 & st3 & Hz1 & Wz1 & Vz1 & _ & Cz1 & Hm3 & G3).
    destruct (Cz1 Ss1 Ss2) as [Cz1' Sz1]. clear Cz1.
    rewrite Vs1, Vs2 in Vz1.
    rewrite (Mbind_Ok _ _ _ _ _ Hz1).
    (* z1 - z2 - z0 *)
    destruct (operator_sub_spec z1 z2 Cz1' Cz2') as [Hsub1 _].
    destruct (Hsub1 ltac:(rewrite Vz1, Vz2; nia)) as (d1 & Hd1 & Cd1 & Vd1).
    rewrite Hd1, fmap_Ok, Mbind_lift_Ok.
    pose proof (operator_assign_canonical d1 Cd1) as Cd1'.
    destruct (canonical_elim d1 Cd1) as (Wd1 & _ & _).
    destruct (operator_assign_wf d1 Wd1) as (_ & _ & Vd1').
    destruct (operator_sub_spec (operator_assign d1) z0 Cd1' Cz0') as [Hsub2 _].
    destruct (Hsub2 ltac:(rewrite Vd1', Vd1, Vz1, Vz2, Vz0; nia)) as (d2 & Hd2 & Cd2 & Vd2).
    rewrite Hd2, fmap_Ok, Mbind_lift_Ok.
    pose proof (operator_assign_canonical d2 Cd2) as Cmid.
    destruct (canonical_elim d2 Cd2) as (Wd2 & _ & _).
    destruct (operator_assign_wf d2 Wd2) as (_ & _ & Vmid').
    assert (Vmid : value (operator_assign d2) = l1 * h2 + h1 * l2)
      by (rewrite Vmid', Vd2, Vd1', Vd1, Vz1, Vz2, Vz0; ring).
    clear Vmid'.
    set (mid := operator_assign d2) in *.
    assert (Smid : isNegative mid = false)
      by (apply (canonical_value_sign mid Cmid); rewrite Vmid; nia).
    destruct (canonical_elim mid Cmid) as (Wmid & _ & _).
    (* the shifts *)
    rewrite (value_nonneg z2 Sz2) in Vz2.
    assert (Lz2 : length z2 <= 2 * m).
    { apply canonical_length_le; [exact Cz2' | lia|]. rewrite Vz2, HP2. nia. }
    destruct (shiftLeft_spec z2 (2 * m) Wz2 ltac:(lia)) as [Hsh1 _].
    destruct (Hsh1 ltac:(right; right; unfold HEX_SIZE; lia))
      as (part1 & Hp1' & Wp1 & Mp1 & Sp1 & _).
    rewrite Hp1', Mbind_lift_Ok.
    rewrite (value_nonneg mid Smid) in Vmid.
    assert (Lmid : length mid <= 2 * m + 1).
    { apply canonical_length_le; [exact Cmid | lia|]. rewrite Vmid, HP3. nia. }
    destruct (shiftLeft_spec mid m Wmid ltac:(lia)) as [Hsh2 _].
    destruct (Hsh2 ltac:(right; right; unfold HEX_SIZE; lia))
      as (part2 & Hp2' & Wp2 & Mp2 & Sp2 & _).
    rewrite Hp2', Mbind_lift_Ok.
    rewrite Sz2 in Sp1. rewrite Smid in Sp2. rewrite Vz2, HP2 in Mp1. rewrite Vmid in Mp2.
    fold P in Mp2.
    (* the sum of the three parts *)
    assert (A1 : 0 <= l1 + P * h1 < P * P) by nia.
    assert (A2 : 0 <= l2 + P * h2 < P * P) by nia.
    assert (Hprod : (l1 + P * h1) * (l2 + P * h2) < P * P * (P * P))
      by (apply Z.mul_lt_mono_nonneg; lia).
    destruct (operator_add_nonneg part1 part2 Wp1 Wp2 Sp1 Sp2 ltac:(rewrite Mp1, Mp2; nia))
      as (tmp & Ht & Ct & St & Vt).
    rewrite Ht, Mbind_lift_Ok.
    destruct (canonical_elim tmp Ct) as (Wt & _ & _).
    rewrite (value_nonneg z0 Sz0) in Vz0.
    destruct (operator_add_nonneg tmp z0 Wt Wz0 St Sz0
                ltac:(rewrite <- (value_nonneg tmp St), Vt, Mp1, Mp2, Vz0; nia))
      as (r & Hr & Cr & Sr & Vr).
    rewrite Hr, Mbind_lift_Ok. cbv zeta.
    rewrite <- (value_nonneg tmp St), Vt, Mp1, Mp2, Vz0 in Vr.
    assert (Vr' : value r = magnitude a * magnitude b).
    { rewrite Vr, <- Mx, <- My, Mh1, Mh2. ring. }
    destruct (finish_product r (negb (eqb (isNegative a) (isNegative b))) Cr Sr)
      as (Wres & Vres & Sres & Cres). cbv zeta in Wres, Vres, Sres, Cres.
    rewrite store_and_return.
    assert (Vfin : signed (negb (eqb (isNegative a) (isNegative b))) (value r)
                   = value a * value b).
    { rewrite Vr', !value_signed. destruct (isNegative a), (isNegative b); simpl; ring. }
    eexists. eexists. split; [reflexivity|]. cbn [karatsubaMemo gen].
    split; [exact Wres|]. split; [rewrite Vres; exact Vfin|].
    split; [|split; [|split; [|congruence]]].
    + intros Ca Cb. apply Cres. intros _.
      apply orb_false_iff in Ez. destruct Ez as [Ez1 Ez2].
      pose proof (canonical_nonzero a Ca Ez1). pose proof (canonical_nonzero b Cb Ez2).
      rewrite <- (value_nonneg r Sr), Vr'. nia.
    + intros Sa Sb. split.
      * apply Cres. rewrite Sa, Sb. intros; discriminate.
      * rewrite Sres, Sa, Sb. reflexivity.
    + apply memo_ok_store; try assumption. rewrite Vres. exact Vfin.
Qed.

Lemma operator_mul_spec (a b : t) (st : state) :
  wf a = true -> wf b = true ->
  length a <= half_size -> length b <= half_size ->
  memo_ok (karatsubaMemo st) ->
  exists r st',
    operator_mul a b st = (Ok r, st')
    /\ wf r = true /\ value r = value a * value b
    /\ (canonical a = true -> canonical b = true -> canonical r = true)
    /\ (isNegative a = false -> isNegative b = false ->
        canonical r = true /\ isNegative r = false)
    /\ memo_ok (karatsubaMemo st') /\ gen st' = gen st.
Proof.
  intros Wa Wb La Lb Hm. unfold operator_mul.
  destruct (length a + length b >? KARATSUBA_THRESHOLD * 2) eqn:E.
  - apply karatsuba_spec; try assumption.
    destruct (wf_elim a Wa) as (L1 & _ & _). destruct (wf_elim b Wb) as (L2 & _ & _).
    unfold half_size, KARATSUBA_THRESHOLD, HEX_SIZE in *. lia.
  - destruct (multiplyNaive_spec a b Wa Wb) as [Hok _].
    destruct (Hok ltac:(right; unfold half_size, HEX_SIZE in *; lia))
      as (r & Hr & Wr & Mr & Tr & Sr & Sr').
    exists r, st. rewrite Hr. split; [reflexivity|]. split; [exact Wr|].
    assert (Vr : value r = value a * value b).
    { rewrite !value_signed, Mr.
      destruct (isZero a || isZero b) eqn:Ez.
      - assert (Z0 : magnitude a * magnitude b = 0)
          by (apply orb_true_iff in Ez; destruct Ez as [Ez|Ez];
              rewrite (isZero_magnitude _ Ez); lia).
        rewrite Z0. destruct (isNegative r), (isNegative a), (isNegative b); simpl; lia.
      - rewrite (Sr' eq_refl). destruct (isNegative a), (isNegative b); simpl; ring. }
    split; [exact Vr|]. split; [|split; [|split; [exact Hm | reflexivity]]].
    + intros Ca Cb. apply canonical_intro; [exact Wr | exact Tr |].
      intros En. destruct (isZero a || isZero b) eqn:Ez.
      * exfalso. unfold multiplyNaive in Hr. rewrite Ez in Hr.
        destruct zero_constant as (E0 & _ & _ & _ & S0 & _).
        rewrite E0 in Hr. injection Hr as <-. congruence.
      * apply orb_false_iff in Ez. destruct Ez as [Ez1 Ez2].
        pose proof (canonical_nonzero a Ca Ez1).
        pose proof (canonical_nonzero b Cb Ez2). rewrite Mr. nia.
    + intros Sa Sb.
      assert (Sn : isNegative r = false)
        by (destruct (isNegative r) eqn:En; [|reflexivity];
            exfalso; apply (Sr eq_refl); congruence).
      split; [|exact Sn]. apply canonical_nonneg_intro; assumption.
Qed.

(** X15 ([operator*], [karatsuba]): on operands of at most 64 digits and a
    memo table in which every stored text is the product of the two texts of
    its key, the product is returned and it denotes the product of the two
    values; it is canonical when the operands are, the table keeps its
    property and no random digit is drawn. *)
Theorem operator_mul_computes_the_product (a b : t) (st : state) :
  wf a = true -> wf b = true ->
  length a <= half_size -> length b <= half_size ->
  memo_ok (karatsubaMemo st) ->
  exists r st',
    operator_mul a b st = (Ok r, st')
    /\ wf r = true /\ value r = value a * value b
    /\ (canonical a = true -> canonical b = true -> canonical r = true)
    /\ memo_ok (karatsubaMemo st') /\ gen st' = gen st.
Proof.
  intros Wa Wb La Lb Hm.
  destruct (operator_mul_spec a b st Wa Wb La Lb Hm)
    as (r & st' & H1 & H2 & H3 & H4 & _ & H5 & H6).
  exists r, st'. repeat split; assumption.
Qed.

Lemma operator_mul_computes_the_product_witness :
  exists r st',
    operator_mul (hex "-123456789abcdef01") (hex "fedcba9876543210f") (mkState ∅ 0)
    = (Ok r, st')
    /\ wf r = true
    /\ value r = value (hex "-123456789abcdef01") * value (hex "fedcba9876543210f")
    /\ (canonical (hex "-123456789abcdef01") = true ->
        canonical (hex "fedcba9876543210f") = true -> canonical r = true)
    /\ memo_ok (karatsubaMemo st') /\ gen st' = gen (mkState ∅ 0).
Proof.
  apply (operator_mul_computes_the_product
           (hex "-123456789abcdef01") (hex "fedcba9876543210f") (mkState ∅ 0)).
  - vm_compute. reflexivity.
  - vm_compute. reflexivity.
  - vm_compute. discriminate.
  - vm_compute. discriminate.
  - exact memo_ok_empty.
Defined.

End V1Facts.
